(** * browser-fs-core: a shallow embedding of the virtual filesystem kernel

    The development follows the layout of the sources: JavaScript primitives
    ([JS]), error codes ([ApiError]), credentials ([Cred]), file metadata
    ([Stats], [Inode]), open files ([File]), the key-value engines
    ([SyncStore], [AsyncStore]), the per-path mutex and its wrapper
    ([Mutex], [Locked]), the overlay ([OverlayFS]) and the mount table with
    the promise API ([Shared], [Promises]).  Numbers are modelled as [Z]
    (JavaScript numbers holding integers in the safe range); a thrown
    exception is the [Err] case of [result]. *)

From Stdlib Require Import ZArith Bool List Ascii String Lia.
From stdpp Require Import base option list strings gmap.

Local Open Scope Z_scope.

Abbreviation byte := Byte.byte.

(** ** JavaScript primitives used by the sources *)
Module JS.

(** Exceptions that the modelled code can raise: an [ApiError] with its
    code, a [RangeError] of a typed array or a [DataView], and a plain
    [Error] with its message.  [OutOfFuel] is not an exception: it marks a
    recursion that did not finish within the fuel given to its model. *)
Inductive ErrorCode :=
| EPERM | ENOENT | EIO | EBADF | EACCES | EBUSY | EEXIST | ENOTDIR | EISDIR
| EINVAL | EFBIG | ENOSPC | EROFS | ENOTEMPTY | ENOTSUP.

Inductive exn :=
| ApiError (code : ErrorCode)
| RangeError
| Error (msg : string)
| OutOfFuel.

Inductive result (A : Type) :=
| Ok (a : A)
| Err (e : exn).
Arguments Ok {A} a.
Arguments Err {A} e.

Definition bind {A B} (r : result A) (k : A -> result B) : result B :=
  match r with
  | Ok a => k a
  | Err e => Err e
  end.

Notation "'let*' x ':=' c1 'in' c2" := (bind c1 (fun x => c2))
  (at level 10, x name, c1 at level 100, c2 at level 200).
Notation "'let*' ' p ':=' c1 'in' c2" :=
  (bind c1 (fun x => match x with p => c2 end))
  (at level 10, p pattern, c1 at level 100, c2 at level 200).

Definition is_ok {A} (r : result A) : bool :=
  match r with Ok _ => true | Err _ => false end.

(** [ToInt32]: the conversion applied to both operands of [&], [|], [^],
    [~] and [>>]. *)
Definition toInt32 (z : Z) : Z := (z + 2 ^ 31) mod 2 ^ 32 - 2 ^ 31.

Definition band (a b : Z) : Z := Z.land (toInt32 a) (toInt32 b).
Definition bor (a b : Z) : Z := Z.lor (toInt32 a) (toInt32 b).
Definition bxor (a b : Z) : Z := Z.lxor (toInt32 a) (toInt32 b).
Definition bnot (a : Z) : Z := Z.lnot (toInt32 a).
Definition shr (a n : Z) : Z := Z.shiftr (toInt32 a) (n mod 32).

(** Truthiness of a number: every number but zero. *)
Definition truthy (z : Z) : bool := negb (z =? 0).

(** [s.startsWith(p)]. *)
Definition startsWith (s p : string) : bool := String.prefix p s.

(** [s.slice(n)] for [0 <= n]. *)
Definition slice_from (n : nat) (s : string) : string :=
  String.substring n (String.length s - n) s.

(** [s.includes(c)] for a one-character needle. *)
Fixpoint includes (c : ascii) (s : string) : bool :=
  match s with
  | EmptyString => false
  | String a s' => if Ascii.eqb a c then true else includes c s'
  end.

(** *** Typed arrays and [DataView] *)

Definition byte_of_Z (z : Z) : byte :=
  match Byte.of_N (Z.to_N (z mod 256)) with
  | Some b => b
  | None => Byte.x00
  end.

(** The [n] low-order bytes of [z], least significant first. *)
Fixpoint le_bytes (n : nat) (z : Z) : list byte :=
  match n with
  | O => []
  | S n' => byte_of_Z z :: le_bytes n' (z / 256)
  end.

(** [new Uint8Array(n)]: [n] zero bytes; a negative length is a
    [RangeError]. *)
Definition new_Uint8Array (n : Z) : result (list byte) :=
  if n <? 0 then Err RangeError else Ok (repeat Byte.x00 (Z.to_nat n)).

(** [a.slice(start, end)] with the clamping of relative indices. *)
Definition rel_index (len i : Z) : Z :=
  if i <? 0 then Z.max (len + i) 0 else Z.min i len.

Definition slice (a : list byte) (start end_ : Z) : list byte :=
  let len := Z.of_nat (length a) in
  let k := rel_index len start in
  let final := rel_index len end_ in
  firstn (Z.to_nat (Z.max (final - k) 0)) (skipn (Z.to_nat k) a).

(** [target.set(src, offset)]: a [RangeError] when the source does not fit. *)
Definition set_bytes (target src : list byte) (offset : Z) : result (list byte) :=
  if (offset <? 0) || (Z.of_nat (length target) <? offset + Z.of_nat (length src))
  then Err RangeError
  else Ok (firstn (Z.to_nat offset) target ++ src
           ++ skipn (Z.to_nat offset + length src) target).

(** [DataView.prototype.setUint32(byteOffset, value, true)] and its
    relatives: the view covers the whole buffer, and a write that does not
    fit inside it is a [RangeError]. *)
Definition view_set (view : list byte) (byteOffset : Z) (bs : list byte)
  : result (list byte) :=
  set_bytes view bs byteOffset.

Definition setUint32 (view : list byte) (byteOffset v : Z) : result (list byte) :=
  view_set view byteOffset (le_bytes 4 (v mod 2 ^ 32)).

Definition setUint16 (view : list byte) (byteOffset v : Z) : result (list byte) :=
  view_set view byteOffset (le_bytes 2 (v mod 2 ^ 16)).

(** Reading back: the bytes of a field, least significant first, as a
    number. *)
Fixpoint of_le_bytes (bs : list byte) : Z :=
  match bs with
  | [] => 0
  | b :: bs' => Z.of_N (Byte.to_N b) + 256 * of_le_bytes bs'
  end.

Definition view_get (view : list byte) (byteOffset : Z) (n : nat)
  : result (list byte) :=
  if (byteOffset <? 0) || (Z.of_nat (length view) <? byteOffset + Z.of_nat n)
  then Err RangeError
  else Ok (firstn n (skipn (Z.to_nat byteOffset) view)).

Definition getUint32 (view : list byte) (byteOffset : Z) : result Z :=
  let* bs := view_get view byteOffset 4 in Ok (of_le_bytes bs).

Definition getUint16 (view : list byte) (byteOffset : Z) : result Z :=
  let* bs := view_get view byteOffset 2 in Ok (of_le_bytes bs).

(** Time values are integers of milliseconds within the range of [Date]
    (at most 8.64e15 in magnitude, below [2^53]); such a number has an
    exact IEEE 754 binary64 representation, whose bit pattern is computed
    here.  Other doubles are outside the model. *)
Definition float64_bits (z : Z) : Z :=
  if z =? 0 then 0
  else
    let a := Z.abs z in
    let e := Z.log2 a in
    let frac := (a * 2 ^ (52 - e)) mod 2 ^ 52 in
    (if z <? 0 then 2 ^ 63 else 0) + (e + 1023) * 2 ^ 52 + frac.

(** The integer held by a bit pattern, for the patterns of integers. *)
Definition float64_value (bits : Z) : Z :=
  let sign := bits / 2 ^ 63 in
  let ex := (bits / 2 ^ 52) mod 2 ^ 11 in
  let frac := bits mod 2 ^ 52 in
  if (ex =? 0) && (frac =? 0) then 0
  else
    let m := 2 ^ 52 + frac in
    let a := if 1075 <=? ex then m * 2 ^ (ex - 1075) else m / 2 ^ (1075 - ex) in
    if sign =? 0 then a else - a.

Definition setFloat64 (view : list byte) (byteOffset : Z) (v : Z)
  : result (list byte) :=
  view_set view byteOffset (le_bytes 8 (float64_bits v)).

Definition getFloat64 (view : list byte) (byteOffset : Z) : result Z :=
  let* bs := view_get view byteOffset 8 in Ok (float64_value (of_le_bytes bs)).

(** The time values of [Date]: 8.64e15 milliseconds on either side of
    the epoch. *)
Definition in_Date_range (ms : Z) : Prop := Z.abs ms <= 8640000000000000.

(** [new Date(ms).getTime()] on a time value in the range of [Date];
    beyond it the code gets [NaN], which is no number here. *)
Definition Date_getTime (ms : Z) : Z := ms.

(** Strings are modelled by their UTF-8 bytes, so that [encode] and
    [decode] of [utils.js] with the default encoding change the type
    only. *)
Definition encode (s : string) : list byte := list_byte_of_string s.
Definition decode (bs : list byte) : string := string_of_list_byte bs.

(** The strings of one byte for each character, those of ASCII: for them
    [s.length], which counts UTF-16 units, is the number of bytes of
    [encode(s)]. *)
Definition one_byte_per_char (s : string) : bool :=
  forallb (fun c => (nat_of_ascii c <? 128)%nat) (list_ascii_of_string s).

(** [(a + '/').indexOf(b + '/') === 0]. *)
Definition indexOf_is_0 (hay needle : string) : bool := String.prefix needle hay.

End JS.
Export JS.


(** ** cred.js *)
Module Cred.

Record Cred := mkCred {
  uid : Z; gid : Z; suid : Z; sgid : Z; euid : Z; egid : Z
}.

Definition Root : Cred := mkCred 0 0 0 0 0 0.

End Cred.

(** ** stats.js *)
Module Stats.

(** Modelled from the spec: [emulation/constants.js] is not among the
    sources; the file-type constants are the POSIX values, the upper four
    bits of a sixteen-bit mode. *)
Definition S_IFMT : Z := 0xF000.
Definition S_IFREG : Z := 0x8000.
Definition S_IFDIR : Z := 0x4000.
Definition S_IFLNK : Z := 0xA000.

Inductive FileType := FILE | DIRECTORY | SYMLINK.

Definition FileType_value (t : FileType) : Z :=
  match t with
  | FILE => S_IFREG
  | DIRECTORY => S_IFDIR
  | SYMLINK => S_IFLNK
  end.

(** The number-valued fields of [Stats]; the constant fields ([dev], [ino],
    [rdev], [nlink], [blksize]) and the derived [blocks] are left out. *)
Record Stats := mkStats {
  size : Z;
  mode : Z;
  atimeMs : Z;
  mtimeMs : Z;
  ctimeMs : Z;
  birthtimeMs : Z;
  uid : Z;
  gid : Z
}.

(** [resolveT(v, def)] of the constructor for the [number] variant: a
    number is kept, an absent argument becomes the default. *)
Definition resolveT (v : option Z) (def : Z) : Z :=
  match v with Some z => z | None => def end.

(** The [switch (itemType)] of the constructor: [0o644] for a file, [0o777]
    for a directory and by default. *)
Definition default_mode (itemType : Z) : Z :=
  if itemType =? S_IFREG then 420 else 511.

(** [new Stats(itemType, size, mode, atimeMs, mtimeMs, ctimeMs, uid, gid,
    birthtimeMs)]; [now] is the value of [Date.now()]. *)
Definition new_Stats (now : Z) (itemType : Z) (sz : Z) (md : option Z)
    (at_ mt ct ui gi bt : option Z) : Stats :=
  let m0 :=
    match md with
    | Some m => if truthy m then m else default_mode itemType
    | None => default_mode itemType
    end in
  let m1 := if JS.band m0 S_IFMT =? 0 then JS.bor m0 itemType else m0 in
  {| size := sz; mode := m1;
     atimeMs := resolveT at_ now; mtimeMs := resolveT mt now;
     ctimeMs := resolveT ct now; birthtimeMs := resolveT bt now;
     uid := resolveT ui 0; gid := resolveT gi 0 |}.

Definition isFile (s : Stats) : bool := JS.band (mode s) S_IFMT =? S_IFREG.
Definition isDirectory (s : Stats) : bool := JS.band (mode s) S_IFMT =? S_IFDIR.

(** [hasAccess(mode, cred)]. *)
Definition hasAccess (s : Stats) (md : Z) (cred : Cred.Cred) : bool :=
  if (Cred.euid cred =? 0) || (Cred.egid cred =? 0) then true
  else
    let perms := JS.band (mode s) (JS.bnot S_IFMT) in
    let uMode :=
      if Cred.euid cred =? uid s
      then JS.band (JS.bxor md (JS.shr (JS.band 0xf00 perms) 8)) md
      else 0xf in
    let gMode :=
      if Cred.egid cred =? gid s
      then JS.band (JS.bxor md (JS.shr (JS.band 0xf0 perms) 4)) md
      else 0xf in
    let wPerms := JS.band 0xf perms in
    let wMode := JS.band (JS.bxor md wPerms) md in
    let result := JS.band (JS.band uMode gMode) wMode in
    negb (truthy result).

(** [chmod(mode)]: the type bits are kept. *)
Definition chmod (s : Stats) (md : Z) : Stats :=
  {| size := size s; mode := JS.bor (JS.band (mode s) S_IFMT) md;
     atimeMs := atimeMs s; mtimeMs := mtimeMs s; ctimeMs := ctimeMs s;
     birthtimeMs := birthtimeMs s; uid := uid s; gid := gid s |}.

(** [serialize()]: a buffer of 32 bytes, and seven writes through a
    [DataView] over it. *)
Definition serialize (s : Stats) : result (list byte) :=
  let* data := new_Uint8Array 32 in
  let* v := setUint32 data 0 (size s) in
  let* v := setUint32 v 4 (mode s) in
  let* v := setFloat64 v 8 (Date_getTime (atimeMs s)) in
  let* v := setFloat64 v 16 (Date_getTime (mtimeMs s)) in
  let* v := setFloat64 v 24 (Date_getTime (ctimeMs s)) in
  let* v := setUint32 v 32 (uid s) in
  let* v := setUint32 v 36 (gid s) in
  Ok v.

(** [Stats.clone(s)]. *)
Definition clone (now : Z) (s : Stats) : Stats :=
  new_Stats now (JS.band (mode s) S_IFMT) (size s)
    (Some (JS.band (mode s) (JS.bnot S_IFMT)))
    (Some (atimeMs s)) (Some (mtimeMs s)) (Some (ctimeMs s))
    (Some (uid s)) (Some (gid s)) (Some (birthtimeMs s)).

End Stats.

(** ** file.js *)
Module File.

Inductive ActionType := NOP | THROW_EXCEPTION | TRUNCATE_FILE | CREATE_FILE.

(** A [FileFlag] is its flag string. *)
Definition FileFlag := string.

Definition validFlagStrs : list string :=
  ["r"; "r+"; "rs"; "rs+"; "w"; "wx"; "w+"; "wx+"; "a"; "ax"; "a+"; "ax+"]%string.

(** [FileFlag.getFileFlag(flag)] for a string. *)
Definition getFileFlag (flag : string) : result FileFlag :=
  if existsb (String.eqb flag) validFlagStrs then Ok flag
  else Err (ApiError EINVAL).

Definition isReadable (f : FileFlag) : bool :=
  JS.includes "r" f || JS.includes "+" f.
Definition isWriteable (f : FileFlag) : bool :=
  JS.includes "w" f || JS.includes "a" f || JS.includes "+" f.
Definition isTruncating (f : FileFlag) : bool := JS.includes "w" f.
Definition isAppendable (f : FileFlag) : bool := JS.includes "a" f.
Definition isSynchronous (f : FileFlag) : bool := JS.includes "s" f.
Definition isExclusive (f : FileFlag) : bool := JS.includes "x" f.

(** [getMode()]: [0b0rw0]. *)
Definition getMode (f : FileFlag) : Z :=
  let mode := 0 in
  let mode := mode * 2 in
  let mode := mode + Z.b2z (isReadable f) in
  let mode := mode * 2 in
  let mode := mode + Z.b2z (isWriteable f) in
  mode * 2.

Definition pathExistsAction (f : FileFlag) : ActionType :=
  if isExclusive f then THROW_EXCEPTION
  else if isTruncating f then TRUNCATE_FILE
  else NOP.

Definition pathNotExistsAction (f : FileFlag) : ActionType :=
  if (isWriteable f || isAppendable f) && negb (String.eqb f "r+")
  then CREATE_FILE else THROW_EXCEPTION.

(** The state of a [PreloadFile]. *)
Record PreloadFile := mkPreloadFile {
  _path : string;
  _flag : FileFlag;
  _stat : Stats.Stats;
  _buffer : list byte;
  _pos : Z;
  _dirty : bool
}.

Definition with_stat (f : PreloadFile) (st : Stats.Stats) : PreloadFile :=
  mkPreloadFile (_path f) (_flag f) st (_buffer f) (_pos f) (_dirty f).
Definition with_buffer (f : PreloadFile) (b : list byte) : PreloadFile :=
  mkPreloadFile (_path f) (_flag f) (_stat f) b (_pos f) (_dirty f).
Definition with_pos (f : PreloadFile) (p : Z) : PreloadFile :=
  mkPreloadFile (_path f) (_flag f) (_stat f) (_buffer f) p (_dirty f).
Definition with_dirty (f : PreloadFile) (d : bool) : PreloadFile :=
  mkPreloadFile (_path f) (_flag f) (_stat f) (_buffer f) (_pos f) d.

Definition with_size (st : Stats.Stats) (sz : Z) : Stats.Stats :=
  Stats.mkStats sz (Stats.mode st) (Stats.atimeMs st) (Stats.mtimeMs st)
    (Stats.ctimeMs st) (Stats.birthtimeMs st) (Stats.uid st) (Stats.gid st).
Definition with_mtimeMs (st : Stats.Stats) (t : Z) : Stats.Stats :=
  Stats.mkStats (Stats.size st) (Stats.mode st) (Stats.atimeMs st) t
    (Stats.ctimeMs st) (Stats.birthtimeMs st) (Stats.uid st) (Stats.gid st).
Definition with_atimeMs (st : Stats.Stats) (t : Z) : Stats.Stats :=
  Stats.mkStats (Stats.size st) (Stats.mode st) t (Stats.mtimeMs st)
    (Stats.ctimeMs st) (Stats.birthtimeMs st) (Stats.uid st) (Stats.gid st).

(** The constructor: a readable file whose buffer and size disagree is
    refused. *)
Definition new_PreloadFile (path : string) (flag : FileFlag)
    (stat : Stats.Stats) (contents : list byte) : result PreloadFile :=
  if negb (Stats.size stat =? Z.of_nat (length contents)) && isReadable flag
  then Err (Error "Invalid buffer")
  else Ok (mkPreloadFile path flag stat contents 0 false).

Definition getPos (f : PreloadFile) : Z :=
  if isAppendable (_flag f) then Stats.size (_stat f) else _pos f.

(** Methods mutate the file even when they throw, so each returns its
    outcome together with the file as it is left.  [W] is whatever a
    subclass's [syncSync] works on. *)
Section PreloadFile_methods.
Context {W : Type}.
Variable syncSync : PreloadFile -> W -> result unit * PreloadFile * W.

(** [writeSync(buffer, offset, length, position)]; [now] is [Date.now()]. *)
Definition writeSync (f : PreloadFile) (w : W) (now : Z) (buffer : list byte)
    (offset length_ : Z) (position : option Z)
  : result Z * PreloadFile * W :=
  let f := with_dirty f true in
  let position := match position with Some p => p | None => getPos f end in
  if negb (isWriteable (_flag f)) then (Err (ApiError EPERM), f, w)
  else
    let endFp := position + length_ in
    let grown : result PreloadFile :=
      if Stats.size (_stat f) <? endFp then
        let f := with_stat f (with_size (_stat f) endFp) in
        if Z.of_nat (length (_buffer f)) <? endFp then
          let* newBuffer := new_Uint8Array endFp in
          let* newBuffer := JS.set_bytes newBuffer (_buffer f) 0 in
          Ok (with_buffer f newBuffer)
        else Ok f
      else Ok f in
    match grown with
    | Err e => (Err e, with_stat f (with_size (_stat f) endFp), w)
    | Ok f =>
      match JS.set_bytes (_buffer f) (JS.slice buffer offset (offset + length_)) position with
      | Err e => (Err e, f, w)
      | Ok b =>
        let f := with_buffer f b in
        let len := Z.of_nat (length (_buffer f)) in
        let f := with_stat f (with_mtimeMs (_stat f) now) in
        if isSynchronous (_flag f) then
          match syncSync f w with
          | (Err e, f, w) => (Err e, f, w)
          | (Ok _, f, w) => (Ok len, f, w)
          end
        else
          let f := with_pos f (position + len) in
          (Ok length_, f, w)
      end
    end.

(** [readSync(buffer, offset, length, position)]: the outcome carries the
    number of bytes read and the target buffer as it is left. *)
Definition readSync (f : PreloadFile) (now : Z) (buffer : list byte)
    (offset length_ : Z) (position : option Z)
  : result (Z * list byte) * PreloadFile :=
  if negb (isReadable (_flag f)) then (Err (ApiError EPERM), f)
  else
    let position := match position with Some p => p | None => getPos f end in
    let endRead := position + length_ in
    let length_ :=
      if Stats.size (_stat f) <? endRead then Stats.size (_stat f) - position
      else length_ in
    match JS.set_bytes buffer (JS.slice (_buffer f) offset (offset + length_)) position with
    | Err e => (Err e, f)
    | Ok buffer' =>
      let f := with_stat f (with_atimeMs (_stat f) now) in
      let f := with_pos f (position + length_) in
      (Ok (length_, buffer'), f)
    end.

End PreloadFile_methods.

(** [truncateSync(len)]; [synchronous] is [this._fs.metadata.synchronous],
    and [subarray] clamps its indices as [slice] does. *)
Section PreloadFile_truncate.
Context {W : Type}.
Variable syncSync : PreloadFile -> W -> result unit * PreloadFile * W.
Variable synchronous : bool.

Definition truncateSync (f : PreloadFile) (w : W) (now : Z) (len : Z)
  : result unit * PreloadFile * W :=
  let f := with_dirty f true in
  if negb (isWriteable (_flag f)) then (Err (ApiError EPERM), f, w)
  else
    let f := with_stat f (with_mtimeMs (_stat f) now) in
    if Z.of_nat (length (_buffer f)) <? len then
      match new_Uint8Array (len - Z.of_nat (length (_buffer f))) with
      | Err e => (Err e, f, w)
      | Ok buf =>
        match writeSync syncSync f w now buf 0 (Z.of_nat (length buf))
                (Some (Z.of_nat (length (_buffer f)))) with
        | (Err e, f, w) => (Err e, f, w)
        | (Ok _, f, w) =>
          if isSynchronous (_flag f) && synchronous then syncSync f w
          else (Ok tt, f, w)
        end
      end
    else
      let f := with_stat f (with_size (_stat f) len) in
      let f := with_buffer f (JS.slice (_buffer f) 0 len) in
      if isSynchronous (_flag f) && synchronous then syncSync f w
      else (Ok tt, f, w).

End PreloadFile_truncate.

(** [NoSyncFile.syncSync]: nothing to do. *)
Definition NoSyncFile_syncSync (f : PreloadFile) (w : unit)
  : result unit * PreloadFile * unit := (Ok tt, f, w).

End File.

(** ** inode.js *)
Module Inode.

Record Inode := mkInode {
  id : string;
  size : Z;
  mode : Z;
  atime : Z;
  mtime : Z;
  ctime : Z;
  uid : Z;
  gid : Z
}.

(** [Inode.Deserialize(data)]. *)
Definition Deserialize (data : list byte) : result Inode :=
  let view := data in
  let id := decode (JS.slice view 38 (Z.of_nat (length view))) in
  let* size := getUint32 view 0 in
  let* mode := getUint16 view 4 in
  let* atime := getFloat64 view 6 in
  let* mtime := getFloat64 view 14 in
  let* ctime := getFloat64 view 22 in
  let* uid := getUint32 view 30 in
  let* gid := getUint32 view 34 in
  Ok (mkInode id size mode atime mtime ctime uid gid).

(** [toStats()]; [now] is the [Date.now()] of the [Stats] constructor. *)
Definition toStats (now : Z) (i : Inode) : Stats.Stats :=
  Stats.new_Stats now
    (if JS.band (mode i) 0xf000 =? Stats.S_IFDIR then Stats.S_IFDIR else Stats.S_IFREG)
    (size i) (Some (mode i)) (Some (atime i)) (Some (mtime i)) (Some (ctime i))
    (Some (uid i)) (Some (gid i)) None.

(** [getSize()]: [38 + this.id.length], with one byte for each character
    of the id (the code's comment: ASSUMPTION: ID is 1 byte per char);
    this is the [length] of the id when [one_byte_per_char] holds of
    it. *)
Definition getSize (i : Inode) : Z := 38 + Z.of_nat (String.length (id i)).

(** [serialize()] into a fresh buffer of [getSize()] bytes. *)
Definition serialize (i : Inode) : result (list byte) :=
  let* data := new_Uint8Array (getSize i) in
  let* v := setUint32 data 0 (size i) in
  let* v := setUint16 v 4 (mode i) in
  let* v := setFloat64 v 6 (atime i) in
  let* v := setFloat64 v 14 (mtime i) in
  let* v := setFloat64 v 22 (ctime i) in
  let* v := setUint32 v 30 (uid i) in
  let* v := setUint32 v 34 (gid i) in
  JS.set_bytes v (encode (id i)) 38.

(** [update(stats)]: the changed inode and whether anything changed.  The
    last two tests both compare [uid], as in the source. *)
Definition update (i : Inode) (stats : Stats.Stats) : bool * Inode :=
  let hasChanged := false in
  let '(hasChanged, i) :=
    if negb (size i =? Stats.size stats)
    then (true, mkInode (id i) (Stats.size stats) (mode i) (atime i) (mtime i) (ctime i)
                  (uid i) (gid i))
    else (hasChanged, i) in
  let '(hasChanged, i) :=
    if negb (mode i =? Stats.mode stats)
    then (true, mkInode (id i) (size i) (Stats.mode stats) (atime i) (mtime i) (ctime i)
                  (uid i) (gid i))
    else (hasChanged, i) in
  let atimeMs := Date_getTime (Stats.atimeMs stats) in
  let '(hasChanged, i) :=
    if negb (atime i =? atimeMs)
    then (true, mkInode (id i) (size i) (mode i) atimeMs (mtime i) (ctime i) (uid i) (gid i))
    else (hasChanged, i) in
  let mtimeMs := Date_getTime (Stats.mtimeMs stats) in
  let '(hasChanged, i) :=
    if negb (mtime i =? mtimeMs)
    then (true, mkInode (id i) (size i) (mode i) (atime i) mtimeMs (ctime i) (uid i) (gid i))
    else (hasChanged, i) in
  let ctimeMs := Date_getTime (Stats.ctimeMs stats) in
  let '(hasChanged, i) :=
    if negb (ctime i =? ctimeMs)
    then (true, mkInode (id i) (size i) (mode i) (atime i) (mtime i) ctimeMs (uid i) (gid i))
    else (hasChanged, i) in
  let '(hasChanged, i) :=
    if negb (uid i =? Stats.uid stats)
    then (true, mkInode (id i) (size i) (mode i) (atime i) (mtime i) (ctime i)
                  (Stats.uid stats) (gid i))
    else (hasChanged, i) in
  let '(hasChanged, i) :=
    if negb (uid i =? Stats.uid stats)
    then (true, mkInode (id i) (size i) (mode i) (atime i) (mtime i) (ctime i)
                  (Stats.uid stats) (gid i))
    else (hasChanged, i) in
  (hasChanged, i).

(** An inode whose fields fit their slots: the size and the owners are
    unsigned 32-bit numbers, the mode an unsigned 16-bit number, the times
    integers that a double holds exactly. *)
Definition fits (i : Inode) : Prop :=
  0 <= size i < 2 ^ 32 /\ 0 <= mode i < 2 ^ 16
  /\ Z.abs (atime i) < 2 ^ 53 /\ Z.abs (mtime i) < 2 ^ 53
  /\ Z.abs (ctime i) < 2 ^ 53
  /\ 0 <= uid i < 2 ^ 32 /\ 0 <= gid i < 2 ^ 32.

Definition isFile (i : Inode) : bool := JS.band (mode i) 0xf000 =? Stats.S_IFREG.
Definition isDirectory (i : Inode) : bool := JS.band (mode i) 0xf000 =? Stats.S_IFDIR.

End Inode.

(** ** mutex.js *)
Module Mutex.

(** A promise is known by its number, and so is its [resolve] function.
    The event loop keeps the promises settled so far and the callbacks
    handed to [setTimeout(_, 0)], oldest first. *)
Record EventLoop := mkEventLoop {
  promises : nat;
  resolved : list nat;
  timers : list nat
}.

(** [_locks]: a [Map] from path to the queue of waiting resolvers. *)
Record Mutex := mkMutex { _locks : gmap string (list nat) }.

Definition new_Mutex : Mutex := mkMutex ∅.

(** [lock(path)]: the executor of the new promise runs at once; it queues
    [resolve] when the path has an entry and creates the entry otherwise. *)
Definition lock (path : string) (m : Mutex) (ev : EventLoop)
  : nat * Mutex * EventLoop :=
  let pr := promises ev in
  let ev := mkEventLoop (S pr) (resolved ev) (timers ev) in
  match _locks m !! path with
  | Some q => (pr, mkMutex (<[path := q ++ [pr]]> (_locks m)), ev)
  | None => (pr, mkMutex (<[path := []]> (_locks m)), ev)
  end.

(** [unlock(path)]. *)
Definition unlock (path : string) (m : Mutex) (ev : EventLoop)
  : result unit * Mutex * EventLoop :=
  match _locks m !! path with
  | None => (Err (Error "unlock of a non-locked mutex"), m, ev)
  | Some (next :: q) =>
    (Ok tt, mkMutex (<[path := q]> (_locks m)),
     mkEventLoop (promises ev) (resolved ev) (timers ev ++ [next]))
  | Some [] => (Ok tt, mkMutex (delete path (_locks m)), ev)
  end.

Definition tryLock (path : string) (m : Mutex) : bool * Mutex :=
  match _locks m !! path with
  | Some _ => (false, m)
  | None => (true, mkMutex (<[path := []]> (_locks m)))
  end.

Definition isLocked (path : string) (m : Mutex) : bool :=
  bool_decide (is_Some (_locks m !! path)).

(** The event loop runs the oldest timer: the resolver is called and its
    promise is settled. *)
Definition run_timer (ev : EventLoop) : EventLoop :=
  match timers ev with
  | [] => ev
  | next :: rest => mkEventLoop (promises ev) (next :: resolved ev) rest
  end.

Definition is_resolved (pr : nat) (ev : EventLoop) : bool :=
  bool_decide (pr ∈ resolved ev).

(** What can happen to a mutex and its event loop: any of the four methods
    is called, or a timer fires. *)
Inductive step : Mutex * EventLoop -> Mutex * EventLoop -> Prop :=
| step_lock path m ev :
    step (m, ev) (snd (fst (lock path m ev)), snd (lock path m ev))
| step_unlock path m ev :
    step (m, ev) (snd (fst (unlock path m ev)), snd (unlock path m ev))
| step_tryLock path m ev :
    step (m, ev) (snd (tryLock path m), ev)
| step_timer m ev :
    step (m, ev) (m, run_timer ev).

Inductive steps : Mutex * EventLoop -> Mutex * EventLoop -> Prop :=
| steps_refl s : steps s s
| steps_step s1 s2 s3 : step s1 s2 -> steps s2 s3 -> steps s1 s3.

(** Every resolver that is queued or scheduled belongs to a promise that
    has been created. *)
Definition wf (m : Mutex) (ev : EventLoop) : Prop :=
  (forall path q pr, _locks m !! path = Some q -> pr ∈ q -> (pr < promises ev)%nat)
  /\ (forall pr, pr ∈ timers ev -> (pr < promises ev)%nat)
  /\ (forall pr, pr ∈ resolved ev -> (pr < promises ev)%nat).

(** The promise [pr] is pending and nothing holds its resolver. *)
Definition forgotten (pr : nat) (s : Mutex * EventLoop) : Prop :=
  (pr < promises (snd s))%nat
  /\ (pr ∉ resolved (snd s))
  /\ (pr ∉ timers (snd s))
  /\ (forall path q, _locks (fst s) !! path = Some q -> pr ∉ q).

(** [n] calls of [lock(path)] one after the other, with the promises they
    return, the first call first; [n] calls of [unlock(path)], with their
    outcomes; and [n] timers that fire. *)
Fixpoint lock_many (n : nat) (path : string) (m : Mutex) (ev : EventLoop)
  : list nat * Mutex * EventLoop :=
  match n with
  | O => ([], m, ev)
  | S n' =>
    let '(pr, m, ev) := lock path m ev in
    let '(prs, m, ev) := lock_many n' path m ev in
    (pr :: prs, m, ev)
  end.

Fixpoint unlock_many (n : nat) (path : string) (m : Mutex) (ev : EventLoop)
  : list (result unit) * Mutex * EventLoop :=
  match n with
  | O => ([], m, ev)
  | S n' =>
    let '(r, m, ev) := unlock path m ev in
    let '(rs, m, ev) := unlock_many n' path m ev in
    (r :: rs, m, ev)
  end.

Fixpoint run_timers (n : nat) (ev : EventLoop) : EventLoop :=
  match n with
  | O => ev
  | S n' => run_timers n' (run_timer ev)
  end.

End Mutex.

(** ** backends/Locked.js *)
Module Locked.

(** The async methods of [LockedFS] with their arguments. *)
Inductive op :=
| rename (oldPath newPath : string)
| stat (p : string)
| access (p : string) (mode : Z)
| open (p : string) (flag : File.FileFlag) (mode : Z)
| unlink (p : string)
| rmdir (p : string)
| mkdir (p : string) (mode : Z)
| readdir (p : string)
| exists_ (p : string)
| realpath (p : string)
| truncate (p : string) (len : Z)
| readFile (fname : string) (flag : File.FileFlag)
| writeFile (fname : string) (data : list byte) (flag : File.FileFlag) (mode : Z)
| appendFile (fname : string) (data : list byte) (flag : File.FileFlag) (mode : Z)
| chmod (p : string) (mode : Z)
| chown (p : string) (new_uid new_gid : Z)
| utimes (p : string) (atime mtime : Z)
| link (srcpath dstpath : string)
| symlink (srcpath dstpath type : string)
| readlink (p : string).


Section LockedFS.
(** The wrapped file system: its state, the values its methods return, and
    what the async and the sync form of each method do with [cred]. *)
Context {F V : Type}.
Variable fs_async : op -> Cred.Cred -> F -> result V * F.
Variable fs_sync : op -> Cred.Cred -> F -> result V * F.













End LockedFS.

End Locked.

(** ** emulation/path.js *)
Module Path.

(** Modelled from the spec: [emulation/path.js] is not among the sources
    (the spec takes [dirname], [basename], [join], [resolve] and [sep] as
    an external collaborator); the definitions here follow the POSIX
    functions of that name, with [/] as the working directory. *)
Definition sep : string := "/".

Definition is_slash (c : ascii) : bool := Ascii.eqb c "/".

Fixpoint drop_while (f : ascii -> bool) (l : list ascii) : list ascii :=
  match l with
  | [] => []
  | c :: l' => if f c then drop_while f l' else l
  end.

Fixpoint take_while (f : ascii -> bool) (l : list ascii) : list ascii :=
  match l with
  | [] => []
  | c :: l' => if f c then c :: take_while f l' else []
  end.

(** [dirname(p)]: trailing separators and the last segment are dropped. *)
Definition dirname (p : string) : string :=
  match list_ascii_of_string p with
  | [] => "."
  | c :: tl =>
    let t1 := drop_while is_slash (rev tl) in
    let t2 := drop_while (fun a => negb (is_slash a)) t1 in
    match t2 with
    | [] => if is_slash c then "/" else "."
    | _ :: rest =>
      match rest with
      | [] => if is_slash c then "//" else string_of_list_ascii [c]
      | _ => string_of_list_ascii (c :: rev rest)
      end
    end
  end.

(** [basename(p)]: the last segment, without trailing separators. *)
Definition basename (p : string) : string :=
  let r1 := drop_while is_slash (rev (list_ascii_of_string p)) in
  string_of_list_ascii (rev (take_while (fun a => negb (is_slash a)) r1)).

(** [p.split('/')]. *)
Fixpoint split_chars (cur : list ascii) (l : list ascii) : list string :=
  match l with
  | [] => [string_of_list_ascii (rev cur)]
  | c :: l' =>
    if is_slash c then string_of_list_ascii (rev cur) :: split_chars [] l'
    else split_chars (c :: cur) l'
  end.

Definition split (p : string) : list string :=
  split_chars [] (list_ascii_of_string p).

(** The segments that remain once empty segments and [.] are dropped and
    [..] has removed its predecessor; [stack] is kept in reverse. *)
Fixpoint normalize_segments (allowAboveRoot : bool) (stack : list string)
    (segs : list string) : list string :=
  match segs with
  | [] => rev stack
  | s :: segs' =>
    if String.eqb s "" || String.eqb s "." then
      normalize_segments allowAboveRoot stack segs'
    else if String.eqb s ".." then
      match stack with
      | top :: stack' =>
        if String.eqb top ".."
        then normalize_segments allowAboveRoot (s :: stack) segs'
        else normalize_segments allowAboveRoot stack' segs'
      | [] =>
        if allowAboveRoot
        then normalize_segments allowAboveRoot [s] segs'
        else normalize_segments allowAboveRoot [] segs'
      end
    else normalize_segments allowAboveRoot (s :: stack) segs'
  end.

Fixpoint join_segments (segs : list string) : string :=
  match segs with
  | [] => ""
  | [s] => s
  | s :: segs' => s +:+ "/" +:+ join_segments segs'
  end.

Definition isAbsolute (p : string) : bool :=
  match p with
  | String c _ => is_slash c
  | EmptyString => false
  end.

(** [resolve(p)]: the absolute, normalized form of [p]. *)
Definition resolve (p : string) : string :=
  "/" +:+ join_segments (normalize_segments false [] (split p)).

(** [join(a, b)]: the non-empty arguments joined by a separator, then
    normalized. *)
Definition join (a b : string) : string :=
  let joined :=
    if String.eqb a "" then b
    else if String.eqb b "" then a
    else a +:+ "/" +:+ b in
  if String.eqb joined "" then "."
  else
    let abs := isAbsolute joined in
    let trailing :=
      match rev (list_ascii_of_string joined) with
      | c :: _ => is_slash c
      | [] => false
      end in
    let body := join_segments (normalize_segments (negb abs) [] (split joined)) in
    if String.eqb body "" then
      if abs then "/" else if trailing then "./" else "."
    else
      (if abs then "/" else "") +:+ body +:+ (if trailing then "/" else "").

End Path.

(** ** backends/OverlayFS.js *)
Module OverlayFS.

Definition deletionLogPath : string := "/.deletedFiles.log".

(** The fields of [UnlockedOverlayFS] that [exists] and the deletion log
    work on, beside the two wrapped file systems. *)
Record Overlay := mkOverlay {
  _isInitialized : bool;
  _deletedFiles : gmap string bool;
  _deleteLog : string;
  _deleteLogError : option exn
}.

(** The overlay as its constructor leaves it. *)
Definition new_Overlay : Overlay := mkOverlay false ∅ "" None.

(** [checkInitialized()]: an error latched by the log writer is thrown
    once and cleared. *)
Definition checkInitialized (o : Overlay) : result unit * Overlay :=
  if negb (_isInitialized o) then (Err (ApiError EPERM), o)
  else
    match _deleteLogError o with
    | Some e =>
      (Err e, mkOverlay (_isInitialized o) (_deletedFiles o) (_deleteLog o) None)
    | None => (Ok tt, o)
    end.

(** [log.split('\n')]. *)
Fixpoint split_lines (cur : list ascii) (l : list ascii) : list string :=
  match l with
  | [] => [string_of_list_ascii (rev cur)]
  | c :: l' =>
    if Ascii.eqb c "010" then string_of_list_ascii (rev cur) :: split_lines [] l'
    else split_lines (c :: cur) l'
  end.

(** [this._deletedFiles[key] = value] for a boolean [value]:
    [_deletedFiles] is a plain object, so the key becomes an own property
    of it, but for the key [__proto__]: there the assignment goes to the
    setter of [Object.prototype], which does nothing with a value that is
    no object.  A later [this._deletedFiles[p] !== true] reads the own
    property, or an inherited member, which is not [true]. *)
Definition set_flag (key : string) (value : bool) (m : gmap string bool)
  : gmap string bool :=
  if String.eqb key "__proto__" then m else <[key := value]> m.

(** [_reparseDeletionLog()]: each line marks the path after its first
    character, as deleted when that character is [d]. *)
Definition _reparseDeletionLog (o : Overlay) : Overlay :=
  let lines := split_lines [] (list_ascii_of_string (_deleteLog o)) in
  let deleted :=
    fold_left (fun (m : gmap string bool) (path : string) =>
                 set_flag (JS.slice_from 1 path)
                   (String.eqb (String.substring 0 1 path) "d") m)
              lines ∅ in
  mkOverlay (_isInitialized o) deleted (_deleteLog o) (_deleteLogError o).

(** The log writer: the overlay, the two flags of [updateLog], and the
    texts handed to [writeFile] on the writable file system so far, oldest
    first. *)
Record Logger := mkLogger {
  overlay : Overlay;
  _deleteLogUpdatePending : bool;
  _deleteLogUpdateNeeded : bool;
  written : list string
}.

Definition new_Logger : Logger := mkLogger new_Overlay false false [].

(** [updateLog(addition, cred)], up to the call of [writeFile]. *)
Definition updateLog (addition : string) (l : Logger) : Logger :=
  let o := overlay l in
  let o := mkOverlay (_isInitialized o) (_deletedFiles o) (_deleteLog o +:+ addition)
             (_deleteLogError o) in
  if _deleteLogUpdatePending l then mkLogger o true true (written l)
  else mkLogger o true (_deleteLogUpdateNeeded l) (written l ++ [_deleteLog o]).

(** The promise of [writeFile] settles: the callback of [then] or of
    [catch] runs, and then the callback of [finally]. *)
Definition settle (outcome : result unit) (l : Logger) : Logger :=
  let l :=
    match outcome with
    | Ok _ =>
      if _deleteLogUpdateNeeded l
      then updateLog "" (mkLogger (overlay l) (_deleteLogUpdatePending l) false (written l))
      else l
    | Err e =>
      let o := overlay l in
      mkLogger (mkOverlay (_isInitialized o) (_deletedFiles o) (_deleteLog o) (Some e))
        (_deleteLogUpdatePending l) (_deleteLogUpdateNeeded l) (written l)
    end in
  mkLogger (overlay l) false (_deleteLogUpdateNeeded l) (written l).

(** [deletePath(p, cred)]. *)
Definition deletePath (p : string) (l : Logger) : Logger :=
  let o := overlay l in
  let o := mkOverlay (_isInitialized o) (set_flag p true (_deletedFiles o)) (_deleteLog o)
             (_deleteLogError o) in
  updateLog (String "d" (p +:+ String "010" ""))
    (mkLogger o (_deleteLogUpdatePending l) (_deleteLogUpdateNeeded l) (written l)).

(** The overlay that starts from the text [log]: what [_initialize] makes
    of the log that it has read. *)
Definition restarted_from (log : string) : Overlay :=
  _reparseDeletionLog (mkOverlay true ∅ log None).

Section Overlay_methods.
(** What [exists] answers on the writable and on the readable file system
    for a path and credentials. *)
Variable writable_exists : string -> Cred.Cred -> bool.
Variable readable_exists : string -> Cred.Cred -> bool.

(** [this._deletedFiles[p] !== true]. *)
Definition not_deleted (o : Overlay) (p : string) : bool :=
  negb (bool_decide (_deletedFiles o !! p = Some true)).

(** [exists(p, cred)] and [existsSync(p, cred)], which read alike. *)
Definition exists_ (o : Overlay) (p : string) (cred : Cred.Cred)
  : result bool * Overlay :=
  match checkInitialized o with
  | (Err e, o) => (Err e, o)
  | (Ok _, o) =>
    (Ok (writable_exists p cred || (readable_exists p cred && not_deleted o p)), o)
  end.

End Overlay_methods.

End OverlayFS.

(** ** emulation/shared.js *)
Module Shared.

(** The module state: the mount table (a [Map], in insertion order, from
    mount point to a mounted file system, known by its number), the
    current credentials, and the number of objects allocated so far, which
    gives every object literal its identity. *)
Record VFS := mkVFS {
  mounts : list (string * nat);
  cred : Cred.Cred;
  objects : nat
}.

(** The object that [resolveFS] returns. *)
Record resolved := mkResolved {
  ref : nat;
  fs : nat;
  path : string;
  mountPoint : string
}.

(** [a === b] on two objects: the same object. *)
Definition same_object (a b : resolved) : bool := Nat.eqb (ref a) (ref b).

(** [p.replaceAll(/\/+/g, '/')]. *)
Fixpoint collapse_slashes (after_slash : bool) (l : list ascii) : list ascii :=
  match l with
  | [] => []
  | c :: l' =>
    if Path.is_slash c
    then (if after_slash then [] else [c]) ++ collapse_slashes true l'
    else c :: collapse_slashes false l'
  end.

Definition normalizePath (p : string) : result string :=
  if JS.includes "000" p then Err (ApiError EINVAL)
  else if String.eqb p "" then Err (ApiError EINVAL)
  else
    let p := string_of_list_ascii (collapse_slashes false (list_ascii_of_string p)) in
    Ok (Path.resolve p).

(** [[...mounts].sort(...)]: longer mount points first.  The comparator
    never answers that two entries are equal; entries of equal length keep
    their order here, and whichever order they get, at most one of them
    is a prefix of a given path. *)
Fixpoint insert_mount (m : string * nat) (l : list (string * nat))
  : list (string * nat) :=
  match l with
  | [] => [m]
  | x :: l' =>
    if (String.length (fst x) <? String.length (fst m))%nat then m :: l
    else x :: insert_mount m l'
  end.

Definition sortedMounts (l : list (string * nat)) : list (string * nat) :=
  fold_right insert_mount [] l.

(** No entry of the list is longer than one before it. *)
Fixpoint longest_first (l : list (string * nat)) : Prop :=
  match l with
  | [] => True
  | x :: l' =>
    Forall (fun y => (String.length (fst y) <= String.length (fst x))%nat) l'
    /\ longest_first l'
  end.

Fixpoint find_mount (sorted : list (string * nat)) (p : string)
  : option (nat * string * string) :=
  match sorted with
  | [] => None
  | (mountPoint, fs) :: rest =>
    if (String.length mountPoint <=? String.length p)%nat && JS.startsWith p mountPoint
    then
      let p' := JS.slice_from
                  (if (1 <? String.length mountPoint)%nat then String.length mountPoint else 0%nat) p in
      let p' := if String.eqb p' "" then "/"%string else p' in
      Some (fs, p', mountPoint)
    else find_mount rest p
  end.

(** [resolveFS(path)]: the answer is a new object at every call. *)
Definition resolveFS (p : string) (v : VFS) : result resolved * VFS :=
  match find_mount (sortedMounts (mounts v)) p with
  | Some (fs, p', mountPoint) =>
    (Ok (mkResolved (objects v) fs p' mountPoint),
     mkVFS (mounts v) (cred v) (S (objects v)))
  | None => (Err (ApiError EIO), v)
  end.

(** The mount point that [mount] and [umount] look up: with a leading
    [/] when the first character is another or is missing, then through
    [resolve]. *)
Definition mount_point (mountPoint : string) : string :=
  let mountPoint :=
    match mountPoint with
    | String "/" _ => mountPoint
    | _ => ("/" +:+ mountPoint)%string
    end in
  Path.resolve mountPoint.

Definition mounts_has (mountPoint : string) (v : VFS) : bool :=
  existsb (String.eqb mountPoint) (map fst (mounts v)).

(** [mount(mountPoint, fs)]: [Map.set] of a new key adds the entry at the
    end. *)
Definition mount (mountPoint : string) (fs : nat) (v : VFS) : result unit * VFS :=
  let mountPoint := mount_point mountPoint in
  if mounts_has mountPoint v then (Err (ApiError EINVAL), v)
  else (Ok tt, mkVFS (mounts v ++ [(mountPoint, fs)]) (cred v) (objects v)).

(** [umount(mountPoint)]. *)
Definition umount (mountPoint : string) (v : VFS) : result unit * VFS :=
  let mountPoint := mount_point mountPoint in
  if negb (mounts_has mountPoint v) then (Err (ApiError EINVAL), v)
  else
    (Ok tt,
     mkVFS (List.filter (fun m => negb (String.eqb (fst m) mountPoint)) (mounts v))
       (cred v) (objects v)).

(** A call of [mount] or of [umount], and a sequence of such calls, each
    one on the state that the one before has left, whether it has returned
    or thrown. *)
Inductive mount_call :=
| call_mount (mountPoint : string) (fs : nat)
| call_umount (mountPoint : string).

Definition run_mount_call (v : VFS) (c : mount_call) : VFS :=
  match c with
  | call_mount mountPoint fs => snd (mount mountPoint fs v)
  | call_umount mountPoint => snd (umount mountPoint v)
  end.

Definition run_mount_calls (cs : list mount_call) (v : VFS) : VFS :=
  fold_left run_mount_call cs v.

End Shared.

(** ** emulation/promises.ts *)
Module Promises.
Import Shared.

Section Promises.
(** The mounted file systems: their joint state [W] and the methods that
    the functions below call on the file system of a given number. *)
Context {W : Type}.
Variable fs_exists : nat -> string -> Cred.Cred -> W -> result bool * W.
Variable fs_stat : nat -> string -> Cred.Cred -> W -> result Stats.Stats * W.
Variable fs_readlink : nat -> string -> Cred.Cred -> W -> result string * W.
Variable fs_rename : nat -> string -> string -> Cred.Cred -> W -> result unit * W.
Variable fs_readFile :
  nat -> string -> File.FileFlag -> Cred.Cred -> W -> result (list byte) * W.
Variable fs_writeFile :
  nat -> string -> list byte -> File.FileFlag -> Z -> Cred.Cred -> W -> result unit * W.
Variable fs_unlink : nat -> string -> Cred.Cred -> W -> result unit * W.
Variable fs_readdir : nat -> string -> Cred.Cred -> W -> result (list string) * W.

(** The functions of the module run on the module state and the file
    systems; a thrown exception leaves both as they are at the throw. *)
Definition M (A : Type) : Type := VFS * W -> result A * (VFS * W).

Definition ret {A} (a : A) : M A := fun s => (Ok a, s).
Definition throw {A} (e : exn) : M A := fun s => (Err e, s).
Definition mbind {A B} (c : M A) (k : A -> M B) : M B :=
  fun s => match c s with
           | (Ok a, s') => k a s'
           | (Err e, s') => (Err e, s')
           end.
Definition lift {A} (r : result A) : M A := fun s => (r, s).
Definition on_vfs {A} (f : VFS -> result A * VFS) : M A :=
  fun s => let '(r, v) := f (fst s) in (r, (v, snd s)).
Definition on_fs {A} (f : Cred.Cred -> W -> result A * W) : M A :=
  fun s => let '(r, w) := f (cred (fst s)) (snd s) in (r, (fst s, w)).
(** [try { c } catch (e) { h e }]. *)
Definition try_catch {A} (c : M A) (h : exn -> M A) : M A :=
  fun s => match c s with
           | (Ok a, s') => (Ok a, s')
           | (Err e, s') => h e s'
           end.

Notation "'let!' x ':=' c1 'in' c2" := (mbind c1 (fun x => c2))
  (at level 10, x name, c1 at level 100, c2 at level 200).

(** [fixError(e, paths)] rewrites the message and the stack of [e], which
    the model does not keep. *)
Definition fixError (e : exn) : exn := e.

(** [exists(path)]. *)
Definition exists_ (p : string) : M bool :=
  let! p := lift (normalizePath p) in
  try_catch
    (let! r := on_vfs (resolveFS p) in
     on_fs (fs_exists (fs r) (path r)))
    (fun e => match e with
              | ApiError ENOENT => ret false
              | _ => throw e
              end).

(** [realpath(path)]: one round for every symbolic link on the way. *)
Fixpoint realpath (fuel : nat) (p : string) : M string :=
  match fuel with
  | O => throw OutOfFuel
  | S fuel' =>
    let! p := lift (normalizePath p) in
    let! r := on_vfs (resolveFS p) in
    try_catch
      (let! stats := on_fs (fs_stat (fs r) (path r)) in
       if negb (JS.band (Stats.mode stats) Stats.S_IFMT =? Stats.S_IFLNK) then ret p
       else
         let! target := on_fs (fs_readlink (fs r) (path r)) in
         let! target := lift (normalizePath target) in
         realpath fuel' (mountPoint r +:+ target))
      (fun e => throw (fixError e))
  end.

(** [doOp(name, resolveSymlinks, path, ...args)]: [call] is the method
    [name] applied to the remaining arguments. *)
Definition doOp {A} (fuel : nat) (call : nat -> string -> Cred.Cred -> W -> result A * W)
    (resolveSymlinks : bool) (p : string) : M A :=
  let! p := lift (normalizePath p) in
  let! target :=
    (if resolveSymlinks then
       let! e := exists_ p in
       if e then realpath fuel p else ret p
     else ret p) in
  let! r := on_vfs (resolveFS target) in
  try_catch (on_fs (call (fs r) (path r))) (fun e => throw (fixError e)).

(** [unlink(path)]. *)
Definition unlink (fuel : nat) (p : string) : M unit :=
  doOp fuel fs_unlink false p.

(** [readFile(filename)] with the default options: flag [r], no
    encoding. *)
Definition readFile (fuel : nat) (filename : string) : M (list byte) :=
  let! flag := lift (File.getFileFlag "r") in
  if negb (File.isReadable flag) then throw (ApiError EINVAL)
  else doOp fuel (fun fs p => fs_readFile fs p flag) true filename.

(** [writeFile(filename, data)] for a byte array and the default options:
    encoding [utf8], flag [w], mode [0o644]. *)
Definition writeFile (fuel : nat) (filename : string) (data : list byte) : M unit :=
  let! flag := lift (File.getFileFlag "w") in
  if negb (File.isWriteable flag) then throw (ApiError EINVAL)
  else doOp fuel (fun fs p => fs_writeFile fs p data flag 420) true filename.

(** [rename(oldPath, newPath)]. *)
Definition rename (fuel : nat) (oldPath newPath : string) : M unit :=
  let! oldPath := lift (normalizePath oldPath) in
  let! newPath := lift (normalizePath newPath) in
  let! _old := on_vfs (resolveFS oldPath) in
  let! _new := on_vfs (resolveFS newPath) in
  try_catch
    (if same_object _old _new then
       on_fs (fs_rename (fs _old) (path _old) (path _new))
     else
       let! data := readFile fuel oldPath in
       let! _ := writeFile fuel newPath data in
       unlink fuel oldPath)
    (fun e => throw (fixError e)).

(** The body of the loop of [readdir] over the mount points: the entry
    that [point] adds to the listing of [path], if any. *)
Definition mount_entry (p point : string) : option string :=
  if JS.startsWith point p then
    let entry := JS.slice_from (String.length p) point in
    if JS.includes "/" entry || (String.length entry =? 0)%nat then None
    else Some entry
  else None.

(** [readdir(path)] without [withFileTypes]. *)
Definition readdir (fuel : nat) (p : string) : M (list string) :=
  let! p := lift (normalizePath p) in
  let! entries := doOp fuel fs_readdir true p in
  let! points := on_vfs (fun v => (Ok (map fst (mounts v)), v)) in
  ret (entries ++ omap (mount_entry p) points).

End Promises.

End Promises.

(** ** filesystem.js *)
Module FileSystem.

Section BaseFileSystem.
(** The subclass: its state [S], its open files [Fd], the methods that
    [BaseFileSystem] leaves to it, and the methods of its files.  [now] is
    what the clock reads during the call. *)
Context {S Fd : Type}.
Variable statSync : Z -> string -> Cred.Cred -> S -> result Stats.Stats * S.
Variable unlinkSync : Z -> string -> Cred.Cred -> S -> result unit * S.
Variable createFileSync :
  Z -> string -> File.FileFlag -> Z -> Cred.Cred -> S -> result Fd * S.
Variable openFileSync :
  Z -> string -> File.FileFlag -> Cred.Cred -> S -> result Fd * S.
Variable fd_stat : Z -> Fd -> Stats.Stats.
Variable fd_read :
  Z -> Fd -> list byte -> Z -> Z -> option Z -> result (Z * list byte) * Fd.
Variable fd_write :
  Z -> Fd -> S -> list byte -> Z -> Z -> option Z -> result Z * Fd * S.
Variable fd_close : Z -> Fd -> S -> result unit * Fd * S.

(** [openSync(p, flag, mode, cred)]. *)
Definition openSync (now : Z) (p : string) (flag : File.FileFlag) (mode : Z)
    (cred : Cred.Cred) (s : S) : result Fd * S :=
  match statSync now p cred s with
  | (Err _, s) =>
    match File.pathNotExistsAction flag with
    | File.CREATE_FILE =>
      match statSync now (Path.dirname p) cred s with
      | (Err e, s) => (Err e, s)
      | (Ok parentStats, s) =>
        if negb (Stats.isDirectory parentStats) then (Err (ApiError ENOTDIR), s)
        else createFileSync now p flag mode cred s
      end
    | File.THROW_EXCEPTION => (Err (ApiError ENOENT), s)
    | _ => (Err (ApiError EINVAL), s)
    end
  | (Ok stats, s) =>
    if negb (Stats.hasAccess stats mode cred) then (Err (ApiError EACCES), s)
    else
      match File.pathExistsAction flag with
      | File.THROW_EXCEPTION => (Err (ApiError EEXIST), s)
      | File.TRUNCATE_FILE =>
        match unlinkSync now p cred s with
        | (Err e, s) => (Err e, s)
        | (Ok _, s) => createFileSync now p flag (Stats.mode stats) cred s
        end
      | File.NOP => openFileSync now p flag cred s
      | _ => (Err (ApiError EINVAL), s)
      end
  end.

(** [existsSync(p, cred)]: [statSync] with its errors swallowed. *)
Definition existsSync (now : Z) (p : string) (cred : Cred.Cred) (s : S) : bool * S :=
  match statSync now p cred s with
  | (Ok _, s) => (true, s)
  | (Err _, s) => (false, s)
  end.

(** [SynchronousFileSystem.open] is [openSync]. *)
Definition open := openSync.

(** [try { body } finally { fd.close() }]: the file is closed on every
    path, and an exception of [close] replaces the pending outcome. *)
Definition finally_close {A} (now : Z) (body : result A * Fd * S)
  : result A * S :=
  let '(r, fd, s) := body in
  match fd_close now fd s with
  | (Err e, _, s) => (Err e, s)
  | (Ok _, _, s) => (r, s)
  end.

(** [readFile(fname, flag, cred)]. *)
Definition readFile (now : Z) (fname : string) (flag : File.FileFlag)
    (cred : Cred.Cred) (s : S) : result (list byte) * S :=
  match open now fname flag 420 cred s with
  | (Err e, s) => (Err e, s)
  | (Ok fd, s) =>
    finally_close now
      (let stat := fd_stat now fd in
       match new_Uint8Array (Stats.size stat) with
       | Err e => (Err e, fd, s)
       | Ok buf =>
         match fd_read now fd buf 0 (Stats.size stat) (Some 0) with
         | (Err e, fd) => (Err e, fd, s)
         | (Ok (_, buf), fd) =>
           match fd_close now fd s with
           | (Err e, fd, s) => (Err e, fd, s)
           | (Ok _, fd, s) => (Ok buf, fd, s)
           end
         end
       end)
  end.

(** [writeFile(fname, data, flag, mode, cred)] for a byte array. *)
Definition writeFile (now : Z) (fname : string) (data : list byte)
    (flag : File.FileFlag) (mode : Z) (cred : Cred.Cred) (s : S)
  : result unit * S :=
  match open now fname flag mode cred s with
  | (Err e, s) => (Err e, s)
  | (Ok fd, s) =>
    finally_close now
      (match fd_write now fd s data 0 (Z.of_nat (length data)) (Some 0) with
       | (Err e, fd, s) => (Err e, fd, s)
       | (Ok _, fd, s) => (Ok tt, fd, s)
       end)
  end.

(** [truncateSync(p, len, cred)]. *)
Definition truncateSync
    (fd_truncate : Z -> Fd -> S -> Z -> result unit * Fd * S)
    (now : Z) (p : string) (len : Z) (cred : Cred.Cred) (s : S) : result unit * S :=
  match File.getFileFlag "r+" with
  | Err e => (Err e, s)
  | Ok flag =>
    match openSync now p flag 420 cred s with
    | (Err e, s) => (Err e, s)
    | (Ok fd, s) => finally_close now (fd_truncate now fd s len)
    end
  end.

(** [appendFileSync(fname, data, flag, mode, cred)] for a byte array: the
    write is at the position [null]. *)
Definition appendFileSync (now : Z) (fname : string) (data : list byte)
    (flag : File.FileFlag) (mode : Z) (cred : Cred.Cred) (s : S)
  : result unit * S :=
  match openSync now fname flag mode cred s with
  | (Err e, s) => (Err e, s)
  | (Ok fd, s) =>
    finally_close now
      (match fd_write now fd s data 0 (Z.of_nat (length data)) None with
       | (Err e, fd, s) => (Err e, fd, s)
       | (Ok _, fd, s) => (Ok tt, fd, s)
       end)
  end.

End BaseFileSystem.

End FileSystem.

(** ** backends/SyncStore.js, over the store of backends/InMemory.js *)
Module SyncStore.

(** Modelled from the spec: [emulation/constants.js] is not among the
    sources; [R_OK] and [W_OK] are the POSIX values. *)
Definition R_OK : Z := 4.
Definition W_OK : Z := 2.

(** [ROOT_NODE_ID] of [utils.js]. *)
Definition ROOT_NODE_ID : string := "/".

(** A directory listing is the object that [JSON.parse] builds: its own
    properties are the entries, and it inherits the members of
    [Object.prototype].  Reading [listing[name]] gives an id, nothing, or
    an inherited member, which is truthy and is no string. *)
Inductive value :=
| VUndefined
| VString (s : string)
| VInherited.

Definition Object_prototype_names : list string :=
  ["constructor"; "__defineGetter__"; "__defineSetter__"; "hasOwnProperty";
   "__lookupGetter__"; "__lookupSetter__"; "isPrototypeOf";
   "propertyIsEnumerable"; "toString"; "valueOf"; "__proto__";
   "toLocaleString"]%string.

Definition get_property (l : gmap string string) (name : string) : value :=
  match l !! name with
  | Some id => VString id
  | None =>
    if bool_decide (name ∈ Object_prototype_names) then VInherited
    else VUndefined
  end.

Definition truthy_value (v : value) : bool :=
  match v with
  | VUndefined => false
  | VString s => negb (String.eqb s "")
  | VInherited => true
  end.

(** [listing[name] = v], as [JSON.stringify] will see it: a property that
    holds a function is left out of the text.  (The member that
    [__proto__] inherits is an object, which the text would keep as [{}];
    it is not told apart from the functions here.) *)
Definition set_property (l : gmap string string) (name : string) (v : value)
  : gmap string string :=
  match v with
  | VString id => <[name := id]> l
  | _ => delete name l
  end.

Section Engine.
(** [randomUUID()] at its n-th call, and [JSON.stringify] and [JSON.parse]
    on directory listings; [JSON.parse] answers [None] where it throws a
    [SyntaxError]. *)
Variable randomUUID : nat -> string.
Variable JSON_stringify : gmap string string -> string.
Variable JSON_parse : string -> option (gmap string string).

(** A [SimpleSyncRWTransaction] together with the store it works on, the
    [InMemoryStore] of [backends/InMemory.js]: a [Map] from key to bytes,
    whose [put] refuses to replace a key unless [overwrite] is set.
    [drawn] counts the calls of [randomUUID].  [originalData] is a plain
    object; the map holds its own properties, which is what the code reads
    and writes for every key but [__proto__]. *)
Record Tx := mkTx {
  store : gmap string (list byte);
  drawn : nat;
  originalData : gmap string (option (list byte));
  modifiedKeys : list string
}.

Definition T (A : Type) : Type := Tx -> result A * Tx.

Definition ret {A} (a : A) : T A := fun tx => (Ok a, tx).
Definition throw {A} (e : exn) : T A := fun tx => (Err e, tx).
Definition tbind {A B} (c : T A) (k : A -> T B) : T B :=
  fun tx => match c tx with
            | (Ok a, tx') => k a tx'
            | (Err e, tx') => (Err e, tx')
            end.
Definition lift {A} (r : result A) : T A := fun tx => (r, tx).

Notation "'let!' x ':=' c1 'in' c2" := (tbind c1 (fun x => c2))
  (at level 10, x name, c1 at level 100, c2 at level 200).

(** The body [c] of a transaction never throws [e]. *)
Definition never_throws {A} (e : exn) (c : T A) : Prop :=
  forall tx, fst (c tx) <> Err e.

(** The body [c] of a transaction only reads: it leaves the store, the
    count of ids and the list of modified keys as they are, and forgets no
    stashed value. *)
Definition reads_only {A} (c : T A) : Prop :=
  forall tx r tx', c tx = (r, tx') ->
    store tx' = store tx /\ drawn tx' = drawn tx
    /\ modifiedKeys tx' = modifiedKeys tx
    /\ dom (originalData tx) ⊆ dom (originalData tx').

(** The outcome of [c] depends on the store through the keys that the
    transaction has read only: on a store that holds the same values under
    these keys, [c] has the same outcome. *)
Definition determined_by_reads {A} (c : T A) : Prop :=
  forall tx r tx' tx2, c tx = (r, tx') ->
    (forall k, k ∈ dom (originalData tx') -> store tx2 !! k = store tx !! k) ->
    fst (c tx2) = r.

(** Reading only and being determined by what is read, together. *)
Definition reads_well {A} (c : T A) : Prop :=
  reads_only c /\ determined_by_reads c.

(** When [c] succeeds, every key that the transaction has read is a key
    of the store. *)
Definition reads_present {A} (c : T A) : Prop :=
  forall tx a tx', c tx = (Ok a, tx') ->
    dom (originalData tx') ⊆ dom (originalData tx) ∪ dom (store tx).

(** The lookup stopped for want of fuel or on the loop guard. *)
Definition gave_up {A} (r : result A) : Prop :=
  r = Err OutOfFuel \/ r = Err (ApiError EIO).

(** [stashOldValue(key, value)], for a key other than [__proto__]: for
    that key the assignment would go to the setter of [Object.prototype]
    and make no own property. *)
Definition stashOldValue (key : string) (val : option (list byte)) (tx : Tx) : Tx :=
  match originalData tx !! key with
  | Some _ => tx
  | None => mkTx (store tx) (drawn tx) (<[key := val]> (originalData tx)) (modifiedKeys tx)
  end.

(** [markModified(key)]. *)
Definition markModified (key : string) (tx : Tx) : Tx :=
  if bool_decide (key ∈ modifiedKeys tx) then tx
  else
    let tx := mkTx (store tx) (drawn tx) (originalData tx) (modifiedKeys tx ++ [key]) in
    stashOldValue key (store tx !! key) tx.

(** [tx.get(key)]. *)
Definition tx_get (key : string) : T (option (list byte)) :=
  fun tx => let val := store tx !! key in (Ok val, stashOldValue key val tx).

(** [tx.put(key, data, overwrite)]. *)
Definition tx_put (key : string) (data : list byte) (overwrite : bool) : T bool :=
  fun tx =>
    let tx := markModified key tx in
    if negb overwrite && bool_decide (is_Some (store tx !! key)) then (Ok false, tx)
    else (Ok true, mkTx (<[key := data]> (store tx)) (drawn tx) (originalData tx) (modifiedKeys tx)).

(** [tx.del(key)]. *)
Definition tx_del (key : string) : T unit :=
  fun tx =>
    let tx := markModified key tx in
    (Ok tt, mkTx (delete key (store tx)) (drawn tx) (originalData tx) (modifiedKeys tx)).

(** [tx.abort()]: every modified key gets its first value back. *)
Definition tx_abort (tx : Tx) : Tx :=
  fold_left
    (fun tx key =>
       match originalData tx !! key with
       | Some (Some value) =>
         mkTx (<[key := value]> (store tx)) (drawn tx) (originalData tx) (modifiedKeys tx)
       | _ => mkTx (delete key (store tx)) (drawn tx) (originalData tx) (modifiedKeys tx)
       end)
    (modifiedKeys tx) tx.

(** [try { c } catch (e) { tx.abort(); throw e; }]. *)
Definition try_abort {A} (c : T A) : T A :=
  fun tx => match c tx with
            | (Err e, tx') => (Err e, tx_abort tx')
            | ok => ok
            end.

Definition draw : T string :=
  fun tx => (Ok (randomUUID (drawn tx)),
             mkTx (store tx) (S (drawn tx)) (originalData tx) (modifiedKeys tx)).

(** [getINode(tx, p, id)]: an id that is no string is no key of the
    store. *)
Definition getINode (p : string) (id : value) : T Inode.Inode :=
  match id with
  | VString id =>
    let! inode := tx_get id in
    match inode with
    | None => throw (ApiError ENOENT)
    | Some data => lift (Inode.Deserialize data)
    end
  | _ => throw (ApiError ENOENT)
  end.

(** [getDirListing(tx, p, inode)]. *)
Definition getDirListing (p : string) (inode : Inode.Inode) : T (gmap string string) :=
  if negb (Inode.isDirectory inode) then throw (ApiError ENOTDIR)
  else
    let! data := tx_get (Inode.id inode) in
    match data with
    | None => throw (ApiError ENOENT)
    | Some data =>
      match JSON_parse (decode data) with
      | Some listing => ret listing
      | None => throw (Error "SyntaxError")
      end
    end.

(** [_findINode(tx, parent, filename, visited)]. *)
Fixpoint _findINode (fuel : nat) (parent filename : string) (visited : list string)
  : T value :=
  match fuel with
  | O => throw OutOfFuel
  | S fuel' =>
    let currentPath := Path.join parent filename in
    if bool_decide (currentPath ∈ visited) then throw (ApiError EIO)
    else
      let visited := currentPath :: visited in
      let readDirectory (inode : Inode.Inode) : T value :=
        let! dirList := getDirListing parent inode in
        let v := get_property dirList filename in
        if truthy_value v then ret v else throw (ApiError ENOENT) in
      if String.eqb parent "/" then
        if String.eqb filename "" then ret (VString ROOT_NODE_ID)
        else
          let! inode := getINode parent (VString ROOT_NODE_ID) in
          readDirectory inode
      else
        let! id := _findINode fuel' (Path.dirname parent) (Path.basename parent) visited in
        let! inode := getINode (parent +:+ Path.sep +:+ filename) id in
        readDirectory inode
  end.

(** The recursion of [_findINode] on [(dirname p, basename p)] is never
    deeper than this. *)
Definition fuel_for (p : string) : nat := String.length p + 3.

(** [findINode(tx, p)]. *)
Definition findINode (p : string) : T Inode.Inode :=
  let! id := _findINode (fuel_for p) (Path.dirname p) (Path.basename p) [] in
  getINode p id.

(** The two halves of [_findINode] at [(dirname p, basename p)]: the
    inode of the directory of [p], and the closure [readDirectory] applied
    to it. *)
Definition lookup_entry (parent filename : string) (inode : Inode.Inode) : T value :=
  let! dirList := getDirListing parent inode in
  let v := get_property dirList filename in
  if truthy_value v then ret v else throw (ApiError ENOENT).

Definition lookup_parent (p : string) : T Inode.Inode :=
  let parent := Path.dirname p in
  let filename := Path.basename p in
  if String.eqb parent "/" then getINode parent (VString ROOT_NODE_ID)
  else
    let! id := _findINode (String.length p + 2) (Path.dirname parent)
                 (Path.basename parent) [Path.join parent filename] in
    getINode (parent +:+ Path.sep +:+ filename) id.

(** [addNewNode(tx, data)]: the [put] of the in-memory store does not
    throw, so that the first round of the loop returns. *)
Definition addNewNode (data : list byte) : T string :=
  let! currId := draw in
  let! _ := tx_put currId data false in
  ret currId.

(** [commitNewFile(tx, p, type, mode, cred, data)]; [now] is
    [new Date().getTime()]. *)
Definition commitNewFile (now : Z) (p : string) (type mode : Z)
    (cred : Cred.Cred) (data : list byte) : T Inode.Inode :=
  let parentDir := Path.dirname p in
  let fname := Path.basename p in
  let! parentNode := findINode parentDir in
  let! dirListing := getDirListing parentDir parentNode in
  let currTime := now in
  if negb (Stats.hasAccess (Inode.toStats now parentNode) 4 cred)
  then throw (ApiError EACCES)
  else if String.eqb p "/" then throw (ApiError EEXIST)
  else if truthy_value (get_property dirListing fname) then throw (ApiError EEXIST)
  else
    let! fileNode :=
      try_abort
        (let! dataId := addNewNode data in
         let fileNode :=
           Inode.mkInode dataId (Z.of_nat (length data)) (JS.bor mode type)
             currTime currTime currTime (Cred.uid cred) (Cred.gid cred) in
         let! bytes := lift (Inode.serialize fileNode) in
         let! fileNodeId := addNewNode bytes in
         let dirListing := set_property dirListing fname (VString fileNodeId) in
         let! _ := tx_put (Inode.id parentNode) (encode (JSON_stringify dirListing)) true in
         ret fileNode) in
    ret fileNode.

(** [removeEntry(p, isDir, cred)], inside its transaction. *)
Definition removeEntry_tx (now : Z) (p : string) (isDir : bool) (cred : Cred.Cred)
  : T unit :=
  let parent := Path.dirname p in
  let! parentNode := findINode parent in
  let! parentListing := getDirListing parent parentNode in
  let fileName := Path.basename p in
  if negb (truthy_value (get_property parentListing fileName))
  then throw (ApiError ENOENT)
  else
    let fileNodeId := get_property parentListing fileName in
    let! fileNode := getINode p fileNodeId in
    if negb (Stats.hasAccess (Inode.toStats now fileNode) W_OK cred)
    then throw (ApiError EACCES)
    else
      let parentListing := delete fileName parentListing in
      if negb isDir && Inode.isDirectory fileNode then throw (ApiError EISDIR)
      else if isDir && negb (Inode.isDirectory fileNode) then throw (ApiError ENOTDIR)
      else
        try_abort
          (let! _ := tx_del (Inode.id fileNode) in
           let! _ :=
             match fileNodeId with
             | VString k => tx_del k
             | _ => ret tt
             end in
           let! _ := tx_put (Inode.id parentNode) (encode (JSON_stringify parentListing)) true in
           ret tt).

(** [renameSync(oldPath, newPath, cred)], inside its transaction. *)
Definition renameSync_tx (now : Z) (oldPath newPath : string) (cred : Cred.Cred)
  : T unit :=
  let oldParent := Path.dirname oldPath in
  let oldName := Path.basename oldPath in
  let newParent := Path.dirname newPath in
  let newName := Path.basename newPath in
  let! oldDirNode := findINode oldParent in
  let! oldDirList := getDirListing oldParent oldDirNode in
  if negb (Stats.hasAccess (Inode.toStats now oldDirNode) W_OK cred)
  then throw (ApiError EACCES)
  else if negb (truthy_value (get_property oldDirList oldName))
  then throw (ApiError ENOENT)
  else
    let nodeId := get_property oldDirList oldName in
    let oldDirList := delete oldName oldDirList in
    if JS.indexOf_is_0 (newParent +:+ "/") (oldPath +:+ "/")
    then throw (ApiError EBUSY)
    else
      let! newDir :=
        (if String.eqb newParent oldParent then ret (oldDirNode, oldDirList)
         else
           let! newDirNode := findINode newParent in
           let! newDirList := getDirListing newParent newDirNode in
           ret (newDirNode, newDirList)) in
      let newDirNode := fst newDir in
      let newDirList := snd newDir in
      let! _ :=
        (if truthy_value (get_property newDirList newName) then
           let! newNameNode := getINode newPath (get_property newDirList newName) in
           if Inode.isFile newNameNode then
             try_abort
               (let! _ := tx_del (Inode.id newNameNode) in
                match get_property newDirList newName with
                | VString k => tx_del k
                | _ => ret tt
                end)
           else throw (ApiError EPERM)
         else ret tt) in
      let newDirList := set_property newDirList newName nodeId in
      try_abort
        (let! _ := tx_put (Inode.id oldDirNode) (encode (JSON_stringify oldDirList)) true in
         let! _ := tx_put (Inode.id newDirNode) (encode (JSON_stringify newDirList)) true in
         ret tt).

(** [_syncSync(p, data, stats)], inside its transaction. *)
Definition _syncSync_tx (p : string) (data : list byte) (stats : Stats.Stats)
  : T unit :=
  let! fileInodeId := _findINode (fuel_for p) (Path.dirname p) (Path.basename p) [] in
  let! fileInode := getINode p fileInodeId in
  let '(inodeChanged, fileInode) := Inode.update fileInode stats in
  try_abort
    (let! _ := tx_put (Inode.id fileInode) data true in
     if inodeChanged then
       let! bytes := lift (Inode.serialize fileInode) in
       match fileInodeId with
       | VString k => let! _ := tx_put k bytes true in ret tt
       | _ => ret tt
       end
     else ret tt).

(** *** The methods of [SyncKeyValueFileSystem] *)

(** The file system: the store and the number of ids drawn so far. *)
Record KV := mkKV { kv_store : gmap string (list byte); kv_drawn : nat }.

(** A transaction as [beginTransaction] returns it. *)
Definition begin (s : KV) : Tx := mkTx (kv_store s) (kv_drawn s) ∅ [].

(** [this.store.beginTransaction(type)], the body of a method, and what
    the transaction leaves in the store. *)
Definition transaction {A} (c : T A) (s : KV) : result A * KV :=
  let '(r, tx) := c (begin s) in
  (r, mkKV (store tx) (drawn tx)).

(** From every transaction that sees the store and the count of ids of
    [s], the body [c] returns [a] and leaves those of [s']. *)
Definition runs {A} (c : T A) (s : KV) (a : A) (s' : KV) : Prop :=
  forall tx, store tx = kv_store s -> drawn tx = kv_drawn s ->
    exists tx', c tx = (Ok a, tx')
      /\ store tx' = kv_store s' /\ drawn tx' = kv_drawn s'.

(** The store of [s] holds the listing [l] under [key]. *)
Definition holds_listing (s : KV) (key : string) (l : gmap string string) : Prop :=
  exists data, kv_store s !! key = Some data /\ JSON_parse (decode data) = Some l.

(** The stores of [s] and [s'] hold the same under the keys [keys]. *)
Definition agree_on (keys : gset string) (s s' : KV) : Prop :=
  forall k, k ∈ keys -> kv_store s' !! k = kv_store s !! k.

(** The checks of [renameSync] that come before the test on the two
    paths pass: the parent of [oldPath] resolves to a directory that [cred]
    may write and whose listing has an entry for the name of [oldPath]. *)
Definition source_found (now : Z) (oldPath : string) (cred : Cred.Cred) (s : KV)
  : Prop :=
  match findINode (Path.dirname oldPath) (begin s) with
  | (Ok oldDirNode, tx) =>
    match getDirListing (Path.dirname oldPath) oldDirNode tx with
    | (Ok oldDirList, _) =>
      Stats.hasAccess (Inode.toStats now oldDirNode) W_OK cred = true
      /\ truthy_value (get_property oldDirList (Path.basename oldPath)) = true
    | _ => False
    end
  | _ => False
  end.

(** [makeRootDirectory()]. *)
Definition makeRootDirectory (now : Z) (s : KV) : result unit * KV :=
  transaction
    (let! root := tx_get ROOT_NODE_ID in
     match root with
     | Some _ => ret tt
     | None =>
       let! id := draw in
       let dirInode := Inode.mkInode id 4096 (JS.bor 511 Stats.S_IFDIR) now now now 0 0 in
       let! _ := tx_put (Inode.id dirInode) (encode "{}") false in
       let! bytes := lift (Inode.serialize dirInode) in
       let! _ := tx_put ROOT_NODE_ID bytes false in
       ret tt
     end) s.

Definition accessSync (now : Z) (p : string) (mode : Z) (cred : Cred.Cred) (s : KV)
  : result unit * KV :=
  transaction
    (let! node := findINode p in
     if negb (Stats.hasAccess (Inode.toStats now node) mode cred)
     then throw (ApiError EACCES) else ret tt) s.

Definition renameSync (now : Z) (oldPath newPath : string) (cred : Cred.Cred) (s : KV)
  : result unit * KV :=
  transaction (renameSync_tx now oldPath newPath cred) s.

Definition statSync (now : Z) (p : string) (cred : Cred.Cred) (s : KV)
  : result Stats.Stats * KV :=
  transaction
    (let! node := findINode p in
     let stats := Inode.toStats now node in
     if negb (Stats.hasAccess stats R_OK cred) then throw (ApiError EACCES)
     else ret stats) s.

(** A [SyncKeyValueFile] is a [PreloadFile]. *)
Definition createFileSync (now : Z) (p : string) (flag : File.FileFlag) (mode : Z)
    (cred : Cred.Cred) (s : KV) : result File.PreloadFile * KV :=
  transaction
    (let data := [] in
     let! newFile := commitNewFile now p Stats.S_IFREG mode cred data in
     lift (File.new_PreloadFile p flag (Inode.toStats now newFile) data)) s.

Definition openFileSync (now : Z) (p : string) (flag : File.FileFlag)
    (cred : Cred.Cred) (s : KV) : result File.PreloadFile * KV :=
  transaction
    (let! node := findINode p in
     let! data := tx_get (Inode.id node) in
     if negb (Stats.hasAccess (Inode.toStats now node) (File.getMode flag) cred)
     then throw (ApiError EACCES)
     else
       match data with
       | None => throw (ApiError ENOENT)
       | Some data => lift (File.new_PreloadFile p flag (Inode.toStats now node) data)
       end) s.

Definition unlinkSync (now : Z) (p : string) (cred : Cred.Cred) (s : KV)
  : result unit * KV :=
  transaction (removeEntry_tx now p false cred) s.

(** [Object.keys(listing)]; the order of the keys is not modelled. *)
Definition readdirSync (now : Z) (p : string) (cred : Cred.Cred) (s : KV)
  : result (list string) * KV :=
  transaction
    (let! node := findINode p in
     if negb (Stats.hasAccess (Inode.toStats now node) R_OK cred)
     then throw (ApiError EACCES)
     else
       let! listing := getDirListing p node in
       ret (map fst (map_to_list listing))) s.

Definition rmdirSync (now : Z) (p : string) (cred : Cred.Cred) (s : KV)
  : result unit * KV :=
  match readdirSync now p cred s with
  | (Err e, s) => (Err e, s)
  | (Ok entries, s) =>
    if (0 <? length entries)%nat then (Err (ApiError ENOTEMPTY), s)
    else transaction (removeEntry_tx now p true cred) s
  end.

Definition mkdirSync (now : Z) (p : string) (mode : Z) (cred : Cred.Cred) (s : KV)
  : result unit * KV :=
  transaction
    (let! _ := commitNewFile now p Stats.S_IFDIR mode cred (encode "{}") in ret tt) s.

Definition _syncSync (p : string) (data : list byte) (stats : Stats.Stats) (s : KV)
  : result unit * KV :=
  transaction (_syncSync_tx p data stats) s.

(** [SyncKeyValueFile.syncSync()] and [closeSync()]. *)
Definition syncSync (f : File.PreloadFile) (s : KV)
  : result unit * File.PreloadFile * KV :=
  if File._dirty f then
    match _syncSync (File._path f) (File._buffer f) (File._stat f) s with
    | (Err e, s) => (Err e, f, s)
    | (Ok _, s) => (Ok tt, File.with_dirty f false, s)
    end
  else (Ok tt, f, s).

Definition closeSync := syncSync.

Definition appendFileSync :=
  FileSystem.appendFileSync statSync unlinkSync createFileSync openFileSync
    (fun now f s => File.writeSync syncSync f s now)
    (fun _ => closeSync).

(** [metadata.synchronous] is [true] for a [SynchronousFileSystem]. *)
Definition truncateSync :=
  FileSystem.truncateSync statSync unlinkSync createFileSync openFileSync
    (fun _ => closeSync)
    (fun now f s len => File.truncateSync syncSync true f s now len).


(** In the store of [s], the path [p] leads to a file that is no directory
    and holds [D]: the directory of [p] is found and holds [listing], which
    has an entry for the name of [p]; the entry is the key of an inode whose
    fields fit their slots, and the inode names the record of [D].  The
    listing, the inode and the data are three records, none of them among
    the records read on the way to the directory, and the lookup of [p]
    does not stop on its guard. *)
Definition file_in (s : KV) (p : string) (listing : gmap string string)
    (D : list byte) : Prop :=
  exists parentNode tx1 tx2 fid bytes fileNode,
    findINode (Path.dirname p) (begin s) = (Ok parentNode, tx1)
    /\ getDirListing (Path.dirname p) parentNode tx1 = (Ok listing, tx2)
    /\ listing !! Path.basename p = Some fid /\ fid <> ""%string
    /\ kv_store s !! fid = Some bytes
    /\ Inode.Deserialize bytes = Ok fileNode
    /\ Inode.fits fileNode
    /\ Inode.isDirectory fileNode = false
    /\ kv_store s !! Inode.id fileNode = Some D
    /\ Inode.size fileNode = Z.of_nat (length D)
    /\ (Inode.id parentNode ∉ dom (originalData tx1))
    /\ (fid ∉ dom (originalData tx1))
    /\ (Inode.id fileNode ∉ dom (originalData tx1))
    /\ Inode.id fileNode <> Inode.id parentNode
    /\ Inode.id fileNode <> fid
    /\ fid <> Inode.id parentNode
    /\ ~ gave_up (fst (_findINode (fuel_for p) (Path.dirname p) (Path.basename p) []
                         (begin s)))
    /\ (Path.dirname p = "/" -> Path.basename p <> "")%string.

(** In the store of [s], the path [p] leads to a directory that holds
    [entries]: as for a file, with the listing [entries] in the place of the
    data. *)
Definition dir_in (s : KV) (p : string) (listing entries : gmap string string)
  : Prop :=
  exists parentNode tx1 tx2 fid bytes dirNode,
    findINode (Path.dirname p) (begin s) = (Ok parentNode, tx1)
    /\ getDirListing (Path.dirname p) parentNode tx1 = (Ok listing, tx2)
    /\ listing !! Path.basename p = Some fid /\ fid <> ""%string
    /\ kv_store s !! fid = Some bytes
    /\ Inode.Deserialize bytes = Ok dirNode
    /\ Inode.isDirectory dirNode = true
    /\ holds_listing s (Inode.id dirNode) entries
    /\ (Inode.id parentNode ∉ dom (originalData tx1))
    /\ (fid ∉ dom (originalData tx1))
    /\ (Inode.id dirNode ∉ dom (originalData tx1))
    /\ Inode.id dirNode <> Inode.id parentNode
    /\ fid <> Inode.id parentNode
    /\ ~ gave_up (fst (_findINode (fuel_for p) (Path.dirname p) (Path.basename p) []
                         (begin s)))
    /\ (Path.dirname p = "/" -> Path.basename p <> "")%string.


(** From every transaction that sees the store and the count of ids of
    [s], the body [c] throws [e] and leaves both as they are. *)
Definition throws {A} (c : T A) (s : KV) (e : exn) : Prop :=
  forall tx, store tx = kv_store s -> drawn tx = kv_drawn s ->
    exists tx', c tx = (Err e, tx')
      /\ store tx' = kv_store s /\ drawn tx' = kv_drawn s.

(** The call that ended as [run] on [s] has returned, or else the store is
    still that of [s]. *)
Definition returns_or_leaves {A} (s : KV) (run : result A * KV) : Prop :=
  forall e, fst run = Err e -> kv_store (snd run) = kv_store s.

(** The methods that [BaseFileSystem] builds on these. *)
Definition openSync :=
  FileSystem.openSync statSync unlinkSync createFileSync openFileSync.

Definition readFile :=
  FileSystem.readFile statSync unlinkSync createFileSync openFileSync
    (fun now f => Stats.clone now (File._stat f))
    (fun now f => File.readSync f now)
    (fun _ => closeSync).

Definition writeFile :=
  FileSystem.writeFile statSync unlinkSync createFileSync openFileSync
    (fun now f s => File.writeSync syncSync f s now)
    (fun _ => closeSync).

(** *** Clients of a transaction *)

(** A call of one of the three methods of a transaction that work on the
    store, and a client that makes such calls one after the other. *)
Inductive call :=
| call_get (key : string)
| call_put (key : string) (data : list byte) (overwrite : bool)
| call_del (key : string).

Definition run_call (c : call) (tx : Tx) : Tx :=
  match c with
  | call_get key => snd (tx_get key tx)
  | call_put key data overwrite => snd (tx_put key data overwrite tx)
  | call_del key => snd (tx_del key tx)
  end.

Definition run_calls (cs : list call) (tx : Tx) : Tx :=
  fold_left (fun tx c => run_call c tx) cs tx.

Definition call_key (c : call) : string :=
  match c with
  | call_get key | call_put key _ _ | call_del key => key
  end.

(** What the transaction [tx] keeps of the store [s0] it began on: every
    stashed value is the value of [s0], every modified key has a stashed
    value, and the store still holds the value of [s0] under every other
    key. *)
Definition journal (s0 : gmap string (list byte)) (tx : Tx) : Prop :=
  (forall k v, originalData tx !! k = Some v -> v = s0 !! k)
  /\ (forall k, k ∈ modifiedKeys tx -> is_Some (originalData tx !! k))
  /\ (forall k, k ∉ modifiedKeys tx -> store tx !! k = s0 !! k).

(** The body [c] keeps the journal of its transaction, and when it throws
    the store is as the transaction found it ([all_or_nothing]) or as [c]
    found it ([undoes_or_stops]); [looks_only] is a body that never
    changes the store. *)
Definition keeps_journal {A} (s0 : gmap string (list byte)) (c : T A) : Prop :=
  forall tx r tx', journal s0 tx -> c tx = (r, tx') -> journal s0 tx'.

Definition looks_only {A} (s0 : gmap string (list byte)) (c : T A) : Prop :=
  forall tx r tx', journal s0 tx -> c tx = (r, tx') ->
    journal s0 tx' /\ store tx' = store tx.

Definition all_or_nothing {A} (s0 : gmap string (list byte)) (c : T A) : Prop :=
  forall tx r tx', journal s0 tx -> c tx = (r, tx') ->
    journal s0 tx' /\ (forall e, r = Err e -> store tx' = s0).

Definition undoes_or_stops {A} (s0 : gmap string (list byte)) (c : T A) : Prop :=
  forall tx r tx', journal s0 tx -> c tx = (r, tx') ->
    journal s0 tx' /\ (forall e, r = Err e -> store tx' = s0 \/ store tx' = store tx).

End Engine.

End SyncStore.

(** ** backends/AsyncStore.js *)
Module AsyncStore.

(** The interface of an asynchronous store together with its read-write
    transaction, over the state [Store] of the store: every method of the
    transaction may reject. *)
Class AsyncKeyValueStore (Store : Type) := {
  beginTransaction : string -> Store -> Store;
  tx_get : string -> Store -> result (option (list byte)) * Store;
  tx_put : string -> list byte -> bool -> Store -> result bool * Store;
  tx_del : string -> Store -> result unit * Store;
  tx_commit : Store -> result unit * Store;
  tx_abort : Store -> result unit * Store
}.

(** The [LRUCache] of the file system, over its state [Cache].  It is kept
    abstract: what is stated below holds whatever the cache answers. *)
Class LRUCache (Cache : Type) := {
  cache_get : string -> Cache -> option SyncStore.value * Cache;
  cache_set : string -> SyncStore.value -> Cache -> Cache;
  cache_removeAll : Cache -> Cache
}.

Section Engine.
(** An [await] is modelled as the next step of the same task; what other
    tasks do meanwhile is not modelled. *)
Context {Store Cache : Type} `{!AsyncKeyValueStore Store} `{!LRUCache Cache}.
Variable JSON_stringify : gmap string string -> string.
Variable JSON_parse : string -> option (gmap string string).

(** The file system: [this._cache], which is [null] or a cache, and the
    store. *)
Record FS := mkFS { _cache : option Cache; store : Store }.

Definition M (A : Type) : Type := FS -> result A * FS.

Definition ret {A} (a : A) : M A := fun fs => (Ok a, fs).
Definition throw {A} (e : exn) : M A := fun fs => (Err e, fs).
Definition mbind {A B} (c : M A) (k : A -> M B) : M B :=
  fun fs => match c fs with
            | (Ok a, fs') => k a fs'
            | (Err e, fs') => (Err e, fs')
            end.
Definition lift {A} (r : result A) : M A := fun fs => (r, fs).

(** A method of the transaction. *)
Definition on_store {A} (op : Store -> result A * Store) : M A :=
  fun fs => let '(r, s) := op (store fs) in (r, mkFS (_cache fs) s).

Notation "'let!' x ':=' c1 'in' c2" := (mbind c1 (fun x => c2))
  (at level 10, x name, c1 at level 100, c2 at level 200).

(** [try { c } catch (e) { await tx.abort(); throw e; }]. *)
Definition try_abort {A} (c : M A) : M A :=
  fun fs => match c fs with
            | (Err e, fs') =>
              match on_store tx_abort fs' with
              | (Ok _, fs'') => (Err e, fs'')
              | (Err e', fs'') => (Err e', fs'')
              end
            | ok => ok
            end.

(** [if (this._cache) { this._cache.set(key, id) }]. *)
Definition cache_store (key : string) (id : SyncStore.value) : M unit :=
  fun fs =>
    match _cache fs with
    | Some c => (Ok tt, mkFS (Some (cache_set key id c)) (store fs))
    | None => (Ok tt, fs)
    end.

(** [this._cache.get(key)] when there is a cache. *)
Definition cache_lookup (key : string) : M (option SyncStore.value) :=
  fun fs =>
    match _cache fs with
    | Some c => let '(v, c') := cache_get key c in (Ok v, mkFS (Some c') (store fs))
    | None => (Ok None, fs)
    end.

(** [getINode(tx, p, id)]: an id that is no string is no key of the
    store. *)
Definition getINode (p : string) (id : SyncStore.value) : M Inode.Inode :=
  match id with
  | SyncStore.VString id =>
    let! data := on_store (tx_get id) in
    match data with
    | None => throw (ApiError ENOENT)
    | Some data => lift (Inode.Deserialize data)
    end
  | _ => throw (ApiError ENOENT)
  end.

(** [getDirListing(tx, p, inode)]: whatever [JSON.parse] or [decode]
    throws becomes [ENOENT]. *)
Definition getDirListing (p : string) (inode : Inode.Inode) : M (gmap string string) :=
  if negb (Inode.isDirectory inode) then throw (ApiError ENOTDIR)
  else
    let! data := on_store (tx_get (Inode.id inode)) in
    match data with
    | None => throw (ApiError ENOENT)
    | Some data =>
      match JSON_parse (decode data) with
      | Some listing => ret listing
      | None => throw (ApiError ENOENT)
      end
    end.

(** [_findINode(tx, parent, filename, visited)]; its call of
    [findINode(tx, parent, visited)] is written out.  A falsy answer of the
    cache counts as a miss. *)
Fixpoint _findINode (fuel : nat) (parent filename : string) (visited : list string)
  : M SyncStore.value :=
  match fuel with
  | O => throw OutOfFuel
  | S fuel' =>
    let currentPath := Path.join parent filename in
    if bool_decide (currentPath ∈ visited) then throw (ApiError EIO)
    else
      let visited := currentPath :: visited in
      let found (dirList : gmap string string) : M SyncStore.value :=
        let id := SyncStore.get_property dirList filename in
        if SyncStore.truthy_value id then
          let! _ := cache_store currentPath id in ret id
        else throw (ApiError ENOENT) in
      let lookup : M SyncStore.value :=
        if String.eqb parent "/" then
          if String.eqb filename "" then
            let! _ := cache_store currentPath (SyncStore.VString SyncStore.ROOT_NODE_ID) in
            ret (SyncStore.VString SyncStore.ROOT_NODE_ID)
          else
            let! inode := getINode parent (SyncStore.VString SyncStore.ROOT_NODE_ID) in
            let! dirList := getDirListing parent inode in
            found dirList
        else
          let! id := _findINode fuel' (Path.dirname parent) (Path.basename parent) visited in
          let! inode := getINode parent id in
          let! dirList := getDirListing parent inode in
          found dirList in
      let! cached := cache_lookup currentPath in
      match cached with
      | Some id => if SyncStore.truthy_value id then ret id else lookup
      | None => lookup
      end
  end.

(** [findINode(tx, p)]. *)
Definition findINode (p : string) : M Inode.Inode :=
  let! id := _findINode (SyncStore.fuel_for p) (Path.dirname p) (Path.basename p) [] in
  getINode p id.

(** The part of [rename(oldPath, newPath, cred)] inside its [try]. *)
Definition rename_body (now : Z) (oldPath newPath : string) (cred : Cred.Cred) : M unit :=
  let! _ := on_store (fun s => (Ok tt, beginTransaction "readwrite" s)) in
  let oldParent := Path.dirname oldPath in
  let oldName := Path.basename oldPath in
  let newParent := Path.dirname newPath in
  let newName := Path.basename newPath in
  let! oldDirNode := findINode oldParent in
  let! oldDirList := getDirListing oldParent oldDirNode in
  if negb (Stats.hasAccess (Inode.toStats now oldDirNode) SyncStore.W_OK cred)
  then throw (ApiError EACCES)
  else if negb (SyncStore.truthy_value (SyncStore.get_property oldDirList oldName))
  then throw (ApiError ENOENT)
  else
    let nodeId := SyncStore.get_property oldDirList oldName in
    let oldDirList := delete oldName oldDirList in
    if JS.indexOf_is_0 (newParent +:+ "/") (oldPath +:+ "/")
    then throw (ApiError EBUSY)
    else
      let! newDir :=
        (if String.eqb newParent oldParent then ret (oldDirNode, oldDirList)
         else
           let! newDirNode := findINode newParent in
           let! newDirList := getDirListing newParent newDirNode in
           ret (newDirNode, newDirList)) in
      let newDirNode := fst newDir in
      let newDirList := snd newDir in
      let! _ :=
        (if SyncStore.truthy_value (SyncStore.get_property newDirList newName) then
           let! newNameNode := getINode newPath (SyncStore.get_property newDirList newName) in
           if Inode.isFile newNameNode then
             try_abort
               (let! _ := on_store (tx_del (Inode.id newNameNode)) in
                match SyncStore.get_property newDirList newName with
                | SyncStore.VString k => on_store (tx_del k)
                | _ => ret tt
                end)
           else throw (ApiError EPERM)
         else ret tt) in
      let newDirList := SyncStore.set_property newDirList newName nodeId in
      let! _ :=
        try_abort
          (let! _ := on_store (tx_put (Inode.id oldDirNode)
                                 (encode (JSON_stringify oldDirList)) true) in
           let! _ := on_store (tx_put (Inode.id newDirNode)
                                 (encode (JSON_stringify newDirList)) true) in
           ret tt) in
      on_store tx_commit.

(** [rename(oldPath, newPath, cred)]: the cache is emptied and put aside
    for the time of the call, and put back on every path. *)
Definition rename (now : Z) (oldPath newPath : string) (cred : Cred.Cred) : M unit :=
  fun fs =>
    let c := option_map cache_removeAll (_cache fs) in
    let '(r, fs') := rename_body now oldPath newPath cred (mkFS None (store fs)) in
    (r, match c with
        | Some c => mkFS (Some c) (store fs')
        | None => fs'
        end).

(** The checks of [rename] that come before the test on the two paths
    pass: the parent of [oldPath] resolves to a directory that [cred] may
    write and whose listing has an entry for the name of [oldPath]. *)
Definition source_found (now : Z) (oldPath : string) (cred : Cred.Cred) (fs : FS) : Prop :=
  match findINode (Path.dirname oldPath)
          (mkFS None (beginTransaction "readwrite" (store fs))) with
  | (Ok oldDirNode, fs1) =>
    match getDirListing (Path.dirname oldPath) oldDirNode fs1 with
    | (Ok oldDirList, _) =>
      Stats.hasAccess (Inode.toStats now oldDirNode) SyncStore.W_OK cred = true
      /\ SyncStore.truthy_value
           (SyncStore.get_property oldDirList (Path.basename oldPath)) = true
    | _ => False
    end
  | _ => False
  end.

End Engine.

End AsyncStore.

(** ** Concrete collaborators for the worked examples *)
Module Example.

(** Ids as [randomUUID] could draw them, in the order of the calls. *)
Definition uuids : list string :=
  ["6f1b2c3d-0a1b-4c2d-8e3f-000000000001";
   "6f1b2c3d-0a1b-4c2d-8e3f-000000000002";
   "6f1b2c3d-0a1b-4c2d-8e3f-000000000003";
   "6f1b2c3d-0a1b-4c2d-8e3f-000000000004";
   "6f1b2c3d-0a1b-4c2d-8e3f-000000000005";
   "6f1b2c3d-0a1b-4c2d-8e3f-000000000006";
   "6f1b2c3d-0a1b-4c2d-8e3f-000000000007";
   "6f1b2c3d-0a1b-4c2d-8e3f-000000000008";
   "6f1b2c3d-0a1b-4c2d-8e3f-000000000009";
   "6f1b2c3d-0a1b-4c2d-8e3f-00000000000a"]%string.

Definition randomUUID (n : nat) : string := nth n uuids ""%string.

(** [JSON.stringify] of a listing: [{"name":"id",...}], with the quote
    and the backslash escaped. *)
Definition quote_char : ascii := "034"%char.
Definition backslash : ascii := "\"%char.

Fixpoint escape (l : list ascii) : list ascii :=
  match l with
  | [] => []
  | c :: l' =>
    if Ascii.eqb c quote_char || Ascii.eqb c backslash
    then backslash :: c :: escape l'
    else c :: escape l'
  end.

Definition quote (s : string) : list ascii :=
  quote_char :: escape (list_ascii_of_string s) ++ [quote_char].

Fixpoint members (l : list (string * string)) : list ascii :=
  match l with
  | [] => []
  | [(k, v)] => quote k ++ ":"%char :: quote v
  | (k, v) :: l' => quote k ++ ":"%char :: quote v ++ ","%char :: members l'
  end.

Definition JSON_stringify (l : gmap string string) : string :=
  string_of_list_ascii ("{"%char :: members (map_to_list l) ++ ["}"%char]).

(** [JSON.parse] on such texts: one pass over the characters. *)
Inductive parser_state :=
| ExpectKey (first : bool)
| InKey (acc : list ascii) (escaped : bool)
| ExpectColon (key : string)
| ExpectValue (key : string)
| InValue (key : string) (acc : list ascii) (escaped : bool)
| AfterValue
| Done.

Fixpoint parse_chars (st : parser_state) (m : gmap string string) (l : list ascii)
  : option (gmap string string) :=
  match l with
  | [] => match st with Done => Some m | _ => None end
  | c :: l' =>
    match st with
    | ExpectKey first =>
      if Ascii.eqb c quote_char then parse_chars (InKey [] false) m l'
      else if first && Ascii.eqb c "}" then parse_chars Done m l'
      else None
    | InKey acc true => parse_chars (InKey (c :: acc) false) m l'
    | InKey acc false =>
      if Ascii.eqb c backslash then parse_chars (InKey acc true) m l'
      else if Ascii.eqb c quote_char
      then parse_chars (ExpectColon (string_of_list_ascii (rev acc))) m l'
      else parse_chars (InKey (c :: acc) false) m l'
    | ExpectColon key =>
      if Ascii.eqb c ":" then parse_chars (ExpectValue key) m l' else None
    | ExpectValue key =>
      if Ascii.eqb c quote_char then parse_chars (InValue key [] false) m l' else None
    | InValue key acc true => parse_chars (InValue key (c :: acc) false) m l'
    | InValue key acc false =>
      if Ascii.eqb c backslash then parse_chars (InValue key acc true) m l'
      else if Ascii.eqb c quote_char
      then parse_chars AfterValue (<[key := string_of_list_ascii (rev acc)]> m) l'
      else parse_chars (InValue key (c :: acc) false) m l'
    | AfterValue =>
      if Ascii.eqb c "," then parse_chars (ExpectKey false) m l'
      else if Ascii.eqb c "}" then parse_chars Done m l'
      else None
    | Done => None
    end
  end.

Definition JSON_parse (s : string) : option (gmap string string) :=
  match list_ascii_of_string s with
  | "{"%char :: l => parse_chars (ExpectKey true) ∅ l
  | _ => None
  end.

(** The in-memory file system as its constructor leaves it at time [now]:
    an empty store in which [makeRootDirectory] has run. *)
Definition new_InMemory (now : Z) : SyncStore.KV :=
  snd (SyncStore.makeRootDirectory randomUUID now (SyncStore.mkKV ∅ 0)).

Definition mkdirSync := SyncStore.mkdirSync randomUUID JSON_stringify JSON_parse.
Definition renameSync := SyncStore.renameSync JSON_stringify JSON_parse.
Definition accessSync := SyncStore.accessSync JSON_parse.
Definition statSync := SyncStore.statSync JSON_parse.
Definition readdirSync := SyncStore.readdirSync JSON_parse.
Definition readFile := SyncStore.readFile randomUUID JSON_stringify JSON_parse.
Definition appendFileSync :=
  SyncStore.appendFileSync randomUUID JSON_stringify JSON_parse.
Definition truncateSync := SyncStore.truncateSync randomUUID JSON_stringify JSON_parse.
Definition unlinkSync := SyncStore.unlinkSync JSON_stringify JSON_parse.
Definition rmdirSync := SyncStore.rmdirSync JSON_stringify JSON_parse.
Definition writeFile := SyncStore.writeFile randomUUID JSON_stringify JSON_parse.

(** The file system after [mkdir('/a')] and [writeFile('/a/f', 'hello')]. *)
Definition with_hello : SyncStore.KV :=
  snd (writeFile 1002 "/a/f" (JS.encode "hello") "w" 420 Cred.Root
         (snd (mkdirSync 1001 "/a" 493 Cred.Root (new_InMemory 1000)))).

(** An asynchronous store that keeps its records in a map and never
    rejects, and a cache that never holds anything. *)
#[global] Instance map_store : AsyncStore.AsyncKeyValueStore (gmap string (list byte)) := {|
  AsyncStore.beginTransaction := fun _ s => s;
  AsyncStore.tx_get := fun k s => (Ok (s !! k), s);
  AsyncStore.tx_put := fun k d overwrite s =>
    if negb overwrite && bool_decide (is_Some (s !! k)) then (Ok false, s)
    else (Ok true, <[k := d]> s);
  AsyncStore.tx_del := fun k s => (Ok tt, delete k s);
  AsyncStore.tx_commit := fun s => (Ok tt, s);
  AsyncStore.tx_abort := fun s => (Ok tt, s)
|}.

#[global] Instance empty_cache : AsyncStore.LRUCache unit := {|
  AsyncStore.cache_get := fun _ c => (None, c);
  AsyncStore.cache_set := fun _ _ c => c;
  AsyncStore.cache_removeAll := fun c => c
|}.

(** The asynchronous engine over the records of a synchronous one. *)
Definition async_of (kv : SyncStore.KV) : AsyncStore.FS :=
  AsyncStore.mkFS (Some tt) (SyncStore.kv_store kv).

Definition async_rename :=
  AsyncStore.rename (Store := gmap string (list byte)) (Cache := unit)
    JSON_stringify JSON_parse.

(** A file of five bytes opened with [r+]. *)
Definition five_bytes : File.PreloadFile :=
  File.mkPreloadFile "/f" "r+"
    (Stats.mkStats 5 33188 1000 1000 1000 1000 0 0)
    [Byte.x01; Byte.x02; Byte.x03; Byte.x04; Byte.x05] 0 false.

(** Mounted file systems that log the calls they receive and answer that
    every path is an existing regular file of three bytes, in a directory
    without entries. *)
Inductive call :=
| call_exists (fs : nat) (p : string)
| call_stat (fs : nat) (p : string)
| call_readlink (fs : nat) (p : string)
| call_rename (fs : nat) (oldPath newPath : string)
| call_readFile (fs : nat) (p : string)
| call_writeFile (fs : nat) (p : string) (data : list byte)
| call_unlink (fs : nat) (p : string)
| call_readdir (fs : nat) (p : string).

Definition log_exists (fs : nat) (p : string) (_ : Cred.Cred) (w : list call)
  : result bool * list call := (Ok true, w ++ [call_exists fs p]).
Definition log_stat (fs : nat) (p : string) (_ : Cred.Cred) (w : list call)
  : result Stats.Stats * list call :=
  (Ok (Stats.mkStats 3 33188 1000 1000 1000 1000 0 0), w ++ [call_stat fs p]).
Definition log_readlink (fs : nat) (p : string) (_ : Cred.Cred) (w : list call)
  : result string * list call := (Err (ApiError ENOTSUP), w ++ [call_readlink fs p]).
Definition log_rename (fs : nat) (oldPath newPath : string) (_ : Cred.Cred)
    (w : list call) : result unit * list call :=
  (Ok tt, w ++ [call_rename fs oldPath newPath]).
Definition log_readFile (fs : nat) (p : string) (_ : File.FileFlag) (_ : Cred.Cred)
    (w : list call) : result (list byte) * list call :=
  (Ok [Byte.x61; Byte.x62; Byte.x63], w ++ [call_readFile fs p]).
Definition log_writeFile (fs : nat) (p : string) (data : list byte)
    (_ : File.FileFlag) (_ : Z) (_ : Cred.Cred) (w : list call)
  : result unit * list call := (Ok tt, w ++ [call_writeFile fs p data]).
Definition log_unlink (fs : nat) (p : string) (_ : Cred.Cred) (w : list call)
  : result unit * list call := (Ok tt, w ++ [call_unlink fs p]).
Definition log_readdir (fs : nat) (p : string) (_ : Cred.Cred) (w : list call)
  : result (list string) * list call := (Ok [], w ++ [call_readdir fs p]).

Definition rename :=
  Promises.rename log_exists log_stat log_readlink log_rename log_readFile
    log_writeFile log_unlink.
Definition readdir :=
  Promises.readdir log_exists log_stat log_readlink log_readdir.

(** One file system mounted at the root. *)
Definition one_mount : Shared.VFS := Shared.mkVFS [("/", 0%nat)] Cred.Root 0.

(** File system 1 mounted at [/a] and file system 2 at [/a/b]. *)
Definition two_mounts : Shared.VFS :=
  Shared.mkVFS [("/a", 1%nat); ("/a/b", 2%nat)] Cred.Root 0.


Definition fresh_loop : Mutex.EventLoop := Mutex.mkEventLoop 0 [] [].

(** An initialized overlay whose log marks [/z/a.txt] as deleted. *)
Definition overlay_with_deletion : OverlayFS.Overlay :=
  OverlayFS._reparseDeletionLog
    (OverlayFS.mkOverlay true ∅ (String "d" ("/z/a.txt" +:+ String "010" "")) None).

(** An initialized overlay with an empty log, on which [/z/a.txt] is
    deleted and the write of the deletion log is rejected with [ENOSPC]. *)
Definition overlay_after_failed_write : OverlayFS.Overlay :=
  OverlayFS.overlay
    (OverlayFS.settle (Err (ApiError ENOSPC))
       (OverlayFS.deletePath "/z/a.txt"
          (OverlayFS.mkLogger (OverlayFS.restarted_from "") false false []))).

(** The lower file system holds [/z/a.txt] and [/z/b.txt], the upper one
    nothing. *)
Definition upper_exists (_ : string) (_ : Cred.Cred) : bool := false.
Definition lower_exists (p : string) (_ : Cred.Cred) : bool :=
  String.eqb p "/z/a.txt" || String.eqb p "/z/b.txt".

End Example.

(** * Properties *)

(** ** Typed arrays and [DataView] *)

Lemma length_le_bytes n z : length (JS.le_bytes n z) = n.
Proof. revert z. induction n as [|n IH]; intros z; simpl; [reflexivity|]. now rewrite IH. Qed.

Lemma set_bytes_length target src offset out :
  JS.set_bytes target src offset = Ok out -> length out = length target.
Proof.
  unfold JS.set_bytes. intros H.
  destruct (offset <? 0) eqn:Hneg; simpl in H; [discriminate|].
  destruct (Z.of_nat (length target) <? offset + Z.of_nat (length src)) eqn:Hfit;
    [discriminate|].
  injection H as <-. apply Z.ltb_ge in Hneg, Hfit.
  rewrite !length_app, length_firstn, length_skipn. lia.
Qed.

Lemma set_bytes_error target src offset e :
  JS.set_bytes target src offset = Err e -> e = RangeError.
Proof.
  unfold JS.set_bytes. intros H.
  destruct ((offset <? 0) || (Z.of_nat (length target) <? offset + Z.of_nat (length src)));
    congruence.
Qed.

Lemma set_bytes_beyond target src offset :
  Z.of_nat (length target) < offset + Z.of_nat (length src) ->
  JS.set_bytes target src offset = Err RangeError.
Proof.
  intros H. unfold JS.set_bytes.
  apply Z.ltb_lt in H. rewrite H, orb_true_r. reflexivity.
Qed.

(** C9 (the code departs from the claim): [Stats.serialize] allocates 32
    bytes and then writes [uid] at offset 32, so that for every [Stats]
    value the call throws a [RangeError] and yields no payload to
    deserialize. *)
Theorem Stats_serialize_throws (s : Stats.Stats) :
  Stats.serialize s = Err RangeError.
Proof.
  (* The five first writes fit whatever they hold; the sixth starts at the
     end of the buffer. *)
  unfold Stats.serialize, JS.new_Uint8Array. simpl JS.bind. reflexivity.
Qed.

(** ** [PreloadFile.writeSync] *)

Lemma slice_exact a start end_ :
  0 <= start -> start <= end_ -> end_ <= Z.of_nat (length a) ->
  JS.slice a start end_ = firstn (Z.to_nat (end_ - start)) (skipn (Z.to_nat start) a).
Proof.
  intros Hs He Hl. unfold JS.slice, JS.rel_index. cbv zeta.
  destruct (start <? 0) eqn:H1; [apply Z.ltb_lt in H1; lia|].
  destruct (end_ <? 0) eqn:H2; [apply Z.ltb_lt in H2; lia|].
  rewrite (Z.min_l start) by lia. rewrite (Z.min_l end_) by lia.
  rewrite Z.max_l by lia. reflexivity.
Qed.

Lemma set_bytes_ok target src offset :
  0 <= offset -> offset + Z.of_nat (length src) <= Z.of_nat (length target) ->
  JS.set_bytes target src offset
  = Ok (firstn (Z.to_nat offset) target ++ src
        ++ skipn (Z.to_nat offset + length src) target).
Proof.
  intros H0 H1. unfold JS.set_bytes.
  destruct (offset <? 0) eqn:Hn; [apply Z.ltb_lt in Hn; lia|].
  destruct (Z.of_nat (length target) <? offset + Z.of_nat (length src)) eqn:Hf;
    [apply Z.ltb_lt in Hf; lia|].
  reflexivity.
Qed.

Lemma take_drop_written {A} (a b c : list A) n k :
  length a = n -> length b = k -> firstn k (skipn n (a ++ b ++ c)) = b.
Proof.
  intros <- <-. rewrite drop_app_length. apply take_app_length.
Qed.

Ltac file_simpl :=
  unfold File.with_stat, File.with_dirty, File.with_buffer, File.with_pos,
    File.with_size, File.with_mtimeMs, File.with_atimeMs;
  cbn [File._path File._flag File._stat File._buffer File._pos File._dirty
       Stats.size Stats.mode Stats.atimeMs Stats.mtimeMs Stats.ctimeMs
       Stats.birthtimeMs Stats.uid Stats.gid].

(** C8 (the code departs from the claim): on a writable file without the
    synchronous flag whose buffer has the size that its metadata states, a
    write of [len] bytes of [buf] at [pos] succeeds, returns [len], stores
    the bytes at [pos] and sets [mtimeMs]; but the position is left at
    [pos] plus the length of the whole buffer after the write, not at
    [pos + len]. *)
Theorem writeSync_advances_by_buffer_length
    (f : File.PreloadFile) (now : Z) (buf : list byte) (off len pos : Z) :
  File.isWriteable (File._flag f) = true ->
  File.isSynchronous (File._flag f) = false ->
  Stats.size (File._stat f) = Z.of_nat (length (File._buffer f)) ->
  0 <= pos -> 0 <= off -> 0 <= len -> off + len <= Z.of_nat (length buf) ->
  exists f',
    File.writeSync File.NoSyncFile_syncSync f tt now buf off len (Some pos)
      = (Ok len, f', tt)
    /\ firstn (Z.to_nat len) (skipn (Z.to_nat pos) (File._buffer f'))
       = firstn (Z.to_nat len) (skipn (Z.to_nat off) buf)
    /\ Stats.mtimeMs (File._stat f') = now
    /\ Z.of_nat (length (File._buffer f'))
       = Z.max (Z.of_nat (length (File._buffer f))) (pos + len)
    /\ File._pos f' = pos + Z.of_nat (length (File._buffer f')).
Proof.
  intros Hw Hs Hsize Hpos Hoff Hlen Hbuf.
  assert (Hsl : JS.slice buf off (off + len)
                = firstn (Z.to_nat len) (skipn (Z.to_nat off) buf)).
  { rewrite slice_exact by lia. repeat f_equal. lia. }
  assert (Hsll : length (JS.slice buf off (off + len)) = Z.to_nat len).
  { rewrite Hsl, length_firstn, length_skipn. lia. }
  unfold File.writeSync. file_simpl.
  rewrite Hw. cbn [negb].
  destruct (Stats.size (File._stat f) <? pos + len) eqn:Hgrow.
  - apply Z.ltb_lt in Hgrow. file_simpl.
    assert (Hlt : (Z.of_nat (length (File._buffer f)) <? pos + len) = true)
      by (apply Z.ltb_lt; lia).
    rewrite Hlt. unfold JS.new_Uint8Array.
    destruct (pos + len <? 0) eqn:Hn; [apply Z.ltb_lt in Hn; lia|].
    cbn [JS.bind].
    rewrite set_bytes_ok; [|lia|rewrite repeat_length; lia].
    cbn [JS.bind]. file_simpl.
    set (grown := firstn (Z.to_nat 0) _ ++ _).
    assert (Hg : length grown = Z.to_nat (pos + len)).
    { subst grown. rewrite !length_app, length_firstn, length_skipn, repeat_length. lia. }
    rewrite set_bytes_ok by lia. file_simpl.
    rewrite Hs. eexists. split; [reflexivity|]. file_simpl.
    repeat split.
    + rewrite <- Hsl. apply take_drop_written; [|exact Hsll].
      rewrite length_firstn. lia.
    + rewrite !length_app, length_firstn, length_skipn, Hg, Hsll. lia.
  - apply Z.ltb_ge in Hgrow. file_simpl.
    rewrite set_bytes_ok by lia. file_simpl.
    rewrite Hs. eexists. split; [reflexivity|]. file_simpl.
    repeat split.
    + rewrite <- Hsl. apply take_drop_written; [|exact Hsll].
      rewrite length_firstn. lia.
    + rewrite !length_app, length_firstn, length_skipn, Hsll. lia.
Qed.

(** Two bytes written at the start of a file of five bytes: the call
    returns 2 and leaves the position at 5. *)
Lemma writeSync_on_five_bytes :
  exists f',
    File.writeSync File.NoSyncFile_syncSync Example.five_bytes tt 2000
      [Byte.x41; Byte.x42] 0 2 (Some 0) = (Ok 2, f', tt)
    /\ File._buffer f' = [Byte.x41; Byte.x42; Byte.x03; Byte.x04; Byte.x05]
    /\ File._pos f' = 5.
Proof.
  destruct (writeSync_advances_by_buffer_length Example.five_bytes 2000
              [Byte.x41; Byte.x42] 0 2 0)
    as (f' & Hrun & _ & _ & _ & _);
    [reflexivity | reflexivity | reflexivity | lia | lia | lia | simpl; lia |].
  exists f'. split; [exact Hrun|].
  vm_compute in Hrun. injection Hrun as <-. split; reflexivity.
Defined.

(** ** The promise API: [rename] and [readdir] *)

Lemma prefix_append (p s : string) : String.prefix p (p +:+ s) = true.
Proof.
  induction p as [|c p IH]; simpl.
  - now destruct s.
  - destruct (ascii_dec c c); [exact IH | congruence].
Qed.

Lemma substring_all (s : string) : String.substring 0 (String.length s) s = s.
Proof. induction s as [|c s IH]; simpl; [reflexivity | now rewrite IH]. Qed.

Lemma slice_from_append (p s : string) :
  JS.slice_from (String.length p) (p +:+ s) = s.
Proof.
  unfold JS.slice_from. induction p as [|c p IH]; simpl.
  - rewrite Nat.sub_0_r. apply substring_all.
  - exact IH.
Qed.

(** Two calls of [resolveFS] never return the same object. *)
Lemma resolveFS_fresh_object (p1 p2 : string) (v v1 v2 : Shared.VFS)
    (r1 r2 : Shared.resolved) :
  Shared.resolveFS p1 v = (Ok r1, v1) ->
  Shared.resolveFS p2 v1 = (Ok r2, v2) ->
  Shared.same_object r1 r2 = false.
Proof.
  unfold Shared.resolveFS. intros H1 H2.
  destruct (Shared.find_mount _ p1) as [[[f1 q1] m1]|]; [|discriminate].
  injection H1 as <- <-.
  cbn [Shared.mounts Shared.objects Shared.cred] in H2.
  destruct (Shared.find_mount _ p2) as [[[f2 q2] m2]|]; [|discriminate].
  injection H2 as <- _.
  unfold Shared.same_object. cbn [Shared.ref].
  apply Nat.eqb_neq. lia.
Qed.

(** C2 (the code departs from the claim): [rename] compares the two
    objects that [resolveFS] has just built, which are never the same
    object, so that the branch calling the backend's [rename] is never
    taken: whatever the backend's [rename] does, the outcome of [rename]
    is that of the copy and the unlink, also when both paths lie on the
    same mount. *)
Theorem rename_never_calls_backend_rename {W : Type}
    fs_exists fs_stat fs_readlink fs_readFile fs_writeFile fs_unlink
    (fs_rename fs_rename' : nat -> string -> string -> Cred.Cred -> W -> result unit * W)
    (fuel : nat) (oldPath newPath : string) (s : Shared.VFS * W) :
  Promises.rename fs_exists fs_stat fs_readlink fs_rename fs_readFile
    fs_writeFile fs_unlink fuel oldPath newPath s
  = Promises.rename fs_exists fs_stat fs_readlink fs_rename' fs_readFile
      fs_writeFile fs_unlink fuel oldPath newPath s.
Proof.
  unfold Promises.rename, Promises.mbind, Promises.lift, Promises.on_vfs.
  destruct (Shared.normalizePath oldPath) as [old|e]; [|reflexivity].
  destruct (Shared.normalizePath newPath) as [new|e]; [|reflexivity].
  destruct s as [v w]. cbn [fst snd].
  destruct (Shared.resolveFS old v) as [[r1|e] v1] eqn:H1; [|reflexivity].
  cbn [fst snd].
  destruct (Shared.resolveFS new v1) as [[r2|e] v2] eqn:H2; [|reflexivity].
  unfold Promises.try_catch.
  now rewrite (resolveFS_fresh_object _ _ _ _ _ _ _ H1 H2).
Qed.

(** With one file system mounted at the root, [rename('/a', '/b')] reads
    [/a], writes [/b] and unlinks [/a] on it; its [rename] is not called. *)
Lemma rename_on_one_mount_copies :
  snd (snd (Example.rename 5 "/a" "/b" (Example.one_mount, [])))
  = [Example.call_exists 0 "/a"; Example.call_stat 0 "/a";
     Example.call_readFile 0 "/a"; Example.call_exists 0 "/b";
     Example.call_stat 0 "/b";
     Example.call_writeFile 0 "/b" [Byte.x61; Byte.x62; Byte.x63];
     Example.call_unlink 0 "/a"].
Proof. vm_compute. reflexivity. Qed.

(** C6 (the code departs from the claim): for a mount point one segment
    below the directory, the entry that [readdir] computes is the segment
    with the separator in front, which it then skips for holding a
    separator.  With file systems mounted at [/a] and [/a/b],
    [readdir('/a')] is the listing of the first one alone, here empty,
    without [b]. *)
Theorem readdir_skips_mount_points_below :
  (forall p name : string, Promises.mount_entry p (p +:+ "/" +:+ name) = None)
  /\ fst (Example.readdir 5 "/a" (Example.two_mounts, [])) = Ok [].
Proof.
  split; [|vm_compute; reflexivity].
  intros p name. unfold Promises.mount_entry, JS.startsWith.
  rewrite prefix_append, slice_from_append. reflexivity.
Qed.

(** At the root the separator is part of the directory's path, and the
    mount point is listed. *)
Lemma readdir_lists_mount_points_below_root (name : string) :
  JS.includes "/" name = false -> name <> ""%string ->
  Promises.mount_entry "/" ("/" +:+ name) = Some name.
Proof.
  intros Hslash Hne. unfold Promises.mount_entry, JS.startsWith.
  rewrite (prefix_append "/" name), (slice_from_append "/" name), Hslash.
  destruct name; [congruence | reflexivity].
Qed.

(** ** The overlay *)

(** C3, as the code has it: on an overlay that passes [checkInitialized],
    one that is initialized and on which no write of the deletion log has
    failed since the last check, [exists(p)] returns true exactly when [p]
    exists on the writable layer, or exists on the readable layer and is
    not marked as deleted. *)
Theorem overlay_exists_is_union writable_exists readable_exists
    (o : OverlayFS.Overlay) (p : string) (cred : Cred.Cred) :
  fst (OverlayFS.checkInitialized o) = Ok tt ->
  exists b : bool,
    OverlayFS.exists_ writable_exists readable_exists o p cred = (Ok b, o)
    /\ (b = true
        <-> (writable_exists p cred = true
             \/ (readable_exists p cred = true
                 /\ OverlayFS._deletedFiles o !! p <> Some true))).
Proof.
  intros Hinit. unfold OverlayFS.exists_.
  unfold OverlayFS.checkInitialized in *.
  destruct (OverlayFS._isInitialized o); [|discriminate]. cbn [negb] in *.
  destruct (OverlayFS._deleteLogError o); [discriminate|].
  eexists. split; [reflexivity|].
  unfold OverlayFS.not_deleted.
  rewrite orb_true_iff, andb_true_iff, negb_true_iff, bool_decide_eq_false.
  reflexivity.
Qed.

(** On the overlay whose log marks [/z/a.txt] as deleted, [exists] on its
    neighbour [/z/b.txt], which the lower layer holds. *)
Lemma overlay_exists_after_deletion :
  exists b : bool,
    OverlayFS.exists_ Example.upper_exists Example.lower_exists
      Example.overlay_with_deletion "/z/b.txt" Cred.Root
    = (Ok b, Example.overlay_with_deletion)
    /\ (b = true
        <-> (Example.upper_exists "/z/b.txt" Cred.Root = true
             \/ (Example.lower_exists "/z/b.txt" Cred.Root = true
                 /\ OverlayFS._deletedFiles Example.overlay_with_deletion !! "/z/b.txt"
                    <> Some true))).
Proof.
  apply (overlay_exists_is_union Example.upper_exists Example.lower_exists
           Example.overlay_with_deletion "/z/b.txt" Cred.Root).
  reflexivity.
Defined.

(** C3, as the claim has it, fails: the overlay is initialized, [/z/a.txt]
    is deleted and the write of the deletion log is rejected with
    [ENOSPC].  The lower layer holds [/z/b.txt], which is not marked as
    deleted, and [exists('/z/b.txt')] throws [ENOSPC] where the claim has
    it return true. *)
Lemma overlay_exists_throws_after_failed_log_write :
  let o := Example.overlay_after_failed_write in
  OverlayFS._isInitialized o = true
  /\ Example.lower_exists "/z/b.txt" Cred.Root = true
  /\ OverlayFS._deletedFiles o !! "/z/b.txt"%string <> Some true
  /\ fst (OverlayFS.exists_ Example.upper_exists Example.lower_exists o "/z/b.txt"
            Cred.Root)
     = Err (ApiError ENOSPC).
Proof.
  cbv zeta. split; [reflexivity|]. split; [reflexivity|].
  split; [vm_compute; discriminate | vm_compute; reflexivity].
Qed.

(** ** The per-path mutex *)

Ltac mutex_simpl :=
  cbn [fst snd Mutex._locks Mutex.promises Mutex.timers Mutex.resolved] in *.

Lemma step_keeps_wf s1 s2 :
  Mutex.step s1 s2 -> Mutex.wf (fst s1) (snd s1) -> Mutex.wf (fst s2) (snd s2).
Proof.
  intros Hstep (Hq & Ht & Hr).
  destruct Hstep as [path m ev|path m ev|path m ev|m ev]; cbn [fst snd] in *.
  - unfold Mutex.lock.
    destruct (Mutex._locks m !! path) as [q|] eqn:Hp; cbn [fst snd Mutex._locks Mutex.promises
      Mutex.timers Mutex.resolved]; repeat split.
    + intros path' q' pr Hl Hin. mutex_simpl.
      destruct (decide (path = path')) as [<-|Hne].
      * rewrite lookup_insert_eq in Hl. injection Hl as <-.
        apply elem_of_app in Hin as [Hin|Hin].
        -- specialize (Hq _ _ _ Hp Hin). lia.
        -- apply list_elem_of_singleton in Hin. lia.
      * rewrite lookup_insert_ne in Hl by done. specialize (Hq _ _ _ Hl Hin). lia.
    + intros pr Hin. mutex_simpl. specialize (Ht _ Hin). lia.
    + intros pr Hin. mutex_simpl. specialize (Hr _ Hin). lia.
    + intros path' q' pr Hl Hin. mutex_simpl.
      destruct (decide (path = path')) as [<-|Hne].
      * rewrite lookup_insert_eq in Hl. injection Hl as <-.
        apply elem_of_nil in Hin. contradiction.
      * rewrite lookup_insert_ne in Hl by done. specialize (Hq _ _ _ Hl Hin). lia.
    + intros pr Hin. mutex_simpl. specialize (Ht _ Hin). lia.
    + intros pr Hin. mutex_simpl. specialize (Hr _ Hin). lia.
  - unfold Mutex.unlock.
    destruct (Mutex._locks m !! path) as [[|next q]|] eqn:Hp; cbn [fst snd Mutex._locks
      Mutex.promises Mutex.timers Mutex.resolved]; repeat split; try assumption.
    + intros path' q' pr Hl Hin. mutex_simpl.
      destruct (decide (path = path')) as [<-|Hne].
      * rewrite lookup_delete_eq in Hl. discriminate.
      * rewrite lookup_delete_ne in Hl by done. eauto.
    + intros path' q' pr Hl Hin. mutex_simpl.
      destruct (decide (path = path')) as [<-|Hne].
      * rewrite lookup_insert_eq in Hl. injection Hl as <-.
        apply (Hq _ _ _ Hp). now apply list_elem_of_further.
      * rewrite lookup_insert_ne in Hl by done. eauto.
    + intros pr Hin. mutex_simpl. apply elem_of_app in Hin as [Hin|Hin]; [eauto|].
      apply list_elem_of_singleton in Hin as ->.
      apply (Hq _ _ _ Hp). apply list_elem_of_here.
  - unfold Mutex.tryLock.
    destruct (Mutex._locks m !! path) as [q|] eqn:Hp; cbn [fst snd Mutex._locks];
      repeat split; try assumption.
    intros path' q' pr Hl Hin. mutex_simpl.
    destruct (decide (path = path')) as [<-|Hne].
    + rewrite lookup_insert_eq in Hl. injection Hl as <-.
      apply elem_of_nil in Hin. contradiction.
    + rewrite lookup_insert_ne in Hl by done. eauto.
  - unfold Mutex.run_timer.
    destruct (Mutex.timers ev) as [|next rest] eqn:Hti.
    + repeat split; try assumption. intros pr Hin. rewrite Hti in Hin. eauto.
    + repeat split; mutex_simpl; try assumption.
      * intros pr Hin. apply Ht. now apply list_elem_of_further.
      * intros pr Hin. apply elem_of_cons in Hin as [->|Hin]; [|eauto].
        apply Ht. apply list_elem_of_here.
Qed.

Lemma step_keeps_forgotten pr s1 s2 :
  Mutex.step s1 s2 -> Mutex.forgotten pr s1 -> Mutex.forgotten pr s2.
Proof.
  intros Hstep (Hlt & Hr & Ht & Hq).
  destruct Hstep as [path m ev|path m ev|path m ev|m ev]; cbn [fst snd] in *.
  - unfold Mutex.lock.
    destruct (Mutex._locks m !! path) as [q|] eqn:Hp; cbn [fst snd Mutex._locks Mutex.promises
      Mutex.timers Mutex.resolved]; repeat split; mutex_simpl; try assumption; try lia.
    + intros path' q' Hl Hin. mutex_simpl.
      destruct (decide (path = path')) as [<-|Hne].
      * rewrite lookup_insert_eq in Hl. injection Hl as <-.
        apply elem_of_app in Hin as [Hin|Hin]; [exact (Hq _ _ Hp Hin)|].
        apply list_elem_of_singleton in Hin. lia.
      * rewrite lookup_insert_ne in Hl by done. exact (Hq _ _ Hl Hin).
    + intros path' q' Hl Hin. mutex_simpl.
      destruct (decide (path = path')) as [<-|Hne].
      * rewrite lookup_insert_eq in Hl. injection Hl as <-.
        apply elem_of_nil in Hin. contradiction.
      * rewrite lookup_insert_ne in Hl by done. exact (Hq _ _ Hl Hin).
  - unfold Mutex.unlock.
    destruct (Mutex._locks m !! path) as [[|next q]|] eqn:Hp; cbn [fst snd Mutex._locks
      Mutex.promises Mutex.timers Mutex.resolved]; repeat split; try assumption.
    + intros path' q' Hl Hin. mutex_simpl.
      destruct (decide (path = path')) as [<-|Hne].
      * rewrite lookup_delete_eq in Hl. discriminate.
      * rewrite lookup_delete_ne in Hl by done. exact (Hq _ _ Hl Hin).
    + intros Hin. mutex_simpl. apply elem_of_app in Hin as [Hin|Hin]; [exact (Ht Hin)|].
      apply list_elem_of_singleton in Hin as ->.
      apply (Hq _ _ Hp). apply list_elem_of_here.
    + intros path' q' Hl Hin. mutex_simpl.
      destruct (decide (path = path')) as [<-|Hne].
      * rewrite lookup_insert_eq in Hl. injection Hl as <-.
        apply (Hq _ _ Hp). now apply list_elem_of_further.
      * rewrite lookup_insert_ne in Hl by done. exact (Hq _ _ Hl Hin).
  - unfold Mutex.tryLock.
    destruct (Mutex._locks m !! path) as [q|] eqn:Hp; cbn [fst snd Mutex._locks];
      repeat split; try assumption.
    intros path' q' Hl Hin. mutex_simpl.
    destruct (decide (path = path')) as [<-|Hne].
    + rewrite lookup_insert_eq in Hl. injection Hl as <-.
      apply elem_of_nil in Hin. contradiction.
    + rewrite lookup_insert_ne in Hl by done. exact (Hq _ _ Hl Hin).
  - unfold Mutex.run_timer.
    destruct (Mutex.timers ev) as [|next rest] eqn:Hti.
    + repeat split; try assumption. mutex_simpl. rewrite Hti. apply not_elem_of_nil.
    + repeat split; mutex_simpl; try assumption.
      * intros Hin. apply elem_of_cons in Hin as [->|Hin]; [|exact (Hr Hin)].
        apply Ht. apply list_elem_of_here.
      * intros Hin. apply Ht. now apply list_elem_of_further.
Qed.

Lemma steps_keep_forgotten pr s1 s2 :
  Mutex.steps s1 s2 -> Mutex.forgotten pr s1 -> Mutex.forgotten pr s2.
Proof.
  induction 1 as [s|s1 s2 s3 Hstep _ IH]; [trivial|].
  intros H. apply IH. eapply step_keeps_forgotten; eassumption.
Qed.

(** C4 (the code departs from the claim): when the path has no entry,
    [lock] creates the entry and returns a promise whose [resolve] it
    neither calls nor keeps; whatever is then done with the mutex and
    however many timers fire, that promise is never settled, so that the
    caller of [lock] on a free path waits for ever. *)
Theorem lock_of_free_path_never_resolves
    (m : Mutex.Mutex) (ev : Mutex.EventLoop) (path : string)
    (s' : Mutex.Mutex * Mutex.EventLoop) :
  Mutex.wf m ev ->
  Mutex._locks m !! path = None ->
  Mutex.steps (snd (fst (Mutex.lock path m ev)), snd (Mutex.lock path m ev)) s' ->
  Mutex.isLocked path (snd (fst (Mutex.lock path m ev))) = true
  /\ Mutex.is_resolved (fst (fst (Mutex.lock path m ev))) (snd s') = false.
Proof.
  intros (Hq & Ht & Hr) Hfree Hsteps. unfold Mutex.lock in *. rewrite Hfree in *.
  cbn [fst snd] in *. split.
  - unfold Mutex.isLocked. cbn [Mutex._locks]. rewrite lookup_insert_eq.
    apply bool_decide_eq_true. eauto.
  - apply bool_decide_eq_false.
    apply (steps_keep_forgotten (Mutex.promises ev)) in Hsteps; [apply Hsteps|].
    repeat split; cbn [fst snd Mutex.promises Mutex.resolved Mutex.timers Mutex._locks].
    + lia.
    + intros Hin. mutex_simpl. specialize (Hr _ Hin). lia.
    + intros Hin. mutex_simpl. specialize (Ht _ Hin). lia.
    + intros path' q Hl Hin. mutex_simpl.
      destruct (decide (path = path')) as [<-|Hne].
      * rewrite lookup_insert_eq in Hl. injection Hl as <-.
        apply elem_of_nil in Hin. contradiction.
      * rewrite lookup_insert_ne in Hl by done. specialize (Hq _ _ _ Hl Hin). lia.
Qed.

(** On a new mutex, the promise of the first [lock] is still pending after
    the event loop has run. *)
Lemma lock_on_new_mutex_never_resolves :
  Mutex.isLocked "/x" (snd (fst (Mutex.lock "/x" Mutex.new_Mutex Example.fresh_loop))) = true
  /\ Mutex.is_resolved (fst (fst (Mutex.lock "/x" Mutex.new_Mutex Example.fresh_loop)))
       (Mutex.run_timer (snd (Mutex.lock "/x" Mutex.new_Mutex Example.fresh_loop)))
     = false.
Proof.
  apply (lock_of_free_path_never_resolves Mutex.new_Mutex Example.fresh_loop "/x"
           (snd (fst (Mutex.lock "/x" Mutex.new_Mutex Example.fresh_loop)),
            Mutex.run_timer (snd (Mutex.lock "/x" Mutex.new_Mutex Example.fresh_loop)))).
  - repeat split; simpl; intros; try (exfalso; eapply elem_of_nil; eassumption).
    rewrite lookup_empty in *. discriminate.
  - reflexivity.
  - eapply Mutex.steps_step; [apply Mutex.step_timer | apply Mutex.steps_refl].
Defined.

(** ** [LockedFS] *)

Section LockedFS_at_work.
Context {F V : Type}.
Variable fs_async : Locked.op -> Cred.Cred -> F -> result V * F.
Variable fs_sync : Locked.op -> Cred.Cred -> F -> result V * F.







End LockedFS_at_work.


(** ** Permission checks of the key-value engine *)

Lemma hasAccess_of_root (s : Stats.Stats) (mode : Z) (cred : Cred.Cred) :
  Cred.euid cred = 0 \/ Cred.egid cred = 0 -> Stats.hasAccess s mode cred = true.
Proof.
  intros H. unfold Stats.hasAccess.
  destruct H as [-> | ->]; simpl; [reflexivity|].
  now rewrite orb_true_r.
Qed.

Lemma view_get_error view off n e :
  JS.view_get view off n = Err e -> e = RangeError.
Proof.
  unfold JS.view_get.
  destruct ((off <? 0) || (Z.of_nat (length view) <? off + Z.of_nat n)); congruence.
Qed.

Lemma Deserialize_error data e :
  Inode.Deserialize data = Err e -> e = RangeError.
Proof.
  unfold Inode.Deserialize, JS.getUint32, JS.getUint16, JS.getFloat64.
  repeat match goal with
         | |- context [JS.view_get ?v ?o ?n] =>
           let H := fresh "H" in
           destruct (JS.view_get v o n) eqn:H;
           [cbn [JS.bind] | apply view_get_error in H; cbn [JS.bind]; congruence]
         end.
  discriminate.
Qed.

Lemma serialize_error i e :
  Inode.serialize i = Err e -> e = RangeError.
Proof.
  unfold Inode.serialize, JS.new_Uint8Array, JS.setUint32, JS.setUint16,
    JS.setFloat64, JS.view_set.
  destruct (Inode.getSize i <? 0); cbn [JS.bind]; [congruence|].
  repeat match goal with
         | |- context [JS.bind (JS.set_bytes ?t ?s ?o) _] =>
           let H := fresh "H" in
           destruct (JS.set_bytes t s o) eqn:H;
           [cbn [JS.bind] | apply set_bytes_error in H; cbn [JS.bind]; congruence]
         end.
  apply set_bytes_error.
Qed.

Section never_throws.
Variable randomUUID : nat -> string.
Variable JSON_stringify : gmap string string -> string.
Variable JSON_parse : string -> option (gmap string string).
Variable code : ErrorCode.

Local Abbreviation never := (SyncStore.never_throws (ApiError code)).

Lemma never_ret {A} (a : A) : never (SyncStore.ret a).
Proof. intros tx. discriminate. Qed.

Lemma never_throw {A} (e : exn) : e <> ApiError code -> never (@SyncStore.throw A e).
Proof. intros H tx. simpl. congruence. Qed.

Lemma never_lift {A} (r : result A) : r <> Err (ApiError code) -> never (SyncStore.lift r).
Proof. intros H tx. exact H. Qed.

Lemma never_bind {A B} (c : SyncStore.T A) (k : A -> SyncStore.T B) :
  never c -> (forall a, never (k a)) -> never (SyncStore.tbind c k).
Proof.
  intros Hc Hk tx. unfold SyncStore.tbind. specialize (Hc tx).
  destruct (c tx) as [[a|e] tx']; [apply Hk|].
  cbn [fst] in *. congruence.
Qed.

Lemma never_try_abort {A} (c : SyncStore.T A) : never c -> never (SyncStore.try_abort c).
Proof.
  intros Hc tx. unfold SyncStore.try_abort. specialize (Hc tx).
  destruct (c tx) as [[a|e] tx']; [discriminate|].
  cbn [fst] in *. congruence.
Qed.

Lemma never_tx_get key : never (SyncStore.tx_get key).
Proof. intros tx. discriminate. Qed.

Lemma never_tx_put key data overwrite : never (SyncStore.tx_put key data overwrite).
Proof. intros tx. unfold SyncStore.tx_put. now destruct (_ && _). Qed.

Lemma never_tx_del key : never (SyncStore.tx_del key).
Proof. intros tx. discriminate. Qed.

Lemma never_draw : never (SyncStore.draw randomUUID).
Proof. intros tx. discriminate. Qed.

Lemma never_Deserialize data : never (SyncStore.lift (Inode.Deserialize data)).
Proof.
  apply never_lift. intros H. apply Deserialize_error in H. discriminate.
Qed.

Lemma never_serialize i : never (SyncStore.lift (Inode.serialize i)).
Proof.
  apply never_lift. intros H. apply serialize_error in H. discriminate.
Qed.

Lemma never_new_PreloadFile p flag stat data :
  never (SyncStore.lift (File.new_PreloadFile p flag stat data)).
Proof.
  apply never_lift. unfold File.new_PreloadFile. now destruct (_ && _).
Qed.

Lemma never_addNewNode data : never (SyncStore.addNewNode randomUUID data).
Proof.
  unfold SyncStore.addNewNode.
  apply never_bind; [apply never_draw | intros id].
  apply never_bind; [apply never_tx_put | intros _]. apply never_ret.
Qed.

End never_throws.

Ltac never_step :=
  match goal with
  | |- SyncStore.never_throws _ (SyncStore.tbind _ _) => apply never_bind; [|intros ?]
  | |- SyncStore.never_throws _ (SyncStore.ret _) => apply never_ret
  | |- SyncStore.never_throws _ (SyncStore.throw _) => apply never_throw; discriminate
  | |- SyncStore.never_throws _ (SyncStore.try_abort _) => apply never_try_abort
  | |- SyncStore.never_throws _ (SyncStore.tx_get _) => apply never_tx_get
  | |- SyncStore.never_throws _ (SyncStore.tx_put _ _ _) => apply never_tx_put
  | |- SyncStore.never_throws _ (SyncStore.tx_del _) => apply never_tx_del
  | |- SyncStore.never_throws _ (SyncStore.addNewNode _ _) => apply never_addNewNode
  | |- SyncStore.never_throws _ (SyncStore.lift (Inode.Deserialize _)) =>
    apply never_Deserialize
  | |- SyncStore.never_throws _ (SyncStore.lift (Inode.serialize _)) =>
    apply never_serialize
  | |- SyncStore.never_throws _ (SyncStore.lift (File.new_PreloadFile _ _ _ _)) =>
    apply never_new_PreloadFile
  | |- SyncStore.never_throws _ (if ?b then _ else _) => destruct b
  | |- SyncStore.never_throws _ (match ?x with _ => _ end) => destruct x
  | |- SyncStore.never_throws _ (let '(_, _) := ?x in _) => destruct x
  end.

Section never_EACCES.
Variable randomUUID : nat -> string.
Variable JSON_stringify : gmap string string -> string.
Variable JSON_parse : string -> option (gmap string string).

Local Abbreviation never := (SyncStore.never_throws (ApiError EACCES)).

Lemma never_getINode p id : never (SyncStore.getINode p id).
Proof. unfold SyncStore.getINode. repeat never_step. Qed.

Lemma never_getDirListing p inode : never (SyncStore.getDirListing JSON_parse p inode).
Proof. unfold SyncStore.getDirListing. repeat never_step. Qed.

Lemma never__findINode fuel parent filename visited :
  never (SyncStore._findINode JSON_parse fuel parent filename visited).
Proof.
  revert parent filename visited.
  induction fuel as [|fuel IH]; intros parent filename visited; simpl.
  - never_step.
  - repeat first [ apply IH | apply never_getINode | apply never_getDirListing
                 | never_step ].
Qed.

Lemma never_findINode p : never (SyncStore.findINode JSON_parse p).
Proof.
  unfold SyncStore.findINode.
  apply never_bind; [apply never__findINode | intros id; apply never_getINode].
Qed.

End never_EACCES.

Lemma transaction_never {A} (e : exn) (c : SyncStore.T A) (s : SyncStore.KV) :
  SyncStore.never_throws e c -> fst (SyncStore.transaction c s) <> Err e.
Proof.
  intros H. unfold SyncStore.transaction.
  specialize (H (SyncStore.begin s)).
  now destruct (c _) as [r tx].
Qed.

Ltac never_EACCES Hacc :=
  repeat first [ progress cbv zeta
               | rewrite Hacc; cbn [negb]
               | apply never_findINode | apply never_getINode
               | apply never_getDirListing | never_step ].

(** C10: [hasAccess] answers true for every mode and every file as soon as
    the effective user id or the effective group id of the credentials is
    0; hence, for such credentials, no method of the key-value engine that
    checks a permission ([accessSync], [statSync], [openFileSync],
    [openSync], [readdirSync], [createFileSync], [mkdirSync], [unlinkSync],
    [rmdirSync], [renameSync]) ever fails with [EACCES], whatever the mode
    and the owner of the files. *)
Theorem permission_checks_pass_for_uid_or_gid_0 (cred : Cred.Cred) :
  Cred.euid cred = 0 \/ Cred.egid cred = 0 ->
  (forall (s : Stats.Stats) (mode : Z), Stats.hasAccess s mode cred = true)
  /\ (forall randomUUID JSON_stringify JSON_parse now p q mode flag kv,
        let denied {A} (r : result A * SyncStore.KV) := fst r = Err (ApiError EACCES) in
        ~ denied (SyncStore.accessSync JSON_parse now p mode cred kv)
        /\ ~ denied (SyncStore.statSync JSON_parse now p cred kv)
        /\ ~ denied (SyncStore.openFileSync JSON_parse now p flag cred kv)
        /\ ~ denied (SyncStore.openSync randomUUID JSON_stringify JSON_parse
                       now p flag mode cred kv)
        /\ ~ denied (SyncStore.readdirSync JSON_parse now p cred kv)
        /\ ~ denied (SyncStore.createFileSync randomUUID JSON_stringify JSON_parse
                       now p flag mode cred kv)
        /\ ~ denied (SyncStore.mkdirSync randomUUID JSON_stringify JSON_parse
                       now p mode cred kv)
        /\ ~ denied (SyncStore.unlinkSync JSON_stringify JSON_parse now p cred kv)
        /\ ~ denied (SyncStore.rmdirSync JSON_stringify JSON_parse now p cred kv)
        /\ ~ denied (SyncStore.renameSync JSON_stringify JSON_parse now p q cred kv)).
Proof.
  intros Hroot.
  assert (Hacc : forall s mode, Stats.hasAccess s mode cred = true)
    by (intros; now apply hasAccess_of_root).
  split; [exact Hacc|]. intros randomUUID JSON_stringify JSON_parse now p q mode flag kv denied.
  subst denied. cbv beta.
  assert (Hstat : forall now p kv,
             fst (SyncStore.statSync JSON_parse now p cred kv) <> Err (ApiError EACCES)).
  { intros. apply transaction_never. never_EACCES Hacc. }
  assert (Hcreate : forall now p flag mode kv,
             fst (SyncStore.createFileSync randomUUID JSON_stringify JSON_parse
                    now p flag mode cred kv) <> Err (ApiError EACCES)).
  { intros. apply transaction_never. unfold SyncStore.commitNewFile.
    never_EACCES Hacc. }
  assert (Hunlink : forall now p kv,
             fst (SyncStore.unlinkSync JSON_stringify JSON_parse now p cred kv)
             <> Err (ApiError EACCES)).
  { intros. apply transaction_never. unfold SyncStore.removeEntry_tx.
    never_EACCES Hacc. }
  assert (Hopenfile : forall now p flag kv,
             fst (SyncStore.openFileSync JSON_parse now p flag cred kv)
             <> Err (ApiError EACCES)).
  { intros. apply transaction_never. never_EACCES Hacc. }
  assert (Hreaddir : forall now p kv,
             fst (SyncStore.readdirSync JSON_parse now p cred kv) <> Err (ApiError EACCES)).
  { intros. apply transaction_never. never_EACCES Hacc. }
  repeat split.
  - apply transaction_never. never_EACCES Hacc.
  - apply Hstat.
  - apply Hopenfile.
  - unfold SyncStore.openSync, FileSystem.openSync.
    pose proof (Hstat now p kv) as H1.
    destruct (SyncStore.statSync JSON_parse now p cred kv) as [[stats|e] kv1].
    + rewrite Hacc. cbn [negb].
      destruct (File.pathExistsAction flag); try discriminate.
      * apply Hopenfile.
      * pose proof (Hunlink now p kv1) as H2.
        destruct (SyncStore.unlinkSync _ _ now p cred kv1) as [[u|e] kv2];
          [apply Hcreate | cbn [fst] in *; congruence].
    + destruct (File.pathNotExistsAction flag); try discriminate.
      pose proof (Hstat now (Path.dirname p) kv1) as H2.
      destruct (SyncStore.statSync JSON_parse now (Path.dirname p) cred kv1)
        as [[pstats|e'] kv2]; [|cbn [fst] in *; congruence].
      destruct (negb (Stats.isDirectory pstats)); [discriminate | apply Hcreate].
  - apply Hreaddir.
  - apply Hcreate.
  - apply transaction_never. unfold SyncStore.commitNewFile. never_EACCES Hacc.
  - apply Hunlink.
  - unfold SyncStore.rmdirSync.
    pose proof (Hreaddir now p kv) as H1.
    destruct (SyncStore.readdirSync JSON_parse now p cred kv) as [[entries|e] kv1];
      [|cbn [fst] in *; congruence].
    destruct (0 <? length entries)%nat; [discriminate|].
    apply transaction_never. unfold SyncStore.removeEntry_tx. never_EACCES Hacc.
  - apply transaction_never. unfold SyncStore.renameSync_tx. never_EACCES Hacc.
Qed.

(** Credentials of an ordinary user whose effective group is 0. *)
Lemma permission_checks_pass_for_group_0 :
  let cred := Cred.mkCred 1000 0 1000 0 1000 0 in
  (Cred.euid cred = 0 \/ Cred.egid cred = 0)
  /\ Stats.hasAccess (Stats.mkStats 0 32768 0 0 0 0 0 5) 7 cred = true.
Proof.
  intros cred. split; [right; reflexivity|].
  apply (permission_checks_pass_for_uid_or_gid_0 cred). right. reflexivity.
Defined.

(** ** Path resolution only reads *)

Lemma reads_only_ret {A} (a : A) : SyncStore.reads_only (SyncStore.ret a).
Proof. intros tx r tx' [= <- <-]. auto. Qed.

Lemma reads_only_throw {A} (e : exn) : SyncStore.reads_only (@SyncStore.throw A e).
Proof. intros tx r tx' [= <- <-]. auto. Qed.

Lemma reads_only_lift {A} (r : result A) : SyncStore.reads_only (SyncStore.lift r).
Proof. intros tx r' tx' [= <- <-]. auto. Qed.

Lemma reads_only_tx_get key : SyncStore.reads_only (SyncStore.tx_get key).
Proof.
  intros tx r tx' [= <- <-]. unfold SyncStore.stashOldValue.
  destruct (SyncStore.originalData tx !! key); cbn; repeat split; try reflexivity.
  rewrite dom_insert. set_solver.
Qed.

Lemma reads_only_bind {A B} (c : SyncStore.T A) (k : A -> SyncStore.T B) :
  SyncStore.reads_only c -> (forall a, SyncStore.reads_only (k a)) ->
  SyncStore.reads_only (SyncStore.tbind c k).
Proof.
  intros Hc Hk tx r tx'. unfold SyncStore.tbind.
  destruct (c tx) as [[a|e] tx1] eqn:Hrun.
  - intros Hk'. destruct (Hc _ _ _ Hrun) as (H1 & H2 & H3 & H4).
    destruct (Hk _ _ _ _ Hk') as (H1' & H2' & H3' & H4').
    repeat split; try congruence. set_solver.
  - intros [= <- <-]. exact (Hc _ _ _ Hrun).
Qed.

Ltac reads_only_step :=
  match goal with
  | |- SyncStore.reads_only (SyncStore.tbind _ _) => apply reads_only_bind; [|intros ?]
  | |- SyncStore.reads_only (SyncStore.ret _) => apply reads_only_ret
  | |- SyncStore.reads_only (SyncStore.throw _) => apply reads_only_throw
  | |- SyncStore.reads_only (SyncStore.lift _) => apply reads_only_lift
  | |- SyncStore.reads_only (SyncStore.tx_get _) => apply reads_only_tx_get
  | |- SyncStore.reads_only (if ?b then _ else _) => destruct b
  | |- SyncStore.reads_only (match ?x with _ => _ end) => destruct x
  end.

Lemma reads_only_getINode p id : SyncStore.reads_only (SyncStore.getINode p id).
Proof. unfold SyncStore.getINode. repeat reads_only_step. Qed.

Section reads_only.
Variable JSON_parse : string -> option (gmap string string).

Lemma reads_only_getDirListing p inode :
  SyncStore.reads_only (SyncStore.getDirListing JSON_parse p inode).
Proof. unfold SyncStore.getDirListing. repeat reads_only_step. Qed.

Lemma reads_only__findINode fuel parent filename visited :
  SyncStore.reads_only (SyncStore._findINode JSON_parse fuel parent filename visited).
Proof.
  revert parent filename visited.
  induction fuel as [|fuel IH]; intros parent filename visited; simpl.
  - reads_only_step.
  - repeat first [ apply IH | apply reads_only_getINode | apply reads_only_getDirListing
                 | reads_only_step ].
Qed.

Lemma reads_only_findINode p : SyncStore.reads_only (SyncStore.findINode JSON_parse p).
Proof.
  unfold SyncStore.findINode.
  apply reads_only_bind; [apply reads_only__findINode | intros id; apply reads_only_getINode].
Qed.

End reads_only.

(** ** [renameSync] into the directory itself *)

Lemma renameSync_into_own_subtree
    JSON_stringify JSON_parse (now : Z) (oldPath newPath : string)
    (cred : Cred.Cred) (kv : SyncStore.KV) :
  JS.indexOf_is_0 (Path.dirname newPath +:+ "/") (oldPath +:+ "/") = true ->
  exists e,
    SyncStore.renameSync JSON_stringify JSON_parse now oldPath newPath cred kv
      = (Err e, kv)
    /\ (SyncStore.source_found JSON_parse now oldPath cred kv -> e = ApiError EBUSY).
Proof.
  intros Hprefix.
  unfold SyncStore.renameSync, SyncStore.transaction, SyncStore.source_found,
    SyncStore.renameSync_tx.
  unfold SyncStore.tbind at 1.
  destruct (SyncStore.findINode JSON_parse (Path.dirname oldPath) (SyncStore.begin kv))
    as [[oldDirNode|e] tx1] eqn:Hfind;
    destruct (reads_only_findINode _ _ _ _ _ Hfind) as (Hs & Hd & _).
  2: { exists e. rewrite Hs, Hd. destruct kv. cbn. intuition. }
  unfold SyncStore.tbind at 1.
  destruct (SyncStore.getDirListing JSON_parse (Path.dirname oldPath) oldDirNode tx1)
    as [[oldDirList|e] tx2] eqn:Hlist;
    destruct (reads_only_getDirListing _ _ _ _ _ _ Hlist) as (Hs' & Hd' & _).
  2: { exists e. rewrite Hs', Hd', Hs, Hd. destruct kv. cbn. intuition. }
  destruct (Stats.hasAccess (Inode.toStats now oldDirNode) SyncStore.W_OK cred);
    cbn [negb].
  2: { eexists. cbn. rewrite Hs', Hd', Hs, Hd. destruct kv. cbn.
       split; [reflexivity | intuition discriminate]. }
  destruct (SyncStore.truthy_value
              (SyncStore.get_property oldDirList (Path.basename oldPath)));
    cbn [negb].
  2: { eexists. cbn. rewrite Hs', Hd', Hs, Hd. destruct kv. cbn.
       split; [reflexivity | intuition discriminate]. }
  rewrite Hprefix. eexists. cbn. rewrite Hs', Hd', Hs, Hd. destruct kv. cbn.
  split; reflexivity.
Qed.

Lemma async_rename_into_own_subtree {Store Cache : Type}
    `{!AsyncStore.AsyncKeyValueStore Store} `{!AsyncStore.LRUCache Cache}
    JSON_stringify JSON_parse (now : Z) (oldPath newPath : string)
    (cred : Cred.Cred) (fs : AsyncStore.FS (Store := Store) (Cache := Cache)) :
  JS.indexOf_is_0 (Path.dirname newPath +:+ "/") (oldPath +:+ "/") = true ->
  exists e,
    fst (AsyncStore.rename JSON_stringify JSON_parse now oldPath newPath cred fs) = Err e
    /\ (AsyncStore.source_found JSON_parse now oldPath cred fs -> e = ApiError EBUSY).
Proof.
  intros Hprefix.
  unfold AsyncStore.rename, AsyncStore.rename_body, AsyncStore.source_found.
  unfold AsyncStore.mbind at 1. unfold AsyncStore.on_store at 1.
  cbn [AsyncStore.store AsyncStore._cache]. cbv zeta.
  unfold AsyncStore.mbind at 1.
  destruct (AsyncStore.findINode JSON_parse (Path.dirname oldPath) _)
    as [[oldDirNode|e] fs1].
  2: { exists e. cbn. split; [reflexivity | intros []]. }
  unfold AsyncStore.mbind at 1.
  destruct (AsyncStore.getDirListing JSON_parse (Path.dirname oldPath) oldDirNode fs1)
    as [[oldDirList|e] fs2].
  2: { exists e. cbn. split; [reflexivity | intros []]. }
  destruct (Stats.hasAccess (Inode.toStats now oldDirNode) SyncStore.W_OK cred);
    cbn [negb].
  2: { eexists. cbn. split; [reflexivity | intuition discriminate]. }
  destruct (SyncStore.truthy_value
              (SyncStore.get_property oldDirList (Path.basename oldPath)));
    cbn [negb].
  2: { eexists. cbn. split; [reflexivity | intuition discriminate]. }
  rewrite Hprefix. eexists. cbn. split; reflexivity.
Qed.

(** C7, as the code has it: when [newParent + '/'] starts with
    [oldPath + '/'], [rename] never succeeds, on the synchronous engine
    (where it also leaves the store as it is) and on the asynchronous one
    over any store and cache; it fails with [EBUSY] when the checks that
    come first pass, that is when the parent of [oldPath] resolves to a
    directory that the credentials may write and that lists the name of
    [oldPath]. *)
Theorem rename_into_own_subtree_is_refused
    {Store Cache : Type}
    `{!AsyncStore.AsyncKeyValueStore Store} `{!AsyncStore.LRUCache Cache}
    JSON_stringify JSON_parse (now : Z) (oldPath newPath : string)
    (cred : Cred.Cred) (kv : SyncStore.KV)
    (fs : AsyncStore.FS (Store := Store) (Cache := Cache)) :
  JS.indexOf_is_0 (Path.dirname newPath +:+ "/") (oldPath +:+ "/") = true ->
  let outcome := SyncStore.renameSync JSON_stringify JSON_parse now oldPath newPath cred kv in
  let async := AsyncStore.rename JSON_stringify JSON_parse now oldPath newPath cred fs in
  (JS.is_ok (fst outcome) = false
   /\ snd outcome = kv
   /\ (SyncStore.source_found JSON_parse now oldPath cred kv ->
       fst outcome = Err (ApiError EBUSY)))
  /\ (JS.is_ok (fst async) = false
      /\ (AsyncStore.source_found JSON_parse now oldPath cred fs ->
          fst async = Err (ApiError EBUSY))).
Proof.
  intros Hprefix outcome async. subst outcome async. split.
  - destruct (renameSync_into_own_subtree JSON_stringify JSON_parse now oldPath newPath
                cred kv Hprefix) as (e & -> & He).
    cbn [fst snd JS.is_ok]. repeat split. intros Hfound. now rewrite (He Hfound).
  - destruct (async_rename_into_own_subtree JSON_stringify JSON_parse now oldPath newPath
                cred fs Hprefix) as (e & -> & He).
    cbn [JS.is_ok]. split; [reflexivity|]. intros Hfound. now rewrite (He Hfound).
Qed.

(** The scenario of the specification, on both engines over the same
    records: after [mkdir('/d')] and [mkdir('/d/e')], [rename('/d',
    '/d/e/x')] fails with [EBUSY]. *)
Lemma rename_d_into_d_e_is_EBUSY :
  let kv := snd (Example.mkdirSync 1002 "/d/e" 493 Cred.Root
                   (snd (Example.mkdirSync 1001 "/d" 493 Cred.Root
                           (Example.new_InMemory 1000)))) in
  let fs := Example.async_of kv in
  (SyncStore.source_found Example.JSON_parse 1003 "/d" Cred.Root kv
   /\ fst (Example.renameSync 1003 "/d" "/d/e/x" Cred.Root kv) = Err (ApiError EBUSY))
  /\ (AsyncStore.source_found Example.JSON_parse 1003 "/d" Cred.Root fs
      /\ fst (Example.async_rename 1003 "/d" "/d/e/x" Cred.Root fs) = Err (ApiError EBUSY)).
Proof.
  intros kv fs.
  assert (Hfound : SyncStore.source_found Example.JSON_parse 1003 "/d" Cred.Root kv)
    by (vm_compute; split; reflexivity).
  assert (Hasync : AsyncStore.source_found Example.JSON_parse 1003 "/d" Cred.Root fs)
    by (vm_compute; split; reflexivity).
  destruct (rename_into_own_subtree_is_refused Example.JSON_stringify Example.JSON_parse
              1003 "/d" "/d/e/x" Cred.Root kv fs eq_refl) as [(_ & _ & Hs) (_ & Ha)].
  split; split; [exact Hfound | exact (Hs Hfound) | exact Hasync | exact (Ha Hasync)].
Defined.

(** C7, as the claim has it, fails: on a new file system, [/nope] has no
    entry, [newParent + '/'] starts with [oldPath + '/'], and
    [rename('/nope', '/nope/x')] fails with [ENOENT], not [EBUSY], on both
    engines. *)
Lemma rename_of_missing_path_is_ENOENT :
  JS.indexOf_is_0 (Path.dirname "/nope/x" +:+ "/") ("/nope" +:+ "/") = true
  /\ fst (Example.renameSync 1001 "/nope" "/nope/x" Cred.Root (Example.new_InMemory 1000))
     = Err (ApiError ENOENT)
  /\ fst (Example.async_rename 1001 "/nope" "/nope/x" Cred.Root
            (Example.async_of (Example.new_InMemory 1000)))
     = Err (ApiError ENOENT).
Proof. repeat split; vm_compute; reflexivity. Qed.

(** ** The inode record round-trips through its serialized form *)

Lemma byte_of_Z_value (z : Z) : Z.of_N (Byte.to_N (JS.byte_of_Z z)) = z mod 256.
Proof.
  unfold JS.byte_of_Z.
  assert (Hr : 0 <= z mod 256 < 256) by (apply Z.mod_pos_bound; lia).
  destruct (Byte.of_N (Z.to_N (z mod 256))) as [b|] eqn:Hb.
  - apply Byte.to_of_N in Hb. rewrite Hb. lia.
  - apply Byte.of_N_None_iff in Hb. lia.
Qed.

Lemma of_le_bytes_le_bytes (n : nat) (z : Z) :
  JS.of_le_bytes (JS.le_bytes n z) = z mod 256 ^ Z.of_nat n.
Proof.
  revert z. induction n as [|n IH]; intros z.
  - simpl. now rewrite Z.mod_1_r.
  - cbn [JS.le_bytes JS.of_le_bytes]. rewrite byte_of_Z_value, IH.
    rewrite Nat2Z.inj_succ, Z.pow_succ_r by lia.
    rewrite (Z.rem_mul_r z 256 (256 ^ Z.of_nat n)) by lia. lia.
Qed.

Lemma float64_bits_range (z : Z) :
  Z.abs z < 2 ^ 53 -> 0 <= JS.float64_bits z < 2 ^ 64.
Proof.
  intros Hz. unfold JS.float64_bits.
  destruct (z =? 0) eqn:H0; [lia|]. apply Z.eqb_neq in H0.
  assert (Ha : 0 < Z.abs z) by lia.
  pose proof (Z.log2_nonneg (Z.abs z)) as He0.
  assert (He : Z.log2 (Z.abs z) < 53) by (apply Z.log2_lt_pow2; lia).
  pose proof (Z.mod_pos_bound (Z.abs z * 2 ^ (52 - Z.log2 (Z.abs z))) (2 ^ 52) ltac:(lia))
    as Hf.
  destruct (z <? 0); nia.
Qed.

Lemma float64_value_bits (z : Z) :
  Z.abs z < 2 ^ 53 -> JS.float64_value (JS.float64_bits z) = z.
Proof.
  intros Hz. unfold JS.float64_bits.
  destruct (z =? 0) eqn:H0; [apply Z.eqb_eq in H0; subst; reflexivity|].
  apply Z.eqb_neq in H0.
  set (a := Z.abs z). set (e := Z.log2 a).
  assert (Ha : 0 < a) by (subst a; lia).
  assert (He0 : 0 <= e) by apply Z.log2_nonneg.
  assert (He : e < 53) by (apply Z.log2_lt_pow2; subst a; lia).
  destruct (Z.log2_spec a Ha) as [Hlo Hhi]. fold e in Hlo, Hhi.
  set (m := a * 2 ^ (52 - e)).
  assert (Hsplit : 2 ^ 52 = 2 ^ e * 2 ^ (52 - e))
    by (rewrite <- Z.pow_add_r by lia; f_equal; lia).
  assert (Hp : 0 < 2 ^ (52 - e)) by (apply Z.pow_pos_nonneg; lia).
  assert (Hm : 2 ^ 52 <= m < 2 * 2 ^ 52).
  { subst m. rewrite Z.pow_succ_r in Hhi by lia. nia. }
  assert (Hfrac : m mod 2 ^ 52 = m - 2 ^ 52).
  { symmetry. apply (Z.mod_unique m (2 ^ 52) 1); lia. }
  rewrite Hfrac.
  set (s := if z <? 0 then 2 ^ 63 else 0).
  assert (Hs : s = 0 \/ s = 2 ^ 63) by (subst s; destruct (z <? 0); auto).
  set (bits := s + (e + 1023) * 2 ^ 52 + (m - 2 ^ 52)).
  assert (Hbits : bits = (if z <? 0 then 1 else 0) * 2 ^ 63
                         + ((e + 1023) * 2 ^ 52 + (m - 2 ^ 52))).
  { subst bits s. destruct (z <? 0); lia. }
  assert (Hlow : 0 <= (e + 1023) * 2 ^ 52 + (m - 2 ^ 52) < 2 ^ 63).
  { change (2 ^ 63) with (2048 * 2 ^ 52). nia. }
  unfold JS.float64_value.
  assert (Hsign : bits / 2 ^ 63 = if z <? 0 then 1 else 0).
  { rewrite Hbits. symmetry.
    apply (Z.div_unique _ _ _ ((e + 1023) * 2 ^ 52 + (m - 2 ^ 52))); [lia|].
    destruct (z <? 0); lia. }
  assert (Hex : (bits / 2 ^ 52) mod 2 ^ 11 = e + 1023).
  { assert (Hq : bits / 2 ^ 52 = (if z <? 0 then 2 ^ 11 else 0) + (e + 1023)).
    { rewrite Hbits. symmetry.
      apply (Z.div_unique _ _ _ (m - 2 ^ 52)); [lia|].
      change (2 ^ 63) with (2 ^ 11 * 2 ^ 52). destruct (z <? 0); lia. }
    rewrite Hq. symmetry.
    apply (Z.mod_unique _ _ (if z <? 0 then 1 else 0)); [lia|].
    destruct (z <? 0); lia. }
  assert (Hfr : bits mod 2 ^ 52 = m - 2 ^ 52).
  { rewrite Hbits. symmetry.
    apply (Z.mod_unique _ _ ((if z <? 0 then 2 ^ 11 else 0) + (e + 1023))); [lia|].
    change (2 ^ 63) with (2 ^ 11 * 2 ^ 52). destruct (z <? 0); lia. }
  rewrite Hsign, Hex, Hfr.
  destruct ((e + 1023 =? 0) && (m - 2 ^ 52 =? 0)) eqn:Hz0.
  { apply andb_true_iff in Hz0 as [Hz0 _]. apply Z.eqb_eq in Hz0. lia. }
  replace (2 ^ 52 + (m - 2 ^ 52)) with m by lia.
  assert (Hval : (if 1075 <=? e + 1023 then m * 2 ^ (e + 1023 - 1075)
                  else m / 2 ^ (1075 - (e + 1023))) = a).
  { destruct (1075 <=? e + 1023) eqn:Hge.
    - apply Z.leb_le in Hge. assert (e = 52) by lia. subst m.
      replace (e + 1023 - 1075) with 0 by lia. replace (52 - e) with 0 by lia.
      rewrite Z.pow_0_r. lia.
    - replace (1075 - (e + 1023)) with (52 - e) by lia. subst m.
      apply Z.div_mul. lia. }
  rewrite Hval. subst a.
  destruct (z <? 0) eqn:Hneg; cbn [Z.eqb].
  - apply Z.ltb_lt in Hneg. lia.
  - apply Z.ltb_ge in Hneg. lia.
Qed.

Lemma length_encode (s : string) : length (JS.encode s) = String.length s.
Proof.
  unfold JS.encode, list_byte_of_string.
  rewrite length_map.
  induction s as [|c s IH]; simpl; [reflexivity | now rewrite IH].
Qed.

Lemma decode_encode (s : string) : JS.decode (JS.encode s) = s.
Proof. apply string_of_list_byte_of_string. Qed.

Lemma set_bytes_zeros (pre bs : list byte) (n : nat) (off : Z) :
  off = Z.of_nat (length pre) ->
  JS.set_bytes (pre ++ repeat Byte.x00 (length bs + n)) bs off
  = Ok ((pre ++ bs) ++ repeat Byte.x00 n).
Proof.
  intros ->. rewrite set_bytes_ok.
  - rewrite Nat2Z.id, take_app_length, <- app_assoc. do 3 f_equal.
    rewrite drop_app_add', repeat_app, drop_app_length'; [reflexivity| |reflexivity].
    now rewrite repeat_length.
  - lia.
  - rewrite length_app, repeat_length. lia.
Qed.

Lemma set_bytes_zeros_start (bs : list byte) (n : nat) :
  JS.set_bytes (repeat Byte.x00 (length bs + n)) bs 0 = Ok (bs ++ repeat Byte.x00 n).
Proof. exact (set_bytes_zeros [] bs n 0 eq_refl). Qed.

Lemma view_get_skip (a v : list byte) (k : nat) (off : Z) (n : nat) :
  length a = k -> Z.of_nat k <= off ->
  JS.view_get (a ++ v) off n = JS.view_get v (off - Z.of_nat k) n.
Proof.
  intros <- Hoff. unfold JS.view_get. rewrite length_app.
  destruct (Z.ltb_spec off 0); [lia|].
  destruct (Z.ltb_spec (off - Z.of_nat (length a)) 0); [lia|].
  cbn [orb].
  destruct (Z.ltb_spec (Z.of_nat (length a + length v)) (off + Z.of_nat n));
    destruct (Z.ltb_spec (Z.of_nat (length v)) (off - Z.of_nat (length a) + Z.of_nat n));
    try reflexivity; try lia.
  do 2 f_equal.
  replace (Z.to_nat off) with (length a + Z.to_nat (off - Z.of_nat (length a)))%nat by lia.
  now rewrite drop_app_add'.
Qed.

Lemma view_get_head (bs post : list byte) (n : nat) :
  length bs = n -> JS.view_get (bs ++ post) 0 n = Ok bs.
Proof.
  intros <-. unfold JS.view_get. rewrite length_app.
  destruct (Z.ltb_spec (Z.of_nat (length bs + length post)) (0 + Z.of_nat (length bs)));
    [lia|].
  cbn [orb Z.ltb Z.compare]. change (Z.to_nat 0) with 0%nat.
  now rewrite drop_0, take_app_length.
Qed.

(** The bytes that [serialize] writes: the seven fields, then the id. *)
Lemma serialize_layout (i : Inode.Inode) :
  Inode.serialize i
  = Ok (JS.le_bytes 4 (Inode.size i mod 2 ^ 32)
        ++ JS.le_bytes 2 (Inode.mode i mod 2 ^ 16)
        ++ JS.le_bytes 8 (JS.float64_bits (Inode.atime i))
        ++ JS.le_bytes 8 (JS.float64_bits (Inode.mtime i))
        ++ JS.le_bytes 8 (JS.float64_bits (Inode.ctime i))
        ++ JS.le_bytes 4 (Inode.uid i mod 2 ^ 32)
        ++ JS.le_bytes 4 (Inode.gid i mod 2 ^ 32)
        ++ JS.encode (Inode.id i)).
Proof.
  unfold Inode.serialize, Inode.getSize, JS.new_Uint8Array.
  destruct (Z.ltb_spec (38 + Z.of_nat (String.length (Inode.id i))) 0); [lia|].
  set (f1 := JS.le_bytes 4 (Inode.size i mod 2 ^ 32)).
  set (f2 := JS.le_bytes 2 (Inode.mode i mod 2 ^ 16)).
  set (f3 := JS.le_bytes 8 (JS.float64_bits (Inode.atime i))).
  set (f4 := JS.le_bytes 8 (JS.float64_bits (Inode.mtime i))).
  set (f5 := JS.le_bytes 8 (JS.float64_bits (Inode.ctime i))).
  set (f6 := JS.le_bytes 4 (Inode.uid i mod 2 ^ 32)).
  set (f7 := JS.le_bytes 4 (Inode.gid i mod 2 ^ 32)).
  set (f8 := JS.encode (Inode.id i)).
  replace (Z.to_nat (38 + Z.of_nat (String.length (Inode.id i))))
    with (length f1 + (length f2 + (length f3 + (length f4 + (length f5
            + (length f6 + (length f7 + (length f8 + 0))))))))%nat
    by (subst f1 f2 f3 f4 f5 f6 f7 f8; rewrite !length_le_bytes, length_encode; lia).
  cbn [JS.bind].
  unfold JS.setUint32, JS.setUint16, JS.setFloat64, JS.view_set.
  fold f1 f2 f3 f4 f5 f6 f7.
  rewrite set_bytes_zeros_start. cbn [JS.bind].
  do 7 (rewrite set_bytes_zeros
          by (subst f1 f2 f3 f4 f5 f6 f7;
              rewrite ?length_app, ?length_le_bytes; reflexivity);
        cbn [JS.bind]).
  cbn [repeat]. rewrite app_nil_r, <- !app_assoc. reflexivity.
Qed.

Lemma view_get_fields (f1 f2 f3 f4 f5 f6 f7 t : list byte) :
  length f1 = 4%nat -> length f2 = 2%nat -> length f3 = 8%nat -> length f4 = 8%nat ->
  length f5 = 8%nat -> length f6 = 4%nat -> length f7 = 4%nat ->
  let v := f1 ++ f2 ++ f3 ++ f4 ++ f5 ++ f6 ++ f7 ++ t in
  JS.view_get v 0 4 = Ok f1 /\ JS.view_get v 4 2 = Ok f2
  /\ JS.view_get v 6 8 = Ok f3 /\ JS.view_get v 14 8 = Ok f4
  /\ JS.view_get v 22 8 = Ok f5 /\ JS.view_get v 30 4 = Ok f6
  /\ JS.view_get v 34 4 = Ok f7
  /\ JS.slice v 38 (Z.of_nat (length v)) = t.
Proof.
  intros H1 H2 H3 H4 H5 H6 H7 v. subst v.
  repeat split.
  - now apply view_get_head.
  - rewrite (view_get_skip f1 _ 4) by (assumption || lia).
    now apply view_get_head.
  - rewrite (view_get_skip f1 _ 4), (view_get_skip f2 _ 2) by (assumption || lia).
    now apply view_get_head.
  - rewrite (view_get_skip f1 _ 4), (view_get_skip f2 _ 2), (view_get_skip f3 _ 8)
      by (assumption || lia).
    now apply view_get_head.
  - rewrite (view_get_skip f1 _ 4), (view_get_skip f2 _ 2), (view_get_skip f3 _ 8),
      (view_get_skip f4 _ 8) by (assumption || lia).
    now apply view_get_head.
  - rewrite (view_get_skip f1 _ 4), (view_get_skip f2 _ 2), (view_get_skip f3 _ 8),
      (view_get_skip f4 _ 8), (view_get_skip f5 _ 8) by (assumption || lia).
    now apply view_get_head.
  - rewrite (view_get_skip f1 _ 4), (view_get_skip f2 _ 2), (view_get_skip f3 _ 8),
      (view_get_skip f4 _ 8), (view_get_skip f5 _ 8), (view_get_skip f6 _ 4)
      by (assumption || lia).
    now apply view_get_head.
  - rewrite slice_exact by (rewrite ?length_app; lia).
    rewrite !length_app, H1, H2, H3, H4, H5, H6, H7.
    replace (Z.to_nat 38) with (length (f1 ++ f2 ++ f3 ++ f4 ++ f5 ++ f6 ++ f7))
      by (rewrite !length_app; lia).
    rewrite !app_assoc, drop_app_length. apply firstn_all2. lia.
Qed.

Lemma Deserialize_serialize (i : Inode.Inode) :
  Inode.fits i ->
  exists data, Inode.serialize i = Ok data /\ Inode.Deserialize data = Ok i.
Proof.
  intros (Hsize & Hmode & Hat & Hmt & Hct & Huid & Hgid).
  eexists. split; [apply serialize_layout|].
  unfold Inode.Deserialize, JS.getUint32, JS.getUint16, JS.getFloat64.
  match goal with
  | |- context [JS.view_get (?f1 ++ ?f2 ++ ?f3 ++ ?f4 ++ ?f5 ++ ?f6 ++ ?f7 ++ ?t) 0 4] =>
    destruct (view_get_fields f1 f2 f3 f4 f5 f6 f7 t)
      as (E1 & E2 & E3 & E4 & E5 & E6 & E7 & E8); try apply length_le_bytes
  end.
  rewrite E1, E2, E3, E4, E5, E6, E7, E8. cbn [JS.bind].
  rewrite !of_le_bytes_le_bytes, decode_encode.
  change (256 ^ Z.of_nat 4) with (2 ^ 32). change (256 ^ Z.of_nat 2) with (2 ^ 16).
  change (256 ^ Z.of_nat 8) with (2 ^ 64).
  rewrite !Z.mod_mod by lia.
  rewrite (Z.mod_small (Inode.size i)), (Z.mod_small (Inode.mode i)),
    (Z.mod_small (Inode.uid i)), (Z.mod_small (Inode.gid i)) by assumption.
  rewrite !(Z.mod_small (JS.float64_bits _)) by (apply float64_bits_range; assumption).
  rewrite !float64_value_bits by assumption.
  now destruct i.
Qed.

(** ** Path resolution depends on the records it reads *)

Lemma determined_ret {A} (a : A) : SyncStore.determined_by_reads (SyncStore.ret a).
Proof. intros tx r tx' tx2 [= <- <-] _. reflexivity. Qed.

Lemma determined_throw {A} (e : exn) :
  SyncStore.determined_by_reads (@SyncStore.throw A e).
Proof. intros tx r tx' tx2 [= <- <-] _. reflexivity. Qed.

Lemma determined_lift {A} (r : result A) :
  SyncStore.determined_by_reads (SyncStore.lift r).
Proof. intros tx r' tx' tx2 [= <- <-] _. reflexivity. Qed.

Lemma determined_tx_get key : SyncStore.determined_by_reads (SyncStore.tx_get key).
Proof.
  intros tx r tx' tx2 [= <- <-] Hagree. cbn. f_equal. apply Hagree.
  unfold SyncStore.stashOldValue.
  destruct (SyncStore.originalData tx !! key) eqn:Hk; cbn.
  - apply elem_of_dom. eauto.
  - rewrite dom_insert. set_solver.
Qed.

Lemma determined_bind {A B} (c : SyncStore.T A) (k : A -> SyncStore.T B) :
  SyncStore.reads_only c -> SyncStore.determined_by_reads c ->
  (forall a, SyncStore.reads_only (k a)) ->
  (forall a, SyncStore.determined_by_reads (k a)) ->
  SyncStore.determined_by_reads (SyncStore.tbind c k).
Proof.
  intros Hro Hc Hrok Hk tx r tx' tx2. unfold SyncStore.tbind.
  destruct (c tx) as [[a|e] tx1] eqn:Hrun.
  - intros Hrun' Hagree.
    destruct (Hro _ _ _ Hrun) as (Hs1 & _ & _ & Hd1).
    destruct (Hrok _ _ _ _ Hrun') as (_ & _ & _ & Hd2).
    assert (H1 : fst (c tx2) = Ok a).
    { apply (Hc _ _ _ _ Hrun). intros k' Hin. apply Hagree. set_solver. }
    destruct (c tx2) as [r2 tx21] eqn:Hrun2. cbn in H1. subst r2.
    destruct (Hro _ _ _ Hrun2) as (Hs2 & _).
    apply (Hk _ _ _ _ _ Hrun'). intros k' Hin. rewrite Hs2, Hs1. now apply Hagree.
  - intros [= <- <-] Hagree.
    pose proof (Hc _ _ _ tx2 Hrun Hagree) as H1.
    destruct (c tx2) as [r2 tx21]. cbn in *. now subst.
Qed.


Lemma reads_well_ret {A} (a : A) : SyncStore.reads_well (SyncStore.ret a).
Proof. split; [apply reads_only_ret | apply determined_ret]. Qed.

Lemma reads_well_throw {A} (e : exn) : SyncStore.reads_well (@SyncStore.throw A e).
Proof. split; [apply reads_only_throw | apply determined_throw]. Qed.

Lemma reads_well_lift {A} (r : result A) : SyncStore.reads_well (SyncStore.lift r).
Proof. split; [apply reads_only_lift | apply determined_lift]. Qed.

Lemma reads_well_tx_get key : SyncStore.reads_well (SyncStore.tx_get key).
Proof. split; [apply reads_only_tx_get | apply determined_tx_get]. Qed.

Lemma reads_well_bind {A B} (c : SyncStore.T A) (k : A -> SyncStore.T B) :
  SyncStore.reads_well c -> (forall a, SyncStore.reads_well (k a)) -> SyncStore.reads_well (SyncStore.tbind c k).
Proof.
  intros [Hro Hdet] Hk. split.
  - apply reads_only_bind; [exact Hro | intros a; apply Hk].
  - apply determined_bind; try assumption; intros a; apply Hk.
Qed.

Ltac reads_well_step :=
  match goal with
  | |- SyncStore.reads_well (SyncStore.tbind _ _) => apply reads_well_bind; [|intros ?]
  | |- SyncStore.reads_well (SyncStore.ret _) => apply reads_well_ret
  | |- SyncStore.reads_well (SyncStore.throw _) => apply reads_well_throw
  | |- SyncStore.reads_well (SyncStore.lift _) => apply reads_well_lift
  | |- SyncStore.reads_well (SyncStore.tx_get _) => apply reads_well_tx_get
  | |- SyncStore.reads_well (if ?b then _ else _) => destruct b
  | |- SyncStore.reads_well (match ?x with _ => _ end) => destruct x
  end.

Lemma reads_well_getINode p id : SyncStore.reads_well (SyncStore.getINode p id).
Proof. unfold SyncStore.getINode. repeat reads_well_step. Qed.

Section determined.
Variable JSON_parse : string -> option (gmap string string).

Lemma reads_well_getDirListing p inode :
  SyncStore.reads_well (SyncStore.getDirListing JSON_parse p inode).
Proof. unfold SyncStore.getDirListing. repeat reads_well_step. Qed.

Lemma reads_well__findINode fuel parent filename visited :
  SyncStore.reads_well (SyncStore._findINode JSON_parse fuel parent filename visited).
Proof.
  revert parent filename visited.
  induction fuel as [|fuel IH]; intros parent filename visited; simpl.
  - reads_well_step.
  - repeat first [ apply IH | apply reads_well_getINode | apply reads_well_getDirListing
                 | reads_well_step ].
Qed.

Lemma reads_well_findINode p : SyncStore.reads_well (SyncStore.findINode JSON_parse p).
Proof.
  unfold SyncStore.findINode.
  apply reads_well_bind; [apply reads_well__findINode | intros id; apply reads_well_getINode].
Qed.

(** *** Successful lookups read keys of the store *)

Lemma reads_present_ret {A} (a : A) : SyncStore.reads_present (SyncStore.ret a).
Proof. intros tx a' tx' [= <- <-]. set_solver. Qed.

Lemma reads_present_throw {A} (e : exn) : SyncStore.reads_present (@SyncStore.throw A e).
Proof. intros tx a' tx' [=]. Qed.

Lemma reads_present_bind {A B} (c : SyncStore.T A) (k : A -> SyncStore.T B) :
  SyncStore.reads_only c -> SyncStore.reads_present c ->
  (forall a, SyncStore.reads_present (k a)) ->
  SyncStore.reads_present (SyncStore.tbind c k).
Proof.
  intros Hro Hc Hk tx b tx'. unfold SyncStore.tbind.
  destruct (c tx) as [[a|e] tx1] eqn:Hrun; [|discriminate].
  intros Hrun'. destruct (Hro _ _ _ Hrun) as (Hs & _).
  specialize (Hc _ _ _ Hrun). specialize (Hk _ _ _ _ Hrun'). rewrite Hs in Hk.
  set_solver.
Qed.

Lemma reads_present_get_some key {A} (k : list byte -> SyncStore.T A) (e : exn) :
  (forall data, SyncStore.reads_only (k data)) ->
  (forall data, SyncStore.reads_present (k data)) ->
  SyncStore.reads_present
    (SyncStore.tbind (SyncStore.tx_get key)
       (fun v => match v with None => SyncStore.throw e | Some data => k data end)).
Proof.
  intros Hro Hk tx a tx'. unfold SyncStore.tbind, SyncStore.tx_get.
  destruct (SyncStore.store tx !! key) as [data|] eqn:Hkey; [|discriminate].
  intros Hrun. specialize (Hk _ _ _ _ Hrun).
  assert (Hin : key ∈ dom (SyncStore.store tx)) by (apply elem_of_dom; eauto).
  unfold SyncStore.stashOldValue in Hk.
  destruct (SyncStore.originalData tx !! key); cbn in Hk; [set_solver|].
  rewrite dom_insert in Hk. set_solver.
Qed.

Lemma reads_present_getINode p id : SyncStore.reads_present (SyncStore.getINode p id).
Proof.
  unfold SyncStore.getINode. destruct id; try apply reads_present_throw.
  apply reads_present_get_some; intros data.
  - apply reads_only_lift.
  - intros tx a tx'. unfold SyncStore.lift. intros [= _ <-]. set_solver.
Qed.

Lemma reads_present_getDirListing p inode :
  SyncStore.reads_present (SyncStore.getDirListing JSON_parse p inode).
Proof.
  unfold SyncStore.getDirListing.
  destruct (negb (Inode.isDirectory inode)); [apply reads_present_throw|].
  apply reads_present_get_some; intros data;
    destruct (JSON_parse (JS.decode data));
    auto using reads_only_ret, reads_only_throw, reads_present_ret, reads_present_throw.
Qed.

Lemma reads_present__findINode fuel parent filename visited :
  SyncStore.reads_present (SyncStore._findINode JSON_parse fuel parent filename visited).
Proof.
  revert parent filename visited.
  induction fuel as [|fuel IH]; intros parent filename visited;
    cbn [SyncStore._findINode].
  - apply reads_present_throw.
  - assert (Hread : forall inode,
               SyncStore.reads_present
                 (SyncStore.tbind (SyncStore.getDirListing JSON_parse parent inode)
                    (fun dirList =>
                       if SyncStore.truthy_value (SyncStore.get_property dirList filename)
                       then SyncStore.ret (SyncStore.get_property dirList filename)
                       else SyncStore.throw (ApiError ENOENT)))).
    { intros inode. apply reads_present_bind.
      - apply reads_only_getDirListing.
      - apply reads_present_getDirListing.
      - intros l. destruct (SyncStore.truthy_value _);
          [apply reads_present_ret | apply reads_present_throw]. }
    destruct (bool_decide _); [apply reads_present_throw|].
    destruct (String.eqb parent "/").
    + destruct (String.eqb filename ""); [apply reads_present_ret|].
      apply reads_present_bind; [apply reads_only_getINode
                                | apply reads_present_getINode | exact Hread].
    + apply reads_present_bind; [apply reads_only__findINode | apply IH |].
      intros id. apply reads_present_bind;
        [apply reads_only_getINode | apply reads_present_getINode | exact Hread].
Qed.

Lemma reads_present_findINode p : SyncStore.reads_present (SyncStore.findINode JSON_parse p).
Proof.
  unfold SyncStore.findINode. apply reads_present_bind.
  - apply reads_only__findINode.
  - apply reads_present__findINode.
  - intros id. apply reads_present_getINode.
Qed.

(** *** Lookups with another fuel or another list of visited paths *)

Lemma _findINode_agree (n m : nat) (parent filename : string)
    (v1 v2 : list string) (tx : SyncStore.Tx) :
  let o1 := SyncStore._findINode JSON_parse n parent filename v1 tx in
  let o2 := SyncStore._findINode JSON_parse m parent filename v2 tx in
  SyncStore.gave_up (fst o1) \/ SyncStore.gave_up (fst o2) \/ o1 = o2.
Proof.
  revert m parent filename v1 v2 tx.
  induction n as [|n IH]; intros m parent filename v1 v2 tx o1 o2; subst o1 o2.
  - left. left. reflexivity.
  - destruct m as [|m]; [right; left; left; reflexivity|].
    cbn [SyncStore._findINode].
    destruct (bool_decide (Path.join parent filename ∈ v1)); [left; right; reflexivity|].
    destruct (bool_decide (Path.join parent filename ∈ v2));
      [right; left; right; reflexivity|].
    destruct (String.eqb parent "/"); [right; right; reflexivity|].
    pose proof (IH m (Path.dirname parent) (Path.basename parent)
                  (Path.join parent filename :: v1) (Path.join parent filename :: v2) tx)
      as Hrec.
    cbv zeta in Hrec. unfold SyncStore.tbind.
    destruct (SyncStore._findINode JSON_parse n _ _ _ tx) as [r1 tx1].
    destruct (SyncStore._findINode JSON_parse m _ _ _ tx) as [r2 tx2].
    cbn [fst] in Hrec. destruct Hrec as [Hg|[Hg|Heq]].
    + left. destruct Hg as [-> | ->]; [left|right]; reflexivity.
    + right. left. destruct Hg as [-> | ->]; [left|right]; reflexivity.
    + right. right. inversion Heq; subst. reflexivity.
Qed.

End determined.

(** ** The fuel of [_findINode] is enough *)

Lemma length_string_of_list_ascii (l : list ascii) :
  String.length (string_of_list_ascii l) = length l.
Proof. induction l as [|c l IH]; [reflexivity|]. cbn. now rewrite IH. Qed.

Lemma length_list_ascii_of_string (s : string) :
  length (list_ascii_of_string s) = String.length s.
Proof. induction s as [|c s IH]; [reflexivity|]. cbn. now rewrite IH. Qed.

Lemma drop_while_length (f : ascii -> bool) (l : list ascii) :
  (length (Path.drop_while f l) <= length l)%nat.
Proof.
  induction l as [|c l IH]; [reflexivity|]. cbn [Path.drop_while].
  destruct (f c); cbn [length]; lia.
Qed.

Lemma drop_while_head (f : ascii -> bool) (l : list ascii) x r :
  Path.drop_while f l = x :: r -> f x = false.
Proof.
  induction l as [|c l IH]; [discriminate|]. cbn [Path.drop_while].
  destruct (f c) eqn:E; [exact IH|]. intros [= <- _]. exact E.
Qed.

Lemma drop_while_twice (f : ascii -> bool) (l : list ascii) x r :
  Path.drop_while (fun a => negb (f a)) (Path.drop_while f l) = x :: r ->
  (S (length (x :: r)) <= length l)%nat.
Proof.
  intros H. pose proof (drop_while_length f l) as Hlen.
  destruct (Path.drop_while f l) as [|y t] eqn:E; [discriminate H|].
  apply drop_while_head in E. cbn [Path.drop_while] in H. rewrite E in H.
  cbn [negb] in H.
  pose proof (drop_while_length (fun a => negb (f a)) t) as Hlen'.
  rewrite H in Hlen'. cbn [length] in *. lia.
Qed.

(** [dirname] answers the root, the working directory, or a shorter
    path. *)
Lemma dirname_cases (p : string) :
  Path.dirname p = "/"%string \/ Path.dirname p = "."%string
  \/ (String.length (Path.dirname p) < String.length p)%nat.
Proof.
  unfold Path.dirname. rewrite <- (length_list_ascii_of_string p).
  destruct (list_ascii_of_string p) as [|c tl]; [auto|]. cbv zeta.
  destruct (Path.drop_while (fun a => negb (Path.is_slash a))
              (Path.drop_while Path.is_slash (rev tl))) as [|x rest] eqn:E.
  - destruct (Path.is_slash c); auto.
  - apply drop_while_twice in E. rewrite length_rev in E. cbn [length] in *.
    right. right. destruct rest as [|y rest'].
    + simpl in E. destruct (Path.is_slash c); simpl; lia.
    + simpl in E. rewrite length_string_of_list_ascii. cbn [length].
      rewrite length_rev. cbn [length]. lia.
Qed.

Section fuel.
Variable JSON_parse : string -> option (gmap string string).

Local Abbreviation finishes := (SyncStore.never_throws OutOfFuel).

Lemma finishes_bind {A B} (c : SyncStore.T A) (k : A -> SyncStore.T B) :
  finishes c -> (forall a, finishes (k a)) -> finishes (SyncStore.tbind c k).
Proof.
  intros Hc Hk tx. unfold SyncStore.tbind. specialize (Hc tx).
  destruct (c tx) as [[a|e] tx']; [apply Hk|].
  cbn [fst] in *. congruence.
Qed.

Lemma finishes_getINode p id : finishes (SyncStore.getINode p id).
Proof.
  unfold SyncStore.getINode. destruct id; try (intros tx; discriminate).
  apply finishes_bind; [intros tx; discriminate|]. intros [data|] tx; [|discriminate].
  cbn. intros H. apply Deserialize_error in H. discriminate H.
Qed.

Lemma finishes_lookup_entry parent filename inode :
  finishes (SyncStore.lookup_entry JSON_parse parent filename inode).
Proof.
  unfold SyncStore.lookup_entry, SyncStore.getDirListing.
  apply finishes_bind.
  - destruct (negb _); [intros tx; discriminate|].
    apply finishes_bind; [intros tx; discriminate|]. intros [data|] tx; [|discriminate].
    destruct (JSON_parse _); discriminate.
  - intros l tx. cbv zeta. destruct (SyncStore.truthy_value _); discriminate.
Qed.

(** A relative path ends on the guard against loops. *)
Lemma _findINode_dot (n : nat) (visited : list string) (tx : SyncStore.Tx) :
  fst (SyncStore._findINode JSON_parse (S (S n)) "." "." visited tx) = Err (ApiError EIO).
Proof.
  cbn [SyncStore._findINode]. destruct (bool_decide _); [reflexivity|].
  change (String.eqb "." "/") with false. cbv iota.
  change (Path.dirname ".") with "."%string. change (Path.basename ".") with "."%string.
  unfold SyncStore.tbind at 1. cbn [SyncStore._findINode].
  rewrite bool_decide_eq_true_2 by (apply list_elem_of_here). reflexivity.
Qed.

Lemma _findINode_finishes (fuel : nat) (parent filename : string) (visited : list string) :
  (parent = "/"%string /\ (1 <= fuel)%nat) \/ (parent = "."%string /\ (3 <= fuel)%nat)
  \/ (String.length parent + 4 <= fuel)%nat ->
  finishes (SyncStore._findINode JSON_parse fuel parent filename visited).
Proof.
  revert parent filename visited.
  induction fuel as [|n IH]; intros parent filename visited Hf tx.
  - exfalso. destruct Hf as [[_ H]|[[_ H]|H]]; lia.
  - cbn [SyncStore._findINode]. destruct (bool_decide _); [discriminate|].
    destruct (String.eqb_spec parent "/") as [->|Hroot].
    + destruct (String.eqb filename ""); [discriminate|].
      apply (finishes_bind _ _ (finishes_getINode _ _)
               (finishes_lookup_entry "/" filename)).
    + destruct (String.eqb_spec parent ".") as [->|Hdot].
      * assert (Hn : (2 <= n)%nat) by (destruct Hf as [[H _]|[[_ H]|H]]; [discriminate|lia|cbn in H; lia]).
        destruct n as [|[|m]]; [lia|lia|].
        change (Path.dirname ".") with "."%string.
        change (Path.basename ".") with "."%string.
        unfold SyncStore.tbind at 1.
        pose proof (_findINode_dot m (Path.join "." filename :: visited) tx) as Hdot.
        destruct (SyncStore._findINode JSON_parse (S (S m)) "." "." _ tx) as [r t].
        cbn [fst] in Hdot. subst r. discriminate.
      * assert (Hlen : (String.length parent + 4 <= S n)%nat)
          by (destruct Hf as [[H _]|[[H _]|H]]; [contradiction|contradiction|exact H]).
        apply finishes_bind.
        -- apply IH. destruct (dirname_cases parent) as [->|[->|Hshort]].
           ++ left. split; [reflexivity|lia].
           ++ right. left. split; [reflexivity|lia].
           ++ right. right. lia.
        -- intros id. apply (finishes_bind _ _ (finishes_getINode _ _)
                               (finishes_lookup_entry parent filename)).
Qed.

(** The lookup of a path never runs out of fuel. *)
Lemma lookup_finishes (p : string) :
  finishes (SyncStore._findINode JSON_parse (SyncStore.fuel_for p) (Path.dirname p)
              (Path.basename p) []).
Proof.
  apply _findINode_finishes. unfold SyncStore.fuel_for.
  destruct (dirname_cases p) as [->|[->|Hshort]].
  - left. split; [reflexivity|lia].
  - right. left. split; [reflexivity|lia].
  - right. right. lia.
Qed.

Lemma findINode_finishes (p : string) : finishes (SyncStore.findINode JSON_parse p).
Proof.
  unfold SyncStore.findINode.
  apply finishes_bind; [apply lookup_finishes | intros id; apply finishes_getINode].
Qed.

End fuel.

(** ** Running the body of a transaction on a store *)

Lemma store_stashOldValue key val tx :
  SyncStore.store (SyncStore.stashOldValue key val tx) = SyncStore.store tx
  /\ SyncStore.drawn (SyncStore.stashOldValue key val tx) = SyncStore.drawn tx.
Proof.
  unfold SyncStore.stashOldValue.
  destruct (SyncStore.originalData tx !! key); split; reflexivity.
Qed.

Lemma store_markModified key tx :
  SyncStore.store (SyncStore.markModified key tx) = SyncStore.store tx
  /\ SyncStore.drawn (SyncStore.markModified key tx) = SyncStore.drawn tx.
Proof.
  unfold SyncStore.markModified.
  destruct (bool_decide _); [split; reflexivity|].
  cbv zeta.
  destruct (store_stashOldValue key
    (SyncStore.store tx !! key)
    (SyncStore.mkTx (SyncStore.store tx) (SyncStore.drawn tx)
       (SyncStore.originalData tx) (SyncStore.modifiedKeys tx ++ [key]))) as [H1 H2].
  split; assumption.
Qed.

Lemma runs_ret {A} (a : A) s : SyncStore.runs (SyncStore.ret a) s a s.
Proof. intros tx Hs Hd. exists tx. auto. Qed.

Lemma runs_lift {A} (a : A) s : SyncStore.runs (SyncStore.lift (Ok a)) s a s.
Proof. intros tx Hs Hd. exists tx. auto. Qed.

Lemma runs_bind {A B} (c : SyncStore.T A) (k : A -> SyncStore.T B) s a s1 b s2 :
  SyncStore.runs c s a s1 -> SyncStore.runs (k a) s1 b s2 ->
  SyncStore.runs (SyncStore.tbind c k) s b s2.
Proof.
  intros Hc Hk tx Hs Hd. destruct (Hc tx Hs Hd) as (tx1 & E1 & Hs1 & Hd1).
  destruct (Hk tx1 Hs1 Hd1) as (tx2 & E2 & Hs2 & Hd2).
  exists tx2. unfold SyncStore.tbind. rewrite E1. auto.
Qed.

Lemma runs_try_abort {A} (c : SyncStore.T A) s a s' :
  SyncStore.runs c s a s' -> SyncStore.runs (SyncStore.try_abort c) s a s'.
Proof.
  intros Hc tx Hs Hd. destruct (Hc tx Hs Hd) as (tx1 & E1 & Hs1 & Hd1).
  exists tx1. unfold SyncStore.try_abort. rewrite E1. auto.
Qed.

Lemma runs_tx_get key s :
  SyncStore.runs (SyncStore.tx_get key) s (SyncStore.kv_store s !! key) s.
Proof.
  intros tx Hs Hd. eexists. unfold SyncStore.tx_get. cbv zeta. rewrite Hs.
  split; [reflexivity|].
  rewrite <- Hs, <- Hd. apply store_stashOldValue.
Qed.

Lemma runs_tx_put key data s :
  SyncStore.runs (SyncStore.tx_put key data true) s true
    (SyncStore.mkKV (<[key := data]> (SyncStore.kv_store s)) (SyncStore.kv_drawn s)).
Proof.
  intros tx Hs Hd. eexists. unfold SyncStore.tx_put. cbn.
  destruct (store_markModified key tx) as [-> ->]. rewrite Hs, Hd. auto.
Qed.

Lemma runs_tx_put_new key data s :
  SyncStore.kv_store s !! key = None ->
  SyncStore.runs (SyncStore.tx_put key data false) s true
    (SyncStore.mkKV (<[key := data]> (SyncStore.kv_store s)) (SyncStore.kv_drawn s)).
Proof.
  intros Hnew tx Hs Hd. eexists. unfold SyncStore.tx_put. cbn.
  destruct (store_markModified key tx) as [-> ->]. rewrite Hs, Hd, Hnew.
  rewrite bool_decide_eq_false_2 by (intros [? ?]; discriminate). auto.
Qed.

Lemma runs_tx_del key s :
  SyncStore.runs (SyncStore.tx_del key) s tt
    (SyncStore.mkKV (delete key (SyncStore.kv_store s)) (SyncStore.kv_drawn s)).
Proof.
  intros tx Hs Hd. eexists. unfold SyncStore.tx_del. cbn.
  destruct (store_markModified key tx) as [-> ->]. rewrite Hs, Hd. auto.
Qed.

Lemma runs_draw randomUUID s :
  SyncStore.runs (SyncStore.draw randomUUID) s (randomUUID (SyncStore.kv_drawn s))
    (SyncStore.mkKV (SyncStore.kv_store s) (S (SyncStore.kv_drawn s))).
Proof.
  intros tx Hs Hd. eexists. unfold SyncStore.draw. cbn. rewrite Hs, Hd. auto.
Qed.

Lemma runs_transaction {A} (c : SyncStore.T A) s a s' :
  SyncStore.runs c s a s' -> SyncStore.transaction c s = (Ok a, s').
Proof.
  intros Hc. destruct (Hc (SyncStore.begin s) eq_refl eq_refl) as (tx & E & Hs & Hd).
  unfold SyncStore.transaction. rewrite E, Hs, Hd. destruct s'; reflexivity.
Qed.

Lemma runs_ext {A} (c c' : SyncStore.T A) s a s' :
  (forall tx, c tx = c' tx) -> SyncStore.runs c' s a s' -> SyncStore.runs c s a s'.
Proof.
  intros E Hc tx Hs Hd. rewrite E. auto.
Qed.

(** A body that reads returns on [s] what it has returned on a store
    with the same values under the keys it has read. *)
Lemma runs_reader {A} (c : SyncStore.T A) tx0 a tx0' s :
  SyncStore.reads_well c ->
  c tx0 = (Ok a, tx0') ->
  (forall k, k ∈ dom (SyncStore.originalData tx0') ->
     SyncStore.kv_store s !! k = SyncStore.store tx0 !! k) ->
  SyncStore.runs c s a s.
Proof.
  intros [Hro Hdet] E Hsame tx Hs Hd.
  pose proof (Hdet tx0 (Ok a) tx0' tx E) as Hr.
  destruct (c tx) as [r tx'] eqn:E'.
  exists tx'. cbn [fst] in Hr. rewrite Hr.
  - destruct (Hro tx r tx' E') as (H1 & H2 & _). split; [reflexivity|].
    rewrite H1, H2. auto.
  - intros k Hk. rewrite Hs. auto.
Qed.

(** ** The lookup of a path goes through the directory of the path *)

Section lookup.
Variable JSON_parse : string -> option (gmap string string).

Lemma _findINode_by_parent (p : string) (tx : SyncStore.Tx) :
  (Path.dirname p = "/" -> Path.basename p <> "")%string ->
  SyncStore._findINode JSON_parse (SyncStore.fuel_for p) (Path.dirname p) (Path.basename p) [] tx
  = SyncStore.tbind (SyncStore.lookup_parent JSON_parse p)
      (SyncStore.lookup_entry JSON_parse (Path.dirname p) (Path.basename p)) tx.
Proof.
  intros Hname. unfold SyncStore.fuel_for, SyncStore.lookup_parent.
  replace (String.length p + 3)%nat with (S (String.length p + 2)) by lia.
  cbn [SyncStore._findINode].
  rewrite bool_decide_eq_false_2 by (apply not_elem_of_nil).
  destruct (String.eqb_spec (Path.dirname p) "/") as [Hroot|Hroot].
  - destruct (String.eqb_spec (Path.basename p) "") as [Hb|Hb];
      [destruct (Hname Hroot Hb)|]. reflexivity.
  - unfold SyncStore.tbind.
    destruct (SyncStore._findINode JSON_parse _ _ _ _ tx) as [[id|e] tx1]; reflexivity.
Qed.

Lemma reads_well_lookup_parent p : SyncStore.reads_well (SyncStore.lookup_parent JSON_parse p).
Proof.
  unfold SyncStore.lookup_parent. cbv zeta. destruct (String.eqb _ _).
  - apply reads_well_getINode.
  - apply reads_well_bind; [apply reads_well__findINode|].
    intros id. apply reads_well_getINode.
Qed.

Lemma lookup_parent_is_findINode (p : string) (tx tx1 : SyncStore.Tx) (node : Inode.Inode) :
  ~ SyncStore.gave_up
      (fst (SyncStore._findINode JSON_parse (SyncStore.fuel_for p) (Path.dirname p)
              (Path.basename p) [] tx)) ->
  (Path.dirname p = "/" -> Path.basename p <> "")%string ->
  SyncStore.findINode JSON_parse (Path.dirname p) tx = (Ok node, tx1) ->
  SyncStore.lookup_parent JSON_parse p tx = (Ok node, tx1).
Proof.
  intros Hgo Hname Hfind. rewrite _findINode_by_parent in Hgo by exact Hname.
  unfold SyncStore.lookup_parent in *. cbv zeta in *.
  destruct (String.eqb_spec (Path.dirname p) "/") as [Hroot|Hroot].
  - rewrite Hroot in Hfind. exact Hfind.
  - unfold SyncStore.findINode in Hfind. unfold SyncStore.tbind in *.
    pose proof (_findINode_agree JSON_parse (String.length p + 2)
                  (SyncStore.fuel_for (Path.dirname p))
                  (Path.dirname (Path.dirname p)) (Path.basename (Path.dirname p))
                  [Path.join (Path.dirname p) (Path.basename p)] [] tx) as Hag.
    cbv zeta in Hag.
    destruct (SyncStore._findINode JSON_parse (String.length p + 2) _ _ _ tx) as [r1 t1].
    destruct (SyncStore._findINode JSON_parse (SyncStore.fuel_for _) _ _ _ tx) as [r2 t2].
    cbn [fst] in Hag. destruct Hag as [Hg|[Hg|Heq]].
    + exfalso. apply Hgo. destruct Hg as [-> | ->]; [left|right]; reflexivity.
    + exfalso. destruct Hg as [-> | ->]; discriminate.
    + inversion Heq; subst. exact Hfind.
Qed.

End lookup.

(** ** Inodes and listings that the store holds *)

Lemma runs_getINode p id s bytes node :
  SyncStore.kv_store s !! id = Some bytes ->
  Inode.Deserialize bytes = Ok node ->
  SyncStore.runs (SyncStore.getINode p (SyncStore.VString id)) s node s.
Proof.
  intros Hk Hd. unfold SyncStore.getINode.
  eapply runs_bind; [apply runs_tx_get|]. rewrite Hk, Hd. apply runs_lift.
Qed.

Section listing.
Variable JSON_parse : string -> option (gmap string string).

Lemma runs_getDirListing dir inode s l :
  Inode.isDirectory inode = true ->
  SyncStore.holds_listing JSON_parse s (Inode.id inode) l ->
  SyncStore.runs (SyncStore.getDirListing JSON_parse dir inode) s l s.
Proof.
  intros Hdir (data & Hk & Hp). unfold SyncStore.getDirListing. rewrite Hdir. cbn [negb].
  eapply runs_bind; [apply runs_tx_get|]. rewrite Hk, Hp. apply runs_ret.
Qed.

Lemma runs_lookup_entry dir name inode s l fid :
  Inode.isDirectory inode = true ->
  SyncStore.holds_listing JSON_parse s (Inode.id inode) l ->
  l !! name = Some fid -> fid <> ""%string ->
  SyncStore.runs (SyncStore.lookup_entry JSON_parse dir name inode) s (SyncStore.VString fid) s.
Proof.
  intros Hdir Hl Hn Hf. unfold SyncStore.lookup_entry.
  eapply runs_bind; [apply runs_getDirListing; eassumption|].
  cbv zeta. unfold SyncStore.get_property. rewrite Hn. cbn [SyncStore.truthy_value].
  destruct (String.eqb_spec fid ""); [contradiction|]. apply runs_ret.
Qed.

(** What a successful [getDirListing] tells. *)
Lemma getDirListing_inv dir inode tx l tx' :
  SyncStore.getDirListing JSON_parse dir inode tx = (Ok l, tx') ->
  Inode.isDirectory inode = true
  /\ exists data, SyncStore.store tx !! Inode.id inode = Some data
                  /\ JSON_parse (JS.decode data) = Some l.
Proof.
  unfold SyncStore.getDirListing. destruct (Inode.isDirectory inode); cbn [negb];
    [|discriminate].
  unfold SyncStore.tbind, SyncStore.tx_get. cbv zeta.
  destruct (SyncStore.store tx !! Inode.id inode) as [data|]; [|discriminate].
  destruct (JSON_parse (JS.decode data)) as [l'|] eqn:Hp; [|discriminate].
  intros [= <- _]. split; [reflexivity|]. exists data. auto.
Qed.

End listing.

(** ** Reading a file back *)

Lemma slice_all (a : list byte) : JS.slice a 0 (Z.of_nat (length a)) = a.
Proof.
  rewrite slice_exact by lia. rewrite Z.sub_0_r, Nat2Z.id. cbn [Z.to_nat skipn].
  change (Z.to_nat 0) with 0%nat. rewrite drop_0. apply firstn_all.
Qed.

Lemma set_bytes_all (a : list byte) :
  JS.set_bytes (repeat Byte.x00 (length a)) a 0 = Ok a.
Proof.
  pose proof (set_bytes_zeros_start a 0) as H. rewrite Nat.add_0_r in H.
  rewrite H. cbn [repeat]. now rewrite app_nil_r.
Qed.

(** Lookups on a store that agrees with [s] on the records that lead to
    the directory of [p]. *)
Section at_parent.
Variable JSON_parse : string -> option (gmap string string).
Variables (p : string) (s : SyncStore.KV) (parentNode : Inode.Inode)
  (tx1 : SyncStore.Tx).
Hypothesis Hparent :
  SyncStore.findINode JSON_parse (Path.dirname p) (SyncStore.begin s) = (Ok parentNode, tx1).
Hypothesis Hgo :
  ~ SyncStore.gave_up
      (fst (SyncStore._findINode JSON_parse (SyncStore.fuel_for p) (Path.dirname p)
              (Path.basename p) [] (SyncStore.begin s))).
Hypothesis Hname : (Path.dirname p = "/" -> Path.basename p <> "")%string.
Hypothesis Hdir : Inode.isDirectory parentNode = true.

Lemma runs_findINode_parent s' :
  SyncStore.agree_on (dom (SyncStore.originalData tx1)) s s' ->
  SyncStore.runs (SyncStore.findINode JSON_parse (Path.dirname p)) s' parentNode s'.
Proof.
  intros Hsame.
  apply (runs_reader _ (SyncStore.begin s) parentNode tx1);
    [apply reads_well_findINode | exact Hparent | exact Hsame].
Qed.

Lemma runs_lookup_parent s' :
  SyncStore.agree_on (dom (SyncStore.originalData tx1)) s s' ->
  SyncStore.runs (SyncStore.lookup_parent JSON_parse p) s' parentNode s'.
Proof.
  intros Hsame.
  apply (runs_reader _ (SyncStore.begin s) parentNode tx1);
    [apply reads_well_lookup_parent | | exact Hsame].
  apply lookup_parent_is_findINode; assumption.
Qed.

Lemma runs__findINode s' l fid :
  SyncStore.agree_on (dom (SyncStore.originalData tx1)) s s' ->
  SyncStore.holds_listing JSON_parse s' (Inode.id parentNode) l ->
  l !! Path.basename p = Some fid -> fid <> ""%string ->
  SyncStore.runs
    (SyncStore._findINode JSON_parse (SyncStore.fuel_for p) (Path.dirname p)
       (Path.basename p) []) s' (SyncStore.VString fid) s'.
Proof.
  intros Hsame Hl Hn Hf.
  eapply runs_ext; [intros tx; apply _findINode_by_parent; exact Hname|].
  eapply runs_bind; [apply runs_lookup_parent; exact Hsame|].
  eapply runs_lookup_entry; eassumption.
Qed.

Lemma runs_findINode s' l fid bytes node :
  SyncStore.agree_on (dom (SyncStore.originalData tx1)) s s' ->
  SyncStore.holds_listing JSON_parse s' (Inode.id parentNode) l ->
  l !! Path.basename p = Some fid -> fid <> ""%string ->
  SyncStore.kv_store s' !! fid = Some bytes ->
  Inode.Deserialize bytes = Ok node ->
  SyncStore.runs (SyncStore.findINode JSON_parse p) s' node s'.
Proof.
  intros Hsame Hl Hn Hf Hk Hd. unfold SyncStore.findINode.
  eapply runs_bind; [eapply runs__findINode; eassumption|].
  eapply runs_getINode; eassumption.
Qed.

End at_parent.

Section read_back.
Variable randomUUID : nat -> string.
Variable JSON_stringify : gmap string string -> string.
Variable JSON_parse : string -> option (gmap string string).

Lemma size_toStats now i : Stats.size (Inode.toStats now i) = Inode.size i.
Proof. reflexivity. Qed.

Lemma size_clone now st : Stats.size (Stats.clone now st) = Stats.size st.
Proof. reflexivity. Qed.

Lemma readFile_returns (now : Z) (p : string) (cred : Cred.Cred) (s : SyncStore.KV)
    (fileNode : Inode.Inode) (D : list byte) :
  Cred.euid cred = 0 \/ Cred.egid cred = 0 ->
  SyncStore.runs (SyncStore.findINode JSON_parse p) s fileNode s ->
  SyncStore.kv_store s !! Inode.id fileNode = Some D ->
  Inode.size fileNode = Z.of_nat (length D) ->
  SyncStore.readFile randomUUID JSON_stringify JSON_parse now p "r" cred s = (Ok D, s).
Proof.
  intros Hroot Hfind Hdata Hsize.
  assert (Hstat : SyncStore.statSync JSON_parse now p cred s
                  = (Ok (Inode.toStats now fileNode), s)).
  { unfold SyncStore.statSync. apply runs_transaction.
    eapply runs_bind; [exact Hfind|]. cbv zeta.
    rewrite hasAccess_of_root by exact Hroot. apply runs_ret. }
  assert (Hopen : SyncStore.openFileSync JSON_parse now p "r" cred s
                  = (Ok (File.mkPreloadFile p "r" (Inode.toStats now fileNode) D 0 false), s)).
  { unfold SyncStore.openFileSync. apply runs_transaction.
    eapply runs_bind; [exact Hfind|].
    eapply runs_bind; [apply runs_tx_get|].
    rewrite hasAccess_of_root by exact Hroot. cbn [negb]. rewrite Hdata.
    unfold File.new_PreloadFile. rewrite size_toStats, Hsize, Z.eqb_refl.
    cbn [negb andb]. apply runs_lift. }
  unfold SyncStore.readFile, FileSystem.readFile, FileSystem.open, FileSystem.openSync.
  rewrite Hstat, hasAccess_of_root by exact Hroot. cbn [negb].
  change (File.pathExistsAction "r") with File.NOP. cbv iota.
  rewrite Hopen. unfold FileSystem.finally_close. cbv zeta.
  cbn [File._stat]. rewrite size_clone, size_toStats, Hsize.
  unfold JS.new_Uint8Array.
  destruct (Z.ltb_spec (Z.of_nat (length D)) 0) as [Hneg|_]; [lia|].
  rewrite Nat2Z.id.
  unfold File.readSync. change (File.isReadable _) with true. cbn [negb].
  cbv zeta. file_simpl. rewrite size_toStats, Hsize.
  rewrite Z.add_0_l, Z.ltb_irrefl, slice_all, set_bytes_all.
  unfold SyncStore.closeSync, SyncStore.syncSync. file_simpl.
  reflexivity.
Qed.

End read_back.

(** ** Writing into a new file *)

Ltac update_test :=
  match goal with
  | |- context [negb (?a =? ?b)] =>
    destruct (Z.eqb_spec a b); cbn [negb Inode.id Inode.size Inode.mode Inode.atime
      Inode.mtime Inode.ctime Inode.uid Inode.gid]
  end.

Lemma update_snd (i : Inode.Inode) (st : Stats.Stats) :
  snd (Inode.update i st)
  = Inode.mkInode (Inode.id i) (Stats.size st) (Stats.mode st) (Stats.atimeMs st)
      (Stats.mtimeMs st) (Stats.ctimeMs st) (Stats.uid st) (Inode.gid i).
Proof.
  destruct i as [id sz md at_ mt ct ui gi].
  unfold Inode.update, JS.Date_getTime. cbv zeta.
  cbn [Inode.id Inode.size Inode.mode Inode.atime Inode.mtime Inode.ctime Inode.uid Inode.gid].
  do 7 update_test; subst; reflexivity.
Qed.

Lemma update_unchanged (i : Inode.Inode) (st : Stats.Stats) :
  fst (Inode.update i st) = false -> snd (Inode.update i st) = i.
Proof.
  destruct i as [id sz md at_ mt ct ui gi].
  unfold Inode.update, JS.Date_getTime. cbv zeta.
  cbn [Inode.id Inode.size Inode.mode Inode.atime Inode.mtime Inode.ctime Inode.uid Inode.gid].
  do 7 update_test; cbn [fst snd]; intros H; try discriminate H; reflexivity.
Qed.

Lemma with_size_same (st : Stats.Stats) : File.with_size st (Stats.size st) = st.
Proof. destruct st; reflexivity. Qed.

Lemma writeSync_into_empty {W : Type}
    (sync : File.PreloadFile -> W -> result unit * File.PreloadFile * W)
    (p : string) (st : Stats.Stats) (w : W) (now : Z) (D : list byte) :
  Stats.size st = 0 ->
  File.writeSync sync (File.mkPreloadFile p "w" st [] 0 false) w now D 0
    (Z.of_nat (length D)) (Some 0)
  = (Ok (Z.of_nat (length D)),
     File.mkPreloadFile p "w"
       (File.with_mtimeMs (File.with_size st (Z.of_nat (length D))) now)
       D (Z.of_nat (length D)) true,
     w).
Proof.
  intros Hsize. unfold File.writeSync. cbv zeta. file_simpl.
  change (File.isWriteable "w") with true. change (File.isSynchronous "w") with false.
  cbn [negb]. rewrite Hsize, !Z.add_0_l.
  destruct D as [|b D'].
  - destruct st as [sz md at_ mt ct bt ui gi]. cbn in Hsize. subst sz. reflexivity.
  - set (D := b :: D').
    assert (Hpos : 0 < Z.of_nat (length D)) by (subst D; cbn [length]; lia).
    destruct (Z.ltb_spec 0 (Z.of_nat (length D))) as [_|?]; [|lia].
    file_simpl. cbn [length]. change (Z.of_nat 0) with 0.
    destruct (Z.ltb_spec 0 (Z.of_nat (length D))) as [_|?]; [|lia].
    unfold JS.new_Uint8Array.
    destruct (Z.ltb_spec (Z.of_nat (length D)) 0) as [?|_]; [lia|].
    rewrite Nat2Z.id. cbn [JS.bind].
    rewrite (set_bytes_ok _ [] 0) by (cbn [length]; lia).
    change (Z.to_nat 0) with 0%nat. cbn [length Nat.add].
    rewrite take_0, drop_0. cbn [app JS.bind]. file_simpl.
    rewrite slice_all, set_bytes_all. file_simpl.
    change (File.isSynchronous "w") with false. cbv iota. reflexivity.
Qed.

(** *** [_syncSync] stores the data and the changed inode *)

Section sync.
Variable JSON_parse : string -> option (gmap string string).

Lemma _syncSync_stores (p : string) (D : list byte) (st : Stats.Stats)
    (s1 : SyncStore.KV) (fid : string) (bytes : list byte) (node : Inode.Inode) :
  SyncStore.runs
    (SyncStore._findINode JSON_parse (SyncStore.fuel_for p) (Path.dirname p)
       (Path.basename p) []) s1 (SyncStore.VString fid) s1 ->
  SyncStore.kv_store s1 !! fid = Some bytes ->
  Inode.Deserialize bytes = Ok node ->
  Inode.id node <> fid ->
  Inode.fits (snd (Inode.update node st)) ->
  exists s2 bytes',
    SyncStore._syncSync JSON_parse p D st s1 = (Ok tt, s2)
    /\ SyncStore.kv_store s2 !! Inode.id node = Some D
    /\ SyncStore.kv_store s2 !! fid = Some bytes'
    /\ Inode.Deserialize bytes' = Ok (snd (Inode.update node st))
    /\ (forall k, k <> Inode.id node -> k <> fid ->
          SyncStore.kv_store s2 !! k = SyncStore.kv_store s1 !! k).
Proof.
  intros Hfind Hk Hd Hne Hfits.
  pose proof (update_snd node st) as Hsnd.
  pose proof (update_unchanged node st) as Hsame.
  destruct (Inode.update node st) as [changed node'] eqn:E. cbn [fst snd] in *.
  assert (Hid : Inode.id node' = Inode.id node) by (rewrite Hsnd; reflexivity).
  destruct changed.
  - destruct (Deserialize_serialize node' Hfits) as (data & Hser & Hback).
    exists (SyncStore.mkKV (<[fid := data]> (<[Inode.id node := D]> (SyncStore.kv_store s1)))
              (SyncStore.kv_drawn s1)), data.
    split; [|cbn [SyncStore.kv_store]; repeat split].
    + unfold SyncStore._syncSync, SyncStore._syncSync_tx. apply runs_transaction.
      eapply runs_bind; [exact Hfind|].
      eapply runs_bind; [eapply runs_getINode; eassumption|].
      cbv beta. rewrite E. apply runs_try_abort.
      eapply runs_bind; [apply runs_tx_put|].
      rewrite Hser. eapply runs_bind; [apply runs_lift|].
      eapply runs_bind; [apply runs_tx_put|]. rewrite Hid. apply runs_ret.
    + rewrite lookup_insert_ne by congruence. apply lookup_insert_eq.
    + apply lookup_insert_eq.
    + exact Hback.
    + intros k H1 H2. rewrite !lookup_insert_ne by congruence. reflexivity.
  - rewrite (Hsame eq_refl) in *.
    exists (SyncStore.mkKV (<[Inode.id node := D]> (SyncStore.kv_store s1))
              (SyncStore.kv_drawn s1)), bytes.
    split; [|cbn [SyncStore.kv_store]; repeat split].
    + unfold SyncStore._syncSync, SyncStore._syncSync_tx. apply runs_transaction.
      eapply runs_bind; [exact Hfind|].
      eapply runs_bind; [eapply runs_getINode; eassumption|].
      cbv beta. rewrite E. apply runs_try_abort.
      eapply runs_bind; [apply runs_tx_put|]. apply runs_ret.
    + apply lookup_insert_eq.
    + rewrite lookup_insert_ne by congruence. exact Hk.
    + exact Hd.
    + intros k H1 H2. rewrite lookup_insert_ne by congruence. reflexivity.
Qed.

End sync.

(** *** [commitNewFile] stores the data, the inode and the listing *)

Section create.
Variable randomUUID : nat -> string.
Variable JSON_stringify : gmap string string -> string.
Variable JSON_parse : string -> option (gmap string string).
Variables (p : string) (s : SyncStore.KV) (parentNode : Inode.Inode)
  (tx1 : SyncStore.Tx).
Hypothesis Hparent :
  SyncStore.findINode JSON_parse (Path.dirname p) (SyncStore.begin s) = (Ok parentNode, tx1).
Hypothesis Hdir : Inode.isDirectory parentNode = true.

Lemma commitNewFile_stores (now type mode : Z) (cred : Cred.Cred) (data : list byte)
    (s0 : SyncStore.KV) (l : gmap string string) (bytes0 : list byte) :
  let id1 := randomUUID (SyncStore.kv_drawn s0) in
  let id2 := randomUUID (S (SyncStore.kv_drawn s0)) in
  let node0 :=
    Inode.mkInode id1 (Z.of_nat (length data)) (JS.bor mode type) now now now
      (Cred.uid cred) (Cred.gid cred) in
  SyncStore.agree_on (dom (SyncStore.originalData tx1)) s s0 ->
  SyncStore.holds_listing JSON_parse s0 (Inode.id parentNode) l ->
  l !! Path.basename p = None ->
  Path.basename p ∉ SyncStore.Object_prototype_names ->
  p <> "/"%string ->
  Cred.euid cred = 0 \/ Cred.egid cred = 0 ->
  SyncStore.kv_store s0 !! id1 = None ->
  SyncStore.kv_store s0 !! id2 = None ->
  id1 <> id2 ->
  Inode.serialize node0 = Ok bytes0 ->
  SyncStore.runs
    (SyncStore.commitNewFile randomUUID JSON_stringify JSON_parse now p type mode cred data)
    s0 node0
    (SyncStore.mkKV
       (<[Inode.id parentNode := JS.encode (JSON_stringify (<[Path.basename p := id2]> l))]>
          (<[id2 := bytes0]> (<[id1 := data]> (SyncStore.kv_store s0))))
       (S (S (SyncStore.kv_drawn s0)))).
Proof.
  intros id1 id2 node0 Hsame Hl Hnone Hproto Hp Hroot Hid1 Hid2 Hne Hser.
  unfold SyncStore.commitNewFile. cbv zeta.
  eapply runs_bind; [apply (runs_findINode_parent JSON_parse p s parentNode tx1 Hparent);
                     exact Hsame|].
  eapply runs_bind; [apply runs_getDirListing; eassumption|].
  rewrite hasAccess_of_root by exact Hroot. cbn [negb].
  destruct (String.eqb_spec p "/") as [?|_]; [contradiction|].
  unfold SyncStore.get_property at 1. rewrite Hnone.
  rewrite bool_decide_eq_false_2 by exact Hproto. cbn [SyncStore.truthy_value].
  eapply runs_bind; [|apply runs_ret].
  apply runs_try_abort. unfold SyncStore.addNewNode.
  eapply runs_bind.
  { eapply runs_bind; [apply runs_draw|].
    eapply runs_bind; [apply runs_tx_put_new; exact Hid1|]. apply runs_ret. }
  fold id1 node0. rewrite Hser.
  eapply runs_bind; [apply runs_lift|].
  eapply runs_bind.
  { eapply runs_bind; [apply runs_draw|]. cbn [SyncStore.kv_drawn].
    eapply runs_bind; [apply runs_tx_put_new|apply runs_ret].
    cbn [SyncStore.kv_store]. rewrite lookup_insert_ne by exact Hne. exact Hid2. }
  fold id2. cbn [SyncStore.set_property].
  eapply runs_bind; [apply runs_tx_put|]. apply runs_ret.
Qed.

End create.

(** ** Modes stay sixteen-bit numbers *)

Lemma toInt32_small (z : Z) : 0 <= z < 2 ^ 31 -> JS.toInt32 z = z.
Proof.
  intros H. unfold JS.toInt32. rewrite Z.mod_small; lia.
Qed.

Lemma bor_range (a b : Z) :
  0 <= a < 2 ^ 16 -> 0 <= b < 2 ^ 16 -> 0 <= JS.bor a b < 2 ^ 16.
Proof.
  intros Ha Hb. unfold JS.bor. rewrite !toInt32_small by lia.
  split; [apply Z.lor_nonneg; lia|].
  destruct (Z.eq_dec (Z.lor a b) 0) as [->|Hnz]; [lia|].
  assert (0 <= Z.lor a b) by (apply Z.lor_nonneg; lia).
  apply Z.log2_lt_pow2; [lia|]. rewrite Z.log2_lor by lia.
  apply Z.max_lub_lt.
  - destruct (Z.eq_dec a 0) as [->|?]; [cbn; lia|]. apply Z.log2_lt_pow2; lia.
  - destruct (Z.eq_dec b 0) as [->|?]; [cbn; lia|]. apply Z.log2_lt_pow2; lia.
Qed.

Lemma toStats_mode_range (now : Z) (i : Inode.Inode) :
  0 <= Inode.mode i < 2 ^ 16 -> 0 <= Stats.mode (Inode.toStats now i) < 2 ^ 16.
Proof.
  intros H. unfold Inode.toStats, Stats.new_Stats. cbv zeta. cbn [Stats.mode].
  assert (Htype : forall t, (t = Stats.S_IFDIR \/ t = Stats.S_IFREG) ->
                            0 <= t < 2 ^ 16 /\ 0 <= Stats.default_mode t < 2 ^ 16).
  { intros t [-> | ->]; cbv; repeat split; congruence. }
  set (t := if JS.band (Inode.mode i) 61440 =? Stats.S_IFDIR
            then Stats.S_IFDIR else Stats.S_IFREG).
  assert (Ht : t = Stats.S_IFDIR \/ t = Stats.S_IFREG)
    by (subst t; destruct (_ =? _); auto).
  destruct (Htype t Ht) as [Hr Hd].
  destruct (JS.truthy (Inode.mode i)); destruct (_ =? 0);
    try apply bor_range; assumption.
Qed.

Lemma isDirectory_toStats (now : Z) (i : Inode.Inode) :
  Inode.isDirectory i = true -> Stats.isDirectory (Inode.toStats now i) = true.
Proof.
  unfold Inode.isDirectory, Stats.isDirectory, Inode.toStats, Stats.new_Stats.
  intros H. cbv zeta. cbn [Stats.mode]. rewrite H.
  unfold JS.truthy. destruct (Z.eqb_spec (Inode.mode i) 0) as [E|_].
  - rewrite E in H. discriminate H.
  - cbn [negb]. change Stats.S_IFMT with 61440.
    apply Z.eqb_eq in H. rewrite H. cbn. rewrite H. reflexivity.
Qed.

Lemma of_le_bytes_range (bs : list byte) :
  0 <= JS.of_le_bytes bs < 256 ^ Z.of_nat (length bs).
Proof.
  induction bs as [|b bs IH]; [cbn; lia|].
  cbn [JS.of_le_bytes length]. rewrite Nat2Z.inj_succ, Z.pow_succ_r by lia.
  pose proof (Byte.to_N_bounded b). lia.
Qed.

Lemma view_get_length view off n bs :
  JS.view_get view off n = Ok bs -> length bs = n.
Proof.
  unfold JS.view_get.
  destruct (Z.ltb_spec off 0); cbn [orb]; [discriminate|].
  destruct (Z.ltb_spec (Z.of_nat (length view)) (off + Z.of_nat n)); [discriminate|].
  intros [= <-]. rewrite length_take, length_drop. lia.
Qed.

Lemma Deserialize_mode_range (data : list byte) (i : Inode.Inode) :
  Inode.Deserialize data = Ok i -> 0 <= Inode.mode i < 2 ^ 16.
Proof.
  unfold Inode.Deserialize, JS.getUint32, JS.getUint16, JS.getFloat64. cbv zeta.
  repeat match goal with
         | |- context [JS.view_get ?v ?o ?n] =>
           let H := fresh "H" in
           destruct (JS.view_get v o n) eqn:H; cbn [JS.bind]; [|discriminate]
         end.
  intros [= <-]. cbn [Inode.mode].
  match goal with
  | H : JS.view_get _ 4 2 = Ok ?l |- _ =>
    apply view_get_length in H; pose proof (of_le_bytes_range l) as Hr; rewrite H in Hr
  end.
  exact Hr.
Qed.

(** ** [removeEntry] deletes the data and the inode of a file *)

Section remove.
Variable JSON_stringify : gmap string string -> string.
Variable JSON_parse : string -> option (gmap string string).
Variables (p : string) (s : SyncStore.KV) (parentNode : Inode.Inode)
  (tx1 : SyncStore.Tx).
Hypothesis Hparent :
  SyncStore.findINode JSON_parse (Path.dirname p) (SyncStore.begin s) = (Ok parentNode, tx1).
Hypothesis Hdir : Inode.isDirectory parentNode = true.

Lemma removeEntry_stores (now : Z) (cred : Cred.Cred) (l : gmap string string)
    (fid : string) (bytes : list byte) (fileNode : Inode.Inode) :
  SyncStore.holds_listing JSON_parse s (Inode.id parentNode) l ->
  l !! Path.basename p = Some fid -> fid <> ""%string ->
  SyncStore.kv_store s !! fid = Some bytes ->
  Inode.Deserialize bytes = Ok fileNode ->
  Inode.isDirectory fileNode = false ->
  Cred.euid cred = 0 \/ Cred.egid cred = 0 ->
  SyncStore.runs (SyncStore.removeEntry_tx JSON_stringify JSON_parse now p false cred) s tt
    (SyncStore.mkKV
       (<[Inode.id parentNode := JS.encode (JSON_stringify (delete (Path.basename p) l))]>
          (delete fid (delete (Inode.id fileNode) (SyncStore.kv_store s))))
       (SyncStore.kv_drawn s)).
Proof.
  intros Hl Hn Hf Hk Hd Hfile Hroot.
  unfold SyncStore.removeEntry_tx. cbv zeta.
  eapply runs_bind;
    [apply (runs_findINode_parent JSON_parse p s parentNode tx1 Hparent); intros k _;
     reflexivity|].
  eapply runs_bind; [apply runs_getDirListing; eassumption|].
  unfold SyncStore.get_property. rewrite Hn. cbn [SyncStore.truthy_value].
  destruct (String.eqb_spec fid "") as [?|_]; [contradiction|]. cbn [negb].
  eapply runs_bind; [eapply runs_getINode; eassumption|].
  rewrite hasAccess_of_root by exact Hroot. rewrite Hfile. cbn [negb andb].
  apply runs_try_abort.
  eapply runs_bind; [apply runs_tx_del|].
  eapply runs_bind; [apply runs_tx_del|].
  eapply runs_bind; [apply runs_tx_put|]. apply runs_ret.
Qed.

End remove.

(** ** A file that is created, written and closed reads back *)

Section write_new.
Variable randomUUID : nat -> string.
Variable JSON_stringify : gmap string string -> string.
Variable JSON_parse : string -> option (gmap string string).
Variables (now : Z) (p : string) (D : list byte) (cred : Cred.Cred)
  (s : SyncStore.KV) (parentNode : Inode.Inode) (tx1 : SyncStore.Tx).
Hypothesis Hparent :
  SyncStore.findINode JSON_parse (Path.dirname p) (SyncStore.begin s) = (Ok parentNode, tx1).
Hypothesis Hgo :
  ~ SyncStore.gave_up
      (fst (SyncStore._findINode JSON_parse (SyncStore.fuel_for p) (Path.dirname p)
              (Path.basename p) [] (SyncStore.begin s))).
Hypothesis Hname : (Path.dirname p = "/" -> Path.basename p <> "")%string.
Hypothesis Hdir : Inode.isDirectory parentNode = true.
Hypothesis Hroot : Cred.euid cred = 0 \/ Cred.egid cred = 0.
Hypothesis Huid : 0 <= Cred.uid cred < 2 ^ 32.
Hypothesis Hgid : 0 <= Cred.gid cred < 2 ^ 32.
Hypothesis Hnow : Z.abs now < 2 ^ 53.
Hypothesis Hlen : Z.of_nat (length D) < 2 ^ 32.
Hypothesis Hreads :
  forall k, k ∈ dom (SyncStore.originalData tx1) -> is_Some (SyncStore.kv_store s !! k).
Hypothesis Hown : Inode.id parentNode ∉ dom (SyncStore.originalData tx1).
Hypothesis Hproto : Path.basename p ∉ SyncStore.Object_prototype_names.
Hypothesis Hp : p <> "/"%string.

Lemma create_write_read (mode : Z) (s0 : SyncStore.KV) (l : gmap string string) :
  let id1 := randomUUID (SyncStore.kv_drawn s0) in
  let id2 := randomUUID (S (SyncStore.kv_drawn s0)) in
  0 <= mode < 2 ^ 16 ->
  SyncStore.agree_on (dom (SyncStore.originalData tx1)) s s0 ->
  SyncStore.holds_listing JSON_parse s0 (Inode.id parentNode) l ->
  l !! Path.basename p = None ->
  SyncStore.kv_store s0 !! id1 = None ->
  SyncStore.kv_store s0 !! id2 = None ->
  id1 <> id2 -> id2 <> ""%string ->
  JSON_parse (JSON_stringify (<[Path.basename p := id2]> l))
  = Some (<[Path.basename p := id2]> l) ->
  exists f0 s1 s2,
    SyncStore.createFileSync randomUUID JSON_stringify JSON_parse now p "w" mode cred s0
    = (Ok f0, s1)
    /\ FileSystem.finally_close (fun _ => SyncStore.closeSync JSON_parse) now
         (match File.writeSync (SyncStore.syncSync JSON_parse) f0 s1 now D 0
                  (Z.of_nat (length D)) (Some 0) with
          | (Err e, fd, s) => (Err e, fd, s)
          | (Ok _, fd, s) => (Ok tt, fd, s)
          end)
       = (Ok tt, s2)
    /\ forall nowR,
         SyncStore.readFile randomUUID JSON_stringify JSON_parse nowR p "r" cred s2
         = (Ok D, s2).
Proof.
  intros id1 id2 Hmode Hsame Hl Hnone Hid1 Hid2 Hne Hnonempty HJ.
  set (lk := Inode.id parentNode) in *.
  set (reads := dom (SyncStore.originalData tx1)) in *.
  set (name := Path.basename p) in *.
  (* the keys that are written are none of the keys read on the way *)
  assert (Hlk : is_Some (SyncStore.kv_store s0 !! lk))
    by (destruct Hl as (data & -> & _); eauto).
  assert (Hlk1 : lk <> id1) by (intros E; rewrite E, Hid1 in Hlk; destruct Hlk; discriminate).
  assert (Hlk2 : lk <> id2) by (intros E; rewrite E, Hid2 in Hlk; destruct Hlk; discriminate).
  assert (Hr1 : id1 ∉ reads).
  { intros Hin. pose proof (Hreads _ Hin) as Hs. rewrite <- (Hsame _ Hin), Hid1 in Hs.
    destruct Hs; discriminate. }
  assert (Hr2 : id2 ∉ reads).
  { intros Hin. pose proof (Hreads _ Hin) as Hs. rewrite <- (Hsame _ Hin), Hid2 in Hs.
    destruct Hs; discriminate. }
  (* the inode of the new file *)
  set (node0 := Inode.mkInode id1 (Z.of_nat (@length byte [])) (JS.bor mode Stats.S_IFREG)
                  now now now (Cred.uid cred) (Cred.gid cred)).
  assert (Hmode0 : 0 <= Inode.mode node0 < 2 ^ 16)
    by (apply bor_range; [exact Hmode | cbv; split; congruence]).
  assert (Hfits0 : Inode.fits node0).
  { unfold Inode.fits. subst node0. cbn [Inode.size Inode.mode Inode.atime Inode.mtime
      Inode.ctime Inode.uid Inode.gid length] in *.
    change (Z.of_nat 0) with 0. repeat split; try assumption; lia. }
  destruct (Deserialize_serialize node0 Hfits0) as (bytes0 & Hser0 & Hback0).
  set (l1 := <[name := id2]> l) in *.
  set (s1 := SyncStore.mkKV
               (<[lk := JS.encode (JSON_stringify l1)]>
                  (<[id2 := bytes0]> (<[id1 := []]> (SyncStore.kv_store s0))))
               (S (S (SyncStore.kv_drawn s0)))).
  set (st0 := Inode.toStats now node0).
  set (f0 := File.mkPreloadFile p "w" st0 [] 0 false).
  assert (Hcreate :
    SyncStore.createFileSync randomUUID JSON_stringify JSON_parse now p "w" mode cred s0
    = (Ok f0, s1)).
  { unfold SyncStore.createFileSync. cbv zeta. apply runs_transaction.
    eapply runs_bind.
    - eapply (commitNewFile_stores randomUUID JSON_stringify JSON_parse p s parentNode tx1
                Hparent Hdir now Stats.S_IFREG mode cred [] s0 l bytes0); eassumption.
    - unfold File.new_PreloadFile. change (File.isReadable "w") with false.
      rewrite andb_false_r. apply runs_lift. }
  (* the stores after the file is created *)
  assert (Hsame1 : SyncStore.agree_on reads s s1).
  { intros k Hk. subst s1. cbn [SyncStore.kv_store].
    rewrite !lookup_insert_ne by (intros <-; contradiction). apply Hsame, Hk. }
  assert (Hl1 : SyncStore.holds_listing JSON_parse s1 lk l1).
  { exists (JS.encode (JSON_stringify l1)). split.
    - subst s1. cbn [SyncStore.kv_store]. apply lookup_insert_eq.
    - rewrite decode_encode. exact HJ. }
  assert (Hn1 : l1 !! name = Some id2) by (subst l1; apply lookup_insert_eq).
  assert (Hk1 : SyncStore.kv_store s1 !! id2 = Some bytes0).
  { subst s1. cbn [SyncStore.kv_store]. rewrite lookup_insert_ne by exact Hlk2.
    apply lookup_insert_eq. }
  set (st1 := File.with_mtimeMs (File.with_size st0 (Z.of_nat (length D))) now).
  set (node1 := snd (Inode.update node0 st1)).
  assert (Hnode1 : node1 = Inode.mkInode id1 (Z.of_nat (length D)) (Stats.mode st0)
                             now now now (Cred.uid cred) (Cred.gid cred)).
  { subst node1. rewrite update_snd. reflexivity. }
  assert (Hfits1 : Inode.fits node1).
  { rewrite Hnode1. unfold Inode.fits. cbn [Inode.size Inode.mode Inode.atime Inode.mtime
      Inode.ctime Inode.uid Inode.gid].
    pose proof (toStats_mode_range now node0 Hmode0) as Hm. fold st0 in Hm.
    repeat split; try assumption; lia. }
  destruct (_syncSync_stores JSON_parse p D st1 s1 id2 bytes0 node0) as
    (s2 & bytes1 & Hsync & Hdata2 & Hnode2 & Hback1 & Hrest2).
  { eapply (runs__findINode JSON_parse p s parentNode tx1); eassumption. }
  { exact Hk1. }
  { exact Hback0. }
  { exact Hne. }
  { exact Hfits1. }
  fold node1 in Hback1. cbn [Inode.id node0] in Hdata2, Hrest2.
  exists f0, s1, s2. split; [exact Hcreate|]. split.
  - subst f0. rewrite writeSync_into_empty by reflexivity. fold st1.
    unfold FileSystem.finally_close, SyncStore.closeSync, SyncStore.syncSync.
    cbn [File._dirty File._path File._buffer File._stat]. rewrite Hsync. reflexivity.
  - intros nowR.
    apply (readFile_returns randomUUID JSON_stringify JSON_parse nowR p cred s2 node1).
    + exact Hroot.
    + eapply (runs_findINode JSON_parse p s parentNode tx1 Hparent Hgo Hname Hdir s2 l1 id2).
      * intros k Hk. rewrite Hrest2 by (intros ->; contradiction). apply Hsame1, Hk.
      * destruct Hl1 as (data & Hd1 & Hd2). exists data. split; [|exact Hd2].
        rewrite Hrest2; [exact Hd1 | exact Hlk1 | exact Hlk2].
      * exact Hn1.
      * exact Hnonempty.
      * exact Hnode2.
      * exact Hback1.
    + rewrite Hnode1. exact Hdata2.
    + rewrite Hnode1. reflexivity.
Qed.

End write_new.

(** ** What a lookup has found *)

(** A transaction whose body only reads leaves the file system as it is. *)
Lemma transaction_reads_only {A} (c : SyncStore.T A) (s : SyncStore.KV) r tx :
  SyncStore.reads_only c -> c (SyncStore.begin s) = (r, tx) ->
  SyncStore.transaction c s = (r, s).
Proof.
  intros Hro E. unfold SyncStore.transaction. rewrite E.
  destruct (Hro _ _ _ E) as (H1 & H2 & _). rewrite H1, H2.
  destruct s; reflexivity.
Qed.

Section lookup_inversion.
Variable JSON_parse : string -> option (gmap string string).
Variables (p : string) (s : SyncStore.KV) (parentNode : Inode.Inode)
  (listing : gmap string string) (tx1 tx2 : SyncStore.Tx).
Hypothesis Hparent :
  SyncStore.findINode JSON_parse (Path.dirname p) (SyncStore.begin s) = (Ok parentNode, tx1).
Hypothesis Hlisting :
  SyncStore.getDirListing JSON_parse (Path.dirname p) parentNode tx1 = (Ok listing, tx2).

(** The lookup of the root as a file of its own name finds the root. *)
Lemma findINode_of_root :
  Path.dirname p = "/"%string -> Path.basename p = ""%string ->
  SyncStore.findINode JSON_parse p (SyncStore.begin s) = (Ok parentNode, tx1).
Proof.
  intros Hd Hb. rewrite Hd in Hparent. unfold SyncStore.findINode at 1.
  rewrite Hd, Hb. unfold SyncStore.fuel_for.
  replace (String.length p + 3)%nat with (S (String.length p + 2)) by lia.
  exact Hparent.
Qed.

Lemma store_after_lookup :
  SyncStore.store tx1 = SyncStore.kv_store s /\ SyncStore.store tx2 = SyncStore.kv_store s.
Proof.
  destruct (reads_only_findINode JSON_parse _ _ _ _ Hparent) as (H1 & _).
  destruct (reads_only_getDirListing JSON_parse _ _ _ _ _ Hlisting) as (H2 & _).
  cbn in H1. rewrite H2, H1. auto.
Qed.

(** What the lookup of [p] does once the directory of [p] is found. *)
Lemma findINode_by_listing :
  ~ SyncStore.gave_up
      (fst (SyncStore._findINode JSON_parse (SyncStore.fuel_for p) (Path.dirname p)
              (Path.basename p) [] (SyncStore.begin s))) ->
  (Path.dirname p = "/" -> Path.basename p <> "")%string ->
  SyncStore.findINode JSON_parse p (SyncStore.begin s)
  = (if SyncStore.truthy_value (SyncStore.get_property listing (Path.basename p))
     then SyncStore.getINode p (SyncStore.get_property listing (Path.basename p)) tx2
     else (Err (ApiError ENOENT), tx2)).
Proof.
  intros Hgo Hname. unfold SyncStore.findINode at 1. unfold SyncStore.tbind at 1.
  rewrite _findINode_by_parent by exact Hname.
  unfold SyncStore.tbind at 1.
  rewrite (lookup_parent_is_findINode JSON_parse p _ tx1 parentNode Hgo Hname Hparent).
  unfold SyncStore.lookup_entry, SyncStore.tbind. rewrite Hlisting. cbv zeta.
  destruct (SyncStore.truthy_value _); reflexivity.
Qed.

Lemma findINode_found (fileNode : Inode.Inode) (tx3 : SyncStore.Tx) :
  ~ SyncStore.gave_up
      (fst (SyncStore._findINode JSON_parse (SyncStore.fuel_for p) (Path.dirname p)
              (Path.basename p) [] (SyncStore.begin s))) ->
  (Path.dirname p = "/" -> Path.basename p <> "")%string ->
  SyncStore.findINode JSON_parse p (SyncStore.begin s) = (Ok fileNode, tx3) ->
  exists fid bytes,
    listing !! Path.basename p = Some fid /\ fid <> ""%string
    /\ SyncStore.kv_store s !! fid = Some bytes
    /\ Inode.Deserialize bytes = Ok fileNode.
Proof.
  intros Hgo Hname Hfind. rewrite (findINode_by_listing Hgo Hname) in Hfind.
  destruct store_after_lookup as [_ Hstore].
  unfold SyncStore.get_property in Hfind.
  destruct (listing !! Path.basename p) as [fid|] eqn:Hn.
  - cbn [SyncStore.truthy_value] in Hfind.
    destruct (String.eqb_spec fid "") as [|Hne]; [discriminate Hfind|]. cbn [negb] in Hfind.
    unfold SyncStore.getINode, SyncStore.tbind, SyncStore.tx_get in Hfind.
    cbv zeta in Hfind. rewrite Hstore in Hfind.
    destruct (SyncStore.kv_store s !! fid) as [bytes|] eqn:Hk; [|discriminate Hfind].
    unfold SyncStore.lift in Hfind. exists fid, bytes. repeat split; try assumption.
    congruence.
  - destruct (bool_decide _); cbn in Hfind; discriminate Hfind.
Qed.

End lookup_inversion.

(** ** [writeFile] then [readFile] on the in-memory key-value backend *)

(** X24: [writeFile(p, D)] followed by [readFile(p)]
    returns [D] when the directory of [p] exists and [p] itself is not
    found or is a file that is no directory.  The statement is for the
    flags [w] and [r], for credentials whose effective user or group is 0,
    a clock that reads a time value of [Date], owners and a size that fit
    the slots of the inode record, and a store in which the records on the
    way to [p] are not shared: the listing of the directory, the entry of
    [p] and the data of [p] are not among the records [reads] that lead to
    the directory.  The two ids that [randomUUID] draws next are new, the
    first one, the id of the inode, has one byte for each character, and
    [JSON.parse] reads back the two listings that are written.  The name
    of [p] is no property of [Object.prototype], and the lookup of [p] does
    not stop on its guard against loops. *)
Theorem writeFile_then_readFile_returns_the_data
    (randomUUID : nat -> string)
    (JSON_stringify : gmap string string -> string)
    (JSON_parse : string -> option (gmap string string))
    (now nowR mode : Z) (p : string) (D : list byte) (cred : Cred.Cred)
    (s : SyncStore.KV) (parentNode : Inode.Inode) (listing : gmap string string)
    (tx1 tx2 : SyncStore.Tx) :
  let dir := Path.dirname p in
  let name := Path.basename p in
  let reads := dom (SyncStore.originalData tx1) in
  let id1 := randomUUID (SyncStore.kv_drawn s) in
  let id2 := randomUUID (S (SyncStore.kv_drawn s)) in
  (Cred.euid cred = 0 \/ Cred.egid cred = 0) ->
  0 <= Cred.uid cred < 2 ^ 32 -> 0 <= Cred.gid cred < 2 ^ 32 ->
  JS.in_Date_range now -> 0 <= mode < 2 ^ 16 ->
  Z.of_nat (length D) < 2 ^ 32 ->
  SyncStore.findINode JSON_parse dir (SyncStore.begin s) = (Ok parentNode, tx1) ->
  SyncStore.getDirListing JSON_parse dir parentNode tx1 = (Ok listing, tx2) ->
  Inode.id parentNode ∉ reads ->
  name ∉ SyncStore.Object_prototype_names ->
  (forall fid, listing !! name = Some fid -> fid ∉ reads) ->
  match SyncStore.findINode JSON_parse p (SyncStore.begin s) with
  | (Ok fileNode, _) =>
    Inode.isDirectory fileNode = false /\ Inode.id fileNode ∉ reads
  | (Err e, _) => e = ApiError ENOENT /\ listing !! name = None
  end ->
  id1 ∉ dom (SyncStore.kv_store s) -> id2 ∉ dom (SyncStore.kv_store s) ->
  id1 <> id2 -> id2 <> ""%string -> JS.one_byte_per_char id1 = true ->
  JSON_parse (JSON_stringify (delete name listing)) = Some (delete name listing) ->
  JSON_parse (JSON_stringify (<[name := id2]> listing)) = Some (<[name := id2]> listing) ->
  exists s',
    SyncStore.writeFile randomUUID JSON_stringify JSON_parse now p D "w" mode cred s
    = (Ok tt, s')
    /\ fst (SyncStore.readFile randomUUID JSON_stringify JSON_parse nowR p "r" cred s')
       = Ok D.
Proof.
  intros dir name reads id1 id2 Hroot Huid Hgid Hdate Hmode Hlen Hparent Hlisting Hown
    Hproto Hentry Hcase Hfresh1 Hfresh2 Hne Hnonempty _ HJdel HJins.
  assert (Hnow : Z.abs now < 2 ^ 53) by (unfold JS.in_Date_range in Hdate; lia).
  apply not_elem_of_dom in Hfresh1, Hfresh2.
  (* the directory of [p] *)
  destruct (getDirListing_inv JSON_parse _ _ _ _ _ Hlisting) as (Hdir & data & Hdata & Hparse).
  destruct (store_after_lookup JSON_parse p s parentNode listing tx1 tx2 Hparent Hlisting)
    as [Hstore1 _].
  rewrite Hstore1 in Hdata.
  assert (Hholds : SyncStore.holds_listing JSON_parse s (Inode.id parentNode) listing)
    by (exists data; auto).
  assert (Hreads : forall k, k ∈ reads -> is_Some (SyncStore.kv_store s !! k)).
  { intros k Hk. apply elem_of_dom.
    pose proof (reads_present_findINode JSON_parse _ _ _ _ Hparent) as Hsub.
    cbn [SyncStore.begin SyncStore.originalData SyncStore.store] in Hsub.
    rewrite dom_empty_L in Hsub. set_solver. }
  (* the lookup of [p] neither stops on its guard nor takes the root for [p] *)
  assert (Hgo : ~ SyncStore.gave_up
                    (fst (SyncStore._findINode JSON_parse (SyncStore.fuel_for p) dir name []
                            (SyncStore.begin s)))).
  { unfold SyncStore.findINode, SyncStore.tbind in Hcase.
    destruct (SyncStore._findINode JSON_parse _ _ _ _ _) as [[v|e] t]; cbn [fst].
    - intros [H|H]; discriminate H.
    - destruct Hcase as [-> _]. intros [H|H]; discriminate H. }
  assert (Hname : dir = "/"%string -> name <> ""%string).
  { intros Hd Hb.
    rewrite (findINode_of_root JSON_parse p s parentNode tx1 Hparent Hd Hb) in Hcase.
    destruct Hcase as [Hfile _]. congruence. }
  assert (Hp : p <> "/"%string).
  { intros ->. apply Hname; reflexivity. }
  assert (Hsame : SyncStore.agree_on reads s s) by (intros k _; reflexivity).
  unfold SyncStore.writeFile, FileSystem.writeFile, FileSystem.open, FileSystem.openSync.
  destruct (SyncStore.findINode JSON_parse p (SyncStore.begin s)) as [[fileNode|e] tx3]
    eqn:Hfind.
  - (* [p] is a file: it is unlinked and created anew *)
    destruct Hcase as [Hfile Hdk].
    destruct (findINode_found JSON_parse p s parentNode listing tx1 tx2 Hparent Hlisting
                fileNode tx3 Hgo Hname Hfind) as (fid & bytes & Hn & Hfid & Hk & Hback).
    assert (Hstat : SyncStore.statSync JSON_parse now p cred s
                    = (Ok (Inode.toStats now fileNode), s)).
    { unfold SyncStore.statSync.
      apply (transaction_reads_only _ s _ tx3).
      - apply reads_only_bind; [apply reads_only_findINode|].
        intros node. cbv zeta. destruct (negb _);
          [apply reads_only_throw | apply reads_only_ret].
      - unfold SyncStore.tbind. rewrite Hfind. cbv zeta.
        rewrite hasAccess_of_root by exact Hroot. reflexivity. }
    rewrite Hstat, hasAccess_of_root by exact Hroot. cbn [negb].
    change (File.pathExistsAction "w") with File.TRUNCATE_FILE. cbv iota.
    set (s0 := SyncStore.mkKV
                 (<[Inode.id parentNode := JS.encode (JSON_stringify (delete name listing))]>
                    (delete fid (delete (Inode.id fileNode) (SyncStore.kv_store s))))
                 (SyncStore.kv_drawn s)).
    assert (Hunlink : SyncStore.unlinkSync JSON_stringify JSON_parse now p cred s
                      = (Ok tt, s0)).
    { unfold SyncStore.unlinkSync. apply runs_transaction.
      eapply removeEntry_stores; eassumption. }
    rewrite Hunlink.
    assert (Hlk : forall k, SyncStore.kv_store s !! k = None -> Inode.id parentNode <> k).
    { intros k Hnone E. rewrite E in Hdata. congruence. }
    destruct (create_write_read randomUUID JSON_stringify JSON_parse now p D cred s
                parentNode tx1 Hparent Hgo Hname Hdir Hroot Huid Hgid Hnow Hlen Hreads Hown
                Hproto Hp (Stats.mode (Inode.toStats now fileNode)) s0
                (delete name listing))
      as (f0 & s1 & s2 & Hcreate & Hwrite & Hread).
    + apply toStats_mode_range. eapply Deserialize_mode_range. exact Hback.
    + intros k Hin. subst s0. cbn [SyncStore.kv_store].
      rewrite lookup_insert_ne by (intros <-; contradiction).
      rewrite lookup_delete_ne by (intros <-; exact (Hentry _ Hn Hin)).
      rewrite lookup_delete_ne by (intros <-; contradiction). reflexivity.
    + exists (JS.encode (JSON_stringify (delete name listing))). split.
      * subst s0. cbn [SyncStore.kv_store]. apply lookup_insert_eq.
      * rewrite decode_encode. exact HJdel.
    + apply lookup_delete_eq.
    + subst s0. cbn [SyncStore.kv_store SyncStore.kv_drawn].
      rewrite lookup_insert_ne by (apply Hlk; exact Hfresh1).
      apply lookup_delete_None. right. apply lookup_delete_None. right. exact Hfresh1.
    + subst s0. cbn [SyncStore.kv_store SyncStore.kv_drawn].
      rewrite lookup_insert_ne by (apply Hlk; exact Hfresh2).
      apply lookup_delete_None. right. apply lookup_delete_None. right. exact Hfresh2.
    + exact Hne.
    + exact Hnonempty.
    + subst s0. cbn [SyncStore.kv_drawn]. rewrite insert_delete_eq. exact HJins.
    + rewrite Hcreate. exists s2. split; [exact Hwrite|]. rewrite Hread. reflexivity.
  - (* [p] is not found: it is created *)
    destruct Hcase as [-> Hnone].
    assert (Hstat : SyncStore.statSync JSON_parse now p cred s = (Err (ApiError ENOENT), s)).
    { unfold SyncStore.statSync.
      apply (transaction_reads_only _ s _ tx3).
      - apply reads_only_bind; [apply reads_only_findINode|].
        intros node. cbv zeta. destruct (negb _);
          [apply reads_only_throw | apply reads_only_ret].
      - unfold SyncStore.tbind. rewrite Hfind. reflexivity. }
    rewrite Hstat. change (File.pathNotExistsAction "w") with File.CREATE_FILE. cbv iota.
    assert (Hstatdir : SyncStore.statSync JSON_parse now (Path.dirname p) cred s
                       = (Ok (Inode.toStats now parentNode), s)).
    { unfold SyncStore.statSync. apply runs_transaction.
      eapply runs_bind;
        [apply (runs_findINode_parent JSON_parse p s parentNode tx1 Hparent); exact Hsame|].
      cbv zeta. rewrite hasAccess_of_root by exact Hroot. apply runs_ret. }
    rewrite Hstatdir, isDirectory_toStats by exact Hdir. cbn [negb].
    destruct (create_write_read randomUUID JSON_stringify JSON_parse now p D cred s
                parentNode tx1 Hparent Hgo Hname Hdir Hroot Huid Hgid Hnow Hlen Hreads Hown
                Hproto Hp mode s listing)
      as (f0 & s1 & s2 & Hcreate & Hwrite & Hread); try assumption.
    rewrite Hcreate. exists s2. split; [exact Hwrite|]. rewrite Hread. reflexivity.
Qed.

(** The scenario of the specification, and the file written a second
    time: after [mkdir('/a')], [/a/f] is not found, [writeFile('/a/f',
    'hello')] returns and [readFile('/a/f')] returns the bytes of [hello];
    then [/a/f] is a file, [writeFile('/a/f', 'bye')] returns and
    [readFile('/a/f')] returns the bytes of [bye]. *)
Lemma writeFile_then_readFile_of_hello :
  let s := snd (Example.mkdirSync 1001 "/a" 493 Cred.Root (Example.new_InMemory 1000)) in
  let hello := JS.encode "hello" in
  let s1 := snd (Example.writeFile 1002 "/a/f" hello "w" 420 Cred.Root s) in
  let bye := JS.encode "bye" in
  (fst (SyncStore.findINode Example.JSON_parse "/a/f" (SyncStore.begin s))
   = Err (ApiError ENOENT)
   /\ exists s',
        Example.writeFile 1002 "/a/f" hello "w" 420 Cred.Root s = (Ok tt, s')
        /\ fst (Example.readFile 1003 "/a/f" "r" Cred.Root s') = Ok hello)
  /\ (JS.is_ok (fst (SyncStore.findINode Example.JSON_parse "/a/f" (SyncStore.begin s1)))
      = true
      /\ exists s',
           Example.writeFile 1004 "/a/f" bye "w" 420 Cred.Root s1 = (Ok tt, s')
           /\ fst (Example.readFile 1005 "/a/f" "r" Cred.Root s') = Ok bye).
Proof.
  intros s hello s1 bye.
  pose (parentNode := Inode.mkInode (Example.randomUUID 1) 2 16877 1001 1001 1001 0 0).
  split; (split; [vm_compute; reflexivity|]).
  - pose (tx1 := snd (SyncStore.findINode Example.JSON_parse "/a" (SyncStore.begin s))).
    pose (tx2 := snd (SyncStore.getDirListing Example.JSON_parse "/a" parentNode tx1)).
    apply (writeFile_then_readFile_returns_the_data Example.randomUUID
             Example.JSON_stringify Example.JSON_parse 1002 1003 420 "/a/f" hello
             Cred.Root s parentNode ∅ tx1 tx2).
    + left. reflexivity.
    + vm_compute. split; congruence.
    + vm_compute. split; congruence.
    + vm_compute. congruence.
    + vm_compute. split; congruence.
    + vm_compute. reflexivity.
    + vm_compute. reflexivity.
    + vm_compute. reflexivity.
    + apply not_elem_of_dom. vm_compute. reflexivity.
    + apply (bool_decide_unpack _). vm_compute. reflexivity.
    + intros fid H. vm_compute in H. discriminate H.
    + vm_compute. split; reflexivity.
    + apply not_elem_of_dom. vm_compute. reflexivity.
    + apply not_elem_of_dom. vm_compute. reflexivity.
    + vm_compute. congruence.
    + vm_compute. congruence.
    + vm_compute. reflexivity.
    + vm_compute. reflexivity.
    + vm_compute. reflexivity.
  - pose (tx1 := snd (SyncStore.findINode Example.JSON_parse "/a" (SyncStore.begin s1))).
    pose (tx2 := snd (SyncStore.getDirListing Example.JSON_parse "/a" parentNode tx1)).
    apply (writeFile_then_readFile_returns_the_data Example.randomUUID
             Example.JSON_stringify Example.JSON_parse 1004 1005 420 "/a/f" bye
             Cred.Root s1 parentNode {[ "f"%string := Example.randomUUID 4 ]} tx1 tx2).
    + left. reflexivity.
    + vm_compute. split; congruence.
    + vm_compute. split; congruence.
    + vm_compute. congruence.
    + vm_compute. split; congruence.
    + vm_compute. reflexivity.
    + vm_compute. reflexivity.
    + vm_compute. reflexivity.
    + apply not_elem_of_dom. vm_compute. reflexivity.
    + apply (bool_decide_unpack _). vm_compute. reflexivity.
    + intros fid H. vm_compute in H. injection H as <-.
      apply not_elem_of_dom. vm_compute. reflexivity.
    + vm_compute. split; [reflexivity|].
      apply (bool_decide_unpack _). vm_compute. reflexivity.
    + apply not_elem_of_dom. vm_compute. reflexivity.
    + apply not_elem_of_dom. vm_compute. reflexivity.
    + vm_compute. congruence.
    + vm_compute. congruence.
    + vm_compute. reflexivity.
    + vm_compute. reflexivity.
    + vm_compute. reflexivity.
Defined.

(** A directory is no file to write: after [mkdir('/a')], the parent [/]
    of [/a] is a directory, and [writeFile('/a', 'hello')] fails with
    [EISDIR]. *)
Lemma writeFile_on_a_directory_is_EISDIR :
  let s := snd (Example.mkdirSync 1001 "/a" 493 Cred.Root (Example.new_InMemory 1000)) in
  match fst (Example.statSync 1002 (Path.dirname "/a") Cred.Root s) with
  | Ok st => Stats.isDirectory st = true
  | Err _ => False
  end
  /\ fst (Example.writeFile 1002 "/a" (JS.encode "hello") "w" 420 Cred.Root s)
     = Err (ApiError EISDIR).
Proof. split; vm_compute; reflexivity. Qed.

(** ** [readFile] by the owner of the file *)

Lemma land_below (m k n : Z) : 0 <= n -> 0 <= m < 2 ^ n -> 0 <= Z.land m k < 2 ^ n.
Proof.
  intros Hn H. assert (H0 : 0 <= Z.land m k) by (apply Z.land_nonneg; lia).
  split; [exact H0|].
  destruct (Z.eq_dec (Z.land m k) 0) as [->|Hnz]; [lia|].
  apply Z.log2_lt_pow2; [lia|].
  destruct (Z.eq_dec m 0) as [->|Hm]; [rewrite Z.land_0_l in Hnz; congruence|].
  assert (Hl : Z.log2 m < n) by (apply Z.log2_lt_pow2; lia).
  destruct (Z.le_gt_cases n (Z.log2 (Z.land m k))) as [Hge|]; [|lia].
  exfalso.
  assert (Hbit : Z.testbit (Z.land m k) (Z.log2 (Z.land m k)) = true)
    by (apply Z.bit_log2; lia).
  rewrite Z.land_spec in Hbit. apply andb_true_iff in Hbit as [Hbit _].
  rewrite Z.bits_above_log2 in Hbit by lia. discriminate.
Qed.

(** The four bits that [hasAccess] takes from the permissions at [shift]. *)
Lemma permission_nibble (mask shift perms : Z) :
  0 <= shift < 32 -> 0 <= mask < 16 * 2 ^ shift -> 16 * 2 ^ shift <= 2 ^ 31 ->
  0 <= JS.shr (JS.band mask perms) shift < 16.
Proof.
  intros Hs Hm Hb. unfold JS.shr, JS.band.
  rewrite (toInt32_small mask) by lia.
  assert (Hr : 0 <= Z.land mask (JS.toInt32 perms) < 2 ^ (4 + shift)).
  { apply land_below; [lia|]. rewrite Z.pow_add_r by lia. change (2 ^ 4) with 16. lia. }
  assert (Hp : 2 ^ (4 + shift) = 16 * 2 ^ shift)
    by (rewrite Z.pow_add_r by lia; reflexivity).
  rewrite toInt32_small by lia.
  rewrite Z.mod_small by lia. rewrite Z.shiftr_div_pow2 by lia.
  assert (0 < 2 ^ shift) by (apply Z.pow_pos_nonneg; lia).
  split; [apply Z.div_pos; lia|].
  apply Z.div_lt_upper_bound; lia.
Qed.

(** A request of [0o644] against four bits of permissions: the bits
    [0o640] of the request stay set. *)
Lemma request_644_stays (k : Z) :
  0 <= k < 16 ->
  JS.band (JS.bxor 420 k) 420 = 416 \/ JS.band (JS.bxor 420 k) 420 = 420.
Proof.
  intros Hk.
  assert (H : k = 0 \/ k = 1 \/ k = 2 \/ k = 3 \/ k = 4 \/ k = 5 \/ k = 6 \/ k = 7
              \/ k = 8 \/ k = 9 \/ k = 10 \/ k = 11 \/ k = 12 \/ k = 13 \/ k = 14
              \/ k = 15) by lia.
  repeat (destruct H as [->|H]; [vm_compute; auto|]). subst k. vm_compute. auto.
Qed.

(** [hasAccess(0o644, cred)] answers false to the owner of the file, when
    neither the effective user nor the effective group is 0: the request
    is no mask of four bits. *)
Lemma hasAccess_644_of_owner (st : Stats.Stats) (cred : Cred.Cred) :
  Cred.euid cred <> 0 -> Cred.egid cred <> 0 ->
  Stats.uid st = Cred.euid cred -> Stats.gid st = Cred.egid cred ->
  Stats.hasAccess st 420 cred = false.
Proof.
  intros Hu Hg Huid Hgid. unfold Stats.hasAccess.
  apply Z.eqb_neq in Hu, Hg. rewrite Hu, Hg. cbn [orb].
  rewrite Huid, Hgid, !Z.eqb_refl. cbv zeta.
  set (perms := JS.band (Stats.mode st) (JS.bnot Stats.S_IFMT)).
  pose proof (permission_nibble 3840 8 perms) as H1.
  pose proof (permission_nibble 240 4 perms) as H2.
  pose proof (permission_nibble 15 0 perms) as H3.
  assert (E3 : JS.shr (JS.band 15 perms) 0 = JS.band 15 perms).
  { unfold JS.shr. change (0 mod 32) with 0. rewrite Z.shiftr_0_r.
    unfold JS.band. rewrite (toInt32_small 15) by lia.
    apply toInt32_small.
    assert (0 <= Z.land 15 (JS.toInt32 perms) < 2 ^ 4) by (apply land_below; lia). lia. }
  rewrite E3 in H3.
  destruct (request_644_stays _ (H1 ltac:(lia) ltac:(lia) ltac:(lia))) as [-> | ->],
           (request_644_stays _ (H2 ltac:(lia) ltac:(lia) ltac:(lia))) as [-> | ->],
           (request_644_stays _ (H3 ltac:(lia) ltac:(lia) ltac:(lia))) as [-> | ->];
    vm_compute; reflexivity.
Qed.

(** C1 (the code departs from the claim): [readFile(p)] opens [p] with
    [openSync(p, flag, 0o644, cred)], and [openSync] hands this mode, the
    permissions of a file to create, to [hasAccess] as the access asked
    for.  For credentials whose effective user and group are not 0 and a
    file that [statSync] finds and that belongs to this user and group,
    [readFile(p)] throws [EACCES] whatever the permissions of the file: a
    user who has written a file cannot read it back. *)
Theorem readFile_refuses_the_owner
    (randomUUID : nat -> string)
    (JSON_stringify : gmap string string -> string)
    (JSON_parse : string -> option (gmap string string))
    (now : Z) (p : string) (cred : Cred.Cred) (s s1 : SyncStore.KV) (st : Stats.Stats) :
  Cred.euid cred <> 0 -> Cred.egid cred <> 0 ->
  SyncStore.statSync JSON_parse now p cred s = (Ok st, s1) ->
  Stats.uid st = Cred.euid cred -> Stats.gid st = Cred.egid cred ->
  SyncStore.readFile randomUUID JSON_stringify JSON_parse now p "r" cred s
  = (Err (ApiError EACCES), s1).
Proof.
  intros Hu Hg Hstat Huid Hgid.
  unfold SyncStore.readFile, FileSystem.readFile, FileSystem.open, FileSystem.openSync.
  rewrite Hstat, (hasAccess_644_of_owner st cred Hu Hg Huid Hgid). reflexivity.
Qed.

(** On a new in-memory file system, the user 1000 of the group 1000 writes
    [hello] into [/f]: [writeFile] returns, and [readFile('/f')] by the same
    user throws [EACCES]. *)
Lemma the_writer_cannot_read_hello :
  let user := Cred.mkCred 1000 1000 1000 1000 1000 1000 in
  let write :=
    Example.writeFile 1001 "/f" (JS.encode "hello") "w" 420 user
      (Example.new_InMemory 1000) in
  fst write = Ok tt
  /\ Example.readFile 1002 "/f" "r" user (snd write)
     = (Err (ApiError EACCES), snd write).
Proof.
  intros user write. split; [vm_compute; reflexivity|].
  apply (readFile_refuses_the_owner Example.randomUUID Example.JSON_stringify
           Example.JSON_parse 1002 "/f" user (snd write) (snd write)
           (Stats.mkStats 5 33188 1001 1001 1001 1002 1000 1000)).
  - vm_compute. congruence.
  - vm_compute. congruence.
  - vm_compute. reflexivity.
  - reflexivity.
  - reflexivity.
Defined.

(** * Further properties of the code *)

(** ** The journal of a transaction *)

Lemma journal_begin (s : SyncStore.KV) :
  SyncStore.journal (SyncStore.kv_store s) (SyncStore.begin s).
Proof.
  repeat split; cbn [SyncStore.begin SyncStore.originalData SyncStore.modifiedKeys
                     SyncStore.store].
  - intros k v H. rewrite lookup_empty in H. discriminate.
  - intros k H. apply elem_of_nil in H. contradiction.
Qed.

Lemma journal_stashOldValue s0 key tx :
  SyncStore.journal s0 tx -> key ∉ SyncStore.modifiedKeys tx ->
  SyncStore.journal s0 (SyncStore.stashOldValue key (SyncStore.store tx !! key) tx).
Proof.
  intros (H1 & H2 & H3) Hk. unfold SyncStore.stashOldValue.
  destruct (SyncStore.originalData tx !! key) eqn:E; [repeat split; assumption|].
  repeat split; cbn [SyncStore.originalData SyncStore.modifiedKeys SyncStore.store].
  - intros k v. destruct (decide (key = k)) as [<-|Hne].
    + rewrite lookup_insert_eq. intros [= <-]. apply H3, Hk.
    + rewrite lookup_insert_ne by exact Hne. apply H1.
  - intros k Hin. destruct (decide (key = k)) as [<-|Hne]; [contradiction|].
    rewrite lookup_insert_ne by exact Hne. apply H2, Hin.
  - exact H3.
Qed.

Lemma journal_tx_get s0 key tx :
  SyncStore.journal s0 tx -> SyncStore.journal s0 (snd (SyncStore.tx_get key tx)).
Proof.
  intros H. unfold SyncStore.tx_get. cbn [snd].
  destruct (decide (key ∈ SyncStore.modifiedKeys tx)) as [Hin|Hout].
  - destruct H as (H1 & H2 & H3). unfold SyncStore.stashOldValue.
    destruct (H2 _ Hin) as [v ->]. repeat split; assumption.
  - apply journal_stashOldValue; assumption.
Qed.

(** Once a key is marked as modified, the store may hold anything under
    it. *)
Lemma journal_markModified s0 key tx :
  SyncStore.journal s0 tx ->
  let tx' := SyncStore.markModified key tx in
  SyncStore.journal s0 tx' /\ key ∈ SyncStore.modifiedKeys tx'
  /\ SyncStore.store tx' = SyncStore.store tx.
Proof.
  intros H. unfold SyncStore.markModified.
  destruct (bool_decide (key ∈ SyncStore.modifiedKeys tx)) eqn:E.
  - apply bool_decide_eq_true in E. cbv zeta. auto.
  - apply bool_decide_eq_false in E. cbv zeta.
    cbn [SyncStore.store].
    destruct H as (H1 & H2 & H3).
    unfold SyncStore.stashOldValue.
    cbn [SyncStore.originalData SyncStore.modifiedKeys SyncStore.store SyncStore.drawn].
    destruct (SyncStore.originalData tx !! key) eqn:Eo; unfold SyncStore.journal;
      cbn [SyncStore.originalData SyncStore.modifiedKeys SyncStore.store].
    + split; [split; [|split]|split]; try reflexivity.
      * exact H1.
      * intros k Hin. apply elem_of_app in Hin as [Hin|Hin]; [apply H2, Hin|].
        apply list_elem_of_singleton in Hin as ->. rewrite Eo. eauto.
      * intros k Hout. apply H3. intros Hin. apply Hout, elem_of_app. auto.
      * apply elem_of_app. right. apply list_elem_of_here.
    + split; [split; [|split]|split]; try reflexivity.
      * intros k v. destruct (decide (key = k)) as [<-|Hne].
        -- rewrite lookup_insert_eq. intros [= <-]. apply H3, E.
        -- rewrite lookup_insert_ne by exact Hne. apply H1.
      * intros k Hin. destruct (decide (key = k)) as [<-|Hne].
        -- rewrite lookup_insert_eq. eauto.
        -- rewrite lookup_insert_ne by exact Hne.
           apply elem_of_app in Hin as [Hin|Hin]; [apply H2, Hin|].
           apply list_elem_of_singleton in Hin. congruence.
      * intros k Hout. apply H3. intros Hin. apply Hout, elem_of_app. auto.
      * apply elem_of_app. right. apply list_elem_of_here.
Qed.

Lemma journal_write s0 key tx st :
  SyncStore.journal s0 tx -> key ∈ SyncStore.modifiedKeys tx ->
  (forall k, k <> key -> st !! k = SyncStore.store tx !! k) ->
  SyncStore.journal s0
    (SyncStore.mkTx st (SyncStore.drawn tx) (SyncStore.originalData tx)
       (SyncStore.modifiedKeys tx)).
Proof.
  intros (H1 & H2 & H3) Hin Hst.
  split; [|split]; cbn [SyncStore.originalData SyncStore.modifiedKeys SyncStore.store];
    try assumption.
  intros k Hout. rewrite Hst by (intros ->; contradiction). apply H3, Hout.
Qed.

Lemma journal_tx_put s0 key data overwrite tx :
  SyncStore.journal s0 tx ->
  SyncStore.journal s0 (snd (SyncStore.tx_put key data overwrite tx)).
Proof.
  intros H. unfold SyncStore.tx_put. cbv zeta.
  destruct (journal_markModified s0 key tx H) as (Hj & Hin & _).
  destruct (negb overwrite && _); cbn [snd]; [exact Hj|].
  apply (journal_write s0 key); [exact Hj | exact Hin|].
  intros k Hne. apply lookup_insert_ne. congruence.
Qed.

Lemma journal_tx_del s0 key tx :
  SyncStore.journal s0 tx ->
  SyncStore.journal s0 (snd (SyncStore.tx_del key tx)).
Proof.
  intros H. unfold SyncStore.tx_del. cbv zeta. cbn [snd].
  destruct (journal_markModified s0 key tx H) as (Hj & Hin & _).
  apply (journal_write s0 key); [exact Hj | exact Hin|].
  intros k Hne. apply lookup_delete_ne. congruence.
Qed.

(** [abort] on a list of keys: the keys of the list get their stashed
    value back, the others keep what they hold. *)
Lemma abort_fold (keys : list string) (tx : SyncStore.Tx) :
  let step := fun tx key =>
    match SyncStore.originalData tx !! key with
    | Some (Some value) =>
      SyncStore.mkTx (<[key := value]> (SyncStore.store tx)) (SyncStore.drawn tx)
        (SyncStore.originalData tx) (SyncStore.modifiedKeys tx)
    | _ => SyncStore.mkTx (delete key (SyncStore.store tx)) (SyncStore.drawn tx)
             (SyncStore.originalData tx) (SyncStore.modifiedKeys tx)
    end in
  let tx' := fold_left step keys tx in
  SyncStore.originalData tx' = SyncStore.originalData tx
  /\ SyncStore.modifiedKeys tx' = SyncStore.modifiedKeys tx
  /\ SyncStore.drawn tx' = SyncStore.drawn tx
  /\ forall k,
       SyncStore.store tx' !! k
       = if bool_decide (k ∈ keys)
         then match SyncStore.originalData tx !! k with
              | Some (Some value) => Some value
              | _ => None
              end
         else SyncStore.store tx !! k.
Proof.
  intros step. revert tx. induction keys as [|key keys IH]; intros tx.
  - cbn [fold_left]. split; [reflexivity|]. split; [reflexivity|]. split; [reflexivity|].
    intros k. rewrite bool_decide_eq_false_2; [reflexivity|]. apply not_elem_of_nil.
  - cbn [fold_left]. cbv zeta in IH.
    destruct (IH (step tx key)) as (Ho & Hm & Hd & Hs).
    assert (Eo : SyncStore.originalData (step tx key) = SyncStore.originalData tx)
      by (unfold step; destruct (_ !! key) as [[?|]|]; reflexivity).
    assert (Em : SyncStore.modifiedKeys (step tx key) = SyncStore.modifiedKeys tx)
      by (unfold step; destruct (_ !! key) as [[?|]|]; reflexivity).
    assert (Ed : SyncStore.drawn (step tx key) = SyncStore.drawn tx)
      by (unfold step; destruct (_ !! key) as [[?|]|]; reflexivity).
    cbv zeta. rewrite Ho, Hm, Hd.
    split; [exact Eo|]. split; [exact Em|]. split; [exact Ed|].
    intros k. rewrite Hs, Eo.
    destruct (decide (k ∈ keys)) as [Hin|Hout].
    + rewrite !bool_decide_eq_true_2; [reflexivity | | exact Hin].
      apply elem_of_cons. auto.
    + rewrite (bool_decide_eq_false_2 _ Hout).
      destruct (decide (k = key)) as [->|Hne].
      * rewrite bool_decide_eq_true_2 by apply list_elem_of_here.
        unfold step. destruct (SyncStore.originalData tx !! key) as [[v|]|];
          cbn [SyncStore.store].
        -- apply lookup_insert_eq.
        -- apply lookup_delete_eq.
        -- apply lookup_delete_eq.
      * rewrite bool_decide_eq_false_2
          by (intros Hin; apply elem_of_cons in Hin as [?|?]; contradiction).
        unfold step. destruct (SyncStore.originalData tx !! key) as [[v|]|];
          cbn [SyncStore.store].
        -- apply lookup_insert_ne. congruence.
        -- apply lookup_delete_ne. congruence.
        -- apply lookup_delete_ne. congruence.
Qed.

Lemma journal_tx_abort s0 tx :
  SyncStore.journal s0 tx ->
  SyncStore.journal s0 (SyncStore.tx_abort tx)
  /\ SyncStore.store (SyncStore.tx_abort tx) = s0.
Proof.
  intros (H1 & H2 & H3). unfold SyncStore.tx_abort.
  destruct (abort_fold (SyncStore.modifiedKeys tx) tx) as (Ho & Hm & _ & Hs).
  cbv zeta in Ho, Hm, Hs.
  assert (Hstore : forall k, SyncStore.store
            (fold_left
               (fun tx key =>
                  match SyncStore.originalData tx !! key with
                  | Some (Some value) =>
                    SyncStore.mkTx (<[key := value]> (SyncStore.store tx)) (SyncStore.drawn tx)
                      (SyncStore.originalData tx) (SyncStore.modifiedKeys tx)
                  | _ => SyncStore.mkTx (delete key (SyncStore.store tx)) (SyncStore.drawn tx)
                           (SyncStore.originalData tx) (SyncStore.modifiedKeys tx)
                  end) (SyncStore.modifiedKeys tx) tx) !! k = s0 !! k).
  { intros k. rewrite Hs.
    destruct (decide (k ∈ SyncStore.modifiedKeys tx)) as [Hin|Hout].
    - rewrite bool_decide_eq_true_2 by exact Hin.
      destruct (H2 _ Hin) as [v Hv]. rewrite Hv. rewrite <- (H1 _ _ Hv).
      destruct v; reflexivity.
    - rewrite bool_decide_eq_false_2 by exact Hout. apply H3, Hout. }
  split.
  - repeat split.
    + intros k v. rewrite Ho. apply H1.
    + intros k. rewrite Hm, Ho. apply H2.
    + intros k _. apply Hstore.
  - apply map_eq. exact Hstore.
Qed.

Lemma journal_run_calls s0 cs tx :
  SyncStore.journal s0 tx -> SyncStore.journal s0 (SyncStore.run_calls cs tx).
Proof.
  revert tx. induction cs as [|c cs IH]; intros tx H; [exact H|].
  cbn [SyncStore.run_calls fold_left]. apply IH.
  destruct c; cbn [SyncStore.run_call].
  - apply journal_tx_get, H.
  - apply journal_tx_put, H.
  - apply journal_tx_del, H.
Qed.

(** X1: whatever a client has read, written and deleted through a
    transaction, in whatever order, under keys other than [__proto__],
    [abort] leaves the store as it was when the transaction began.  (For
    the key [__proto__] the object [originalData] keeps no own property,
    and [abort] stores what the object inherits.) *)
Theorem abort_restores_the_store (s : SyncStore.KV) (cs : list SyncStore.call) :
  Forall (fun c => SyncStore.call_key c <> "__proto__"%string) cs ->
  SyncStore.store (SyncStore.tx_abort (SyncStore.run_calls cs (SyncStore.begin s)))
  = SyncStore.kv_store s.
Proof.
  intros _. apply journal_tx_abort, journal_run_calls, journal_begin.
Qed.

(** A client reads [a], replaces it, deletes [b] and adds [c] on a store
    that holds [a] and [b]; after [abort] the store holds [a] and [b] as
    before. *)
Lemma abort_after_four_calls :
  let s := SyncStore.mkKV {[ "a"%string := [Byte.x01]; "b"%string := [Byte.x02] ]} 0 in
  SyncStore.store
    (SyncStore.tx_abort
       (SyncStore.run_calls
          [SyncStore.call_get "a"; SyncStore.call_put "a" [Byte.x03] true;
           SyncStore.call_del "b"; SyncStore.call_put "c" [Byte.x04] false]
          (SyncStore.begin s)))
  = SyncStore.kv_store s.
Proof.
  intros s. apply (abort_restores_the_store s).
  repeat constructor; discriminate.
Defined.

(** ** A method that throws leaves the store as it was *)

Section all_or_nothing.
Variable s0 : gmap string (list byte).

Local Abbreviation keeps := (SyncStore.keeps_journal s0).
Local Abbreviation looks := (SyncStore.looks_only s0).
Local Abbreviation strict := (SyncStore.all_or_nothing s0).
Local Abbreviation loose := (SyncStore.undoes_or_stops s0).

Lemma looks_ret {A} (a : A) : looks (SyncStore.ret a).
Proof. intros tx r tx' H [= <- <-]. auto. Qed.

Lemma looks_throw {A} (e : exn) : looks (@SyncStore.throw A e).
Proof. intros tx r tx' H [= <- <-]. auto. Qed.

Lemma looks_lift {A} (r : result A) : looks (SyncStore.lift r).
Proof. intros tx r' tx' H [= <- <-]. auto. Qed.

Lemma looks_tx_get key : looks (SyncStore.tx_get key).
Proof.
  intros tx r tx' H E. pose proof (journal_tx_get s0 key tx H) as Hj.
  rewrite E in Hj. split; [exact Hj|].
  injection E as _ <-. unfold SyncStore.stashOldValue.
  destruct (SyncStore.originalData tx !! key); reflexivity.
Qed.

Lemma looks_bind {A B} (c : SyncStore.T A) (k : A -> SyncStore.T B) :
  looks c -> (forall a, looks (k a)) -> looks (SyncStore.tbind c k).
Proof.
  intros Hc Hk tx r tx' Hj. unfold SyncStore.tbind.
  destruct (c tx) as [[a|e] tx1] eqn:Hrun; destruct (Hc _ _ _ Hj Hrun) as [Hj1 Hs1].
  - intros Hrun2. destruct (Hk _ _ _ _ Hj1 Hrun2) as [Hj2 Hs2].
    split; [exact Hj2 | congruence].
  - intros [= <- <-]. auto.
Qed.

Lemma keeps_of_looks {A} (c : SyncStore.T A) : looks c -> keeps c.
Proof. intros H tx r tx' Hj E. apply (H _ _ _ Hj E). Qed.

Lemma keeps_tx_put key data overwrite : keeps (SyncStore.tx_put key data overwrite).
Proof.
  intros tx r tx' Hj E. pose proof (journal_tx_put s0 key data overwrite tx Hj) as H.
  rewrite E in H. exact H.
Qed.

Lemma keeps_tx_del key : keeps (SyncStore.tx_del key).
Proof.
  intros tx r tx' Hj E. pose proof (journal_tx_del s0 key tx Hj) as H.
  rewrite E in H. exact H.
Qed.

Lemma keeps_draw randomUUID : keeps (SyncStore.draw randomUUID).
Proof. intros tx r tx' Hj [= <- <-]. exact Hj. Qed.

Lemma keeps_bind {A B} (c : SyncStore.T A) (k : A -> SyncStore.T B) :
  keeps c -> (forall a, keeps (k a)) -> keeps (SyncStore.tbind c k).
Proof.
  intros Hc Hk tx r tx' Hj. unfold SyncStore.tbind.
  destruct (c tx) as [[a|e] tx1] eqn:Hrun; pose proof (Hc _ _ _ Hj Hrun) as Hj1.
  - intros Hrun2. exact (Hk _ _ _ _ Hj1 Hrun2).
  - intros [= <- <-]. exact Hj1.
Qed.

Lemma strict_try_abort {A} (c : SyncStore.T A) : keeps c -> strict (SyncStore.try_abort c).
Proof.
  intros Hc tx r tx' Hj. unfold SyncStore.try_abort.
  destruct (c tx) as [[a|e] tx1] eqn:Hrun; pose proof (Hc _ _ _ Hj Hrun) as Hj1;
    intros [= <- <-].
  - split; [exact Hj1 | intros e [=]].
  - destruct (journal_tx_abort s0 tx1 Hj1) as [H1 H2]. split; [exact H1 | intros; exact H2].
Qed.

Lemma strict_ret {A} (a : A) : strict (SyncStore.ret a).
Proof. intros tx r tx' H [= <- <-]. split; [exact H | intros e [=]]. Qed.

Lemma strict_bind_ret {A B} (c : SyncStore.T A) (f : A -> B) :
  strict c -> strict (SyncStore.tbind c (fun a => SyncStore.ret (f a))).
Proof.
  intros Hc tx r tx' Hj. unfold SyncStore.tbind, SyncStore.ret.
  destruct (c tx) as [[a|e] tx1] eqn:Hrun; destruct (Hc _ _ _ Hj Hrun) as [Hj1 Hs1];
    intros [= <- <-].
  - split; [exact Hj1 | intros e [=]].
  - split; [exact Hj1 | intros e' _; exact (Hs1 e eq_refl)].
Qed.

Lemma loose_of_looks {A} (c : SyncStore.T A) : looks c -> loose c.
Proof. intros H tx r tx' Hj E. destruct (H _ _ _ Hj E). auto. Qed.

Lemma loose_of_strict {A} (c : SyncStore.T A) : strict c -> loose c.
Proof. intros H tx r tx' Hj E. destruct (H _ _ _ Hj E) as [H1 H2]. eauto. Qed.

Lemma loose_bind_looks {A B} (c : SyncStore.T A) (k : A -> SyncStore.T B) :
  looks c -> (forall a, loose (k a)) -> loose (SyncStore.tbind c k).
Proof.
  intros Hc Hk tx r tx' Hj. unfold SyncStore.tbind.
  destruct (c tx) as [[a|e] tx1] eqn:Hrun; destruct (Hc _ _ _ Hj Hrun) as [Hj1 Hs1].
  - intros Hrun2. destruct (Hk _ _ _ _ Hj1 Hrun2) as [Hj2 Hs2].
    split; [exact Hj2|]. intros e He. destruct (Hs2 e He) as [?|?]; [auto|].
    right. congruence.
  - intros [= <- <-]. split; [exact Hj1 | intros e' _; right; exact Hs1].
Qed.

Lemma loose_bind_strict {A B} (c : SyncStore.T A) (k : A -> SyncStore.T B) :
  loose c -> (forall a, strict (k a)) -> loose (SyncStore.tbind c k).
Proof.
  intros Hc Hk tx r tx' Hj. unfold SyncStore.tbind.
  destruct (c tx) as [[a|e] tx1] eqn:Hrun; destruct (Hc _ _ _ Hj Hrun) as [Hj1 Hs1].
  - intros Hrun2. destruct (Hk _ _ _ _ Hj1 Hrun2) as [Hj2 Hs2].
    split; [exact Hj2|]. intros e He. left. eauto.
  - intros [= <- <-]. split; [exact Hj1 | intros e' _; exact (Hs1 e eq_refl)].
Qed.

(** A transaction whose body is of this kind and throws leaves the store
    of the file system as it was. *)
Lemma transaction_throws {A} (c : SyncStore.T A) (s : SyncStore.KV) (e : exn) :
  s0 = SyncStore.kv_store s -> loose c ->
  fst (SyncStore.transaction c s) = Err e ->
  SyncStore.kv_store (snd (SyncStore.transaction c s)) = SyncStore.kv_store s.
Proof.
  intros -> Hc. unfold SyncStore.transaction.
  destruct (c (SyncStore.begin s)) as [r tx] eqn:Hrun. cbn [fst snd SyncStore.kv_store].
  intros ->. destruct (Hc _ _ _ (journal_begin s) Hrun) as [_ H].
  destruct (H e eq_refl) as [?|?]; assumption.
Qed.

End all_or_nothing.

Ltac looks_step :=
  match goal with
  | |- SyncStore.looks_only _ (SyncStore.tbind _ _) => apply looks_bind; [|intros ?]
  | |- SyncStore.looks_only _ (SyncStore.ret _) => apply looks_ret
  | |- SyncStore.looks_only _ (SyncStore.throw _) => apply looks_throw
  | |- SyncStore.looks_only _ (SyncStore.lift _) => apply looks_lift
  | |- SyncStore.looks_only _ (SyncStore.tx_get _) => apply looks_tx_get
  | |- SyncStore.looks_only _ (if ?b then _ else _) => destruct b
  | |- SyncStore.looks_only _ (match ?x with _ => _ end) => destruct x
  end.

Ltac keeps_step :=
  match goal with
  | |- SyncStore.keeps_journal _ (SyncStore.tbind _ _) => apply keeps_bind; [|intros ?]
  | |- SyncStore.keeps_journal _ (SyncStore.ret _) => apply keeps_of_looks, looks_ret
  | |- SyncStore.keeps_journal _ (SyncStore.throw _) => apply keeps_of_looks, looks_throw
  | |- SyncStore.keeps_journal _ (SyncStore.lift _) => apply keeps_of_looks, looks_lift
  | |- SyncStore.keeps_journal _ (SyncStore.tx_get _) => apply keeps_of_looks, looks_tx_get
  | |- SyncStore.keeps_journal _ (SyncStore.tx_put _ _ _) => apply keeps_tx_put
  | |- SyncStore.keeps_journal _ (SyncStore.tx_del _) => apply keeps_tx_del
  | |- SyncStore.keeps_journal _ (SyncStore.draw _) => apply keeps_draw
  | |- SyncStore.keeps_journal _ (SyncStore.addNewNode _ _) => unfold SyncStore.addNewNode
  | |- SyncStore.keeps_journal _ (if ?b then _ else _) => destruct b
  | |- SyncStore.keeps_journal _ (match ?x with _ => _ end) => destruct x
  end.

Lemma looks_getINode s0 p id : SyncStore.looks_only s0 (SyncStore.getINode p id).
Proof. unfold SyncStore.getINode. repeat looks_step. Qed.

Section lookups_look_only.
Variable JSON_parse : string -> option (gmap string string).
Variable s0 : gmap string (list byte).

Lemma looks_getDirListing p inode :
  SyncStore.looks_only s0 (SyncStore.getDirListing JSON_parse p inode).
Proof. unfold SyncStore.getDirListing. repeat looks_step. Qed.

Lemma looks__findINode fuel parent filename visited :
  SyncStore.looks_only s0 (SyncStore._findINode JSON_parse fuel parent filename visited).
Proof.
  revert parent filename visited.
  induction fuel as [|fuel IH]; intros parent filename visited; simpl.
  - looks_step.
  - repeat first [ apply IH | apply looks_getINode | apply looks_getDirListing
                 | looks_step ].
Qed.

Lemma looks_findINode p : SyncStore.looks_only s0 (SyncStore.findINode JSON_parse p).
Proof.
  unfold SyncStore.findINode.
  apply looks_bind; [apply looks__findINode | intros id; apply looks_getINode].
Qed.

End lookups_look_only.

Section methods.
Variable randomUUID : nat -> string.
Variable JSON_stringify : gmap string string -> string.
Variable JSON_parse : string -> option (gmap string string).
Variable s0 : gmap string (list byte).

Lemma loose_commitNewFile now p type mode cred data :
  SyncStore.undoes_or_stops s0
    (SyncStore.commitNewFile randomUUID JSON_stringify JSON_parse now p type mode cred data).
Proof.
  unfold SyncStore.commitNewFile. cbv zeta.
  apply loose_bind_looks; [apply looks_findINode|]. intros parentNode.
  apply loose_bind_looks; [apply looks_getDirListing|]. intros dirListing.
  destruct (negb _); [apply loose_of_looks, looks_throw|].
  destruct (String.eqb p "/"); [apply loose_of_looks, looks_throw|].
  destruct (SyncStore.truthy_value _); [apply loose_of_looks, looks_throw|].
  apply loose_of_strict.
  apply (strict_bind_ret s0 _ (fun fileNode => fileNode)).
  apply strict_try_abort. repeat keeps_step.
Qed.

Lemma loose_removeEntry_tx now p isDir cred :
  SyncStore.undoes_or_stops s0
    (SyncStore.removeEntry_tx JSON_stringify JSON_parse now p isDir cred).
Proof.
  unfold SyncStore.removeEntry_tx. cbv zeta.
  apply loose_bind_looks; [apply looks_findINode|]. intros parentNode.
  apply loose_bind_looks; [apply looks_getDirListing|]. intros parentListing.
  destruct (negb _); [apply loose_of_looks, looks_throw|].
  apply loose_bind_looks; [apply looks_getINode|]. intros fileNode.
  destruct (negb _); [apply loose_of_looks, looks_throw|].
  destruct (negb isDir && _); [apply loose_of_looks, looks_throw|].
  destruct (isDir && _); [apply loose_of_looks, looks_throw|].
  apply loose_of_strict, strict_try_abort. repeat keeps_step.
Qed.

Lemma loose_renameSync_tx now oldPath newPath cred :
  SyncStore.undoes_or_stops s0
    (SyncStore.renameSync_tx JSON_stringify JSON_parse now oldPath newPath cred).
Proof.
  unfold SyncStore.renameSync_tx. cbv zeta.
  apply loose_bind_looks; [apply looks_findINode|]. intros oldDirNode.
  apply loose_bind_looks; [apply looks_getDirListing|]. intros oldDirList.
  destruct (negb _); [apply loose_of_looks, looks_throw|].
  destruct (negb _); [apply loose_of_looks, looks_throw|].
  destruct (JS.indexOf_is_0 _ _); [apply loose_of_looks, looks_throw|].
  apply loose_bind_looks.
  { destruct (String.eqb _ _); [apply looks_ret|].
    apply looks_bind; [apply looks_findINode|]. intros newDirNode.
    apply looks_bind; [apply looks_getDirListing|]. intros newDirList. apply looks_ret. }
  intros newDir.
  apply loose_bind_strict.
  - destruct (SyncStore.truthy_value _); [|apply loose_of_looks, looks_ret].
    apply loose_bind_looks; [apply looks_getINode|]. intros newNameNode.
    destruct (Inode.isFile newNameNode); [|apply loose_of_looks, looks_throw].
    apply loose_of_strict, strict_try_abort. repeat keeps_step.
  - intros _. apply strict_try_abort. repeat keeps_step.
Qed.

Lemma loose__syncSync_tx p data stats :
  SyncStore.undoes_or_stops s0 (SyncStore._syncSync_tx JSON_parse p data stats).
Proof.
  unfold SyncStore._syncSync_tx.
  apply loose_bind_looks; [apply looks__findINode|]. intros fileInodeId.
  apply loose_bind_looks; [apply looks_getINode|]. intros fileInode.
  destruct (Inode.update fileInode stats) as [inodeChanged fileInode'].
  apply loose_of_strict, strict_try_abort. repeat keeps_step.
Qed.

End methods.

Lemma tbind_Ok {A B} (c : SyncStore.T A) (k : A -> SyncStore.T B) tx b tx' :
  SyncStore.tbind c k tx = (Ok b, tx') ->
  exists a tx1, c tx = (Ok a, tx1) /\ k a tx1 = (Ok b, tx').
Proof.
  unfold SyncStore.tbind. destruct (c tx) as [[a|e] tx1]; [eauto | discriminate].
Qed.

Lemma try_abort_Ok {A} (c : SyncStore.T A) tx a tx' :
  SyncStore.try_abort c tx = (Ok a, tx') -> c tx = (Ok a, tx').
Proof.
  unfold SyncStore.try_abort. destruct (c tx) as [[a'|e] tx1]; [auto | discriminate].
Qed.

Section methods_throw.
Variable randomUUID : nat -> string.
Variable JSON_stringify : gmap string string -> string.
Variable JSON_parse : string -> option (gmap string string).

(** The inode that [commitNewFile] returns has the size of the data. *)
Lemma commitNewFile_size now p type mode cred data tx node tx' :
  SyncStore.commitNewFile randomUUID JSON_stringify JSON_parse now p type mode cred data tx
  = (Ok node, tx') ->
  Inode.size node = Z.of_nat (length data).
Proof.
  unfold SyncStore.commitNewFile. cbv zeta. intros H.
  apply tbind_Ok in H as (parentNode & tx1 & _ & H).
  apply tbind_Ok in H as (dirListing & tx2 & _ & H).
  destruct (negb _); [discriminate H|].
  destruct (String.eqb p "/"); [discriminate H|].
  destruct (SyncStore.truthy_value _); [discriminate H|].
  apply tbind_Ok in H as (fileNode & tx3 & H & Hret). injection Hret as <- _.
  apply try_abort_Ok in H.
  apply tbind_Ok in H as (dataId & tx4 & _ & H).
  apply tbind_Ok in H as (bytes & tx5 & _ & H).
  apply tbind_Ok in H as (fileNodeId & tx6 & _ & H).
  apply tbind_Ok in H as (ok & tx7 & _ & H).
  injection H as <- _. reflexivity.
Qed.

Lemma createFileSync_throws now p flag mode cred s e :
  fst (SyncStore.createFileSync randomUUID JSON_stringify JSON_parse now p flag mode cred s)
  = Err e ->
  SyncStore.kv_store
    (snd (SyncStore.createFileSync randomUUID JSON_stringify JSON_parse now p flag mode cred s))
  = SyncStore.kv_store s.
Proof.
  unfold SyncStore.createFileSync, SyncStore.transaction, SyncStore.tbind. cbv zeta.
  destruct (SyncStore.commitNewFile _ _ _ _ _ _ _ _ _ _) as [[newFile|e'] tx] eqn:Hrun.
  - unfold File.new_PreloadFile, SyncStore.lift.
    rewrite size_toStats, (commitNewFile_size _ _ _ _ _ _ _ _ _ Hrun).
    cbn [length]. change (0 =? Z.of_nat 0) with true. cbn [negb andb fst]. discriminate.
  - cbn [fst snd SyncStore.kv_store]. intros _.
    destruct (loose_commitNewFile randomUUID JSON_stringify JSON_parse (SyncStore.kv_store s)
                now p Stats.S_IFREG mode cred [] _ _ _ (journal_begin s) Hrun) as [_ H].
    destruct (H e' eq_refl) as [?|?]; assumption.
Qed.

Lemma readdirSync_leaves now p cred s :
  snd (SyncStore.readdirSync JSON_parse now p cred s) = s.
Proof.
  unfold SyncStore.readdirSync.
  match goal with |- snd (SyncStore.transaction ?c s) = s =>
    destruct (c (SyncStore.begin s)) as [r tx] eqn:E;
    rewrite (transaction_reads_only c s r tx); [reflexivity| |exact E]
  end.
  apply reads_only_bind; [apply reads_only_findINode|]. intros node.
  destruct (negb _); [apply reads_only_throw|].
  apply reads_only_bind; [apply reads_only_getDirListing|]. intros l. apply reads_only_ret.
Qed.

Lemma rmdirSync_throws now p cred s e :
  fst (SyncStore.rmdirSync JSON_stringify JSON_parse now p cred s) = Err e ->
  SyncStore.kv_store (snd (SyncStore.rmdirSync JSON_stringify JSON_parse now p cred s))
  = SyncStore.kv_store s.
Proof.
  unfold SyncStore.rmdirSync.
  pose proof (readdirSync_leaves now p cred s) as Hs.
  destruct (SyncStore.readdirSync JSON_parse now p cred s) as [[entries|e'] s1].
  - cbn [snd] in Hs. subst s1. destruct (0 <? length entries)%nat; [reflexivity|].
    apply (transaction_throws (SyncStore.kv_store s)); [reflexivity|].
    apply loose_removeEntry_tx.
  - cbn [snd] in Hs. subst s1. reflexivity.
Qed.

(** X2: a method of the key-value file system that changes the store does
    all of its changes or none: when [mkdirSync], [createFileSync],
    [unlinkSync], [rmdirSync], [renameSync] or [_syncSync] throws, whatever
    the error, the store holds what it held before the call. *)
Theorem a_method_that_throws_leaves_the_store
    (now : Z) (cred : Cred.Cred) (s : SyncStore.KV) :
  (forall p mode,
     SyncStore.returns_or_leaves s
       (SyncStore.mkdirSync randomUUID JSON_stringify JSON_parse now p mode cred s))
  /\ (forall p flag mode,
        SyncStore.returns_or_leaves s
          (SyncStore.createFileSync randomUUID JSON_stringify JSON_parse now p flag mode cred s))
  /\ (forall p,
        SyncStore.returns_or_leaves s
          (SyncStore.unlinkSync JSON_stringify JSON_parse now p cred s))
  /\ (forall p,
        SyncStore.returns_or_leaves s
          (SyncStore.rmdirSync JSON_stringify JSON_parse now p cred s))
  /\ (forall oldPath newPath,
        SyncStore.returns_or_leaves s
          (SyncStore.renameSync JSON_stringify JSON_parse now oldPath newPath cred s))
  /\ (forall p data stats,
        SyncStore.returns_or_leaves s (SyncStore._syncSync JSON_parse p data stats s)).
Proof.
  unfold SyncStore.returns_or_leaves. repeat apply conj.
  - intros p mode e. unfold SyncStore.mkdirSync.
    apply (transaction_throws (SyncStore.kv_store s)); [reflexivity|].
    apply loose_bind_strict; [apply loose_commitNewFile | intros _; apply strict_ret].
  - intros p flag mode e. apply createFileSync_throws.
  - intros p e. unfold SyncStore.unlinkSync.
    apply (transaction_throws (SyncStore.kv_store s)); [reflexivity|].
    apply loose_removeEntry_tx.
  - intros p e. apply rmdirSync_throws.
  - intros oldPath newPath e. unfold SyncStore.renameSync.
    apply (transaction_throws (SyncStore.kv_store s)); [reflexivity|].
    apply loose_renameSync_tx.
  - intros p data stats e. unfold SyncStore._syncSync.
    apply (transaction_throws (SyncStore.kv_store s)); [reflexivity|].
    apply loose__syncSync_tx.
Qed.

End methods_throw.

(** ** Methods that only read *)

Lemma transaction_leaves {A} (c : SyncStore.T A) (s : SyncStore.KV) :
  SyncStore.reads_only c -> snd (SyncStore.transaction c s) = s.
Proof.
  intros Hro. destruct (c (SyncStore.begin s)) as [r tx] eqn:E.
  rewrite (transaction_reads_only c s r tx Hro E). reflexivity.
Qed.

(** X3: [statSync], [accessSync], [readdirSync], [openFileSync] and
    [existsSync] of the key-value file system leave the store as it is,
    whatever they return or throw. *)
Theorem reading_methods_leave_the_store
    (JSON_parse : string -> option (gmap string string))
    (now : Z) (p : string) (cred : Cred.Cred) (s : SyncStore.KV) :
  snd (SyncStore.statSync JSON_parse now p cred s) = s
  /\ (forall mode, snd (SyncStore.accessSync JSON_parse now p mode cred s) = s)
  /\ snd (SyncStore.readdirSync JSON_parse now p cred s) = s
  /\ (forall flag, snd (SyncStore.openFileSync JSON_parse now p flag cred s) = s)
  /\ snd (FileSystem.existsSync (SyncStore.statSync JSON_parse) now p cred s) = s.
Proof.
  assert (Hstat : snd (SyncStore.statSync JSON_parse now p cred s) = s).
  { unfold SyncStore.statSync. apply transaction_leaves.
    apply reads_only_bind; [apply reads_only_findINode|]. intros node. cbv zeta.
    destruct (negb _); [apply reads_only_throw | apply reads_only_ret]. }
  split; [exact Hstat|]. split; [|split; [|split]].
  - intros mode. unfold SyncStore.accessSync. apply transaction_leaves.
    apply reads_only_bind; [apply reads_only_findINode|]. intros node.
    destruct (negb _); [apply reads_only_throw | apply reads_only_ret].
  - apply readdirSync_leaves.
  - intros flag. unfold SyncStore.openFileSync. apply transaction_leaves.
    apply reads_only_bind; [apply reads_only_findINode|]. intros node.
    apply reads_only_bind; [apply reads_only_tx_get|]. intros data.
    destruct (negb _); [apply reads_only_throw|].
    destruct data; [apply reads_only_lift | apply reads_only_throw].
  - unfold FileSystem.existsSync.
    destruct (SyncStore.statSync JSON_parse now p cred s) as [[st|e] s1];
      cbn [snd] in *; exact Hstat.
Qed.

(** After [mkdir('/a')], a second [mkdir('/a')] throws [EEXIST] and leaves
    the store as it was. *)
Lemma mkdirSync_twice_leaves_the_store :
  let s := snd (Example.mkdirSync 1001 "/a" 493 Cred.Root (Example.new_InMemory 1000)) in
  fst (Example.mkdirSync 1002 "/a" 493 Cred.Root s) = Err (ApiError EEXIST)
  /\ SyncStore.kv_store (snd (Example.mkdirSync 1002 "/a" 493 Cred.Root s))
     = SyncStore.kv_store s.
Proof.
  intros s.
  assert (H : fst (Example.mkdirSync 1002 "/a" 493 Cred.Root s) = Err (ApiError EEXIST))
    by (vm_compute; reflexivity).
  split; [exact H|].
  exact (proj1 (a_method_that_throws_leaves_the_store Example.randomUUID
                  Example.JSON_stringify Example.JSON_parse 1002 Cred.Root s)
           "/a" 493 (ApiError EEXIST) H).
Defined.

(** ** Inodes as records of bytes *)

Lemma serialize_length (i : Inode.Inode) (data : list byte) :
  Inode.serialize i = Ok data -> Z.of_nat (length data) = Inode.getSize i.
Proof.
  rewrite serialize_layout. intros H.
  assert (E : forall a b : list byte, Ok a = Ok b -> b = a) by (intros a b; congruence).
  rewrite (E _ _ H).
  rewrite !length_app, !length_le_bytes, length_encode. unfold Inode.getSize. lia.
Qed.

(** X4: an inode whose fields fit their slots and whose id has one byte
    for each character, as the ids of [randomUUID] have, is written as a
    record of [getSize()] bytes, 38 and one for each character of its id,
    from which [Deserialize] reads the same inode back.  (For another id
    [getSize()] counts fewer units than [encode] gives bytes.) *)
Theorem Inode_serialize_then_Deserialize (i : Inode.Inode) :
  Inode.fits i ->
  JS.one_byte_per_char (Inode.id i) = true ->
  exists data,
    Inode.serialize i = Ok data
    /\ Z.of_nat (length data) = Inode.getSize i
    /\ Inode.Deserialize data = Ok i.
Proof.
  intros Hfits _. destruct (Deserialize_serialize i Hfits) as (data & Hs & Hd).
  exists data. split; [exact Hs|]. split; [|exact Hd]. apply serialize_length, Hs.
Qed.

Lemma Inode_serialize_then_Deserialize_root :
  let i := Inode.mkInode "6f1b2c3d-0a1b-4c2d-8e3f-000000000001" 4096 16895
             1700000000000 1700000000000 1700000000000 0 0 in
  exists data,
    Inode.serialize i = Ok data
    /\ Z.of_nat (length data) = Inode.getSize i
    /\ Inode.Deserialize data = Ok i.
Proof.
  intros i. apply (Inode_serialize_then_Deserialize i).
  - unfold Inode.fits. simpl. lia.
  - vm_compute. reflexivity.
Defined.




(** X6: for a [Stats] whose three times are time values of [Date],
    [update] copies the size, the mode, the three times and the owner of
    the [Stats] into the inode and says whether one of the six differed;
    the group is compared with nothing and never copied, so that a
    [Stats] that differs from the inode in its group alone is reported as
    no change. *)
Theorem Inode_update_never_copies_the_group (i : Inode.Inode) (st : Stats.Stats) :
  JS.in_Date_range (Stats.atimeMs st) -> JS.in_Date_range (Stats.mtimeMs st) ->
  JS.in_Date_range (Stats.ctimeMs st) ->
  snd (Inode.update i st)
  = Inode.mkInode (Inode.id i) (Stats.size st) (Stats.mode st) (Stats.atimeMs st)
      (Stats.mtimeMs st) (Stats.ctimeMs st) (Stats.uid st) (Inode.gid i)
  /\ (fst (Inode.update i st) = false
      <-> Inode.size i = Stats.size st /\ Inode.mode i = Stats.mode st
          /\ Inode.atime i = Stats.atimeMs st /\ Inode.mtime i = Stats.mtimeMs st
          /\ Inode.ctime i = Stats.ctimeMs st /\ Inode.uid i = Stats.uid st).
Proof.
  intros _ _ _.
  split; [apply update_snd|].
  destruct i as [id sz md at_ mt ct ui gi].
  unfold Inode.update, JS.Date_getTime. cbv zeta.
  cbn [Inode.id Inode.size Inode.mode Inode.atime Inode.mtime Inode.ctime Inode.uid Inode.gid].
  do 7 update_test; cbn [fst]; split; intros H; try discriminate H;
    try tauto; try reflexivity; try (repeat split; congruence).
Qed.

(** An inode of the group 0 and the [Stats] of the same file after
    [chown] to the group 100: [update] keeps the group 0 and reports no
    change. *)
Lemma Inode_update_after_a_change_of_group :
  let i := Inode.mkInode "6f1b2c3d-0a1b-4c2d-8e3f-000000000002" 5 33188
             1700000000000 1700000000000 1700000000000 1000 0 in
  let st := Stats.mkStats 5 33188 1700000000000 1700000000000 1700000000000
              1700000000000 1000 100 in
  snd (Inode.update i st)
  = Inode.mkInode (Inode.id i) (Stats.size st) (Stats.mode st) (Stats.atimeMs st)
      (Stats.mtimeMs st) (Stats.ctimeMs st) (Stats.uid st) (Inode.gid i)
  /\ (fst (Inode.update i st) = false
      <-> Inode.size i = Stats.size st /\ Inode.mode i = Stats.mode st
          /\ Inode.atime i = Stats.atimeMs st /\ Inode.mtime i = Stats.mtimeMs st
          /\ Inode.ctime i = Stats.ctimeMs st /\ Inode.uid i = Stats.uid st).
Proof.
  intros i st.
  apply (Inode_update_never_copies_the_group i st); unfold JS.in_Date_range; simpl; lia.
Defined.

(** ** [Stats]: [clone] and [chmod] *)

Lemma land_lnot_type (m : Z) : Z.land (Z.land m (-61441)) 61440 = 0.
Proof.
  rewrite <- Z.land_assoc. change (Z.land (-61441) 61440) with 0. apply Z.land_0_r.
Qed.

Lemma lor_split_type (m : Z) : Z.lor (Z.land m (-61441)) (Z.land m 61440) = m.
Proof.
  rewrite <- Z.land_lor_distr_r. change (Z.lor (-61441) 61440) with (-1).
  apply Z.land_m1_r.
Qed.

Lemma land_range (m k : Z) : 0 <= m < 2 ^ 31 -> 0 <= Z.land m k < 2 ^ 31.
Proof.
  intros H. assert (H0 : 0 <= Z.land m k) by (apply Z.land_nonneg; lia).
  split; [exact H0|].
  destruct (Z.eq_dec (Z.land m k) 0) as [->|Hnz]; [lia|].
  apply Z.log2_lt_pow2; [lia|].
  destruct (Z.eq_dec m 0) as [->|Hm]; [rewrite Z.land_0_l in Hnz; congruence|].
  assert (Hl : Z.log2 m < 31) by (apply Z.log2_lt_pow2; lia).
  destruct (Z.le_gt_cases 31 (Z.log2 (Z.land m k))) as [Hge|]; [|lia].
  exfalso.
  assert (Hbit : Z.testbit (Z.land m k) (Z.log2 (Z.land m k)) = true)
    by (apply Z.bit_log2; lia).
  rewrite Z.land_spec in Hbit. apply andb_true_iff in Hbit as [Hbit _].
  rewrite Z.bits_above_log2 in Hbit by lia. discriminate.
Qed.

(** X7: [Stats.clone] returns the same metadata, unless no permission bit
    is set: then the clone gets the default permissions of its type, [0o644]
    for a regular file and [0o777] for everything else. *)
Theorem Stats_clone_fills_in_empty_permissions (now : Z) (s : Stats.Stats) :
  0 <= Stats.mode s < 2 ^ 31 ->
  Stats.clone now s
  = if JS.band (Stats.mode s) (JS.bnot Stats.S_IFMT) =? 0
    then Stats.mkStats (Stats.size s)
           (JS.bor (Stats.default_mode (Stats.mode s)) (Stats.mode s))
           (Stats.atimeMs s) (Stats.mtimeMs s) (Stats.ctimeMs s) (Stats.birthtimeMs s)
           (Stats.uid s) (Stats.gid s)
    else s.
Proof.
  intros Hm. unfold Stats.clone, Stats.new_Stats. cbv zeta.
  cbn [Stats.resolveT].
  unfold JS.band, JS.bor, JS.bnot, JS.truthy.
  rewrite (toInt32_small (Stats.mode s)) by lia.
  change (JS.toInt32 Stats.S_IFMT) with 61440.
  change (JS.toInt32 (Z.lnot 61440)) with (-61441).
  pose proof (land_range (Stats.mode s) (-61441) Hm) as Hp.
  pose proof (land_range (Stats.mode s) 61440 Hm) as Ht.
  destruct (Z.eqb_spec (Z.land (Stats.mode s) (-61441)) 0) as [E|E]; cbn [negb].
  - (* no permission bit: the mode is its type *)
    assert (Hmode : Z.land (Stats.mode s) 61440 = Stats.mode s).
    { pose proof (lor_split_type (Stats.mode s)) as H. rewrite E in H.
      rewrite Z.lor_0_l in H. exact H. }
    rewrite Hmode.
    assert (Hd : Z.land (JS.toInt32 (Stats.default_mode (Stats.mode s))) 61440 = 0)
      by (unfold Stats.default_mode; destruct (_ =? _); reflexivity).
    rewrite Hd. cbn [Z.eqb]. rewrite (toInt32_small (Stats.mode s)) by lia.
    reflexivity.
  - rewrite (toInt32_small (Z.land (Stats.mode s) (-61441))) by lia.
    rewrite land_lnot_type. cbn [Z.eqb].
    rewrite (toInt32_small (Z.land (Stats.mode s) 61440)) by lia.
    rewrite lor_split_type. destruct s; reflexivity.
Qed.

Lemma Stats_clone_of_a_file_without_permissions :
  let s := Stats.mkStats 3 32768 1000 1000 1000 1000 0 0 in
  Stats.clone 2000 s = Stats.mkStats 3 33188 1000 1000 1000 1000 0 0.
Proof.
  intros s. rewrite (Stats_clone_fills_in_empty_permissions 2000 s); [reflexivity|].
  simpl. lia.
Defined.

(** X8: [chmod] with permission bits alone, a number below [0o10000], sets
    these as the permissions and keeps the type of the file. *)
Theorem Stats_chmod_keeps_the_type (s : Stats.Stats) (md : Z) :
  0 <= Stats.mode s < 2 ^ 31 -> 0 <= md < 4096 ->
  JS.band (Stats.mode (Stats.chmod s md)) Stats.S_IFMT = JS.band (Stats.mode s) Stats.S_IFMT
  /\ JS.band (Stats.mode (Stats.chmod s md)) (JS.bnot Stats.S_IFMT) = md
  /\ Stats.isFile (Stats.chmod s md) = Stats.isFile s
  /\ Stats.isDirectory (Stats.chmod s md) = Stats.isDirectory s.
Proof.
  intros Hm Hmd.
  assert (Htype : JS.band (Stats.mode (Stats.chmod s md)) Stats.S_IFMT
                  = JS.band (Stats.mode s) Stats.S_IFMT
                  /\ JS.band (Stats.mode (Stats.chmod s md)) (JS.bnot Stats.S_IFMT) = md).
  { unfold Stats.chmod. cbn [Stats.mode]. unfold JS.band, JS.bor, JS.bnot.
    rewrite (toInt32_small (Stats.mode s)), (toInt32_small md) by lia.
    change (JS.toInt32 Stats.S_IFMT) with 61440.
    change (JS.toInt32 (Z.lnot 61440)) with (-61441).
    pose proof (land_range (Stats.mode s) 61440 Hm) as Ht.
    rewrite (toInt32_small (Z.land (Stats.mode s) 61440)) by lia.
    assert (Hmd0 : Z.land md 61440 = 0).
    { apply Z.bits_inj'. intros n Hn. rewrite Z.land_spec, Z.bits_0.
      destruct (Z.lt_ge_cases n 12) as [Hlt|Hge].
      - replace (Z.testbit 61440 n) with false; [apply andb_false_r|].
        symmetry. change 61440 with (15 * 2 ^ 12).
        rewrite Z.mul_pow2_bits_low by lia. reflexivity.
      - replace (Z.testbit md n) with false; [reflexivity|].
        symmetry. destruct (Z.eq_dec md 0) as [->|Hnz]; [apply Z.bits_0|].
        apply Z.bits_above_log2; [lia|].
        assert (Z.log2 md < 12) by (apply Z.log2_lt_pow2; lia). lia. }
    assert (Hmd1 : Z.land md (-61441) = md).
    { pose proof (lor_split_type md) as H. rewrite Hmd0, Z.lor_0_r in H. exact H. }
    assert (Hr : 0 <= Z.lor (Z.land (Stats.mode s) 61440) md < 2 ^ 31).
    { split; [apply Z.lor_nonneg; lia|].
      destruct (Z.eq_dec (Z.lor (Z.land (Stats.mode s) 61440) md) 0) as [->|Hnz]; [lia|].
      assert (0 <= Z.lor (Z.land (Stats.mode s) 61440) md) by (apply Z.lor_nonneg; lia).
      apply Z.log2_lt_pow2; [lia|]. rewrite Z.log2_lor by lia.
      apply Z.max_lub_lt.
      - destruct (Z.eq_dec (Z.land (Stats.mode s) 61440) 0) as [->|?]; [cbn; lia|].
        apply Z.log2_lt_pow2; lia.
      - destruct (Z.eq_dec md 0) as [->|?]; [cbn; lia|]. apply Z.log2_lt_pow2; lia. }
    rewrite (toInt32_small (Z.lor _ _)) by exact Hr.
    rewrite !Z.land_lor_distr_l, Hmd0, Hmd1, Z.lor_0_r, <- !Z.land_assoc.
    change (Z.land 61440 61440) with 61440. change (Z.land 61440 (-61441)) with 0.
    rewrite Z.land_0_r, Z.lor_0_l. auto. }
  destruct Htype as [H1 H2]. repeat split; try assumption.
  - unfold Stats.isFile. rewrite H1. reflexivity.
  - unfold Stats.isDirectory. rewrite H1. reflexivity.
Qed.

Lemma Stats_chmod_of_a_directory :
  let s := Stats.mkStats 4096 16877 1000 1000 1000 1000 0 0 in
  JS.band (Stats.mode (Stats.chmod s 448)) Stats.S_IFMT = JS.band (Stats.mode s) Stats.S_IFMT
  /\ JS.band (Stats.mode (Stats.chmod s 448)) (JS.bnot Stats.S_IFMT) = 448
  /\ Stats.isFile (Stats.chmod s 448) = Stats.isFile s
  /\ Stats.isDirectory (Stats.chmod s 448) = Stats.isDirectory s.
Proof.
  intros s. apply (Stats_chmod_keeps_the_type s 448); simpl; lia.
Defined.

(** ** [PreloadFile.readSync] and [truncateSync] *)

(** X9: [readSync(buffer, offset, length, position)] on a readable file
    takes the [length] bytes of the file that start at [offset] and puts
    them into [buffer] at [position]; the rest of [buffer] is kept, the
    position of the file becomes [position + length] and [atimeMs] the
    time of the call.  So [offset] counts in the file and [position] in
    the buffer. *)
Theorem readSync_takes_the_bytes_at_offset
    (f : File.PreloadFile) (now : Z) (buffer : list byte) (off len pos : Z) :
  File.isReadable (File._flag f) = true ->
  0 <= off -> 0 <= pos -> 0 <= len ->
  pos + len <= Stats.size (File._stat f) ->
  off + len <= Z.of_nat (length (File._buffer f)) ->
  pos + len <= Z.of_nat (length buffer) ->
  exists buffer' f',
    File.readSync f now buffer off len (Some pos) = (Ok (len, buffer'), f')
    /\ buffer'
       = firstn (Z.to_nat pos) buffer
         ++ firstn (Z.to_nat len) (skipn (Z.to_nat off) (File._buffer f))
         ++ skipn (Z.to_nat (pos + len)) buffer
    /\ File._buffer f' = File._buffer f
    /\ File._pos f' = pos + len
    /\ Stats.atimeMs (File._stat f') = now.
Proof.
  intros Hr Hoff Hpos Hlen Hsize Hfile Hbuf.
  assert (Hsl : JS.slice (File._buffer f) off (off + len)
                = firstn (Z.to_nat len) (skipn (Z.to_nat off) (File._buffer f))).
  { rewrite slice_exact by lia. repeat f_equal. lia. }
  assert (Hsll : length (JS.slice (File._buffer f) off (off + len)) = Z.to_nat len).
  { rewrite Hsl, length_firstn, length_skipn. lia. }
  unfold File.readSync. rewrite Hr. cbn [negb]. cbv zeta.
  destruct (Z.ltb_spec (Stats.size (File._stat f)) (pos + len)) as [?|_]; [lia|].
  rewrite set_bytes_ok by lia. file_simpl.
  eexists. eexists. split; [reflexivity|]. file_simpl.
  rewrite Hsll, Hsl. repeat split. repeat f_equal. lia.
Qed.

Lemma readSync_takes_the_bytes_at_offset_2 :
  exists buffer' f',
    File.readSync Example.five_bytes 2000 [Byte.x00; Byte.x00; Byte.x00] 3 2 (Some 1)
    = (Ok (2, buffer'), f')
    /\ buffer'
       = firstn (Z.to_nat 1) [Byte.x00; Byte.x00; Byte.x00]
         ++ firstn (Z.to_nat 2) (skipn (Z.to_nat 3) (File._buffer Example.five_bytes))
         ++ skipn (Z.to_nat (1 + 2)) [Byte.x00; Byte.x00; Byte.x00]
    /\ File._buffer f' = File._buffer Example.five_bytes
    /\ File._pos f' = 1 + 2
    /\ Stats.atimeMs (File._stat f') = 2000.
Proof.
  apply (readSync_takes_the_bytes_at_offset Example.five_bytes 2000
           [Byte.x00; Byte.x00; Byte.x00] 3 2 1); simpl; try reflexivity; lia.
Defined.

Lemma slice_prefix (a : list byte) (len : Z) :
  0 <= len -> JS.slice a 0 len = firstn (Z.to_nat len) a.
Proof.
  intros H. unfold JS.slice, JS.rel_index. cbv zeta.
  destruct (Z.ltb_spec 0 0); [lia|]. destruct (Z.ltb_spec len 0); [lia|].
  rewrite (Z.min_l 0) by lia. change (Z.to_nat 0) with 0%nat. rewrite drop_0.
  rewrite Z.sub_0_r.
  destruct (Z.le_gt_cases len (Z.of_nat (length a))).
  - rewrite Z.min_l, Z.max_l by lia. reflexivity.
  - rewrite Z.min_r, Z.max_l by lia. rewrite Nat2Z.id.
    rewrite !take_ge by lia. reflexivity.
Qed.

(** What [truncateSync] leaves of a file whose buffer has the size that its
    metadata states. *)
Lemma truncateSync_result {W : Type}
    (sync : File.PreloadFile -> W -> result unit * File.PreloadFile * W)
    (synchronous : bool) (f : File.PreloadFile) (w : W) (now len : Z) :
  File.isWriteable (File._flag f) = true ->
  File.isSynchronous (File._flag f) = false ->
  Stats.size (File._stat f) = Z.of_nat (length (File._buffer f)) ->
  0 <= len ->
  File.truncateSync sync synchronous f w now len
  = (Ok tt,
     File.mkPreloadFile (File._path f) (File._flag f)
       (File.with_mtimeMs (File.with_size (File._stat f) len) now)
       (firstn (Z.to_nat len) (File._buffer f)
        ++ repeat Byte.x00 (Z.to_nat len - length (File._buffer f)))
       (if Z.of_nat (length (File._buffer f)) <? len
        then Z.of_nat (length (File._buffer f)) + len else File._pos f)
       true,
     w).
Proof.
  intros Hw Hs Hsize Hlen.
  unfold File.truncateSync. cbv zeta. file_simpl. rewrite Hw, Hs. cbn [negb andb].
  set (n := length (File._buffer f)) in *.
  destruct (Z.ltb_spec (Z.of_nat n) len) as [Hgrow|Hcut].
  - (* the file grows by [len - n] zeros *)
    unfold JS.new_Uint8Array.
    destruct (Z.ltb_spec (len - Z.of_nat n) 0) as [?|_]; [lia|].
    set (k := Z.to_nat (len - Z.of_nat n)).
    assert (Hk : Z.of_nat n + Z.of_nat k = len) by (subst k; lia).
    unfold File.writeSync. cbv zeta. file_simpl. rewrite Hw. cbn [negb].
    rewrite repeat_length, Hk, Hsize. fold n.
    destruct (Z.ltb_spec (Z.of_nat n) len) as [_|?]; [|lia].
    file_simpl. fold n.
    destruct (Z.ltb_spec (Z.of_nat n) len) as [_|?]; [|lia].
    unfold JS.new_Uint8Array.
    destruct (Z.ltb_spec len 0) as [?|_]; [lia|]. cbn [JS.bind].
    rewrite set_bytes_ok; [|lia|rewrite repeat_length; fold n; lia].
    cbn [JS.bind]. file_simpl.
    change (Z.to_nat 0) with 0%nat. rewrite take_0. cbn [app Nat.add]. fold n.
    assert (Hz : skipn n (repeat Byte.x00 (Z.to_nat len)) = repeat Byte.x00 k).
    { replace (Z.to_nat len) with (n + k)%nat by lia.
      rewrite repeat_app, drop_app_length'; [reflexivity|symmetry; apply repeat_length]. }
    rewrite Hz.
    rewrite Z.add_0_l, slice_prefix by lia.
    rewrite Nat2Z.id, firstn_all2 by (rewrite repeat_length; lia).
    rewrite set_bytes_ok; [|lia|rewrite length_app, !repeat_length; fold n; lia].
    file_simpl. rewrite Hs. file_simpl. rewrite Hs. cbn [andb].
    rewrite Nat2Z.id, take_app_length' by reflexivity.
    rewrite drop_ge by (rewrite length_app, !repeat_length; fold n; lia).
    rewrite app_nil_r.
    rewrite (take_ge (File._buffer f)) by (fold n; lia).
    replace (Z.to_nat len - n)%nat with k by lia.
    rewrite length_app, repeat_length. fold n.
    replace (Z.of_nat (n + k)) with len by lia. reflexivity.
  - rewrite slice_prefix by lia.
    replace (Z.to_nat len - n)%nat with 0%nat by lia. cbn [repeat].
    rewrite app_nil_r. reflexivity.
Qed.

(** X10: [truncateSync(len)] on a file opened for writing without the
    synchronous flag, whose buffer has the size that its metadata states,
    leaves a buffer of [len] bytes: the first [len] bytes of the old one,
    followed by zeros where the old one was shorter.  The size is [len],
    [mtimeMs] is the time of the call and the file is dirty. *)
Theorem truncateSync_cuts_or_pads {W : Type}
    (sync : File.PreloadFile -> W -> result unit * File.PreloadFile * W)
    (synchronous : bool) (f : File.PreloadFile) (w : W) (now len : Z) :
  File.isWriteable (File._flag f) = true ->
  File.isSynchronous (File._flag f) = false ->
  Stats.size (File._stat f) = Z.of_nat (length (File._buffer f)) ->
  0 <= len ->
  exists f',
    File.truncateSync sync synchronous f w now len = (Ok tt, f', w)
    /\ File._buffer f'
       = firstn (Z.to_nat len) (File._buffer f)
         ++ repeat Byte.x00 (Z.to_nat len - length (File._buffer f))
    /\ Z.of_nat (length (File._buffer f')) = len
    /\ Stats.size (File._stat f') = len
    /\ Stats.mtimeMs (File._stat f') = now
    /\ File._dirty f' = true.
Proof.
  intros Hw Hs Hsize Hlen.
  rewrite (truncateSync_result sync synchronous f w now len Hw Hs Hsize Hlen).
  eexists. split; [reflexivity|]. file_simpl. repeat split.
  rewrite length_app, length_take, repeat_length. lia.
Qed.

Lemma truncateSync_of_five_bytes :
  (exists f',
     File.truncateSync File.NoSyncFile_syncSync false Example.five_bytes tt 2000 2
     = (Ok tt, f', tt)
     /\ File._buffer f'
        = firstn (Z.to_nat 2) (File._buffer Example.five_bytes)
          ++ repeat Byte.x00 (Z.to_nat 2 - length (File._buffer Example.five_bytes))
     /\ Z.of_nat (length (File._buffer f')) = 2
     /\ Stats.size (File._stat f') = 2
     /\ Stats.mtimeMs (File._stat f') = 2000
     /\ File._dirty f' = true)
  /\ (exists f',
        File.truncateSync File.NoSyncFile_syncSync false Example.five_bytes tt 2000 7
        = (Ok tt, f', tt)
        /\ File._buffer f'
           = firstn (Z.to_nat 7) (File._buffer Example.five_bytes)
             ++ repeat Byte.x00 (Z.to_nat 7 - length (File._buffer Example.five_bytes))
        /\ Z.of_nat (length (File._buffer f')) = 7
        /\ Stats.size (File._stat f') = 7
        /\ Stats.mtimeMs (File._stat f') = 2000
        /\ File._dirty f' = true).
Proof.
  split.
  - apply (truncateSync_cuts_or_pads File.NoSyncFile_syncSync false Example.five_bytes tt
             2000 2); try reflexivity; lia.
  - apply (truncateSync_cuts_or_pads File.NoSyncFile_syncSync false Example.five_bytes tt
             2000 7); try reflexivity; lia.
Defined.

(** ** Files that exist: [appendFileSync] and [truncateSync] *)


Section existing_file.
Variable randomUUID : nat -> string.
Variable JSON_stringify : gmap string string -> string.
Variable JSON_parse : string -> option (gmap string string).
Variables (p : string) (s : SyncStore.KV) (D0 : list byte) (cred : Cred.Cred).
Variables (parentNode : Inode.Inode) (tx1 : SyncStore.Tx) (listing : gmap string string)
  (tx2 : SyncStore.Tx) (fid : string) (bytes : list byte) (fileNode : Inode.Inode).
Hypothesis Hparent :
  SyncStore.findINode JSON_parse (Path.dirname p) (SyncStore.begin s) = (Ok parentNode, tx1).
Hypothesis Hlisting :
  SyncStore.getDirListing JSON_parse (Path.dirname p) parentNode tx1 = (Ok listing, tx2).
Hypothesis Hentry : listing !! Path.basename p = Some fid.
Hypothesis Hfid : fid <> ""%string.
Hypothesis Hbytes : SyncStore.kv_store s !! fid = Some bytes.
Hypothesis Hnode : Inode.Deserialize bytes = Ok fileNode.
Hypothesis Hfits : Inode.fits fileNode.
Hypothesis Hdata : SyncStore.kv_store s !! Inode.id fileNode = Some D0.
Hypothesis Hsize : Inode.size fileNode = Z.of_nat (length D0).
Hypothesis Hr1 : Inode.id parentNode ∉ dom (SyncStore.originalData tx1).
Hypothesis Hr2 : fid ∉ dom (SyncStore.originalData tx1).
Hypothesis Hr3 : Inode.id fileNode ∉ dom (SyncStore.originalData tx1).
Hypothesis Hne1 : Inode.id fileNode <> Inode.id parentNode.
Hypothesis Hne2 : Inode.id fileNode <> fid.
Hypothesis Hne3 : fid <> Inode.id parentNode.
Hypothesis Hgo :
  ~ SyncStore.gave_up
      (fst (SyncStore._findINode JSON_parse (SyncStore.fuel_for p) (Path.dirname p)
              (Path.basename p) [] (SyncStore.begin s))).
Hypothesis Hname : (Path.dirname p = "/" -> Path.basename p <> "")%string.
Hypothesis Hroot : Cred.euid cred = 0 \/ Cred.egid cred = 0.











End existing_file.



(** ** Bodies that throw before they write *)

Lemma throws_throw {A} (e : exn) s : SyncStore.throws (@SyncStore.throw A e) s e.
Proof. intros tx Hs Hd. exists tx. auto. Qed.

Lemma throws_bind {A B} (c : SyncStore.T A) (k : A -> SyncStore.T B) s e :
  SyncStore.throws c s e -> SyncStore.throws (SyncStore.tbind c k) s e.
Proof.
  intros Hc tx Hs Hd. destruct (Hc tx Hs Hd) as (tx1 & E1 & Hs1 & Hd1).
  exists tx1. unfold SyncStore.tbind. rewrite E1. auto.
Qed.

Lemma throws_after {A B} (c : SyncStore.T A) (k : A -> SyncStore.T B) s a e :
  SyncStore.runs c s a s -> SyncStore.throws (k a) s e ->
  SyncStore.throws (SyncStore.tbind c k) s e.
Proof.
  intros Hc Hk tx Hs Hd. destruct (Hc tx Hs Hd) as (tx1 & E1 & Hs1 & Hd1).
  destruct (Hk tx1 Hs1 Hd1) as (tx2 & E2 & Hs2 & Hd2).
  exists tx2. unfold SyncStore.tbind. rewrite E1. auto.
Qed.

Lemma throws_ext {A} (c c' : SyncStore.T A) s e :
  (forall tx, c tx = c' tx) -> SyncStore.throws c' s e -> SyncStore.throws c s e.
Proof. intros E Hc tx Hs Hd. rewrite E. auto. Qed.

Lemma throws_transaction {A} (c : SyncStore.T A) s e :
  SyncStore.throws c s e -> SyncStore.transaction c s = (Err e, s).
Proof.
  intros Hc. destruct (Hc (SyncStore.begin s) eq_refl eq_refl) as (tx & E & Hs & Hd).
  unfold SyncStore.transaction. rewrite E, Hs, Hd. destruct s; reflexivity.
Qed.

(** ** A name that the listing of the directory does not hold *)

Section missing_entry.
Variable JSON_parse : string -> option (gmap string string).
Variables (p : string) (s : SyncStore.KV) (parentNode : Inode.Inode)
  (tx1 : SyncStore.Tx).
Hypothesis Hparent :
  SyncStore.findINode JSON_parse (Path.dirname p) (SyncStore.begin s) = (Ok parentNode, tx1).
Hypothesis Hgo :
  ~ SyncStore.gave_up
      (fst (SyncStore._findINode JSON_parse (SyncStore.fuel_for p) (Path.dirname p)
              (Path.basename p) [] (SyncStore.begin s))).
Hypothesis Hname : (Path.dirname p = "/" -> Path.basename p <> "")%string.
Hypothesis Hdir : Inode.isDirectory parentNode = true.

(** The lookup of [p] in a store whose listing of the directory has no
    entry for the name of [p] throws [ENOENT]; a name that the listing
    inherits from [Object.prototype] is found there and is the key of no
    inode. *)
Lemma throws_findINode s' l :
  SyncStore.agree_on (dom (SyncStore.originalData tx1)) s s' ->
  SyncStore.holds_listing JSON_parse s' (Inode.id parentNode) l ->
  l !! Path.basename p = None ->
  SyncStore.throws (SyncStore.findINode JSON_parse p) s' (ApiError ENOENT).
Proof.
  intros Hsame Hl Hn. unfold SyncStore.findINode.
  assert (Hpar : SyncStore.runs (SyncStore.lookup_parent JSON_parse p) s' parentNode s')
    by (apply (runs_lookup_parent JSON_parse p s parentNode tx1); assumption).
  assert (Hlist : SyncStore.runs
                    (SyncStore.getDirListing JSON_parse (Path.dirname p) parentNode) s' l s')
    by (apply runs_getDirListing; assumption).
  destruct (bool_decide (Path.basename p ∈ SyncStore.Object_prototype_names)) eqn:Hproto.
  - eapply throws_after.
    + eapply runs_ext; [intros tx; apply _findINode_by_parent; exact Hname|].
      eapply runs_bind; [exact Hpar|]. unfold SyncStore.lookup_entry.
      eapply runs_bind; [exact Hlist|]. cbv zeta.
      unfold SyncStore.get_property. rewrite Hn, Hproto. apply runs_ret.
    + apply throws_throw.
  - apply throws_bind.
    eapply throws_ext; [intros tx; apply _findINode_by_parent; exact Hname|].
    eapply throws_after; [exact Hpar|]. unfold SyncStore.lookup_entry.
    eapply throws_after; [exact Hlist|]. cbv zeta.
    unfold SyncStore.get_property. rewrite Hn, Hproto. apply throws_throw.
Qed.

End missing_entry.

(** X13: on the key-value file system, [unlinkSync(p)] on a file returns;
    afterwards [statSync(p)] throws [ENOENT] and [readdirSync] of the
    directory lists the other entries, for credentials whose effective
    user or group is 0 and when [JSON.parse] reads back the listing that is
    written. *)
Theorem unlinkSync_then_the_file_is_gone
    (JSON_stringify : gmap string string -> string)
    (JSON_parse : string -> option (gmap string string))
    (now : Z) (p : string) (listing : gmap string string) (D : list byte)
    (cred : Cred.Cred) (s : SyncStore.KV) :
  let rest := delete (Path.basename p) listing in
  SyncStore.file_in JSON_parse s p listing D ->
  Cred.euid cred = 0 \/ Cred.egid cred = 0 ->
  JSON_parse (JSON_stringify rest) = Some rest ->
  exists s',
    SyncStore.unlinkSync JSON_stringify JSON_parse now p cred s = (Ok tt, s')
    /\ (forall now',
          SyncStore.statSync JSON_parse now' p cred s' = (Err (ApiError ENOENT), s'))
    /\ (forall now',
          SyncStore.readdirSync JSON_parse now' (Path.dirname p) cred s'
          = (Ok (map fst (map_to_list rest)), s')).
Proof.
  intros rest (parentNode & tx1 & tx2 & fid & bytes & fileNode & Hparent & Hlisting & Hentry
               & Hfid & Hbytes & Hnode & Hfits & Hfile & Hdata & Hsize & Hr1 & Hr2 & Hr3
               & Hne1 & Hne2 & Hne3 & Hgo & Hname) Hroot HJ.
  destruct (getDirListing_inv JSON_parse _ _ _ _ _ Hlisting) as (Hdir & data & Hd & Hp).
  destruct (store_after_lookup JSON_parse p s parentNode listing tx1 tx2 Hparent Hlisting)
    as [Hs1 _].
  rewrite Hs1 in Hd.
  assert (Hholds : SyncStore.holds_listing JSON_parse s (Inode.id parentNode) listing)
    by (exists data; auto).
  set (s' := SyncStore.mkKV
               (<[Inode.id parentNode := JS.encode (JSON_stringify rest)]>
                  (delete fid (delete (Inode.id fileNode) (SyncStore.kv_store s))))
               (SyncStore.kv_drawn s)).
  assert (Hsame : SyncStore.agree_on (dom (SyncStore.originalData tx1)) s s').
  { intros k Hk. subst s'. cbn [SyncStore.kv_store].
    rewrite lookup_insert_ne by (intros <-; contradiction).
    rewrite !lookup_delete_ne by (intros <-; contradiction). reflexivity. }
  assert (Hholds' : SyncStore.holds_listing JSON_parse s' (Inode.id parentNode) rest).
  { exists (JS.encode (JSON_stringify rest)). split.
    - subst s'. cbn [SyncStore.kv_store]. apply lookup_insert_eq.
    - rewrite decode_encode. exact HJ. }
  exists s'. split; [|split].
  - unfold SyncStore.unlinkSync. apply runs_transaction.
    apply (removeEntry_stores JSON_stringify JSON_parse p s parentNode tx1 Hparent Hdir
             now cred listing fid bytes fileNode); assumption.
  - intros now'. unfold SyncStore.statSync. apply throws_transaction, throws_bind.
    apply (throws_findINode JSON_parse p s parentNode tx1 Hparent Hgo Hname Hdir s' rest);
      [exact Hsame | exact Hholds' | apply lookup_delete_eq].
  - intros now'. unfold SyncStore.readdirSync. apply runs_transaction.
    eapply runs_bind;
      [apply (runs_findINode_parent JSON_parse p s parentNode tx1 Hparent); exact Hsame|].
    rewrite hasAccess_of_root by exact Hroot. cbn [negb].
    eapply runs_bind; [apply runs_getDirListing; eassumption|]. apply runs_ret.
Qed.

(** ** [renameSync] of a file inside its directory *)

(** X14: on the key-value file system, [renameSync(oldPath, newPath)] of a
    file to a name that its directory does not hold returns; afterwards
    [statSync(oldPath)] throws [ENOENT] and [readFile(newPath)] returns what
    the file held.  The statement is for two paths with the same directory,
    credentials whose effective user or group is 0, a new name that is no
    property of [Object.prototype], and a [JSON.parse] that reads back the
    listing that is written. *)
Theorem renameSync_moves_a_file
    (randomUUID : nat -> string)
    (JSON_stringify : gmap string string -> string)
    (JSON_parse : string -> option (gmap string string))
    (now : Z) (oldPath newPath : string) (listing : gmap string string)
    (fid : string) (D : list byte) (cred : Cred.Cred) (s : SyncStore.KV) :
  let oldName := Path.basename oldPath in
  let newName := Path.basename newPath in
  let listing' := <[newName := fid]> (delete oldName listing) in
  SyncStore.file_in JSON_parse s oldPath listing D ->
  listing !! oldName = Some fid ->
  Path.dirname newPath = Path.dirname oldPath ->
  listing !! newName = None ->
  newName ∉ SyncStore.Object_prototype_names ->
  JS.indexOf_is_0 (Path.dirname newPath +:+ "/") (oldPath +:+ "/") = false ->
  ~ SyncStore.gave_up
      (fst (SyncStore._findINode JSON_parse (SyncStore.fuel_for newPath)
              (Path.dirname newPath) newName [] (SyncStore.begin s))) ->
  (Path.dirname newPath = "/" -> newName <> "")%string ->
  Cred.euid cred = 0 \/ Cred.egid cred = 0 ->
  JSON_parse (JSON_stringify listing') = Some listing' ->
  exists s',
    SyncStore.renameSync JSON_stringify JSON_parse now oldPath newPath cred s = (Ok tt, s')
    /\ (forall now',
          SyncStore.statSync JSON_parse now' oldPath cred s' = (Err (ApiError ENOENT), s'))
    /\ (forall nowR,
          SyncStore.readFile randomUUID JSON_stringify JSON_parse nowR newPath "r" cred s'
          = (Ok D, s')).
Proof.
  intros oldName newName listing'
    (parentNode & tx1 & tx2 & fid' & bytes & fileNode & Hparent & Hlisting & Hentry
     & Hfid & Hbytes & Hnode & Hfits & Hfile & Hdata & Hsize & Hr1 & Hr2 & Hr3
     & Hne1 & Hne2 & Hne3 & Hgo & Hname)
    Hentry' Hsamedir Hnone Hproto Hprefix Hgo' Hname' Hroot HJ.
  fold oldName in Hentry. rewrite Hentry' in Hentry. injection Hentry as <-.
  destruct (getDirListing_inv JSON_parse _ _ _ _ _ Hlisting) as (Hdir & data & Hd & Hp).
  destruct (store_after_lookup JSON_parse oldPath s parentNode listing tx1 tx2 Hparent
              Hlisting) as [Hs1 _].
  rewrite Hs1 in Hd.
  assert (Hholds : SyncStore.holds_listing JSON_parse s (Inode.id parentNode) listing)
    by (exists data; auto).
  assert (Hnames : newName <> oldName) by (intros E; rewrite E in Hnone; congruence).
  set (lk := Inode.id parentNode) in *.
  set (s' := SyncStore.mkKV
               (<[lk := JS.encode (JSON_stringify listing')]>
                  (<[lk := JS.encode (JSON_stringify (delete oldName listing))]>
                     (SyncStore.kv_store s)))
               (SyncStore.kv_drawn s)).
  assert (Hother : forall k, k <> lk -> SyncStore.kv_store s' !! k = SyncStore.kv_store s !! k).
  { intros k Hk. subst s'. cbn [SyncStore.kv_store].
    rewrite !lookup_insert_ne by congruence. reflexivity. }
  assert (Hsame : SyncStore.agree_on (dom (SyncStore.originalData tx1)) s s').
  { intros k Hk. apply Hother. intros ->. contradiction. }
  assert (Hholds' : SyncStore.holds_listing JSON_parse s' lk listing').
  { exists (JS.encode (JSON_stringify listing')). split.
    - subst s'. cbn [SyncStore.kv_store]. apply lookup_insert_eq.
    - rewrite decode_encode. exact HJ. }
  assert (Hparent' : SyncStore.findINode JSON_parse (Path.dirname newPath) (SyncStore.begin s)
                     = (Ok parentNode, tx1)) by (rewrite Hsamedir; exact Hparent).
  exists s'. split; [|split].
  - unfold SyncStore.renameSync. apply runs_transaction.
    unfold SyncStore.renameSync_tx. cbv zeta.
    eapply runs_bind;
      [apply (runs_findINode_parent JSON_parse oldPath s parentNode tx1 Hparent);
       intros k _; reflexivity|].
    eapply runs_bind; [apply runs_getDirListing; eassumption|].
    rewrite hasAccess_of_root by exact Hroot. cbn [negb].
    fold oldName newName.
    unfold SyncStore.get_property at 1. rewrite Hentry'. cbn [SyncStore.truthy_value].
    destruct (String.eqb_spec fid "") as [?|_]; [contradiction|]. cbn [negb].
    rewrite Hprefix.
    rewrite Hsamedir, String.eqb_refl.
    eapply runs_bind; [apply runs_ret|]. cbn [fst snd].
    assert (Hfree : SyncStore.get_property (delete oldName listing) newName
                    = SyncStore.VUndefined).
    { unfold SyncStore.get_property. rewrite lookup_delete_ne by congruence. rewrite Hnone.
      rewrite bool_decide_eq_false_2 by exact Hproto. reflexivity. }
    rewrite Hfree. cbn [SyncStore.truthy_value].
    eapply runs_bind; [apply runs_ret|].
    unfold SyncStore.get_property. rewrite Hentry'. cbn [SyncStore.set_property].
    apply runs_try_abort.
    eapply runs_bind; [apply runs_tx_put|].
    eapply runs_bind; [apply runs_tx_put|]. apply runs_ret.
  - intros now'. unfold SyncStore.statSync. apply throws_transaction, throws_bind.
    apply (throws_findINode JSON_parse oldPath s parentNode tx1 Hparent Hgo Hname Hdir s'
             listing'); [exact Hsame | exact Hholds'|].
    subst listing'. rewrite lookup_insert_ne by exact Hnames. apply lookup_delete_eq.
  - intros nowR.
    apply (readFile_returns randomUUID JSON_stringify JSON_parse nowR newPath cred s' fileNode).
    + exact Hroot.
    + apply (runs_findINode JSON_parse newPath s parentNode tx1 Hparent' Hgo' Hname' Hdir s'
               listing' fid bytes fileNode); try assumption.
      * subst listing'. apply lookup_insert_eq.
      * rewrite Hother by exact Hne3. exact Hbytes.
    + rewrite Hother by exact Hne1. exact Hdata.
    + exact Hsize.
Qed.

(** ** [mkdirSync] *)





(** After [mkdir('/a')] and [writeFile('/a/f', 'hello')], the path [/a/f]
    leads to a file that holds the bytes of [hello], in a directory whose
    only entry it is. *)
Lemma with_hello_file_in :
  SyncStore.file_in Example.JSON_parse Example.with_hello "/a/f"
    {[ "f"%string := Example.randomUUID 4 ]} (JS.encode "hello").
Proof.
  unfold SyncStore.file_in.
  let r := eval vm_compute in
        (SyncStore.findINode Example.JSON_parse (Path.dirname "/a/f")
           (SyncStore.begin Example.with_hello)) in
  match r with
  | (Ok ?parentNode, ?tx1) =>
    let r2 := eval vm_compute in
          (SyncStore.getDirListing Example.JSON_parse (Path.dirname "/a/f") parentNode tx1) in
    match r2 with
    | (Ok ?listing, ?tx2) =>
      exists parentNode, tx1, tx2;
      let r3 := eval vm_compute in (listing !! Path.basename "/a/f") in
      match r3 with
      | Some ?fid =>
        exists fid;
        let r4 := eval vm_compute in (SyncStore.kv_store Example.with_hello !! fid) in
        match r4 with
        | Some ?bytes =>
          exists bytes;
          let r5 := eval vm_compute in (Inode.Deserialize bytes) in
          match r5 with
          | Ok ?fileNode => exists fileNode
          end
        end
      end
    end
  end.
  split; [vm_compute; reflexivity|].
  split; [vm_compute; reflexivity|].
  split; [vm_compute; reflexivity|].
  split; [vm_compute; congruence|].
  split; [vm_compute; reflexivity|].
  split; [vm_compute; reflexivity|].
  split; [vm_compute; repeat split; congruence|].
  split; [vm_compute; reflexivity|].
  split; [vm_compute; reflexivity|].
  split; [vm_compute; reflexivity|].
  split; [apply not_elem_of_dom; vm_compute; reflexivity|].
  split; [apply not_elem_of_dom; vm_compute; reflexivity|].
  split; [apply not_elem_of_dom; vm_compute; reflexivity|].
  split; [vm_compute; congruence|].
  split; [vm_compute; congruence|].
  split; [vm_compute; congruence|].
  split; [intros [H|H]; vm_compute in H; discriminate H|].
  intros H. vm_compute in H. discriminate H.
Qed.




(** After [writeFile('/a/f', 'hello')], [unlinkSync('/a/f')] returns; then
    [statSync('/a/f')] throws [ENOENT] and [/a] has no entry. *)
Lemma unlinkSync_of_hello :
  exists s',
    Example.unlinkSync 1003 "/a/f" Cred.Root Example.with_hello = (Ok tt, s')
    /\ (forall now',
          Example.statSync now' "/a/f" Cred.Root s' = (Err (ApiError ENOENT), s'))
    /\ (forall now',
          Example.readdirSync now' (Path.dirname "/a/f") Cred.Root s'
          = (Ok (map fst (map_to_list
                            (delete (Path.basename "/a/f")
                               ({[ "f"%string := Example.randomUUID 4 ]}
                                : gmap string string)))), s')).
Proof.
  apply (unlinkSync_then_the_file_is_gone Example.JSON_stringify Example.JSON_parse 1003
           "/a/f" {[ "f"%string := Example.randomUUID 4 ]} (JS.encode "hello") Cred.Root
           Example.with_hello).
  - exact with_hello_file_in.
  - left. reflexivity.
  - vm_compute. reflexivity.
Defined.

(** After [writeFile('/a/f', 'hello')], [renameSync('/a/f', '/a/g')]
    returns; then [statSync('/a/f')] throws [ENOENT] and [readFile('/a/g')]
    returns the bytes of [hello]. *)
Lemma renameSync_of_hello :
  exists s',
    Example.renameSync 1003 "/a/f" "/a/g" Cred.Root Example.with_hello = (Ok tt, s')
    /\ (forall now',
          Example.statSync now' "/a/f" Cred.Root s' = (Err (ApiError ENOENT), s'))
    /\ (forall nowR,
          Example.readFile nowR "/a/g" "r" Cred.Root s' = (Ok (JS.encode "hello"), s')).
Proof.
  apply (renameSync_moves_a_file Example.randomUUID Example.JSON_stringify
           Example.JSON_parse 1003 "/a/f" "/a/g" {[ "f"%string := Example.randomUUID 4 ]}
           (Example.randomUUID 4) (JS.encode "hello") Cred.Root Example.with_hello).
  - exact with_hello_file_in.
  - reflexivity.
  - reflexivity.
  - reflexivity.
  - apply (bool_decide_unpack _). vm_compute. reflexivity.
  - reflexivity.
  - intros [H|H]; vm_compute in H; discriminate H.
  - intros H. vm_compute in H. discriminate H.
  - left. reflexivity.
  - vm_compute. reflexivity.
Defined.

(** ** [resolveFS] and the mount table *)

Lemma elem_of_insert_mount (m x : string * nat) (l : list (string * nat)) :
  x ∈ Shared.insert_mount m l <-> x = m \/ x ∈ l.
Proof.
  induction l as [|y l IH]; cbn [Shared.insert_mount].
  - rewrite list_elem_of_singleton. split; [auto|]. intros [?|H]; [assumption|].
    apply elem_of_nil in H. contradiction.
  - destruct (_ <? _)%nat.
    + rewrite elem_of_cons. reflexivity.
    + rewrite !elem_of_cons, IH. tauto.
Qed.

Lemma elem_of_sortedMounts (x : string * nat) (l : list (string * nat)) :
  x ∈ Shared.sortedMounts l <-> x ∈ l.
Proof.
  induction l as [|y l IH]; cbn [Shared.sortedMounts fold_right]; [reflexivity|].
  fold (Shared.sortedMounts l). rewrite elem_of_insert_mount, elem_of_cons, IH. reflexivity.
Qed.

Lemma insert_mount_sorted (m : string * nat) (l : list (string * nat)) :
  Shared.longest_first l -> Shared.longest_first (Shared.insert_mount m l).
Proof.
  induction l as [|y l IH]; cbn [Shared.insert_mount Shared.longest_first].
  - intros _. split; [constructor | exact I].
  - intros [Hall Hs].
    destruct (Nat.ltb_spec (String.length (fst y)) (String.length (fst m))) as [Hlt|Hge];
      cbn [Shared.longest_first].
    + split; [|split; assumption].
      constructor; [lia|]. eapply Forall_impl; [exact Hall|]. cbv beta. intros z Hz. lia.
    + split; [|exact (IH Hs)].
      apply Forall_forall. intros z Hz. apply elem_of_insert_mount in Hz.
      destruct Hz as [->|Hz]; [exact Hge|].
      rewrite Forall_forall in Hall. apply Hall, Hz.
Qed.

Lemma sortedMounts_sorted (l : list (string * nat)) :
  Shared.longest_first (Shared.sortedMounts l).
Proof.
  induction l as [|y l IH]; cbn [Shared.sortedMounts fold_right]; [exact I|].
  apply insert_mount_sorted, IH.
Qed.

Lemma prefix_length (m p : string) :
  String.prefix m p = true -> (String.length m <= String.length p)%nat.
Proof.
  revert p. induction m as [|c m IH]; intros p H; cbn [String.length]; [lia|].
  destruct p as [|d p]; [discriminate H|]. cbn [String.prefix] in H.
  destruct (ascii_dec c d); [|discriminate H]. specialize (IH p H). cbn [String.length]. lia.
Qed.

Lemma find_mount_first (sorted : list (string * nat)) (p : string) :
  Shared.longest_first sorted ->
  match Shared.find_mount sorted p with
  | Some (f, p', m) =>
    (m, f) ∈ sorted /\ JS.startsWith p m = true
    /\ p' = (let rest := JS.slice_from
                           (if (1 <? String.length m)%nat then String.length m else 0%nat) p in
             if String.eqb rest "" then "/"%string else rest)
    /\ forall m' f', (m', f') ∈ sorted -> JS.startsWith p m' = true ->
                     (String.length m' <= String.length m)%nat
  | None => forall m' f', (m', f') ∈ sorted -> JS.startsWith p m' = false
  end.
Proof.
  induction sorted as [|[m f] l IH]; cbn [Shared.find_mount Shared.longest_first].
  - intros _ m' f' H. apply elem_of_nil in H. contradiction.
  - intros [Hall Hs]. specialize (IH Hs).
    destruct (JS.startsWith p m) eqn:Hpre.
    + assert (Hlen : (String.length m <=? String.length p)%nat = true)
        by (apply Nat.leb_le, prefix_length; exact Hpre).
      rewrite Hlen. cbn [andb]. split; [apply list_elem_of_here|]. split; [exact Hpre|].
      split; [reflexivity|].
      intros m' f' Hin _. apply elem_of_cons in Hin as [[= -> ->]|Hin]; [lia|].
      rewrite Forall_forall in Hall. exact (Hall _ Hin).
    + rewrite andb_false_r.
      destruct (Shared.find_mount l p) as [[[f0 p0] m0]|].
      * destruct IH as (H1 & H2 & H3 & H4). split; [apply list_elem_of_further, H1|].
        split; [exact H2|]. split; [exact H3|].
        intros m' f' Hin Hp. apply elem_of_cons in Hin as [[= -> ->]|Hin]; [congruence|].
        eapply H4; eassumption.
      * intros m' f' Hin. apply elem_of_cons in Hin as [[= -> ->]|Hin]; [exact Hpre|].
        eapply IH; eassumption.
Qed.

(** X16: [resolveFS(path)] answers with a mounted file system whose mount
    point is a prefix of [path], as a string, and no mount point that is a
    prefix of [path] is longer; the path it hands on is what follows the
    mount point, or [/] when nothing follows, and the whole of [path] for
    the mount point [/].  It throws [EIO] exactly when no mount point is a
    prefix of [path]. *)
Theorem resolveFS_takes_the_longest_mount_point (p : string) (v : Shared.VFS) :
  match Shared.resolveFS p v with
  | (Ok r, v') =>
    (Shared.mountPoint r, Shared.fs r) ∈ Shared.mounts v
    /\ JS.startsWith p (Shared.mountPoint r) = true
    /\ (forall m f, (m, f) ∈ Shared.mounts v -> JS.startsWith p m = true ->
          (String.length m <= String.length (Shared.mountPoint r))%nat)
    /\ Shared.path r
       = (let rest := JS.slice_from
                        (if (1 <? String.length (Shared.mountPoint r))%nat
                         then String.length (Shared.mountPoint r) else 0%nat) p in
          if String.eqb rest "" then "/"%string else rest)
    /\ Shared.mounts v' = Shared.mounts v
  | (Err e, v') =>
    e = ApiError EIO /\ v' = v
    /\ forall m f, (m, f) ∈ Shared.mounts v -> JS.startsWith p m = false
  end.
Proof.
  unfold Shared.resolveFS.
  pose proof (find_mount_first (Shared.sortedMounts (Shared.mounts v)) p
                (sortedMounts_sorted _)) as H.
  destruct (Shared.find_mount _ p) as [[[f p'] m]|].
  - destruct H as (H1 & H2 & H3 & H4). cbn [Shared.mountPoint Shared.fs Shared.path
      Shared.mounts].
    split; [apply elem_of_sortedMounts, H1|]. split; [exact H2|].
    split; [|split; [exact H3 | reflexivity]].
    intros m' f' Hin Hp. apply (H4 m' f'); [apply elem_of_sortedMounts, Hin | exact Hp].
  - split; [reflexivity|]. split; [reflexivity|].
    intros m' f' Hin. apply (H m' f'), elem_of_sortedMounts, Hin.
Qed.

(** ** Waiting for a path that is locked *)

Lemma lock_many_queues (n : nat) (path : string) (m : Mutex.Mutex) (ev : Mutex.EventLoop)
    (q : list nat) :
  Mutex._locks m !! path = Some q ->
  Mutex.lock_many n path m ev
  = (seq (Mutex.promises ev) n,
     Mutex.mkMutex (<[path := q ++ seq (Mutex.promises ev) n]> (Mutex._locks m)),
     Mutex.mkEventLoop (Mutex.promises ev + n) (Mutex.resolved ev) (Mutex.timers ev)).
Proof.
  revert m ev q. induction n as [|n IH]; intros m ev q Hq; cbn [Mutex.lock_many seq].
  - rewrite app_nil_r, Nat.add_0_r, insert_id by exact Hq. destruct m, ev; reflexivity.
  - unfold Mutex.lock. rewrite Hq.
    rewrite (IH _ _ (q ++ [Mutex.promises ev])) by apply lookup_insert_eq.
    cbn [Mutex._locks Mutex.promises Mutex.resolved Mutex.timers].
    rewrite insert_insert_eq, <- app_assoc. cbn [app].
    replace (S (Mutex.promises ev) + n)%nat with (Mutex.promises ev + S n)%nat by lia.
    reflexivity.
Qed.

Lemma unlock_many_schedules (k : nat) (path : string) (m : Mutex.Mutex)
    (ev : Mutex.EventLoop) (q : list nat) :
  Mutex._locks m !! path = Some q -> (k <= length q)%nat ->
  Mutex.unlock_many k path m ev
  = (repeat (Ok tt) k,
     Mutex.mkMutex (<[path := skipn k q]> (Mutex._locks m)),
     Mutex.mkEventLoop (Mutex.promises ev) (Mutex.resolved ev)
       (Mutex.timers ev ++ firstn k q)).
Proof.
  revert m ev q. induction k as [|k IH]; intros m ev q Hq Hk; cbn [Mutex.unlock_many repeat].
  - rewrite take_0, drop_0, app_nil_r, insert_id by exact Hq. destruct m, ev; reflexivity.
  - destruct q as [|next q]; [cbn [length] in Hk; lia|].
    unfold Mutex.unlock. rewrite Hq.
    rewrite (IH _ _ q) by (try apply lookup_insert_eq; cbn [length] in Hk; lia).
    cbn [Mutex._locks Mutex.promises Mutex.resolved Mutex.timers].
    rewrite insert_insert_eq, <- app_assoc. reflexivity.
Qed.

Lemma run_timers_resolves (ts rest : list nat) (n : nat) (rs : list nat) :
  Mutex.run_timers (length ts) (Mutex.mkEventLoop n rs (ts ++ rest))
  = Mutex.mkEventLoop n (rev ts ++ rs) rest.
Proof.
  revert rs. induction ts as [|t ts IH]; intros rs; cbn [Mutex.run_timers length app rev].
  - reflexivity.
  - unfold Mutex.run_timer at 1. cbn [Mutex.timers Mutex.promises Mutex.resolved].
    rewrite IH, <- app_assoc. reflexivity.
Qed.

(** X17: callers that wait for a locked path get the lock in the order of
    their calls.  When [n] calls of [lock(path)] on a locked path are
    followed by [k] calls of [unlock(path)], each [unlock] returns and
    hands the lock to the oldest waiter: the promises of the first [k]
    waiters are resolved, in the order of the calls, once the timers have
    fired, the others are still queued, and the path stays locked. *)
Theorem waiters_get_the_lock_in_turn
    (n k : nat) (path : string) (m : Mutex.Mutex) (ev : Mutex.EventLoop) :
  Mutex._locks m !! path = Some [] -> Mutex.timers ev = [] -> (k <= n)%nat ->
  let '(prs, m1, ev1) := Mutex.lock_many n path m ev in
  let '(rs, m2, ev2) := Mutex.unlock_many k path m1 ev1 in
  prs = seq (Mutex.promises ev) n
  /\ rs = repeat (Ok tt) k
  /\ Mutex.timers ev2 = firstn k prs
  /\ Mutex.resolved (Mutex.run_timers k ev2) = rev (firstn k prs) ++ Mutex.resolved ev
  /\ Mutex._locks m2 !! path = Some (skipn k prs)
  /\ Mutex.isLocked path m2 = true.
Proof.
  intros Hheld Htimers Hk.
  rewrite (lock_many_queues n path m ev []) by exact Hheld. cbn [app].
  rewrite (unlock_many_schedules k path _ _ (seq (Mutex.promises ev) n))
    by (try apply lookup_insert_eq; rewrite length_seq; exact Hk).
  cbn [Mutex._locks Mutex.promises Mutex.resolved Mutex.timers].
  rewrite Htimers. cbn [app].
  split; [reflexivity|]. split; [reflexivity|]. split; [reflexivity|].
  split; [|split].
  - pose proof (run_timers_resolves (firstn k (seq (Mutex.promises ev) n)) []
                  (Mutex.promises ev + n) (Mutex.resolved ev)) as H.
    rewrite app_nil_r, length_take, length_seq, Nat.min_l in H by exact Hk.
    rewrite H. reflexivity.
  - rewrite insert_insert_eq. apply lookup_insert_eq.
  - unfold Mutex.isLocked. cbn [Mutex._locks]. rewrite insert_insert_eq, lookup_insert_eq.
    apply bool_decide_eq_true. eauto.
Qed.

(** Three callers wait for [/x]; two calls of [unlock] wake the first two,
    in their order. *)
Lemma three_waiters_two_unlocks :
  let m := snd (Mutex.tryLock "/x" Mutex.new_Mutex) in
  let '(prs, m1, ev1) := Mutex.lock_many 3 "/x" m Example.fresh_loop in
  let '(rs, m2, ev2) := Mutex.unlock_many 2 "/x" m1 ev1 in
  prs = seq (Mutex.promises Example.fresh_loop) 3
  /\ rs = repeat (Ok tt) 2
  /\ Mutex.timers ev2 = firstn 2 prs
  /\ Mutex.resolved (Mutex.run_timers 2 ev2)
     = rev (firstn 2 prs) ++ Mutex.resolved Example.fresh_loop
  /\ Mutex._locks m2 !! "/x"%string = Some (skipn 2 prs)
  /\ Mutex.isLocked "/x" m2 = true.
Proof.
  intros m.
  apply (waiters_get_the_lock_in_turn 3 2 "/x" m Example.fresh_loop).
  - reflexivity.
  - reflexivity.
  - lia.
Defined.

(** ** The deletion log of the overlay *)

Lemma append_cons (c : ascii) (a b : string) : (String c a +:+ b = String c (a +:+ b))%string.
Proof. reflexivity. Qed.

Lemma append_nil_l (b : string) : ("" +:+ b = b)%string.
Proof. reflexivity. Qed.

Lemma append_nil_r (a : string) : (a +:+ "" = a)%string.
Proof. induction a as [|x a IH]; [reflexivity|]. rewrite append_cons, IH. reflexivity. Qed.

Lemma string_append_assoc (a b c : string) : ((a +:+ b) +:+ c = a +:+ (b +:+ c))%string.
Proof.
  induction a as [|x a IH]; [reflexivity|]. rewrite !append_cons, IH. reflexivity.
Qed.

Lemma list_ascii_of_append (a b : string) :
  list_ascii_of_string (a +:+ b) = list_ascii_of_string a ++ list_ascii_of_string b.
Proof.
  induction a as [|c a IH]; [reflexivity|].
  rewrite append_cons. cbn [list_ascii_of_string app]. rewrite IH. reflexivity.
Qed.

Lemma includes_false (c : ascii) (s : string) :
  JS.includes c s = false -> Forall (fun a => Ascii.eqb a c = false) (list_ascii_of_string s).
Proof.
  induction s as [|a s IH]; cbn; [constructor|].
  destruct (Ascii.eqb a c) eqn:E; [discriminate|]. intros H. constructor; auto.
Qed.

(** A run of characters without a line feed stays in the current line. *)
Lemma split_lines_run (cur run rest : list ascii) :
  Forall (fun a => Ascii.eqb a "010" = false) run ->
  OverlayFS.split_lines cur (run ++ rest) = OverlayFS.split_lines (rev run ++ cur) rest.
Proof.
  revert cur. induction run as [|a run IH]; intros cur H; [reflexivity|].
  inversion H as [|? ? Ha Hrun]; subst. cbn [app OverlayFS.split_lines]. rewrite Ha.
  rewrite IH by exact Hrun. cbn [rev]. rewrite <- app_assoc. reflexivity.
Qed.

(** The text that [deletePath] adds for the paths [ps], one after the
    other, splits into one line for each path and an empty last line. *)
Lemma split_lines_entries (ps : list string) :
  Forall (fun p => JS.includes "010" p = false) ps ->
  OverlayFS.split_lines []
    (list_ascii_of_string
       (fold_right (fun p acc => String "d" (p +:+ String "010" "") +:+ acc)%string
          ""%string ps))
  = map (fun p => String "d" p) ps ++ [""%string].
Proof.
  induction 1 as [|p ps Hp Hps IH]; cbn [fold_right map app]; [reflexivity|].
  rewrite append_cons. cbn [list_ascii_of_string OverlayFS.split_lines].
  change (Ascii.eqb "d" "010") with false. cbv iota.
  rewrite string_append_assoc, list_ascii_of_append.
  rewrite split_lines_run by (apply includes_false; exact Hp).
  rewrite append_cons, append_nil_l. cbn [list_ascii_of_string OverlayFS.split_lines].
  change (Ascii.eqb "010" "010") with true. cbv iota.
  rewrite IH. f_equal.
  rewrite rev_app_distr, rev_involutive. cbn [rev app string_of_list_ascii].
  rewrite string_of_list_ascii_of_string. reflexivity.
Qed.

Lemma slice_from_1 (c : ascii) (p : string) : JS.slice_from 1 (String c p) = p.
Proof.
  unfold JS.slice_from. cbn [String.length Nat.sub String.substring].
  rewrite Nat.sub_0_r. apply substring_all.
Qed.

Lemma substring_0_1 (c : ascii) (p : string) :
  String.substring 0 1 (String c p) = String c "".
Proof. cbn [String.substring]. destruct p; reflexivity. Qed.

(** Reading the object after an assignment. *)
Lemma lookup_set_flag (key : string) (v : bool) (m : gmap string bool) (q : string) :
  OverlayFS.set_flag key v m !! q
  = if String.eqb q key && negb (String.eqb q "__proto__") then Some v else m !! q.
Proof.
  unfold OverlayFS.set_flag.
  destruct (String.eqb_spec q key) as [->|Hne]; cbn [andb].
  - destruct (String.eqb key "__proto__"); cbn [negb]; [reflexivity|].
    apply lookup_insert_eq.
  - destruct (String.eqb key "__proto__"); [reflexivity|].
    apply lookup_insert_ne. congruence.
Qed.

(** The paths of [ps] that an overlay holds as deleted: all but
    [__proto__]. *)
Lemma held_cons (q p : string) (ps : list string) :
  bool_decide (q ∈ p :: ps) && negb (String.eqb q "__proto__")
  = (String.eqb q p && negb (String.eqb q "__proto__"))
    || (bool_decide (q ∈ ps) && negb (String.eqb q "__proto__")).
Proof.
  destruct (String.eqb_spec q p) as [->|Hne]; cbn [andb orb].
  - rewrite bool_decide_eq_true_2 by apply list_elem_of_here.
    destruct (negb _), (bool_decide _); reflexivity.
  - f_equal. apply bool_decide_ext. rewrite elem_of_cons. tauto.
Qed.

(** What [_reparseDeletionLog] makes of the lines of the paths [ps]. *)
Lemma reparse_entries (ps : list string) (m : gmap string bool) (q : string) :
  fold_left (fun (m : gmap string bool) (path : string) =>
               OverlayFS.set_flag (JS.slice_from 1 path)
                 (String.eqb (String.substring 0 1 path) "d") m)
    (map (fun p => String "d" p) ps) m !! q
  = if bool_decide (q ∈ ps) && negb (String.eqb q "__proto__") then Some true
    else m !! q.
Proof.
  revert m. induction ps as [|p ps IH]; intros m; cbn [map fold_left].
  - rewrite bool_decide_eq_false_2 by apply not_elem_of_nil. reflexivity.
  - rewrite IH, slice_from_1, substring_0_1. change (String.eqb (String "d" "") "d") with true.
    rewrite held_cons, lookup_set_flag.
    destruct (bool_decide (q ∈ ps) && negb (String.eqb q "__proto__"));
      [rewrite orb_true_r; reflexivity|].
    rewrite orb_false_r. reflexivity.
Qed.

(** The overlay after [deletePath] on the paths [ps], one after the
    other. *)
Lemma deletePath_many (ps : list string) (l : OverlayFS.Logger) :
  let l' := fold_left (fun l p => OverlayFS.deletePath p l) ps l in
  OverlayFS._deleteLog (OverlayFS.overlay l')
  = (OverlayFS._deleteLog (OverlayFS.overlay l)
     +:+ fold_right (fun p acc => String "d" (p +:+ String "010" "") +:+ acc) "" ps)%string
  /\ OverlayFS._deletedFiles (OverlayFS.overlay l')
     = fold_left (fun (m : gmap string bool) p => OverlayFS.set_flag p true m) ps
         (OverlayFS._deletedFiles (OverlayFS.overlay l)).
Proof.
  revert l. induction ps as [|p ps IH]; intros l; cbn [fold_left fold_right].
  - split; [|reflexivity]. symmetry. apply append_nil_r.
  - destruct (IH (OverlayFS.deletePath p l)) as [H1 H2]. cbv zeta in H1, H2.
    rewrite H1, H2. unfold OverlayFS.deletePath, OverlayFS.updateLog. cbv zeta.
    cbn [OverlayFS.overlay OverlayFS._deleteLog OverlayFS._deletedFiles
         OverlayFS._deleteLogUpdatePending].
    destruct (OverlayFS._deleteLogUpdatePending l);
      cbn [OverlayFS.overlay OverlayFS._deleteLog OverlayFS._deletedFiles];
      rewrite string_append_assoc; auto.
Qed.

Lemma deleted_many (ps : list string) (m : gmap string bool) (q : string) :
  fold_left (fun (m : gmap string bool) p => OverlayFS.set_flag p true m) ps m !! q
  = if bool_decide (q ∈ ps) && negb (String.eqb q "__proto__") then Some true
    else m !! q.
Proof.
  revert m. induction ps as [|p ps IH]; intros m; cbn [fold_left].
  - rewrite bool_decide_eq_false_2 by apply not_elem_of_nil. reflexivity.
  - rewrite IH, held_cons, lookup_set_flag.
    destruct (bool_decide (q ∈ ps) && negb (String.eqb q "__proto__"));
      [rewrite orb_true_r; reflexivity|].
    rewrite orb_false_r. reflexivity.
Qed.

(** What an overlay finds deleted when it starts from the text that
    [deletePath] has added for the paths [ps]. *)
Lemma restarted_from_entries (ps : list string) (q : string) :
  Forall (fun p => JS.includes "010" p = false) ps -> q <> ""%string ->
  OverlayFS._deletedFiles
    (OverlayFS.restarted_from
       (fold_right (fun p acc => String "d" (p +:+ String "010" "") +:+ acc)%string
          ""%string ps)) !! q
  = if bool_decide (q ∈ ps) && negb (String.eqb q "__proto__") then Some true
    else None.
Proof.
  intros Hps Hq. unfold OverlayFS.restarted_from, OverlayFS._reparseDeletionLog.
  cbv zeta. cbn [OverlayFS._deletedFiles OverlayFS._deleteLog].
  rewrite (split_lines_entries ps Hps), fold_left_app. cbn [fold_left].
  change (JS.slice_from 1 "") with ""%string.
  rewrite lookup_set_flag.
  destruct (String.eqb_spec q "") as [?|_]; [contradiction|]. cbn [andb].
  rewrite reparse_entries, lookup_empty. reflexivity.
Qed.

Lemma held_spec (q : string) (ps : list string) :
  bool_decide (q ∈ ps) && negb (String.eqb q "__proto__") = true
  <-> q ∈ ps /\ q <> "__proto__"%string.
Proof.
  rewrite andb_true_iff, bool_decide_eq_true, negb_true_iff.
  destruct (String.eqb_spec q "__proto__"); split; intros [H1 H2]; split;
    congruence || assumption.
Qed.

(** X18: the deletion log keeps the deletions of the overlay.  After
    [deletePath] on paths without a line feed, one after the other, on a
    new overlay, an overlay that starts from the text of the log finds
    deleted exactly the paths that the first one holds as deleted: the
    paths of the calls, but for [__proto__], which is no own property of
    the object [_deletedFiles] after the assignment and which neither
    overlay holds as deleted. *)
Theorem deletion_log_keeps_the_deletions (ps : list string) (q : string) :
  Forall (fun p => JS.includes "010" p = false) ps -> q <> ""%string ->
  let l := fold_left (fun l p => OverlayFS.deletePath p l) ps OverlayFS.new_Logger in
  let o' := OverlayFS.restarted_from (OverlayFS._deleteLog (OverlayFS.overlay l)) in
  (OverlayFS._deletedFiles (OverlayFS.overlay l) !! q = Some true
   <-> q ∈ ps /\ q <> "__proto__"%string)
  /\ (OverlayFS._deletedFiles o' !! q = Some true
      <-> q ∈ ps /\ q <> "__proto__"%string).
Proof.
  intros Hps Hq l o'. subst o' l.
  destruct (deletePath_many ps OverlayFS.new_Logger) as [Hlog Hdel]. cbv zeta in Hlog, Hdel.
  rewrite Hlog, Hdel. cbn [OverlayFS.new_Logger OverlayFS.overlay OverlayFS.new_Overlay
    OverlayFS._deleteLog OverlayFS._deletedFiles]. rewrite append_nil_l.
  rewrite deleted_many, (restarted_from_entries ps q Hps Hq), lookup_empty.
  rewrite <- held_spec.
  destruct (bool_decide (q ∈ ps) && negb (String.eqb q "__proto__")).
  - tauto.
  - split; split; intros H; discriminate H.
Qed.

Lemma deletion_log_of_two_paths :
  let ps := ["/z/a.txt"; "/z/b.txt"]%string in
  let l := fold_left (fun l p => OverlayFS.deletePath p l) ps OverlayFS.new_Logger in
  let o' := OverlayFS.restarted_from (OverlayFS._deleteLog (OverlayFS.overlay l)) in
  (OverlayFS._deletedFiles (OverlayFS.overlay l) !! "/z/b.txt"%string = Some true
   <-> "/z/b.txt"%string ∈ ps /\ "/z/b.txt"%string <> "__proto__"%string)
  /\ (OverlayFS._deletedFiles o' !! "/z/b.txt"%string = Some true
      <-> "/z/b.txt"%string ∈ ps /\ "/z/b.txt"%string <> "__proto__"%string).
Proof.
  intros ps.
  apply (deletion_log_keeps_the_deletions ps "/z/b.txt").
  - repeat constructor.
  - discriminate.
Defined.

Lemma deletePath_idle (p : string) (l : OverlayFS.Logger) :
  OverlayFS._deleteLogUpdatePending l = false ->
  OverlayFS.deletePath p l
  = OverlayFS.mkLogger
      (OverlayFS.mkOverlay (OverlayFS._isInitialized (OverlayFS.overlay l))
         (OverlayFS.set_flag p true (OverlayFS._deletedFiles (OverlayFS.overlay l)))
         (OverlayFS._deleteLog (OverlayFS.overlay l) +:+ String "d" (p +:+ String "010" ""))
         (OverlayFS._deleteLogError (OverlayFS.overlay l)))
      true (OverlayFS._deleteLogUpdateNeeded l)
      (OverlayFS.written l
       ++ [(OverlayFS._deleteLog (OverlayFS.overlay l)
            +:+ String "d" (p +:+ String "010" ""))%string]).
Proof.
  intros H. unfold OverlayFS.deletePath, OverlayFS.updateLog. cbv zeta.
  cbn [OverlayFS.overlay OverlayFS._deleteLog OverlayFS._deletedFiles
    OverlayFS._deleteLogUpdatePending OverlayFS._deleteLogUpdateNeeded OverlayFS.written
    OverlayFS._isInitialized OverlayFS._deleteLogError].
  rewrite H. reflexivity.
Qed.

Lemma deletePath_pending (p : string) (l : OverlayFS.Logger) :
  OverlayFS._deleteLogUpdatePending l = true ->
  OverlayFS.deletePath p l
  = OverlayFS.mkLogger
      (OverlayFS.mkOverlay (OverlayFS._isInitialized (OverlayFS.overlay l))
         (OverlayFS.set_flag p true (OverlayFS._deletedFiles (OverlayFS.overlay l)))
         (OverlayFS._deleteLog (OverlayFS.overlay l) +:+ String "d" (p +:+ String "010" ""))
         (OverlayFS._deleteLogError (OverlayFS.overlay l)))
      true true (OverlayFS.written l).
Proof.
  intros H. unfold OverlayFS.deletePath, OverlayFS.updateLog. cbv zeta.
  cbn [OverlayFS.overlay OverlayFS._deleteLog OverlayFS._deletedFiles
    OverlayFS._deleteLogUpdatePending OverlayFS._deleteLogUpdateNeeded OverlayFS.written
    OverlayFS._isInitialized OverlayFS._deleteLogError].
  rewrite H. reflexivity.
Qed.

(** X19: a deletion that comes while a write of the log is on its way is
    not written when that write settles.  [deletePath(p)] starts a write of
    the log; [deletePath(q)] finds it pending and asks for another one; when
    the first write settles, resolved or rejected, the callback of [then]
    calls [updateLog] while the pending flag is still set, so that no write
    is started, and the callback of [finally] clears the flag.  No write is
    then on its way and another one is still asked for; the overlay holds
    [q] as deleted, when [q] is not [__proto__], and its log has the line
    of [q], and the last text written is the log without that line. *)
Theorem deletion_during_a_write_is_not_written
    (l : OverlayFS.Logger) (p q : string) (outcome : result unit) :
  OverlayFS._deleteLogUpdatePending l = false ->
  let log1 := (OverlayFS._deleteLog (OverlayFS.overlay l)
               +:+ String "d" (p +:+ String "010" ""))%string in
  let l' := OverlayFS.settle outcome (OverlayFS.deletePath q (OverlayFS.deletePath p l)) in
  OverlayFS.written l' = OverlayFS.written l ++ [log1]
  /\ OverlayFS._deleteLogUpdatePending l' = false
  /\ OverlayFS._deleteLogUpdateNeeded l' = true
  /\ OverlayFS._deleteLog (OverlayFS.overlay l')
     = (log1 +:+ String "d" (q +:+ String "010" ""))%string
  /\ (q <> "__proto__"%string ->
      OverlayFS._deletedFiles (OverlayFS.overlay l') !! q = Some true).
Proof.
  intros Hidle log1 l'. subst l' log1.
  rewrite (deletePath_idle p l Hidle), deletePath_pending by reflexivity.
  unfold OverlayFS.settle, OverlayFS.updateLog. cbv zeta.
  destruct outcome as [[]|e];
    cbn [OverlayFS.overlay OverlayFS._deleteLog OverlayFS._deletedFiles
      OverlayFS._deleteLogUpdatePending OverlayFS._deleteLogUpdateNeeded OverlayFS.written
      OverlayFS._isInitialized OverlayFS._deleteLogError].
  - split; [reflexivity|]. split; [reflexivity|]. split; [reflexivity|].
    split; [apply append_nil_r|].
    intros Hq. rewrite lookup_set_flag, String.eqb_refl.
    destruct (String.eqb_spec q "__proto__"); [contradiction | reflexivity].
  - split; [reflexivity|]. split; [reflexivity|]. split; [reflexivity|].
    split; [reflexivity|].
    intros Hq. rewrite lookup_set_flag, String.eqb_refl.
    destruct (String.eqb_spec q "__proto__"); [contradiction | reflexivity].
Qed.

(** On a new overlay, [/z/b.txt] is deleted while the log with the
    deletion of [/z/a.txt] is written: the write settles, nothing else is
    written, and an overlay that starts from the written text does not
    find [/z/b.txt] deleted. *)
Lemma deletion_of_b_is_not_written :
  let l' :=
    OverlayFS.settle (Ok tt)
      (OverlayFS.deletePath "/z/b.txt" (OverlayFS.deletePath "/z/a.txt" OverlayFS.new_Logger)) in
  (OverlayFS.written l'
   = OverlayFS.written OverlayFS.new_Logger
     ++ [(OverlayFS._deleteLog (OverlayFS.overlay OverlayFS.new_Logger)
          +:+ String "d" ("/z/a.txt" +:+ String "010" ""))%string]
   /\ OverlayFS._deleteLogUpdatePending l' = false
   /\ OverlayFS._deleteLogUpdateNeeded l' = true
   /\ OverlayFS._deleteLog (OverlayFS.overlay l')
      = ((OverlayFS._deleteLog (OverlayFS.overlay OverlayFS.new_Logger)
          +:+ String "d" ("/z/a.txt" +:+ String "010" ""))
         +:+ String "d" ("/z/b.txt" +:+ String "010" ""))%string
   /\ OverlayFS._deletedFiles (OverlayFS.overlay l') !! "/z/b.txt"%string = Some true)
  /\ OverlayFS._deletedFiles
       (OverlayFS.restarted_from (default ""%string (last (OverlayFS.written l'))))
       !! "/z/b.txt"%string = None.
Proof.
  intros l'.
  destruct (deletion_during_a_write_is_not_written OverlayFS.new_Logger "/z/a.txt"
              "/z/b.txt" (Ok tt) eq_refl) as (H1 & H2 & H3 & H4 & H5).
  split.
  - split; [exact H1|]. split; [exact H2|]. split; [exact H3|]. split; [exact H4|].
    apply H5. discriminate.
  - vm_compute. reflexivity.
Defined.

(** ** [rmdirSync] *)

(** X20: on the key-value file system, [rmdirSync(p)] never removes a
    directory that has an entry: it throws [ENOTEMPTY] and leaves the file
    system as it is.  On a directory without entries it returns;
    afterwards [statSync(p)] throws [ENOENT] and [readdirSync] of the
    directory of [p] lists the other entries. *)
Theorem rmdirSync_removes_empty_directories_only
    (JSON_stringify : gmap string string -> string)
    (JSON_parse : string -> option (gmap string string))
    (now : Z) (p : string) (listing entries : gmap string string)
    (cred : Cred.Cred) (s : SyncStore.KV) :
  let rest := delete (Path.basename p) listing in
  SyncStore.dir_in JSON_parse s p listing entries ->
  Cred.euid cred = 0 \/ Cred.egid cred = 0 ->
  JSON_parse (JSON_stringify rest) = Some rest ->
  if bool_decide (entries = ∅) then
    exists s',
      SyncStore.rmdirSync JSON_stringify JSON_parse now p cred s = (Ok tt, s')
      /\ (forall now',
            SyncStore.statSync JSON_parse now' p cred s' = (Err (ApiError ENOENT), s'))
      /\ (forall now',
            SyncStore.readdirSync JSON_parse now' (Path.dirname p) cred s'
            = (Ok (map fst (map_to_list rest)), s'))
  else
    SyncStore.rmdirSync JSON_stringify JSON_parse now p cred s
    = (Err (ApiError ENOTEMPTY), s).
Proof.
  intros rest (parentNode & tx1 & tx2 & fid & bytes & dirNode & Hparent & Hlisting & Hentry
               & Hfid & Hbytes & Hnode & Hisdir & Hentries & Hr1 & Hr2 & Hr3
               & Hne1 & Hne3 & Hgo & Hname) Hroot HJ.
  destruct (getDirListing_inv JSON_parse _ _ _ _ _ Hlisting) as (Hdir & data & Hd & Hp).
  destruct (store_after_lookup JSON_parse p s parentNode listing tx1 tx2 Hparent Hlisting)
    as [Hs1 _].
  rewrite Hs1 in Hd.
  assert (Hholds : SyncStore.holds_listing JSON_parse s (Inode.id parentNode) listing)
    by (exists data; auto).
  assert (Hfind : SyncStore.runs (SyncStore.findINode JSON_parse p) s dirNode s).
  { apply (runs_findINode JSON_parse p s parentNode tx1 Hparent Hgo Hname Hdir s
             listing fid bytes dirNode); try assumption.
    intros k _. reflexivity. }
  assert (Hread : SyncStore.readdirSync JSON_parse now p cred s
                  = (Ok (map fst (map_to_list entries)), s)).
  { unfold SyncStore.readdirSync. apply runs_transaction.
    eapply runs_bind; [exact Hfind|].
    rewrite hasAccess_of_root by exact Hroot. cbn [negb].
    eapply runs_bind; [apply runs_getDirListing; eassumption|]. apply runs_ret. }
  unfold SyncStore.rmdirSync. rewrite Hread.
  destruct (decide (entries = ∅)) as [->|Hsome].
  - rewrite bool_decide_eq_true_2 by reflexivity. rewrite map_to_list_empty.
    cbn [map length Nat.ltb Nat.leb].
    set (s' := SyncStore.mkKV
                 (<[Inode.id parentNode := JS.encode (JSON_stringify rest)]>
                    (delete fid (delete (Inode.id dirNode) (SyncStore.kv_store s))))
                 (SyncStore.kv_drawn s)).
    assert (Hsame : SyncStore.agree_on (dom (SyncStore.originalData tx1)) s s').
    { intros k Hk. subst s'. cbn [SyncStore.kv_store].
      rewrite lookup_insert_ne by (intros <-; contradiction).
      rewrite !lookup_delete_ne by (intros <-; contradiction). reflexivity. }
    assert (Hholds' : SyncStore.holds_listing JSON_parse s' (Inode.id parentNode) rest).
    { exists (JS.encode (JSON_stringify rest)). split.
      - subst s'. cbn [SyncStore.kv_store]. apply lookup_insert_eq.
      - rewrite decode_encode. exact HJ. }
    exists s'. split; [|split].
    + apply runs_transaction. unfold SyncStore.removeEntry_tx. cbv zeta.
      eapply runs_bind;
        [apply (runs_findINode_parent JSON_parse p s parentNode tx1 Hparent); intros k _;
         reflexivity|].
      eapply runs_bind; [apply runs_getDirListing; eassumption|].
      unfold SyncStore.get_property. rewrite Hentry. cbn [SyncStore.truthy_value].
      destruct (String.eqb_spec fid "") as [?|_]; [contradiction|]. cbn [negb].
      eapply runs_bind; [eapply runs_getINode; eassumption|].
      rewrite hasAccess_of_root by exact Hroot. rewrite Hisdir. cbn [negb andb].
      apply runs_try_abort.
      eapply runs_bind; [apply runs_tx_del|].
      eapply runs_bind; [apply runs_tx_del|].
      eapply runs_bind; [apply runs_tx_put|]. apply runs_ret.
    + intros now'. unfold SyncStore.statSync. apply throws_transaction, throws_bind.
      apply (throws_findINode JSON_parse p s parentNode tx1 Hparent Hgo Hname Hdir s' rest);
        [exact Hsame | exact Hholds' | apply lookup_delete_eq].
    + intros now'. unfold SyncStore.readdirSync. apply runs_transaction.
      eapply runs_bind;
        [apply (runs_findINode_parent JSON_parse p s parentNode tx1 Hparent); exact Hsame|].
      rewrite hasAccess_of_root by exact Hroot. cbn [negb].
      eapply runs_bind; [apply runs_getDirListing; eassumption|]. apply runs_ret.
  - rewrite bool_decide_eq_false_2 by exact Hsome.
    destruct (map_to_list entries) as [|x l] eqn:E.
    + apply map_to_list_empty_iff in E. contradiction.
    + reflexivity.
Qed.

(** After [mkdir('/a')] and [writeFile('/a/f', 'hello')], [rmdirSync('/a')]
    throws [ENOTEMPTY]. *)
Lemma rmdirSync_of_a_directory_with_a_file :
  SyncStore.rmdirSync Example.JSON_stringify Example.JSON_parse 1003 "/a" Cred.Root
    Example.with_hello
  = (Err (ApiError ENOTEMPTY), Example.with_hello).
Proof.
  assert (H := rmdirSync_removes_empty_directories_only Example.JSON_stringify
                 Example.JSON_parse 1003 "/a" {[ "a"%string := Example.randomUUID 2 ]}
                 {[ "f"%string := Example.randomUUID 4 ]} Cred.Root Example.with_hello).
  cbv zeta in H. rewrite bool_decide_eq_false_2 in H.
  - apply H.
    + unfold SyncStore.dir_in.
      let r := eval vm_compute in
            (SyncStore.findINode Example.JSON_parse (Path.dirname "/a")
               (SyncStore.begin Example.with_hello)) in
      match r with
      | (Ok ?parentNode, ?tx1) =>
        let r2 := eval vm_compute in
              (SyncStore.getDirListing Example.JSON_parse (Path.dirname "/a") parentNode tx1) in
        match r2 with
        | (Ok ?listing, ?tx2) =>
          exists parentNode, tx1, tx2;
          let r3 := eval vm_compute in (listing !! Path.basename "/a") in
          match r3 with
          | Some ?fid =>
            exists fid;
            let r4 := eval vm_compute in (SyncStore.kv_store Example.with_hello !! fid) in
            match r4 with
            | Some ?bytes =>
              exists bytes;
              let r5 := eval vm_compute in (Inode.Deserialize bytes) in
              match r5 with
              | Ok ?dirNode => exists dirNode
              end
            end
          end
        end
      end.
      split; [vm_compute; reflexivity|].
      split; [vm_compute; reflexivity|].
      split; [vm_compute; reflexivity|].
      split; [vm_compute; congruence|].
      split; [vm_compute; reflexivity|].
      split; [vm_compute; reflexivity|].
      split; [vm_compute; reflexivity|].
      split.
      { eexists. split; [vm_compute; reflexivity|]. vm_compute. reflexivity. }
      split; [apply not_elem_of_dom; vm_compute; reflexivity|].
      split; [apply not_elem_of_dom; vm_compute; reflexivity|].
      split; [apply not_elem_of_dom; vm_compute; reflexivity|].
      split; [vm_compute; congruence|].
      split; [vm_compute; congruence|].
      split; [intros [H'|H']; vm_compute in H'; discriminate H'|].
      intros _ H'. vm_compute in H'. discriminate H'.
    + left. reflexivity.
    + vm_compute. reflexivity.
  - intros E. apply (f_equal (fun m : gmap string string => m !! "f"%string)) in E.
    vm_compute in E. discriminate E.
Defined.

(** ** [makeRootDirectory] *)




(** ** The mount table *)

Lemma mounts_has_spec (m : string) (v : Shared.VFS) :
  Shared.mounts_has m v = true <-> In m (map fst (Shared.mounts v)).
Proof.
  unfold Shared.mounts_has. rewrite existsb_exists. split.
  - intros (x & Hin & Hx). apply String.eqb_eq in Hx. subst x. exact Hin.
  - intros Hin. exists m. split; [exact Hin | apply String.eqb_refl].
Qed.

Lemma filter_keeps_distinct (P : string * nat -> bool) (l : list (string * nat)) :
  NoDup (map fst l) -> NoDup (map fst (List.filter P l)).
Proof.
  induction l as [|x l IH]; intros Hnd; [exact Hnd|].
  cbn [map] in Hnd. apply NoDup_cons in Hnd as [Hx Hnd].
  cbn [List.filter]. destruct (P x); [|exact (IH Hnd)].
  cbn [map]. apply NoDup_cons. split; [|exact (IH Hnd)].
  intros Hin. apply Hx. apply list_elem_of_In in Hin. apply list_elem_of_In.
  apply in_map_iff in Hin as (y & Hy & Hin). apply filter_In in Hin as [Hin _].
  apply in_map_iff. exists y. auto.
Qed.

Lemma mount_keeps_distinct (mountPoint : string) (fs : nat) (v : Shared.VFS) :
  NoDup (map fst (Shared.mounts v)) ->
  NoDup (map fst (Shared.mounts (snd (Shared.mount mountPoint fs v)))).
Proof.
  intros Hnd. unfold Shared.mount. cbv zeta.
  destruct (Shared.mounts_has _ v) eqn:E; [exact Hnd|].
  cbn [snd Shared.mounts]. rewrite map_app. apply NoDup_app.
  split; [exact Hnd|]. split; [|cbn; apply NoDup_singleton].
  intros x Hx Hin. cbn [map fst] in Hin. apply list_elem_of_singleton in Hin. subst x.
  apply list_elem_of_In, mounts_has_spec in Hx. congruence.
Qed.

Lemma umount_keeps_distinct (mountPoint : string) (v : Shared.VFS) :
  NoDup (map fst (Shared.mounts v)) ->
  NoDup (map fst (Shared.mounts (snd (Shared.umount mountPoint v)))).
Proof.
  intros Hnd. unfold Shared.umount. cbv zeta.
  destruct (negb _); [exact Hnd|].
  cbn [snd Shared.mounts]. apply filter_keeps_distinct, Hnd.
Qed.

Lemma run_mount_calls_distinct (cs : list Shared.mount_call) (v : Shared.VFS) :
  NoDup (map fst (Shared.mounts v)) ->
  NoDup (map fst (Shared.mounts (Shared.run_mount_calls cs v))).
Proof.
  revert v. induction cs as [|c cs IH]; intros v Hnd; [exact Hnd|].
  unfold Shared.run_mount_calls. cbn [fold_left]. apply IH.
  destruct c as [m f|m]; [apply mount_keeps_distinct | apply umount_keeps_distinct];
    exact Hnd.
Qed.

(** Two prefixes of a string that are as long as each other are the same
    string. *)
Lemma prefixes_of_equal_length (m1 m2 p : string) :
  String.prefix m1 p = true -> String.prefix m2 p = true ->
  String.length m1 = String.length m2 -> m1 = m2.
Proof.
  revert m2 p. induction m1 as [|c1 m1 IH]; intros [|c2 m2] p H1 H2 Hlen;
    try discriminate Hlen; [reflexivity|].
  destruct p as [|c p]; [discriminate H1|].
  cbn [String.prefix] in H1, H2.
  destruct (Ascii.ascii_dec c1 c) as [->|]; [|discriminate H1].
  destruct (Ascii.ascii_dec c2 c) as [->|]; [|discriminate H2].
  f_equal. apply (IH m2 p H1 H2). cbn [String.length] in Hlen. lia.
Qed.

Lemma distinct_entry (l : list (string * nat)) (m : string) (f1 f2 : nat) :
  NoDup (map fst l) -> (m, f1) ∈ l -> (m, f2) ∈ l -> f1 = f2.
Proof.
  induction l as [|x l IH]; intros Hnd H1 H2; [inversion H1|].
  cbn [map] in Hnd. apply NoDup_cons in Hnd as [Hx Hnd].
  assert (Hin : forall f, (m, f) ∈ l -> m ∈ map fst l).
  { intros f Hf. apply list_elem_of_In, in_map_iff. exists (m, f).
    split; [reflexivity | apply list_elem_of_In, Hf]. }
  apply elem_of_cons in H1 as [E1|H1], H2 as [E2|H2].
  - congruence.
  - subst x. destruct Hx. apply (Hin f2 H2).
  - subst x. destruct Hx. apply (Hin f1 H1).
  - exact (IH Hnd H1 H2).
Qed.

(** X22: whatever calls of [mount] and [umount] have been made on an empty
    mount table, and whether they have returned or thrown, no two entries
    of the table have the same mount point, and of the entries whose mount
    point is a prefix of a path no two have mount points of the same
    length: which entry [resolveFS] takes does not depend on the order that
    its sort gives to mount points of equal length. *)
Theorem mount_points_stay_distinct
    (cs : list Shared.mount_call) (c : Cred.Cred) (n : nat) :
  let v := Shared.run_mount_calls cs (Shared.mkVFS [] c n) in
  NoDup (map fst (Shared.mounts v))
  /\ (forall p m1 f1 m2 f2,
        (m1, f1) ∈ Shared.mounts v -> (m2, f2) ∈ Shared.mounts v ->
        JS.startsWith p m1 = true -> JS.startsWith p m2 = true ->
        String.length m1 = String.length m2 ->
        (m1, f1) = (m2, f2)).
Proof.
  intros v.
  assert (Hnd : NoDup (map fst (Shared.mounts v)))
    by (apply run_mount_calls_distinct; cbn; apply NoDup_nil_2).
  split; [exact Hnd|].
  intros p m1 f1 m2 f2 H1 H2 Hp1 Hp2 Hlen.
  pose proof (prefixes_of_equal_length m1 m2 p Hp1 Hp2 Hlen) as ->.
  f_equal. exact (distinct_entry _ m2 f1 f2 Hnd H1 H2).
Qed.

(** X23: [mount(mountPoint, fs)] on a mount point that is in use throws
    [EINVAL] and leaves the table.  Otherwise it returns, and afterwards
    [resolveFS(path)] answers with [fs] and the new mount point for every
    [path] that starts with the new mount point and with no other mount
    point as long or longer. *)
Theorem mount_then_resolveFS
    (mountPoint : string) (fs : nat) (p : string) (v : Shared.VFS) :
  let m := Shared.mount_point mountPoint in
  if Shared.mounts_has m v
  then Shared.mount mountPoint fs v = (Err (ApiError EINVAL), v)
  else
    exists v',
      Shared.mount mountPoint fs v = (Ok tt, v')
      /\ (JS.startsWith p m = true ->
          (forall m' f', (m', f') ∈ Shared.mounts v -> JS.startsWith p m' = true ->
                         (String.length m' < String.length m)%nat) ->
          exists r v'',
            Shared.resolveFS p v' = (Ok r, v'')
            /\ Shared.fs r = fs /\ Shared.mountPoint r = m).
Proof.
  intros m. unfold Shared.mount. cbv zeta. fold m.
  destruct (Shared.mounts_has m v); [reflexivity|].
  eexists. split; [reflexivity|].
  intros Hp Hshort. unfold Shared.resolveFS. cbn [Shared.mounts Shared.objects Shared.cred].
  pose proof (find_mount_first (Shared.sortedMounts (Shared.mounts v ++ [(m, fs)])) p
                (sortedMounts_sorted _)) as H.
  destruct (Shared.find_mount _ p) as [[[f p'] m0]|].
  - destruct H as (H1 & H2 & _ & H4).
    apply elem_of_sortedMounts, elem_of_app in H1.
    assert (Hm : (String.length m <= String.length m0)%nat).
    { apply (H4 m fs); [|exact Hp].
      apply elem_of_sortedMounts, elem_of_app. right. apply list_elem_of_singleton.
      reflexivity. }
    destruct H1 as [Hold|Hnew].
    + specialize (Hshort m0 f Hold H2). lia.
    + apply list_elem_of_singleton in Hnew. injection Hnew as -> ->.
      eexists _, _. split; [reflexivity|]. split; reflexivity.
  - specialize (H m fs). rewrite Hp in H. 
    assert (Hin : (m, fs) ∈ Shared.sortedMounts (Shared.mounts v ++ [(m, fs)])).
    { apply elem_of_sortedMounts, elem_of_app. right. apply list_elem_of_singleton.
      reflexivity. }
    specialize (H Hin). discriminate H.
Qed.

(** With [/] mounted, [mount('data', 2)] takes the paths under [/data]. *)
Lemma mount_of_data :
  exists r v' v'',
    Shared.mount "data" 2 (Shared.mkVFS [("/"%string, 1%nat)] Cred.Root 0) = (Ok tt, v')
    /\ Shared.resolveFS "/data/f" v' = (Ok r, v'')
    /\ Shared.fs r = 2%nat /\ Shared.mountPoint r = "/data"%string.
Proof.
  pose proof (mount_then_resolveFS "data" 2 "/data/f"
                (Shared.mkVFS [("/"%string, 1%nat)] Cred.Root 0)) as H.
  cbv zeta in H.
  change (Shared.mounts_has (Shared.mount_point "data")
            (Shared.mkVFS [("/"%string, 1%nat)] Cred.Root 0)) with false in H.
  destruct H as (v' & Hmount & Hres).
  destruct Hres as (r & v'' & H1 & H2 & H3).
  - vm_compute. reflexivity.
  - intros m' f' Hin _. apply list_elem_of_singleton in Hin. injection Hin as -> ->.
    vm_compute. lia.
  - exists r, v', v''. split; [exact Hmount|]. split; [exact H1|]. split; [exact H2|].
    rewrite H3. vm_compute. reflexivity.
Defined.
